(** * AiProofTrace: canonical hashing, Merkle batches, inclusion proofs
      and the verification pipeline

    A shallow embedding of the TypeScript sources
    - [server/src/hashing/canonicalizer.ts]  (canonicalize, isCanonical),
    - [server/src/hashing/hasher.ts]         (hashInference, ...),
    - [server/src/merkle/merkle.ts]          (buildMerkleBatch, generateProof,
                                              verifyProof, computeRoot),
    - [server/src/storage/storage.ts]        (the in-memory lookups),
    - [server/src/verifier/verifier.ts]      (verifyInference),
    followed by the properties the specification states about them
    (Parts I and II), and then of the rest of these files, of the
    in-memory state of the store and of the Solidity registry contract
    [ProofTraceRegistry], with properties read off the code (Parts III
    and IV).

    Conventions.
    - A JavaScript string is a sequence of UTF-16 code units.  The model
      covers the strings whose code units are below 256, one [ascii] per
      code unit; hash strings, JSON punctuation and the field names of the
      program all live there.  A JSON text that writes a higher code unit
      with an escape is reported as [Unmodelled] by the reader, and the
      functions that parse give no answer for it.
    - A number is a double-precision number of IEEE 754 ([Double.t]):
      read from a text by rounding to the nearest, written with the fewest
      digits that read back.
    - A thrown exception is the [Err] case of [result]; the message is the
      one the source gives to [new Error].
    - [undefined] is a value of its own ([JUndefined]); a missing array slot
      or object property reads as [None] / [JUndefined] as in JavaScript. *)

From Stdlib Require Import List String Ascii Bool Arith ZArith NArith Lia.
From Stdlib Require Import Permutation Sorted.
From Stdlib.Strings Require Byte.
From Stdlib Require Import Eqdep_dec.
From Stdlib Require DecimalString DecimalZ DecimalPos DecimalN DecimalFacts.
From Equations Require Import Equations.
Import ListNotations.

Local Open Scope string_scope.
Local Open Scope list_scope.

Set Implicit Arguments.

(* ====================================================================== *)
(** * Part I: the program *)
(* ====================================================================== *)

(* ====================================================================== *)
(** ** Exceptions as values *)
(* ====================================================================== *)

Inductive result (A : Type) : Type :=
| Ok  (a : A)
| Err (msg : string).

Arguments Ok {A} a.
Arguments Err {A} msg.

Definition bind {A B} (r : result A) (k : A -> result B) : result B :=
  match r with
  | Ok a => k a
  | Err m => Err m
  end.

Notation "x <- r ;; k" := (bind r (fun x => k))
  (at level 61, r at next level, right associativity).

Definition isOk {A} (r : result A) : bool :=
  match r with Ok _ => true | Err _ => false end.

Lemma bind_ok {A B} (r : result A) (k : A -> result B) (b : B) :
  bind r k = Ok b <-> exists a, r = Ok a /\ k a = Ok b.
Proof.
  destruct r as [a | m]; simpl; split.
  - intros H. exists a. auto.
  - intros (a' & Ha & Hk). inversion Ha. subst. exact Hk.
  - discriminate.
  - intros (a' & Ha & _). discriminate.
Qed.

(* ====================================================================== *)
(** ** JavaScript strings *)
(* ====================================================================== *)

Module JsString.

(** [String.prototype.toLowerCase] on one code unit below 256: the ASCII
    capitals and the Latin-1 capitals U+00C0..U+00DE (without the
    multiplication sign U+00D7) move up by 32. *)
Definition lowerChar (c : ascii) : ascii :=
  let n := N_of_ascii c in
  if ((65 <=? n) && (n <=? 90))%N
     || ((192 <=? n) && (n <=? 222) && negb (n =? 215))%N
  then ascii_of_N (n + 32)
  else c.

Fixpoint toLowerCase (s : string) : string :=
  match s with
  | EmptyString => EmptyString
  | String c r => String (lowerChar c) (toLowerCase r)
  end.

(** [s.slice(n)] for [n >= 0]. *)
Fixpoint slice (n : nat) (s : string) : string :=
  match n, s with
  | O, _ => s
  | S _, EmptyString => EmptyString
  | S m, String _ r => slice m r
  end.

(** [s.replace(/^0x/, '')]. *)
Definition strip0x (s : string) : string :=
  match s with
  | String a (String b r) =>
      if Ascii.eqb a "0" && Ascii.eqb b "x" then r else s
  | _ => s
  end.

(** Truthiness of a string: only the empty string is falsy. *)
Definition truthy (s : string) : bool :=
  match s with EmptyString => false | _ => true end.

(** The order of [Array.prototype.sort] without a comparator, and of [<]
    on strings: code units compared left to right, a proper prefix
    first.  This is [String.compare]. *)
Definition leb (a b : string) : bool := String.leb a b.

End JsString.

Import JsString.

(* ---------------------------------------------------------------------- *)
(** *** [Array.prototype.sort] on an array of strings

    The result of the built-in is the ascending rearrangement of its
    input; for strings it does not depend on the algorithm, since equal
    elements are indistinguishable.  Insertion sort computes it. *)

Fixpoint insert (x : string) (l : list string) : list string :=
  match l with
  | [] => [x]
  | y :: r => if leb x y then x :: l else y :: insert x r
  end.

Fixpoint sort (l : list string) : list string :=
  match l with
  | [] => []
  | x :: r => insert x (sort r)
  end.

Definition sorted (l : list string) : Prop :=
  StronglySorted (fun a b => leb a b = true) l.

(* ====================================================================== *)
(** ** Bytes and hexadecimal data (ethers: [getBytes], [hexlify]) *)
(* ====================================================================== *)

Module Hex.

Definition byte := Byte.byte.

Definition byteOfN (n : N) : byte := byte_of_ascii (ascii_of_N n).
Definition byteToN (b : byte) : N := Byte.to_N b.

(** Value of one hexadecimal digit, either case. *)
Definition digitValue (c : ascii) : option N :=
  let n := N_of_ascii c in
  if ((48 <=? n) && (n <=? 57))%N then Some (n - 48)%N
  else if ((97 <=? n) && (n <=? 102))%N then Some (n - 87)%N
  else if ((65 <=? n) && (n <=? 70))%N then Some (n - 55)%N
  else None.

(** The lower-case digit of a value below 16. *)
Definition digit (n : N) : ascii :=
  if (n <? 10)%N then ascii_of_N (48 + n) else ascii_of_N (87 + n).

(** The digits after the prefix: [([0-9a-f][0-9a-f])*], either case. *)
Fixpoint pairs (s : string) : option (list byte) :=
  match s with
  | EmptyString => Some []
  | String h (String l r) =>
      match digitValue h, digitValue l, pairs r with
      | Some a, Some b, Some bs => Some (byteOfN (16 * a + b) :: bs)
      | _, _, _ => None
      end
  | String _ EmptyString => None
  end.

(** [getBytes(value)] on a string: the string has to match
    [/^0x([0-9a-f][0-9a-f])*$/i]; anything else is an invalid argument. *)
Definition getBytes (s : string) : option (list byte) :=
  match s with
  | String a (String b r) =>
      if Ascii.eqb a "0" && Ascii.eqb b "x" then pairs r else None
  | _ => None
  end.

Fixpoint digits (bs : list byte) : string :=
  match bs with
  | [] => EmptyString
  | b :: r =>
      let n := byteToN b in
      String (digit (n / 16)) (String (digit (n mod 16)) (digits r))
  end.

(** [hexlify(bytes)]: the prefix and two lower-case digits per byte. *)
Definition hexlify (bs : list byte) : string :=
  String "0" (String "x" (digits bs)).

(** [toUtf8Bytes(str)] on code units below 256: one byte below 128, two
    bytes from 128 on.  (The function of the library raises on a
    surrogate without its pair; no string here holds one.) *)
Fixpoint toUtf8Bytes (s : string) : list byte :=
  match s with
  | EmptyString => []
  | String c r =>
      let n := N_of_ascii c in
      if (n <? 128)%N then byteOfN n :: toUtf8Bytes r
      else byteOfN (192 + n / 64) :: byteOfN (128 + n mod 64) :: toUtf8Bytes r
  end.

End Hex.

(* ====================================================================== *)
(** ** Keccak-256, the digest behind ethers' [keccak256]

    The sponge over Keccak-f[1600] with rate 1088 bits, capacity 512 bits
    and the original Keccak padding (a 0x01 byte, zeros, a final 0x80
    bit), as ethers takes it from the Keccak reference.  A lane is a
    64-bit integer; lane [(x, y)] of the state is entry [x + 5 * y]. *)
(* ====================================================================== *)

Module Keccak.

Import Hex.
Local Open Scope Z_scope.

Definition mask64 : Z := 0xFFFFFFFFFFFFFFFF.

Definition rotl (x : Z) (n : Z) : Z :=
  Z.land (Z.lor (Z.shiftl x n) (Z.shiftr x (64 - n))) mask64.

Definition lane (A : list Z) (x y : nat) : Z :=
  nth ((x mod 5) + 5 * (y mod 5))%nat A 0.

Definition coords : list (nat * nat) :=
  map (fun i => (i mod 5, i / 5)%nat) (seq 0 25).

Definition rotationOffsets : list Z :=
  [ 0;  1; 62; 28; 27;
   36; 44;  6; 55; 20;
    3; 10; 43; 25; 39;
   41; 45; 15; 21;  8;
   18;  2; 61; 56; 14].

Definition roundConstants : list Z :=
  [0x0000000000000001; 0x0000000000008082; 0x800000000000808a;
   0x8000000080008000; 0x000000000000808b; 0x0000000080000001;
   0x8000000080008081; 0x8000000000008009; 0x000000000000008a;
   0x0000000000000088; 0x0000000080008009; 0x000000008000000a;
   0x000000008000808b; 0x800000000000008b; 0x8000000000008089;
   0x8000000000008003; 0x8000000000008002; 0x8000000000000080;
   0x000000000000800a; 0x800000008000000a; 0x8000000080008081;
   0x8000000000008080; 0x0000000080000001; 0x8000000080008008].

Definition theta (A : list Z) : list Z :=
  let C := map (fun x => Z.lxor (lane A x 0)
                        (Z.lxor (lane A x 1)
                        (Z.lxor (lane A x 2)
                        (Z.lxor (lane A x 3) (lane A x 4))))) (seq 0 5) in
  let D := map (fun x => Z.lxor (nth ((x + 4) mod 5) C 0)
                                (rotl (nth ((x + 1) mod 5) C 0) 1)) (seq 0 5) in
  map (fun '(x, y) => Z.lxor (lane A x y) (nth x D 0)) coords.

(** rho and pi together: lane [(x, y)] of the result is lane
    [(x + 3y, x)] of the argument, rotated by that lane's offset. *)
Definition rhoPi (A : list Z) : list Z :=
  map (fun '(x, y) =>
         let x' := ((x + 3 * y) mod 5)%nat in
         rotl (lane A x' x) (nth (x' + 5 * x) rotationOffsets 0)) coords.

Definition chi (B : list Z) : list Z :=
  map (fun '(x, y) =>
         Z.lxor (lane B x y)
                (Z.land (Z.lxor (lane B (x + 1) y) mask64) (lane B (x + 2) y)))
      coords.

Definition iota (rc : Z) (A : list Z) : list Z :=
  match A with
  | [] => []
  | a :: r => Z.lxor a rc :: r
  end.

Definition round (A : list Z) (rc : Z) : list Z :=
  iota rc (chi (rhoPi (theta A))).

Definition permute (A : list Z) : list Z :=
  fold_left round roundConstants A.

Definition rateBytes : nat := 136.

(** Little-endian lane of up to eight bytes. *)
Fixpoint laneOfBytes (bs : list byte) : Z :=
  match bs with
  | [] => 0
  | b :: r => Z.of_N (byteToN b) + 256 * laneOfBytes r
  end.

Fixpoint bytesOfLane (n : nat) (z : Z) : list byte :=
  match n with
  | O => []
  | S m => byteOfN (Z.to_N (z mod 256)) :: bytesOfLane m (z / 256)
  end.

(** The lanes of one block of [rateBytes] bytes. *)
Fixpoint lanesOfBlock (n : nat) (bs : list byte) : list Z :=
  match n with
  | O => []
  | S m => laneOfBytes (firstn 8 bs) :: lanesOfBlock m (skipn 8 bs)
  end.

Fixpoint xorInto (A : list Z) (ls : list Z) : list Z :=
  match A, ls with
  | a :: A', l :: ls' => Z.lxor a l :: xorInto A' ls'
  | _, _ => A
  end.

(** pad10*1 with the Keccak domain byte: 0x01, zeros, and 0x80 on the
    last byte of the block. *)
Definition pad (data : list byte) : list byte :=
  let k := (rateBytes - (List.length data mod rateBytes))%nat in
  if (k =? 1)%nat then data ++ [byteOfN 0x81]
  else data ++ byteOfN 0x01 :: repeat (byteOfN 0) (k - 2) ++ [byteOfN 0x80].

Fixpoint absorb (blocks : nat) (A : list Z) (bs : list byte) : list Z :=
  match blocks with
  | O => A
  | S m =>
      let A' := permute (xorInto A (lanesOfBlock 17 (firstn rateBytes bs))) in
      absorb m A' (skipn rateBytes bs)
  end.

(** The 32-byte digest. *)
Definition digest (data : list byte) : list byte :=
  let p := pad data in
  let A := absorb (List.length p / rateBytes) (repeat 0 25) p in
  flat_map (bytesOfLane 8) (firstn 4 A).

End Keccak.

(** ethers' [BytesLike]: a hex data string or a byte array. *)
Inductive BytesLike : Type :=
| HexData (s : string)
| Bytes (bs : list Hex.byte).

(** [keccak256(data)]: the digest of the bytes as a prefixed lower-case
    hex string of 64 digits; a string that is not hex data is refused. *)
Definition keccak256 (data : BytesLike) : result string :=
  match data with
  | Bytes bs => Ok (Hex.hexlify (Keccak.digest bs))
  | HexData s =>
      match Hex.getBytes s with
      | Some bs => Ok (Hex.hexlify (Keccak.digest bs))
      | None => Err "invalid BytesLike value"
      end
  end.

(** Two published digests: of the empty input and of the text abc. *)
Example keccak256_empty :
  keccak256 (HexData "0x")
  = Ok "0xc5d2460186f7233c927e7db2dcc703c0e500b653ca82273b7bfad8045d85a470".
Proof. vm_compute. reflexivity. Qed.

Example keccak256_abc :
  keccak256 (Bytes (Hex.toUtf8Bytes "abc"))
  = Ok "0x4e03657aea45a94fc7d47ba826c8d667c0d1e6e33a64a036ec44f58fa12d6c45".
Proof. vm_compute. reflexivity. Qed.

(* ====================================================================== *)
(** ** types/index.ts: batches and proofs *)
(* ====================================================================== *)

Module MerkleBatch.
Record t : Type := mk {
  batch_id   : string;
  root       : string;
  leaves     : list string;
  tree       : list (list string);
  created_at : Z;
  leaf_count : nat
}.
End MerkleBatch.

Module MerkleProof.
Record t : Type := mk {
  leaf       : string;
  proof      : list string;
  root       : string;
  leaf_index : nat
}.
End MerkleProof.

(* ====================================================================== *)
(** ** merkle/merkle.ts *)
(* ====================================================================== *)

(** Normalize hash to lowercase with 0x prefix. *)
Definition normalizeHash (hash : string) : string :=
  let cleaned := strip0x (toLowerCase hash) in
  "0x" ++ cleaned.

(** Combine two hashes using sorted pair hashing.  The destructuring of
    the sorted two-element array always finds both elements; the other
    branches spell out what JavaScript would do with [undefined]. *)
Definition hashPair (left right : string) : result string :=
  let normalizedLeft := normalizeHash left in
  let normalizedRight := normalizeHash right in
  match sort [normalizedLeft; normalizedRight] with
  | first :: second :: _ => keccak256 (HexData (first ++ slice 2 second))
  | [first] => keccak256 (HexData (first ++ ""))
  | [] => keccak256 (HexData "undefined")
  end.

(** Build the next level of the Merkle tree: the loop advances two nodes
    at a time and pairs a last single node with itself. *)
Fixpoint buildNextLevel (currentLevel : list string) : result (list string) :=
  match currentLevel with
  | [] => Ok []
  | [left_] =>
      h <- hashPair left_ left_ ;;
      Ok [h]
  | left_ :: right_ :: rest =>
      h <- hashPair left_ right_ ;;
      nextLevel <- buildNextLevel rest ;;
      Ok (h :: nextLevel)
  end.

Lemma half_succ_succ (n : nat) : (S (S n) + 1) / 2 = S ((n + 1) / 2).
Proof.
  replace (S (S n) + 1) with (1 * 2 + (n + 1)) by lia.
  rewrite Nat.div_add_l by lia. reflexivity.
Qed.

Lemma half_lt (n : nat) : 1 < n -> (n + 1) / 2 < n.
Proof.
  intros H. apply Nat.Div0.div_lt_upper_bound. lia.
Qed.

(** A level of [n] nodes has [ceil (n / 2)] parents. *)
Lemma buildNextLevel_length (l next : list string) :
  buildNextLevel l = Ok next ->
  List.length next = (List.length l + 1) / 2.
Proof.
  revert next.
  induction l as [l IH] using (well_founded_induction
                                 (Wf_nat.well_founded_ltof _ (@List.length string))).
  intros next.
  destruct l as [| a [| b r]]; cbn [buildNextLevel].
  - intros H. inversion H. reflexivity.
  - destruct (hashPair a a); cbn [bind]; [| discriminate].
    intros H. inversion H. reflexivity.
  - destruct (hashPair a b); cbn [bind]; [| discriminate].
    destruct (buildNextLevel r) as [t |] eqn:E; cbn [bind]; [| discriminate].
    intros H. inversion H. subst next.
    cbn [List.length]. rewrite half_succ_succ. f_equal.
    apply IH; [unfold Wf_nat.ltof; simpl; lia | exact E].
Qed.

(** A value together with the equation that names it, so that a match on
    a call keeps the call in view. *)
Definition inspect {A : Type} (x : A) : {y : A | x = y} := exist _ x eq_refl.

(** The loop of [buildTree]: while the current level has more than one
    node, build the next one and push it.  The result lists the levels
    pushed after the leaf level. *)
Equations? buildLevels (currentLevel : list string) : result (list (list string))
  by wf (List.length currentLevel) lt :=
  buildLevels currentLevel with inspect (1 <? List.length currentLevel)%nat => {
    | exist _ false _ := Ok [];
    | exist _ true Hlen with inspect (buildNextLevel currentLevel) := {
        | exist _ (Ok next) Hnext :=
            rest <- buildLevels next ;;
            Ok (next :: rest);
        | exist _ (Err m) _ := Err m
      }
  }.
Proof.
  rewrite (buildNextLevel_length _ Hnext).
  apply half_lt. apply Nat.ltb_lt. exact Hlen.
Qed.

(** Build a Merkle tree from a list of leaf hashes: all levels, the
    sorted normalized leaves first. *)
Definition buildTree (leaves : list string) : result (list (list string)) :=
  if (List.length leaves =? 0)%nat then
    Err "Cannot build Merkle tree with empty leaves"
  else
    let normalizedLeaves := map normalizeHash leaves in
    let sortedLeaves := sort normalizedLeaves in
    levels <- buildLevels sortedLeaves ;;
    Ok (sortedLeaves :: levels).

(** What [generateBatchId] and [buildMerkleBatch] read from the outside:
    the clock (twice) and eight random bytes. *)
Record Env : Type := mkEnv {
  now_for_id  : N;
  randomBytes : list Hex.byte;
  now_created : N
}.

(** [Number.prototype.toString(16)] on a non-negative integer: the digits
    from the least significant one, at most one per bit. *)
Fixpoint toString16_digits (fuel : nat) (n : N) (acc : string) : string :=
  match fuel with
  | O => acc
  | S f =>
      let acc' := String (Hex.digit (n mod 16)) acc in
      if (n / 16 =? 0)%N then acc' else toString16_digits f (n / 16) acc'
  end.

Definition toString16 (n : N) : string :=
  toString16_digits (S (N.to_nat (N.size n))) n "".

(** Generate a unique batch ID. *)
Definition generateBatchId (env : Env) : string :=
  let timestamp := toString16 (now_for_id env) in
  let random := Hex.digits (randomBytes env) in
  "batch_" ++ timestamp ++ "_" ++ random.

(** The last element of an array ([a[a.length - 1]]). *)
Definition lastLevel (tree : list (list string)) : option (list string) :=
  nth_error tree (List.length tree - 1).

(** Build a Merkle batch from inference hashes. *)
Definition buildMerkleBatch (env : Env) (hashes : list string)
  : result MerkleBatch.t :=
  if (List.length hashes =? 0)%nat then
    Err "Cannot create batch with no hashes"
  else
    tree <- buildTree hashes ;;
    match lastLevel tree with
    | Some [root] =>
        if truthy root then
          Ok {| MerkleBatch.batch_id := generateBatchId env;
                MerkleBatch.root := root;
                MerkleBatch.leaves := match nth_error tree 0 with
                                      | Some l => l
                                      | None => []
                                      end;
                MerkleBatch.tree := tree;
                MerkleBatch.created_at := Z.of_N (now_created env);
                MerkleBatch.leaf_count := List.length hashes |}
        else Err "Failed to compute Merkle root"
    | _ => Err "Invalid tree structure"
    end.

(** [Array.prototype.findIndex]; [None] stands for the result -1. *)
Fixpoint findIndex {A : Type} (p : A -> bool) (l : list A) : option nat :=
  match l with
  | [] => None
  | x :: r => if p x then Some 0
              else match findIndex p r with
                   | Some i => Some (S i)
                   | None => None
                   end
  end.

(** Find the index of a leaf in the sorted leaves array. *)
Definition findLeafIndex (sortedLeaves : list string) (targetLeaf : string)
  : option nat :=
  let normalized := normalizeHash targetLeaf in
  findIndex (fun leaf => String.eqb (toLowerCase leaf) (toLowerCase normalized))
            sortedLeaves.

(** One turn of the loop of [generateProof] at a level: the sibling slot,
    or the node itself when the slot is past the end, pushed when it is
    truthy. *)
Definition pushSibling (currentLevel : list string) (currentIndex : nat)
           (proof : list string) : list string :=
  let isRight := (currentIndex mod 2 =? 1)%nat in
  let siblingIndex := if isRight then currentIndex - 1 else currentIndex + 1 in
  let sibling := match nth_error currentLevel siblingIndex with
                 | Some s => Some s
                 | None => nth_error currentLevel currentIndex
                 end in
  match sibling with
  | Some s => if truthy s then proof ++ [s] else proof
  | None => proof
  end.

(** The loop of [generateProof] over the levels below the last one. *)
Fixpoint proofLoop (levels : list (list string)) (currentIndex : nat)
         (proof : list string) : list string :=
  match levels with
  | currentLevel :: ((_ :: _) as above) =>
      proofLoop above (currentIndex / 2)
                (pushSibling currentLevel currentIndex proof)
  | _ => proof
  end.

(** Generate a Merkle proof for a specific leaf; [None] is [null]. *)
Definition generateProof (batch : MerkleBatch.t) (leafHash : string)
  : option MerkleProof.t :=
  match findLeafIndex (MerkleBatch.leaves batch) leafHash with
  | None => None
  | Some leafIndex =>
      Some {| MerkleProof.leaf := normalizeHash leafHash;
              MerkleProof.proof := proofLoop (MerkleBatch.tree batch) leafIndex [];
              MerkleProof.root := MerkleBatch.root batch;
              MerkleProof.leaf_index := leafIndex |}
  end.

(** The fold of [verifyProof] over the sibling path. *)
Fixpoint foldPath (current : string) (path : list string) : result string :=
  match path with
  | [] => Ok current
  | sibling :: rest =>
      next <- hashPair current sibling ;;
      foldPath next rest
  end.

(** Verify a Merkle proof. *)
Definition verifyProof (proof : MerkleProof.t) : result bool :=
  current <- foldPath (normalizeHash (MerkleProof.leaf proof))
                      (MerkleProof.proof proof) ;;
  Ok (String.eqb (toLowerCase current)
                 (toLowerCase (normalizeHash (MerkleProof.root proof)))).

(** Compute Merkle root from a list of hashes. *)
Definition computeRoot (env : Env) (hashes : list string) : result string :=
  batch <- buildMerkleBatch env hashes ;;
  Ok (MerkleBatch.root batch).

Unset Implicit Arguments.

(* ====================================================================== *)
(** ** JavaScript numbers *)
(* ====================================================================== *)

(** The Number type: the double-precision numbers of IEEE 754 with one
    not-a-number.  A finite number other than zero is [m * 2^e] with [m]
    below 2^53, written in the one way in which [m] is at least 2^52 or
    [e] is the least exponent. *)
Module Double.

Local Open Scope string_scope.
Local Open Scope Z_scope.

Definition bounded (m : positive) (e : Z) : bool :=
  (Z.pos m <? 2 ^ 53) && (-1074 <=? e) && (e <=? 971)
  && ((2 ^ 52 <=? Z.pos m) || (e =? -1074)).

Inductive t : Type :=
| NaN
| Infinity (negative : bool)
| Zero (negative : bool)
| Finite (negative : bool) (m : positive) (e : Z) (H : bounded m e = true).

(** [m * 2^e] for a pair within the bounds; the rounding below makes no
    other pair. *)
Definition finite (negative : bool) (m : positive) (e : Z) : t :=
  match bool_dec (bounded m e) true with
  | left H => Finite negative m e H
  | right _ => NaN
  end.

Definition eqb (x y : t) : bool :=
  match x, y with
  | NaN, NaN => true
  | Infinity s, Infinity s' => Bool.eqb s s'
  | Zero s, Zero s' => Bool.eqb s s'
  | Finite s m e _, Finite s' m' e' _ =>
      Bool.eqb s s' && (m =? m')%positive && (e =? e')
  | _, _ => false
  end.

Definition isFinite (x : t) : bool :=
  match x with
  | NaN | Infinity _ => false
  | Zero _ | Finite _ _ _ _ => true
  end.

(** [ToBoolean] of a number: zero of either sign and NaN are false. *)
Definition truthy (x : t) : bool :=
  match x with
  | NaN | Zero _ => false
  | Infinity _ | Finite _ _ _ _ => true
  end.

(* ---------------------------------------------------------------------- *)
(** *** Rounding to the nearest number, ties to even *)

(** The ratio [a / b] divided by [2^e], as a ratio. *)
Definition scale (a b e : Z) : Z * Z :=
  if 0 <=? e then (a, b * 2 ^ e) else (a * 2 ^ (- e), b).

(** The exponent of the number nearest to [a / b]: the [e] at which
    [a / b] is from [2^52 * 2^e] up to [2^53 * 2^e], and not less than the
    least exponent. *)
Definition exponent (a b : Z) : Z :=
  let l := Z.log2 a - Z.log2 b - 52 in
  let (n, d) := scale a b l in
  Z.max (if 2 ^ 52 * d <=? n then l else l - 1) (-1074).

(** Past the largest exponent the result is infinite. *)
Definition make (negative : bool) (m e : Z) : t :=
  if 971 <? e then Infinity negative else finite negative (Z.to_pos m) e.

(** The number for the ratio [a / b] of a non-negative [a] and a positive
    [b], with the sign given. *)
Definition roundRatio (negative : bool) (a b : Z) : t :=
  if a =? 0 then Zero negative
  else
    let e := exponent a b in
    let (n, d) := scale a b e in
    let q := n / d in
    let r := n mod d in
    let up := (d <? 2 * r) || ((d =? 2 * r) && Z.odd q) in
    let m := if up then q + 1 else q in
    if m =? 0 then Zero negative
    else if m =? 2 ^ 53 then make negative (2 ^ 52) (e + 1)
    else make negative m e.

(** The number for the decimal [c * 10^p]. *)
Definition roundDecimal (negative : bool) (c p : Z) : t :=
  if 0 <=? p then roundRatio negative (c * 10 ^ p) 1
  else roundRatio negative c (10 ^ (- p)).

(** The number for an integer. *)
Definition ofZ (n : Z) : t := roundRatio (n <? 0) (Z.abs n) 1.

(* ---------------------------------------------------------------------- *)
(** *** [Number::toString], radix 10 *)

(** The decimal digits of a non-negative integer. *)
Definition digits (n : Z) : string :=
  DecimalString.NilZero.string_of_uint (N.to_uint (Z.to_N n)).

Fixpoint leadingZeros (fuel : nat) (a b j : Z) : Z :=
  match fuel with
  | O => j
  | S f => if b <=? a * 10 then j else leadingZeros f (a * 10) b (j + 1)
  end.

(** The [n] with [10^(n-1) <= a / b < 10^n]: the number of digits of the
    integral part, or minus the number of zeros after the point. *)
Definition decimalPoint (a b : Z) : Z :=
  if b <=? a then Z.of_nat (String.length (digits (a / b)))
  else 1 - leadingZeros 400 a b 1.

(** The integer [s] of [k] digits and the exponent [p = n - k] with which
    [s * 10^p] reads back as [x], for the least [k] from the given one
    on.  The candidates are the [k]-digit decimals on both sides of
    [a / b]; of two that read back as [x] the nearer one is taken, and
    the even one when they are equally near. *)
Fixpoint shortest (fuel : nat) (x : t) (a b n k : Z) : option (Z * Z) :=
  match fuel with
  | O => None
  | S f =>
      let p := n - k in
      let (a', b') :=
        if 0 <=? p then (a, b * 10 ^ p) else (a * 10 ^ (- p), b) in
      let lo := a' / b' in
      let hi := if lo + 1 =? 10 ^ k then (1, n) else (lo + 1, p) in
      let okLo := eqb (roundDecimal false lo p) x in
      let okHi := eqb (roundDecimal false (fst hi) (snd hi)) x in
      let twice := 2 * a' - (2 * lo + 1) * b' in
      if okLo && okHi then
        if (twice <? 0) || ((twice =? 0) && Z.even lo) then Some (lo, p)
        else Some hi
      else if okLo then Some (lo, p)
      else if okHi then Some hi
      else shortest f x a b n (k + 1)
  end.

(** [m * 2^e] as a ratio, and as a decimal. *)
Definition ratio (m : positive) (e : Z) : Z * Z :=
  if 0 <=? e then (Z.pos m * 2 ^ e, 1) else (Z.pos m, 2 ^ (- e)).

Definition exact (m : positive) (e : Z) : Z * Z :=
  if 0 <=? e then (Z.pos m * 2 ^ e, 0) else (Z.pos m * 5 ^ (- e), e).

(** The digits [s] and the exponent [p] of the text of [m * 2^e]: the
    fewest digits that read back as the number.  Seventeen digits are
    enough for every number; the decimal that is the number itself closes
    the definition. *)
Definition decimal (m : positive) (e : Z) (H : bounded m e = true) : Z * Z :=
  let (a, b) := ratio m e in
  match shortest 17 (Finite false m e H) a b (decimalPoint a b) 1 with
  | Some r => r
  | None => exact m e
  end.

Fixpoint zeros (n : nat) : string :=
  match n with
  | O => ""
  | S n' => String "0" (zeros n')
  end.

Fixpoint take (n : nat) (s : string) : string :=
  match n, s with
  | S n', String c r => String c (take n' r)
  | _, _ => ""
  end.

Fixpoint drop (n : nat) (s : string) : string :=
  match n, s with
  | S n', String c r => drop n' r
  | _, _ => s
  end.

(** The text of [s * 10^p] for [s] of [k] digits, with [n = p + k]:
    digits and zeros, digits around a point, zeros after the point, or a
    digit, the other digits and an exponent. *)
Definition format (s p : Z) : string :=
  let ds := digits s in
  let k := Z.of_nat (String.length ds) in
  let n := p + k in
  if (k <=? n) && (n <=? 21) then ds ++ zeros (Z.to_nat (n - k))
  else if (0 <? n) && (n <=? 21) then
    take (Z.to_nat n) ds ++ "." ++ drop (Z.to_nat n) ds
  else if (-6 <? n) && (n <=? 0) then "0." ++ zeros (Z.to_nat (- n)) ++ ds
  else
    let e := n - 1 in
    let exponent := (if e <? 0 then "-" else "+") ++ digits (Z.abs e) in
    if k =? 1 then ds ++ "e" ++ exponent
    else take 1 ds ++ "." ++ drop 1 ds ++ "e" ++ exponent.

Definition toString (x : t) : string :=
  match x with
  | NaN => "NaN"
  | Infinity negative => if negative then "-Infinity" else "Infinity"
  | Zero _ => "0"
  | Finite negative m e H =>
      let (s, p) := decimal m e H in
      (if negative then "-" else "") ++ format s p
  end.

End Double.

(** The text of the number for an integer: the integer itself up to 2^53,
    the nearest number beyond. *)
Definition numberToString (n : Z) : string := Double.toString (Double.ofZ n).

Example numberToString_small : numberToString 1700000000 = "1700000000".
Proof. vm_compute. reflexivity. Qed.

Example numberToString_rounds :
  numberToString 9007199254740993 = "9007199254740992".
Proof. vm_compute. reflexivity. Qed.

Example numberToString_exponent :
  numberToString (10 ^ 21) = "1e+21"
  /\ numberToString (10 ^ 21 - 65537) = "999999999999999900000".
Proof. vm_compute. split; reflexivity. Qed.

(* ====================================================================== *)
(** ** JavaScript values and objects *)
(* ====================================================================== *)

(** The values the canonicalizer sees: JSON values, [undefined] and the
    numbers JSON does not write (NaN, the infinities, the negative
    zero).  An object is the list of its own properties in the order the
    engine enumerates them. *)
#[warnings="-register-all"]
Inductive JsValue : Type :=
| JUndefined
| JNull
| JBool (b : bool)
| JNum (n : Double.t)
| JStr (s : string)
| JArr (items : list JsValue)
| JObj (props : list (string * JsValue)).

(** The number for an integer, as a value, and the number that the
    decimal literal [c * 10^p] of a program denotes. *)
Definition JInt (n : Z) : JsValue := JNum (Double.ofZ n).

Definition JDec (c p : Z) : JsValue :=
  JNum (Double.roundDecimal (c <? 0)%Z (Z.abs c) p).

Definition JsObject : Type := list (string * JsValue).

Definition isUndefined (v : JsValue) : bool :=
  match v with JUndefined => true | _ => false end.

(** [typeof v === 'object']: null, arrays and objects. *)
Definition typeofObject (v : JsValue) : bool :=
  match v with
  | JNull | JArr _ | JObj _ => true
  | _ => false
  end.

(** Truthiness. *)
Definition truthyValue (v : JsValue) : bool :=
  match v with
  | JUndefined | JNull => false
  | JBool b => b
  | JNum n => Double.truthy n
  | JStr s => truthy s
  | JArr _ | JObj _ => true
  end.

(** [obj[key]] on own properties; a missing property reads [undefined]. *)
Fixpoint objGet (obj : JsObject) (key : string) : JsValue :=
  match obj with
  | [] => JUndefined
  | (k, v) :: rest => if String.eqb k key then v else objGet rest key
  end.

(** [Object.keys(obj)] on an object. *)
Definition objKeys (obj : JsObject) : list string := map fst obj.

Definition hasOwn (obj : JsObject) (key : string) : bool :=
  existsb (fun p => String.eqb (fst p) key) obj.

(** An array index as a property key: the decimal form, without leading
    zeros, of an integer below 2^32 - 1.  Such keys are enumerated first,
    in ascending numeric order; the other keys follow in the order of
    their creation. *)
Definition arrayIndex (key : string) : option N :=
  match DecimalString.NilEmpty.uint_of_string key with
  | Some d =>
      if Decimal.uint_beq (Decimal.unorm d) d then
        let n := N.of_uint d in
        if (n <=? 4294967294)%N then Some n else None
      else None
  | None => None
  end.

Fixpoint replaceValue (obj : JsObject) (key : string) (v : JsValue) : JsObject :=
  match obj with
  | [] => []
  | (k, w) :: rest =>
      if String.eqb k key then (k, v) :: rest
      else (k, w) :: replaceValue rest key v
  end.

Fixpoint insertIndexed (n : N) (key : string) (v : JsValue) (obj : JsObject)
  : JsObject :=
  match obj with
  | [] => [(key, v)]
  | (k, w) :: rest =>
      match arrayIndex k with
      | Some m => if (m <? n)%N then (k, w) :: insertIndexed n key v rest
                  else (key, v) :: obj
      | None => (key, v) :: obj
      end
  end.

(** Creating or overwriting the own data property [key]. *)
Definition defineOwn (obj : JsObject) (key : string) (v : JsValue) : JsObject :=
  if hasOwn obj key then replaceValue obj key v
  else match arrayIndex key with
       | Some n => insertIndexed n key v obj
       | None => obj ++ [(key, v)]
       end.

(** The assignment [obj[key] = v] on an object whose prototype is
    [Object.prototype]: it creates or overwrites the own property,
    except for the key [__proto__], which the accessor of the prototype
    takes and which never becomes an own property this way. *)
Definition objSet (obj : JsObject) (key : string) (v : JsValue) : JsObject :=
  if String.eqb key "__proto__" then obj else defineOwn obj key v.

(* ====================================================================== *)
(** ** hashing/canonicalizer.ts *)
(* ====================================================================== *)

(** Recursively canonicalize a value.  The object case is
    [canonicalizeObject] inlined: the sorted keys are visited in order and
    [lookup] reads [obj[key]] and canonicalizes what it finds. *)
Fixpoint canonicalizeValue (value : JsValue) : JsValue :=
  match value with
  | JUndefined => JUndefined
  | JNull => JNull
  | JBool _ | JNum _ | JStr _ => value
  | JArr items =>
      JArr (filter (fun item => negb (isUndefined item))
                   (map canonicalizeValue items))
  | JObj obj =>
      let lookup :=
        (fix lookup (props : JsObject) (key : string) : JsValue :=
           match props with
           | [] => JUndefined
           | (k, v) :: rest =>
               if String.eqb k key then canonicalizeValue v
               else lookup rest key
           end) in
      JObj (fold_left
              (fun result key =>
                 let canonicalized := lookup obj key in
                 if isUndefined canonicalized then result
                 else objSet result key canonicalized)
              (sort (objKeys obj)) [])
  end.

(** Canonicalize an object by sorting keys and removing undefined values,
    as the source writes it. *)
Definition canonicalizeObject (obj : JsObject) : JsObject :=
  let sortedKeys := sort (objKeys obj) in
  fold_left
    (fun result key =>
       let value := objGet obj key in
       if negb (isUndefined value) then
         let canonicalized := canonicalizeValue value in
         if negb (isUndefined canonicalized) then objSet result key canonicalized
         else result
       else result)
    sortedKeys [].

(* ---------------------------------------------------------------------- *)
(** *** [JSON.stringify] *)

(** The double quote, code unit 34. *)
Definition dquote : ascii := ascii_of_N 34.

(** One code unit inside a JSON string literal. *)
Definition quoteChar (c : ascii) : string :=
  let n := N_of_ascii c in
  if (n =? 34)%N then String "\" (String dquote "")
  else if (n =? 92)%N then "\\"
  else if (n =? 8)%N then "\b"
  else if (n =? 12)%N then "\f"
  else if (n =? 10)%N then "\n"
  else if (n =? 13)%N then "\r"
  else if (n =? 9)%N then "\t"
  else if (n <? 32)%N then
    "\u00" ++ String (Hex.digit (n / 16)) (String (Hex.digit (n mod 16)) "")
  else String c "".

Fixpoint quoteChars (s : string) : string :=
  match s with
  | EmptyString => EmptyString
  | String c r => quoteChar c ++ quoteChars r
  end.

(** [QuoteJSONString]. *)
Definition quote (s : string) : string :=
  String dquote (quoteChars s ++ String dquote "").

Fixpoint joinWith (sep : string) (parts : list string) : string :=
  match parts with
  | [] => ""
  | [p] => p
  | p :: rest => p ++ sep ++ joinWith sep rest
  end.

(** The text of a value inside an array or as a property value.  A
    number that is not finite is written as null, and a zero of either
    sign as 0.  In an array [undefined] is written as null; in an object
    a property whose value is [undefined] is left out. *)
Fixpoint serialize (v : JsValue) : string :=
  match v with
  | JUndefined => "null"
  | JNull => "null"
  | JBool true => "true"
  | JBool false => "false"
  | JNum n => if Double.isFinite n then Double.toString n else "null"
  | JStr s => quote s
  | JArr items => "[" ++ joinWith "," (map serialize items) ++ "]"
  | JObj props =>
      "{" ++ joinWith ","
               (flat_map
                  (fun p =>
                     match p with
                     | (k, w) =>
                         if isUndefined w then []
                         else [(quote k ++ ":" ++ serialize w)%string]
                     end)
                  props)
          ++ "}"
  end.

(** [JSON.stringify(value)]: [None] is the result [undefined]. *)
Definition JSON_stringify (value : JsValue) : option string :=
  match value with
  | JUndefined => None
  | _ => Some (serialize value)
  end.

(** Convert an object to a canonical JSON string.  [JSON.stringify] gives
    a string for every array and object, so the last case is never
    taken. *)
Definition canonicalize (obj : JsValue) : result string :=
  match obj with
  | JNull | JUndefined => Err "Cannot canonicalize null or undefined"
  | JBool _ | JNum _ | JStr _ => Err "Can only canonicalize objects"
  | JArr _ | JObj _ =>
      let canonicalized := canonicalizeValue obj in
      match JSON_stringify canonicalized with
      | Some text => Ok text
      | None => Err "JSON.stringify returned undefined"
      end
  end.

(** Parse and re-canonicalize a JSON string, and the check for canonical
    form, follow the JSON reader below. *)

(** JSON texts in the examples are written with an apostrophe where the
    text has a double quote. *)
Fixpoint jsonText (s : string) : string :=
  match s with
  | EmptyString => EmptyString
  | String c r =>
      String (if Ascii.eqb c "'" then dquote else c) (jsonText r)
  end.

(** The unit tests of the canonicalizer. *)
Example canonicalize_sorts_keys :
  canonicalize (JObj [("z", JInt 1); ("a", JInt 2); ("m", JInt 3)])
  = Ok (jsonText "{'a':2,'m':3,'z':1}").
Proof. vm_compute. reflexivity. Qed.

Example canonicalize_nested :
  canonicalize (JObj [("b", JObj [("d", JInt 1); ("c", JInt 2)]); ("a", JInt 3)])
  = Ok (jsonText "{'a':3,'b':{'c':2,'d':1}}").
Proof. vm_compute. reflexivity. Qed.

Example canonicalize_drops_undefined :
  canonicalize (JObj [("a", JInt 1); ("b", JUndefined); ("c", JInt 3)])
  = Ok (jsonText "{'a':1,'c':3}").
Proof. vm_compute. reflexivity. Qed.

Example canonicalize_keeps_array_order :
  canonicalize (JObj [("items", JArr [JInt 3; JInt 1; JInt 2])])
  = Ok (jsonText "{'items':[3,1,2]}").
Proof. vm_compute. reflexivity. Qed.

Example canonicalize_keeps_null :
  canonicalize (JObj [("a", JNull); ("b", JInt 1)])
  = Ok (jsonText "{'a':null,'b':1}").
Proof. vm_compute. reflexivity. Qed.

(** Keys that are array indices come first, in numeric order, whatever
    the order of insertion; the key of the prototype accessor is lost. *)
Example canonicalize_index_keys :
  canonicalize (JObj [("b", JInt 1); ("10", JInt 2); ("9", JInt 3);
                      ("__proto__", JInt 4); ("a", JInt 5)])
  = Ok (jsonText "{'9':3,'10':2,'a':5,'b':1}").
Proof. vm_compute. reflexivity. Qed.

(* ---------------------------------------------------------------------- *)
(** *** [JSON.parse]

    A reader for JSON texts.  The strings of the model hold code units
    below 256, so a text that writes a higher code unit with an escape
    is outside it: reading such a text gives [Unmodelled], and the
    functions on top of the reader give no answer for it.  [Malformed]
    is the thrown [SyntaxError]. *)

Inductive Reading (A : Type) : Type :=
| Read (a : A)
| Malformed
| Unmodelled.

Arguments Read {A} a.
Arguments Malformed {A}.
Arguments Unmodelled {A}.

Definition isWhitespace (c : ascii) : bool :=
  let n := N_of_ascii c in
  ((n =? 32) || (n =? 9) || (n =? 10) || (n =? 13))%N.

Fixpoint skipWhitespace (s : string) : string :=
  match s with
  | EmptyString => EmptyString
  | String c r => if isWhitespace c then skipWhitespace r else s
  end.

(** The characters of a string literal after its opening quote, up to and
    without the closing quote. *)
Fixpoint readChars (s : string) : Reading (string * string) :=
  match s with
  | EmptyString => Malformed
  | String c r =>
      let n := N_of_ascii c in
      if (n =? 34)%N then Read (EmptyString, r)
      else if (n =? 92)%N then
        match r with
        | EmptyString => Malformed
        | String e r1 =>
            let simple (x : N) :=
              match readChars r1 with
              | Read (t, rest) => Read (String (ascii_of_N x) t, rest)
              | Malformed => Malformed
              | Unmodelled => Unmodelled
              end in
            let m := N_of_ascii e in
            if (m =? 34)%N then simple 34%N
            else if (m =? 92)%N then simple 92%N
            else if (m =? 47)%N then simple 47%N
            else if (m =? 98)%N then simple 8%N
            else if (m =? 102)%N then simple 12%N
            else if (m =? 110)%N then simple 10%N
            else if (m =? 114)%N then simple 13%N
            else if (m =? 116)%N then simple 9%N
            else if (m =? 117)%N then
              match r1 with
              | String a (String b (String x (String y r2))) =>
                  match Hex.digitValue a, Hex.digitValue b,
                        Hex.digitValue x, Hex.digitValue y with
                  | Some h3, Some h2, Some h, Some l =>
                      if ((h3 =? 0) && (h2 =? 0))%N then
                        match readChars r2 with
                        | Read (t, rest) =>
                            Read (String (ascii_of_N (16 * h + l)) t, rest)
                        | Malformed => Malformed
                        | Unmodelled => Unmodelled
                        end
                      else Unmodelled
                  | _, _, _, _ => Malformed
                  end
              | _ => Malformed
              end
            else Malformed
        end
      else if (n <? 32)%N then Malformed
      else
        match readChars r with
        | Read (t, rest) => Read (String c t, rest)
        | Malformed => Malformed
        | Unmodelled => Unmodelled
        end
  end.

Definition isDigit (c : ascii) : bool :=
  let n := N_of_ascii c in ((48 <=? n) && (n <=? 57))%N.

(** The digits at the head of a text, and the rest. *)
Fixpoint readDigits (s : string) : string * string :=
  match s with
  | EmptyString => (EmptyString, EmptyString)
  | String c r =>
      if isDigit c then let (ds, rest) := readDigits r in (String c ds, rest)
      else (EmptyString, s)
  end.

(** The value of digits that follow the value [acc]. *)
Fixpoint digitsValue (acc : Z) (ds : string) : Z :=
  match ds with
  | EmptyString => acc
  | String c r => digitsValue (10 * acc + Z.of_N (N_of_ascii c - 48)) r
  end.

(** The integral part: zero alone, or digits that do not start with
    zero. *)
Definition wellFormedInteger (int : string) : bool :=
  match int with
  | EmptyString => false
  | String c r => negb (Ascii.eqb c "0") || String.eqb r ""
  end.

(** The fraction, if there is one: a point and at least one digit. *)
Definition readFraction (s : string) : option (string * string) :=
  match s with
  | String c r =>
      if Ascii.eqb c "." then
        let (frac, rest) := readDigits r in
        if String.eqb frac "" then None else Some (frac, rest)
      else Some (EmptyString, s)
  | EmptyString => Some (EmptyString, s)
  end.

(** The exponent, if there is one: the letter, a sign or none, and at
    least one digit. *)
Definition readExponent (s : string) : option (Z * string) :=
  match s with
  | String c r =>
      if Ascii.eqb c "e" || Ascii.eqb c "E" then
        let (minus, r1) :=
          match r with
          | String sign r' =>
              if Ascii.eqb sign "-" then (true, r')
              else if Ascii.eqb sign "+" then (false, r')
              else (false, r)
          | EmptyString => (false, r)
          end in
        let (ds, rest) := readDigits r1 in
        if String.eqb ds "" then None
        else
          let x := digitsValue 0 ds in
          Some (if minus then (- x)%Z else x, rest)
      else Some (0%Z, s)
  | EmptyString => Some (0%Z, s)
  end.

(** A number after its sign: the number nearest to the decimal that the
    digits, the place of the point and the exponent stand for. *)
Definition readUnsigned (negative : bool) (s : string)
  : option (Double.t * string) :=
  let (int, s2) := readDigits s in
  if wellFormedInteger int then
    match readFraction s2 with
    | Some (frac, s3) =>
        match readExponent s3 with
        | Some (x, rest) =>
            Some (Double.roundDecimal negative
                    (digitsValue 0 (int ++ frac))
                    (x - Z.of_nat (String.length frac)),
                  rest)
        | None => None
        end
    | None => None
    end
  else None.

(** A JSON number: an optional minus sign, the integral part, an optional
    fraction and an optional exponent. *)
Definition readNumber (s : string) : option (Double.t * string) :=
  match s with
  | String c r =>
      if Ascii.eqb c "-" then readUnsigned true r else readUnsigned false s
  | EmptyString => None
  end.

(** [s] starts with the literal [lit]: the rest of [s]. *)
Fixpoint expect (lit s : string) : option string :=
  match lit, s with
  | EmptyString, _ => Some s
  | String a l, String b r => if Ascii.eqb a b then expect l r else None
  | String _ _, EmptyString => None
  end.

(** Values, the elements of an array after its bracket, and the members
    of an object after its brace.  The fuel bounds the number of nested
    calls; [JSON_parse] gives as much as the text is long. *)
Fixpoint readValue (fuel : nat) (s : string) : Reading (JsValue * string) :=
  match fuel with
  | O => Malformed
  | S f =>
      match skipWhitespace s with
      | EmptyString => Malformed
      | String c r =>
          let n := N_of_ascii c in
          if (n =? 123)%N then
            match skipWhitespace r with
            | String c1 r1 =>
                if (N_of_ascii c1 =? 125)%N then Read (JObj [], r1)
                else
                  match readMembers f (String c1 r1) with
                  | Read (members, rest) =>
                      Read (JObj (fold_left
                                    (fun obj p => defineOwn obj (fst p) (snd p))
                                    members []), rest)
                  | Malformed => Malformed
                  | Unmodelled => Unmodelled
                  end
            | EmptyString => Malformed
            end
          else if (n =? 91)%N then
            match skipWhitespace r with
            | String c1 r1 =>
                if (N_of_ascii c1 =? 93)%N then Read (JArr [], r1)
                else
                  match readElements f (String c1 r1) with
                  | Read (items, rest) => Read (JArr items, rest)
                  | Malformed => Malformed
                  | Unmodelled => Unmodelled
                  end
            | EmptyString => Malformed
            end
          else if (n =? 34)%N then
            match readChars r with
            | Read (t, rest) => Read (JStr t, rest)
            | Malformed => Malformed
            | Unmodelled => Unmodelled
            end
          else if (n =? 116)%N then
            match expect "rue" r with
            | Some rest => Read (JBool true, rest)
            | None => Malformed
            end
          else if (n =? 102)%N then
            match expect "alse" r with
            | Some rest => Read (JBool false, rest)
            | None => Malformed
            end
          else if (n =? 110)%N then
            match expect "ull" r with
            | Some rest => Read (JNull, rest)
            | None => Malformed
            end
          else
            match readNumber (String c r) with
            | Some (x, rest) => Read (JNum x, rest)
            | None => Malformed
            end
      end
  end

with readElements (fuel : nat) (s : string)
  : Reading (list JsValue * string) :=
  match fuel with
  | O => Malformed
  | S f =>
      match readValue f s with
      | Read (v, r) =>
          match skipWhitespace r with
          | String c r1 =>
              let n := N_of_ascii c in
              if (n =? 44)%N then
                match readElements f r1 with
                | Read (vs, rest) => Read (v :: vs, rest)
                | Malformed => Malformed
                | Unmodelled => Unmodelled
                end
              else if (n =? 93)%N then Read ([v], r1)
              else Malformed
          | EmptyString => Malformed
          end
      | Malformed => Malformed
      | Unmodelled => Unmodelled
      end
  end

with readMembers (fuel : nat) (s : string)
  : Reading (list (string * JsValue) * string) :=
  match fuel with
  | O => Malformed
  | S f =>
      match skipWhitespace s with
      | String q r0 =>
          if (N_of_ascii q =? 34)%N then
            match readChars r0 with
            | Read (key, r1) =>
                match skipWhitespace r1 with
                | String colon r2 =>
                    if (N_of_ascii colon =? 58)%N then
                      match readValue f r2 with
                      | Read (v, r3) =>
                          match skipWhitespace r3 with
                          | String c r4 =>
                              let n := N_of_ascii c in
                              if (n =? 44)%N then
                                match readMembers f r4 with
                                | Read (ms, rest) => Read ((key, v) :: ms, rest)
                                | Malformed => Malformed
                                | Unmodelled => Unmodelled
                                end
                              else if (n =? 125)%N then Read ([(key, v)], r4)
                              else Malformed
                          | EmptyString => Malformed
                          end
                      | Malformed => Malformed
                      | Unmodelled => Unmodelled
                      end
                    else Malformed
                | EmptyString => Malformed
                end
            | Malformed => Malformed
            | Unmodelled => Unmodelled
            end
          else Malformed
      | EmptyString => Malformed
      end
  end.

(** [JSON.parse(text)]: one value, then nothing but white space. *)
Definition JSON_parse (text : string) : Reading JsValue :=
  match readValue (S (String.length text)) text with
  | Read (v, rest) =>
      match skipWhitespace rest with
      | EmptyString => Read v
      | String _ _ => Malformed
      end
  | Malformed => Malformed
  | Unmodelled => Unmodelled
  end.

(** Parse and re-canonicalize a JSON string.  [None]: the text is outside
    the strings of the model. *)
Definition parseAndCanonicalize (jsonString : string)
  : option (result string) :=
  match JSON_parse jsonString with
  | Unmodelled => None
  | Malformed => Some (Err "SyntaxError")
  | Read parsed =>
      match parsed with
      | JNull => Some (Err "Can only canonicalize objects")
      | _ =>
          if negb (typeofObject parsed)
          then Some (Err "Can only canonicalize objects")
          else Some (canonicalize parsed)
      end
  end.

(** Check if a JSON string is in canonical form. *)
Definition isCanonical (jsonString : string) : option bool :=
  match parseAndCanonicalize jsonString with
  | Some (Ok recanonicalized) => Some (String.eqb jsonString recanonicalized)
  | Some (Err _) => Some false
  | None => None
  end.

(** The unit tests of the canonical-form check. *)
Example isCanonical_canonical :
  isCanonical (jsonText "{'a':1,'b':2}") = Some true.
Proof. vm_compute. reflexivity. Qed.

Example isCanonical_unsorted :
  isCanonical (jsonText "{'b':2,'a':1}") = Some false.
Proof. vm_compute. reflexivity. Qed.

Example isCanonical_whitespace :
  isCanonical (jsonText "{'a': 1, 'b': 2}") = Some false.
Proof. vm_compute. reflexivity. Qed.

Example parseAndCanonicalize_recanonicalizes :
  parseAndCanonicalize (jsonText "{'b': 2, 'a': 1}")
  = Some (Ok (jsonText "{'a':1,'b':2}")).
Proof. vm_compute. reflexivity. Qed.

(** Numbers are read by rounding and written with the fewest digits. *)
Example parseAndCanonicalize_numbers :
  parseAndCanonicalize
    (jsonText "{'d':9007199254740993,'c':1e3,'b':1.50,'a':-0,'e':1e21}")
  = Some (Ok (jsonText
                "{'a':0,'b':1.5,'c':1000,'d':9007199254740992,'e':1e+21}")).
Proof. vm_compute. reflexivity. Qed.

Example isCanonical_fraction :
  isCanonical (jsonText "{'a':0.5,'b':1.5e-7}") = Some true
  /\ isCanonical (jsonText "{'a':1e3}") = Some false.
Proof. vm_compute. split; reflexivity. Qed.

(** An escape is read as its code unit and written back as the code unit
    itself, so a text with an escape for a printable character is not
    canonical; an escape above U+00FF is outside the strings here. *)
Example isCanonical_escapes :
  isCanonical (jsonText "{'\u0061':1}") = Some false
  /\ isCanonical (jsonText "{'a':'\u000a'}") = Some false
  /\ isCanonical (jsonText "{'a':'\n'}") = Some true
  /\ isCanonical (jsonText "{'a':'\u0100'}") = None.
Proof. vm_compute. repeat split; reflexivity. Qed.

(* ====================================================================== *)
(** ** hashing/hasher.ts *)
(* ====================================================================== *)

(** An inference record is a JavaScript object; the interface
    [InferenceRecord] names the fields the hasher reads. *)
Definition InferenceRecord : Type := JsObject.

(** [normalizeHash(v)] on a value read from a record: a value that is not
    a string has no [toLowerCase], and the call throws a [TypeError]. *)
Definition normalizeHashField (v : JsValue) : result string :=
  match v with
  | JStr hash => Ok (normalizeHash hash)
  | _ => Err "TypeError"
  end.

(** [Object.keys(v).length] for a truthy value. *)
Definition objectKeysLength (v : JsValue) : nat :=
  match v with
  | JObj obj => List.length (objKeys obj)
  | JArr items => List.length items
  | JStr s => String.length s
  | _ => 0
  end.

(** Prepare an inference record for hashing by ensuring consistent
    structure. *)
Definition prepareForHashing (record : InferenceRecord)
  : result InferenceRecord :=
  let model := objGet record "model" in
  prompt_hash <- normalizeHashField (objGet record "prompt_hash") ;;
  output_hash <- normalizeHashField (objGet record "output_hash") ;;
  let prepared :=
    defineOwn (defineOwn (defineOwn [] "model" model)
                         "prompt_hash" (JStr prompt_hash))
              "output_hash" (JStr output_hash) in
  let parameters := objGet record "parameters" in
  let prepared :=
    if truthyValue parameters && (0 <? objectKeysLength parameters)%nat
    then objSet prepared "parameters" parameters else prepared in
  let context := objGet record "context" in
  let prepared :=
    if truthyValue context && (0 <? objectKeysLength context)%nat
    then objSet prepared "context" context else prepared in
  let timestamp := objGet record "timestamp" in
  let prepared :=
    if negb (isUndefined timestamp)
    then objSet prepared "timestamp" timestamp else prepared in
  let nonce := objGet record "nonce" in
  let prepared :=
    if negb (isUndefined nonce)
    then objSet prepared "nonce" nonce else prepared in
  Ok prepared.

(** Hash an inference record using keccak256. *)
Definition hashInference (record : InferenceRecord) : result string :=
  prepared <- prepareForHashing record ;;
  canonical <- canonicalize (JObj prepared) ;;
  let bytes := Hex.toUtf8Bytes canonical in
  keccak256 (Bytes bytes).

(** Verify that a hash matches a record. *)
Definition verifyInferenceHash (record : InferenceRecord) (expectedHash : string)
  : result bool :=
  computed <- hashInference record ;;
  Ok (String.eqb (toLowerCase computed)
                 (toLowerCase (normalizeHash expectedHash))).

(* ====================================================================== *)
(** ** storage/storage.ts: the lookups of the verifier *)
(* ====================================================================== *)

Module AnchorRecord.
Record t : Type := mk {
  batch_id     : string;
  merkle_root  : string;
  tx_hash      : string;
  block_number : Z;
  chain_id     : Z;
  chain_name   : string;
  anchored_at  : Z
}.
End AnchorRecord.

(** The two maps of the store the verifier reads, each as the list of its
    values in the order [Map.prototype.values] yields them. *)
Record Storage : Type := mkStorage {
  batches : list MerkleBatch.t;
  anchors : list AnchorRecord.t
}.

Definition findBatchContainingHash (storage : Storage) (inferenceHash : string)
  : option MerkleBatch.t :=
  let normalized := toLowerCase inferenceHash in
  find (fun batch =>
          existsb (fun leaf => String.eqb (toLowerCase leaf) normalized)
                  (MerkleBatch.leaves batch))
       (batches storage).

Definition getAnchorByRoot (storage : Storage) (root : string)
  : option AnchorRecord.t :=
  let normalizedRoot := toLowerCase root in
  find (fun anchor =>
          String.eqb (toLowerCase (AnchorRecord.merkle_root anchor))
                     normalizedRoot)
       (anchors storage).

(* ====================================================================== *)
(** ** verifier/verifier.ts *)
(* ====================================================================== *)

Module VerificationResult.
Record t : Type := mk {
  verified       : bool;
  inference_hash : string;
  merkle_root    : option string;
  anchored_at    : option Z;
  block_number   : option Z;
  chain_id       : option Z;
  chain_name     : option string;
  tx_hash        : option string;
  proof          : option MerkleProof.t;
  error          : option string
}.
End VerificationResult.

(** A result without optional fields. *)
Definition failed (inferenceHash message : string) : VerificationResult.t :=
  {| VerificationResult.verified := false;
     VerificationResult.inference_hash := inferenceHash;
     VerificationResult.merkle_root := None;
     VerificationResult.anchored_at := None;
     VerificationResult.block_number := None;
     VerificationResult.chain_id := None;
     VerificationResult.chain_name := None;
     VerificationResult.tx_hash := None;
     VerificationResult.proof := None;
     VerificationResult.error := Some message |}.

Record VerifyInput : Type := mkInput {
  record : option InferenceRecord;
  hash   : option string
}.

Record VerifyOptions : Type := mkOptions {
  rpcUrl          : option string;
  contractAddress : option string
}.

(** The registry contract as the verifier reads it:
    [anchoredAt(root)] at an RPC endpoint and a contract address; [Err]
    is a read that throws. *)
Definition Ledger : Type := string -> string -> string -> result Z.

Definition truthyOption (o : option string) : bool :=
  match o with
  | Some s => truthy s
  | None => false
  end.

(** Verify anchor status on-chain: the verdict and the error text. *)
Definition verifyOnChain (ledger : Ledger) (merkleRoot url address : string)
  : result (bool * option string) :=
  anchoredAt <- ledger url address merkleRoot ;;
  if (anchoredAt =? 0)%Z then Ok (false, Some "Root not found on-chain")
  else Ok (true, None).

(** Text of a JavaScript value concatenated to a string; [undefined]
    prints as the word. *)
Definition textOrUndefined (o : option string) : string :=
  match o with
  | Some s => s
  | None => "undefined"
  end.

(** Step 1 of [verifyInference]: get or compute the inference hash.  The
    result is the hash, or the early return of the function. *)
Definition resolveIdentity (input : VerifyInput)
  : result (string + VerificationResult.t) :=
  match record input with
  | Some rec =>
      inferenceHash <- hashInference rec ;;
      if truthyOption (hash input) then
        matches <- verifyInferenceHash rec (textOrUndefined (hash input)) ;;
        if negb matches then
          Ok (inr (failed inferenceHash
                     "Provided hash does not match computed hash from record"))
        else Ok (inl inferenceHash)
      else Ok (inl inferenceHash)
  | None =>
      if truthyOption (hash input) then Ok (inl (textOrUndefined (hash input)))
      else Ok (inr (failed "" "Must provide either record or hash"))
  end.

(** Steps 2 to 5 of [verifyInference], once the inference hash is known. *)
Definition verifyLocated (storage : Storage) (ledger : Ledger)
           (options : option VerifyOptions) (inferenceHash : string)
  : result VerificationResult.t :=
  (* Step 2: find the batch containing this inference *)
  match findBatchContainingHash storage inferenceHash with
  | None => Ok (failed inferenceHash "Inference not found in any batch")
  | Some batch =>
      let root := MerkleBatch.root batch in
      (* Step 3: generate and verify the Merkle proof *)
      match generateProof batch inferenceHash with
      | None =>
          Ok {| VerificationResult.verified := false;
                VerificationResult.inference_hash := inferenceHash;
                VerificationResult.merkle_root := Some root;
                VerificationResult.anchored_at := None;
                VerificationResult.block_number := None;
                VerificationResult.chain_id := None;
                VerificationResult.chain_name := None;
                VerificationResult.tx_hash := None;
                VerificationResult.proof := None;
                VerificationResult.error :=
                  Some "Failed to generate Merkle proof" |}
      | Some proof =>
          valid <- verifyProof proof ;;
          let partial (tx : option string) (message : string) :=
            {| VerificationResult.verified := false;
               VerificationResult.inference_hash := inferenceHash;
               VerificationResult.merkle_root := Some root;
               VerificationResult.anchored_at := None;
               VerificationResult.block_number := None;
               VerificationResult.chain_id := None;
               VerificationResult.chain_name := None;
               VerificationResult.tx_hash := tx;
               VerificationResult.proof := Some proof;
               VerificationResult.error := Some message |} in
          if negb valid then
            Ok (partial None "Merkle proof verification failed")
          else
            (* Step 4: check the anchor status *)
            match getAnchorByRoot storage root with
            | None => Ok (partial None "Batch not anchored on-chain")
            | Some anchor =>
                let tx := Some (AnchorRecord.tx_hash anchor) in
                let success :=
                  {| VerificationResult.verified := true;
                     VerificationResult.inference_hash := inferenceHash;
                     VerificationResult.merkle_root := Some root;
                     VerificationResult.anchored_at :=
                       Some (AnchorRecord.anchored_at anchor);
                     VerificationResult.block_number :=
                       Some (AnchorRecord.block_number anchor);
                     VerificationResult.chain_id :=
                       Some (AnchorRecord.chain_id anchor);
                     VerificationResult.chain_name :=
                       Some (AnchorRecord.chain_name anchor);
                     VerificationResult.tx_hash := tx;
                     VerificationResult.proof := Some proof;
                     VerificationResult.error := None |} in
                (* Step 5: optionally verify on-chain *)
                match options with
                | Some opts =>
                    if truthyOption (rpcUrl opts)
                       && truthyOption (contractAddress opts) then
                      match verifyOnChain ledger root
                              (textOrUndefined (rpcUrl opts))
                              (textOrUndefined (contractAddress opts)) with
                      | Ok (true, _) => Ok success
                      | Ok (false, reason) =>
                          Ok (partial tx ("On-chain verification failed: "
                                          ++ textOrUndefined reason)%string)
                      | Err message =>
                          Ok (partial tx ("On-chain check failed: "
                                          ++ message)%string)
                      end
                    else Ok success
                | None => Ok success
                end
            end
      end
  end.

(** Verify an inference record or hash.  [Err] is an exception that
    escapes the function. *)
Definition verifyInference (storage : Storage) (ledger : Ledger)
           (input : VerifyInput) (options : option VerifyOptions)
  : result VerificationResult.t :=
  identity <- resolveIdentity input ;;
  match identity with
  | inr early => Ok early
  | inl inferenceHash => verifyLocated storage ledger options inferenceHash
  end.

Set Implicit Arguments.

(* ====================================================================== *)
(** * Part II: properties of the program *)
(* ====================================================================== *)

(* ====================================================================== *)
(** ** The order of strings and [Array.prototype.sort] *)
(* ====================================================================== *)

(* ---------------------------------------------------------------------- *)
(** *** The code-unit order is a total order *)

Lemma ascii_compare_refl (c : ascii) : Ascii.compare c c = Eq.
Proof. unfold Ascii.compare. apply N.compare_refl. Qed.

Lemma string_compare_refl (s : string) : String.compare s s = Eq.
Proof.
  induction s as [| c s IH]; simpl; [reflexivity |].
  rewrite ascii_compare_refl. exact IH.
Qed.

Lemma ascii_compare_lt_trans (a b c : ascii) :
  Ascii.compare a b = Lt -> Ascii.compare b c = Lt -> Ascii.compare a c = Lt.
Proof.
  unfold Ascii.compare. rewrite !N.compare_lt_iff. lia.
Qed.

Lemma string_compare_lt_trans (a b c : string) :
  String.compare a b = Lt -> String.compare b c = Lt -> String.compare a c = Lt.
Proof.
  revert b c.
  induction a as [| x a IH]; intros [| y b] [| z c]; simpl; try discriminate; auto.
  destruct (Ascii.compare x y) eqn:Exy; try discriminate.
  - apply Ascii.compare_eq_iff in Exy. subst y.
    destruct (Ascii.compare x z) eqn:Exz; try discriminate; auto.
    apply IH.
  - intros _.
    destruct (Ascii.compare y z) eqn:Eyz; try discriminate.
    + apply Ascii.compare_eq_iff in Eyz. subst z. rewrite Exy. reflexivity.
    + intros _. rewrite (ascii_compare_lt_trans _ _ _ Exy Eyz). reflexivity.
Qed.

Lemma leb_refl (a : string) : leb a a = true.
Proof. unfold leb, String.leb. rewrite string_compare_refl. reflexivity. Qed.

Lemma leb_false_lt (a b : string) :
  leb a b = false -> String.compare b a = Lt.
Proof.
  unfold leb, String.leb. rewrite String.compare_antisym.
  destruct (String.compare b a); simpl; congruence.
Qed.

Lemma leb_true_cases (a b : string) :
  leb a b = true -> a = b \/ String.compare a b = Lt.
Proof.
  unfold leb, String.leb.
  destruct (String.compare a b) eqn:E; try discriminate; intros _.
  - left. apply String.compare_eq_iff. exact E.
  - right. reflexivity.
Qed.

Lemma lt_leb (a b : string) : String.compare a b = Lt -> leb a b = true.
Proof. unfold leb, String.leb. intros ->. reflexivity. Qed.

Lemma leb_trans (a b c : string) :
  leb a b = true -> leb b c = true -> leb a c = true.
Proof.
  intros Hab Hbc.
  destruct (leb_true_cases _ _ Hab) as [-> | Lab]; [exact Hbc |].
  destruct (leb_true_cases _ _ Hbc) as [<- | Lbc]; [exact Hab |].
  apply lt_leb. eapply string_compare_lt_trans; eassumption.
Qed.

Lemma leb_antisym (a b : string) :
  leb a b = true -> leb b a = true -> a = b.
Proof. apply String.leb_antisym. Qed.

Lemma leb_total (a b : string) : leb a b = false -> leb b a = true.
Proof. intros H. apply lt_leb. apply leb_false_lt. exact H. Qed.

(* ---------------------------------------------------------------------- *)
(** *** Sorting gives the ascending rearrangement *)

Lemma insert_perm (x : string) (l : list string) :
  Permutation (x :: l) (insert x l).
Proof.
  induction l as [| y r IH]; simpl; [reflexivity |].
  destruct (leb x y); [reflexivity |].
  rewrite perm_swap. apply perm_skip. exact IH.
Qed.

Lemma sort_perm (l : list string) : Permutation l (sort l).
Proof.
  induction l as [| x r IH]; simpl; [constructor |].
  rewrite <- insert_perm. apply perm_skip. exact IH.
Qed.

Lemma sort_length (l : list string) : List.length (sort l) = List.length l.
Proof. symmetry. apply Permutation_length. apply sort_perm. Qed.

Lemma insert_sorted (x : string) (l : list string) :
  sorted l -> sorted (insert x l).
Proof.
  unfold sorted.
  induction l as [| y r IH]; intros Hs; simpl.
  - repeat constructor.
  - inversion Hs as [| ? ? Hr Hy]; subst.
    destruct (leb x y) eqn:E.
    + constructor; [exact Hs |].
      constructor; [exact E |].
      eapply Forall_impl; [| exact Hy].
      intros z Hz. eapply leb_trans; eassumption.
    + constructor; [apply IH; exact Hr |].
      eapply Permutation_Forall; [apply insert_perm |].
      constructor; [apply leb_total; exact E | exact Hy].
Qed.

Lemma sort_sorted (l : list string) : sorted (sort l).
Proof.
  induction l as [| x r IH]; simpl.
  - constructor.
  - apply insert_sorted. exact IH.
Qed.

Ltac leb_cases :=
  repeat (simpl;
          match goal with
          | E : leb ?x ?y = _ |- context [leb ?x ?y] => rewrite E
          | |- context [leb ?x ?y] => destruct (leb x y) eqn:?
          end).

Ltac leb_close :=
  try reflexivity;
  try congruence;
  repeat match goal with
         | H : leb ?x ?y = false |- _ => apply leb_total in H
         end;
  repeat match goal with
         | H1 : leb ?x ?y = true, H2 : leb ?y ?x = true |- _ =>
             pose proof (leb_antisym _ _ H1 H2); subst y; clear H2
         end;
  try reflexivity;
  try congruence;
  try (exfalso;
       match goal with
       | H1 : leb ?x ?y = true, H2 : leb ?y ?z = true, H3 : leb ?x ?z = false |- _ =>
           rewrite (leb_trans _ _ _ H1 H2) in H3; discriminate
       end).

Lemma insert_comm (a b : string) (l : list string) :
  insert a (insert b l) = insert b (insert a l).
Proof.
  induction l as [| y r IH]; simpl.
  - leb_cases; leb_close.
  - destruct (leb b y) eqn:Eby, (leb a y) eqn:Eay; simpl;
      rewrite ?Eby, ?Eay.
    + leb_cases; leb_close.
    + destruct (leb a b) eqn:Eab; [| reflexivity].
      rewrite (leb_trans _ _ _ Eab Eby) in Eay. discriminate.
    + destruct (leb b a) eqn:Eba; [| reflexivity].
      rewrite (leb_trans _ _ _ Eba Eay) in Eby. discriminate.
    + rewrite IH. reflexivity.
Qed.

(** The sorted array depends only on the multiset of the elements. *)
Lemma sort_permutation (l l' : list string) :
  Permutation l l' -> sort l = sort l'.
Proof.
  induction 1 as [| x l l' _ IH | x y l | l l' l'' _ IH1 _ IH2]; simpl.
  - reflexivity.
  - rewrite IH. reflexivity.
  - apply insert_comm.
  - congruence.
Qed.

Lemma insert_sorted_head (x : string) (l : list string) :
  Forall (fun y => leb x y = true) l -> insert x l = x :: l.
Proof.
  destruct l as [| y r]; simpl; [reflexivity |].
  intros H. inversion H; subst.
  match goal with E : leb x y = true |- _ => rewrite E end. reflexivity.
Qed.

(** Sorting an already ascending array leaves it alone. *)
Lemma sort_sorted_id (l : list string) : sorted l -> sort l = l.
Proof.
  unfold sorted.
  induction 1 as [| x r Hr IH Hx]; simpl; [reflexivity |].
  rewrite IH. apply insert_sorted_head. exact Hx.
Qed.

Lemma sort_idempotent (l : list string) : sort (sort l) = sort l.
Proof. apply sort_sorted_id. apply sort_sorted. Qed.

(* ====================================================================== *)
(** ** Facts about strings, hex data and [normalizeHash] *)
(* ====================================================================== *)

Lemma lowerChar_idem (c : ascii) : lowerChar (lowerChar c) = lowerChar c.
Proof.
  destruct c as [[] [] [] [] [] [] [] []]; vm_compute; reflexivity.
Qed.

Lemma toLowerCase_idem (s : string) : toLowerCase (toLowerCase s) = toLowerCase s.
Proof.
  induction s as [| c s IH]; simpl; [reflexivity |].
  rewrite lowerChar_idem, IH. reflexivity.
Qed.

Lemma toLowerCase_app (a b : string) :
  toLowerCase (a ++ b) = (toLowerCase a ++ toLowerCase b)%string.
Proof.
  induction a as [| c a IH]; simpl; [reflexivity |].
  rewrite IH. reflexivity.
Qed.

(** Removing the prefix from a lower-case string leaves a lower-case
    string. *)
Lemma toLowerCase_strip0x (s : string) :
  toLowerCase s = s -> toLowerCase (strip0x s) = strip0x s.
Proof.
  destruct s as [| a [| b r]]; simpl; auto.
  intros H.
  destruct (Ascii.eqb a "0" && Ascii.eqb b "x"); [| exact H].
  congruence.
Qed.

Lemma toLowerCase_normalizeHash (h : string) :
  toLowerCase (normalizeHash h) = normalizeHash h.
Proof.
  unfold normalizeHash. simpl. f_equal. f_equal.
  apply toLowerCase_strip0x. apply toLowerCase_idem.
Qed.

Lemma normalizeHash_prefixed (s : string) :
  toLowerCase s = s -> normalizeHash ("0x" ++ s) = ("0x" ++ s)%string.
Proof.
  intros H. unfold normalizeHash. simpl. rewrite H. reflexivity.
Qed.

(** [normalizeHash] is idempotent. *)
Lemma normalizeHash_idem (h : string) :
  normalizeHash (normalizeHash h) = normalizeHash h.
Proof.
  unfold normalizeHash at 2 3.
  apply normalizeHash_prefixed.
  apply toLowerCase_strip0x. apply toLowerCase_idem.
Qed.

(** A string is in normal form when [normalizeHash] leaves it alone:
    lower case, with the prefix. *)
Definition normalized (s : string) : Prop := normalizeHash s = s.

Lemma normalized_normalizeHash (h : string) : normalized (normalizeHash h).
Proof. apply normalizeHash_idem. Qed.

Lemma normalized_lower (s : string) : normalized s -> toLowerCase s = s.
Proof.
  unfold normalized. intros H. rewrite <- H at 1.
  rewrite toLowerCase_normalizeHash. exact H.
Qed.

Lemma normalized_truthy (s : string) : normalized s -> truthy s = true.
Proof. unfold normalized. intros <-. reflexivity. Qed.

(** Normal forms that agree up to letter case are the same string. *)
Lemma normalized_eq_lower (a b : string) :
  normalized a -> normalized b -> toLowerCase a = toLowerCase b -> a = b.
Proof.
  intros Ha Hb. rewrite (normalized_lower Ha), (normalized_lower Hb). auto.
Qed.

(** [normalizeHash] only looks at the letters up to case. *)
Lemma normalizeHash_lower (h : string) :
  normalizeHash (toLowerCase h) = normalizeHash h.
Proof. unfold normalizeHash. rewrite toLowerCase_idem. reflexivity. Qed.

(* ---------------------------------------------------------------------- *)
(** *** Hex data *)

Definition isHexData (s : string) : bool :=
  match Hex.getBytes s with
  | Some _ => true
  | None => false
  end.

(** A hash string as the Merkle functions accept it: hex digits in pairs,
    either case, with or without the prefix. *)
Definition isHashString (h : string) : bool := isHexData (normalizeHash h).

Lemma byte_digits_roundtrip (b : Hex.byte) :
  let n := Hex.byteToN b in
  Hex.digitValue (Hex.digit (n / 16)) = Some (n / 16)%N /\
  Hex.digitValue (Hex.digit (n mod 16)) = Some (n mod 16)%N /\
  Hex.byteOfN (16 * (n / 16) + n mod 16) = b /\
  lowerChar (Hex.digit (n / 16)) = Hex.digit (n / 16) /\
  lowerChar (Hex.digit (n mod 16)) = Hex.digit (n mod 16).
Proof.
  destruct b; vm_compute; repeat split; reflexivity.
Qed.

(** Reading back what [hexlify] wrote gives the bytes. *)
Lemma pairs_digits (bs : list Hex.byte) : Hex.pairs (Hex.digits bs) = Some bs.
Proof.
  induction bs as [| b r IH]; [reflexivity |].
  cbn [Hex.digits Hex.pairs].
  destruct (byte_digits_roundtrip b) as (H1 & H2 & H3 & _).
  cbv zeta in H1, H2, H3.
  rewrite H1, H2, IH, H3. reflexivity.
Qed.

Lemma getBytes_hexlify (bs : list Hex.byte) :
  Hex.getBytes (Hex.hexlify bs) = Some bs.
Proof. unfold Hex.hexlify, Hex.getBytes. apply pairs_digits. Qed.

Lemma toLowerCase_digits (bs : list Hex.byte) :
  toLowerCase (Hex.digits bs) = Hex.digits bs.
Proof.
  induction bs as [| b r IH]; [reflexivity |].
  cbn [Hex.digits toLowerCase].
  destruct (byte_digits_roundtrip b) as (_ & _ & _ & H4 & H5).
  cbv zeta in H4, H5.
  rewrite H4, H5, IH. reflexivity.
Qed.

Lemma normalized_hexlify (bs : list Hex.byte) : normalized (Hex.hexlify bs).
Proof.
  unfold normalized, Hex.hexlify.
  apply normalizeHash_prefixed.
  apply toLowerCase_digits.
Qed.

Lemma pairs_app (a b : string) (xs ys : list Hex.byte) :
  Hex.pairs a = Some xs -> Hex.pairs b = Some ys ->
  Hex.pairs (a ++ b) = Some (xs ++ ys).
Proof.
  revert xs.
  induction a as [a IH] using (well_founded_induction
                                 (Wf_nat.well_founded_ltof _ String.length)).
  intros xs Ha Hb.
  destruct a as [| c [| d r]].
  - simpl in Ha. inversion Ha. exact Hb.
  - simpl in Ha. discriminate.
  - cbn [Hex.pairs] in Ha.
    change ((String c (String d r)) ++ b)%string
      with (String c (String d (r ++ b)%string)).
    cbn [Hex.pairs].
    destruct (Hex.digitValue c); [| discriminate].
    destruct (Hex.digitValue d); [| discriminate].
    destruct (Hex.pairs r) as [rs |] eqn:Er; [| discriminate].
    inversion Ha. subst xs.
    rewrite (IH r) with (xs := rs); auto.
    unfold Wf_nat.ltof. simpl. lia.
Qed.

(** Every result of [keccak256] is hex data in normal form. *)
Lemma keccak256_ok (d : BytesLike) (h : string) :
  keccak256 d = Ok h -> normalized h /\ isHexData h = true.
Proof.
  unfold keccak256, isHexData.
  destruct d as [s | bs].
  - destruct (Hex.getBytes s) as [bs |]; [| discriminate].
    intros H. inversion H. split; [apply normalized_hexlify |].
    rewrite getBytes_hexlify. reflexivity.
  - intros H. inversion H. split; [apply normalized_hexlify |].
    rewrite getBytes_hexlify. reflexivity.
Qed.

(* ====================================================================== *)
(** ** The pairwise combination *)
(* ====================================================================== *)

(** A node of a tree: hex data in normal form. *)
Definition goodNode (x : string) : Prop := normalized x /\ isHexData x = true.

Lemma goodNode_normalizeHash (h : string) :
  isHashString h = true -> goodNode (normalizeHash h).
Proof.
  intros H. split; [apply normalized_normalizeHash | exact H].
Qed.

Lemma goodNode_isHashString (x : string) : goodNode x -> isHashString x = true.
Proof.
  intros [Hn Hh]. unfold isHashString. rewrite Hn. exact Hh.
Qed.

(** The sorted pair is one of the two arrangements. *)
Lemma hashPair_unfold (a b : string) :
  hashPair a b =
  if leb (normalizeHash a) (normalizeHash b)
  then keccak256 (HexData (normalizeHash a ++ slice 2 (normalizeHash b)))
  else keccak256 (HexData (normalizeHash b ++ slice 2 (normalizeHash a))).
Proof.
  unfold hashPair. simpl.
  destruct (leb (normalizeHash a) (normalizeHash b)); reflexivity.
Qed.

(** [combine(a, b) == combine(b, a)]. *)
Lemma hashPair_comm (a b : string) : hashPair a b = hashPair b a.
Proof.
  unfold hashPair.
  rewrite (sort_permutation (perm_swap (normalizeHash b) (normalizeHash a) [])).
  reflexivity.
Qed.

(** The combination only sees the normal forms of its arguments. *)
Lemma hashPair_normalizeHash_l (a b : string) :
  hashPair (normalizeHash a) b = hashPair a b.
Proof. unfold hashPair. rewrite normalizeHash_idem. reflexivity. Qed.

Lemma hashPair_normalizeHash_r (a b : string) :
  hashPair a (normalizeHash b) = hashPair a b.
Proof. unfold hashPair. rewrite normalizeHash_idem. reflexivity. Qed.

Lemma hashPair_good (a b h : string) : hashPair a b = Ok h -> goodNode h.
Proof.
  rewrite hashPair_unfold.
  destruct (leb (normalizeHash a) (normalizeHash b));
    intros H; apply keccak256_ok in H; exact H.
Qed.

Lemma getBytes_inv (s : string) (bs : list Hex.byte) :
  Hex.getBytes s = Some bs ->
  exists d, s = ("0x" ++ d)%string /\ Hex.pairs d = Some bs.
Proof.
  destruct s as [| a [| b r]]; simpl; try discriminate.
  destruct (Ascii.eqb a "0") eqn:Ea; simpl; [| discriminate].
  destruct (Ascii.eqb b "x") eqn:Eb; simpl; [| discriminate].
  apply Ascii.eqb_eq in Ea, Eb. subst a b.
  intros H. exists r. split; [reflexivity | exact H].
Qed.

(** Two pieces of hex data, the second without its prefix, concatenate to
    hex data. *)
Lemma isHexData_concat (x y : string) :
  isHexData x = true -> isHexData y = true ->
  isHexData (x ++ slice 2 y) = true.
Proof.
  unfold isHexData.
  destruct (Hex.getBytes x) as [xs |] eqn:Ex; [| discriminate].
  destruct (Hex.getBytes y) as [ys |] eqn:Ey; [| discriminate].
  intros _ _.
  apply getBytes_inv in Ex, Ey.
  destruct Ex as (dx & -> & Hx). destruct Ey as (dy & -> & Hy).
  simpl. rewrite (pairs_app _ _ Hx Hy). reflexivity.
Qed.

Lemma keccak256_total (s : string) :
  isHexData s = true -> exists h, keccak256 (HexData s) = Ok h.
Proof.
  unfold isHexData, keccak256.
  destruct (Hex.getBytes s) as [bs |]; [| discriminate].
  intros _. eexists. reflexivity.
Qed.

(** On hash strings the combination never throws. *)
Lemma hashPair_total (a b : string) :
  isHashString a = true -> isHashString b = true ->
  exists h, hashPair a b = Ok h.
Proof.
  unfold isHashString. intros Ha Hb.
  rewrite hashPair_unfold.
  destruct (leb (normalizeHash a) (normalizeHash b));
    apply keccak256_total; apply isHexData_concat; assumption.
Qed.

(* ====================================================================== *)
(** ** Levels *)
(* ====================================================================== *)

(** Induction on a list two elements at a time, as the loop of
    [buildNextLevel] walks it. *)
Lemma list_pair_ind (A : Type) (P : list A -> Prop) :
  P [] ->
  (forall a, P [a]) ->
  (forall a b r, P r -> P (a :: b :: r)) ->
  forall l, P l.
Proof.
  intros H0 H1 H2.
  fix IH 1.
  intros [| a [| b r]].
  - exact H0.
  - apply H1.
  - apply H2. apply IH.
Qed.

Lemma buildNextLevel_good (l next : list string) :
  buildNextLevel l = Ok next -> Forall goodNode next.
Proof.
  revert next.
  induction l as [| a | a b r IH] using list_pair_ind; intros next;
    cbn [buildNextLevel].
  - intros H. inversion H. constructor.
  - destruct (hashPair a a) as [h |] eqn:E; cbn [bind]; [| discriminate].
    intros H. inversion H. repeat constructor; eapply hashPair_good; eassumption.
  - destruct (hashPair a b) as [h |] eqn:E; cbn [bind]; [| discriminate].
    destruct (buildNextLevel r) as [t |] eqn:Er; cbn [bind]; [| discriminate].
    intros H. inversion H. constructor.
    + eapply hashPair_good; eassumption.
    + apply IH. reflexivity.
Qed.

(** On a level of hash strings [buildNextLevel] returns. *)
Lemma buildNextLevel_total (l : list string) :
  Forall (fun x => isHashString x = true) l ->
  exists next, buildNextLevel l = Ok next.
Proof.
  induction l as [| a | a b r IH] using list_pair_ind; intros Hl;
    cbn [buildNextLevel].
  - eexists. reflexivity.
  - inversion Hl as [| ? ? Ha _]; subst.
    destruct (hashPair_total _ _ Ha Ha) as [h ->]. cbn [bind].
    eexists. reflexivity.
  - inversion Hl as [| ? ? Ha Hl']; subst.
    inversion Hl' as [| ? ? Hb Hr]; subst.
    destruct (hashPair_total _ _ Ha Hb) as [h ->]. cbn [bind].
    destruct (IH Hr) as [t ->]. cbn [bind].
    eexists. reflexivity.
Qed.

(** The loop of [buildTree], one turn unfolded. *)
Lemma buildLevels_step (l : list string) :
  buildLevels l =
  if (1 <? List.length l)%nat then
    next <- buildNextLevel l ;;
    rest <- buildLevels next ;;
    Ok (next :: rest)
  else Ok [].
Proof.
  funelim (buildLevels l).
  - match goal with E : (1 <? _)%nat = false |- _ => rewrite E end.
    reflexivity.
  - rewrite Hlen, Hnext. reflexivity.
  - match goal with E : buildNextLevel _ = Err _ |- _ => rewrite Hlen, E end.
    reflexivity.
Qed.

(** The shape of a finished tree: every level but the last has more than
    one node and is followed by its parents; the last is a single node. *)
Inductive chain : list (list string) -> Prop :=
| chain_top (x : string) : chain [[x]]
| chain_step (l next : list string) (rest : list (list string)) :
    1 < List.length l ->
    buildNextLevel l = Ok next ->
    chain (next :: rest) ->
    chain (l :: next :: rest).

Lemma buildLevels_chain (l : list string) (ls : list (list string)) :
  l <> [] -> buildLevels l = Ok ls -> chain (l :: ls).
Proof.
  revert ls.
  induction l as [l IH] using (well_founded_induction
                                 (Wf_nat.well_founded_ltof _ (@List.length string))).
  intros ls Hne. rewrite buildLevels_step.
  destruct (1 <? List.length l)%nat eqn:E.
  - apply Nat.ltb_lt in E.
    destruct (buildNextLevel l) as [next |] eqn:En; cbn [bind]; [| discriminate].
    destruct (buildLevels next) as [rest |] eqn:Er; cbn [bind]; [| discriminate].
    intros H. inversion H. subst ls.
    pose proof (buildNextLevel_length _ En) as Hlen.
    constructor; [exact E | exact En |].
    apply IH.
    + unfold Wf_nat.ltof. rewrite Hlen. apply half_lt. exact E.
    + intros ->. cbn [List.length] in Hlen.
      assert (1 <= (List.length l + 1) / 2) by (apply Nat.div_le_lower_bound; lia).
      lia.
    + exact Er.
  - apply Nat.ltb_ge in E. intros H. inversion H.
    destruct l as [| x [| y r]]; [congruence | constructor | simpl in E; lia].
Qed.

(** On hash strings the loop of [buildTree] returns. *)
Lemma buildLevels_total (l : list string) :
  Forall (fun x => isHashString x = true) l ->
  exists ls, buildLevels l = Ok ls.
Proof.
  induction l as [l IH] using (well_founded_induction
                                 (Wf_nat.well_founded_ltof _ (@List.length string))).
  intros Hl. rewrite buildLevels_step.
  destruct (1 <? List.length l)%nat eqn:E; [| eexists; reflexivity].
  apply Nat.ltb_lt in E.
  destruct (buildNextLevel_total Hl) as [next En]. rewrite En. cbn [bind].
  destruct (IH next) as [rest Er].
  - unfold Wf_nat.ltof. rewrite (buildNextLevel_length _ En).
    apply half_lt. exact E.
  - eapply Forall_impl; [| apply (buildNextLevel_good _ En)].
    intros x. apply goodNode_isHashString.
  - rewrite Er. cbn [bind]. eexists. reflexivity.
Qed.

(* ====================================================================== *)
(** ** Inclusion proofs *)
(* ====================================================================== *)

Lemma mod2_SS (j : nat) : S (S j) mod 2 = j mod 2.
Proof.
  replace (S (S j)) with (j + 1 * 2) by lia.
  apply Nat.Div0.mod_add.
Qed.

Lemma div2_SS (j : nat) : S (S j) / 2 = S (j / 2).
Proof.
  replace (S (S j)) with (j + 1 * 2) by lia.
  rewrite Nat.div_add by lia. lia.
Qed.

(** Two nodes further to the right the loop of [generateProof] does the
    same two nodes further down the array. *)
Lemma pushSibling_skip2 (a b : string) (r : list string) (j : nat)
      (acc : list string) :
  pushSibling (a :: b :: r) (S (S j)) acc = pushSibling r j acc.
Proof.
  unfold pushSibling. rewrite mod2_SS.
  destruct (j mod 2 =? 1)%nat eqn:E.
  - destruct j as [| k]; [discriminate |].
    replace (S (S (S k)) - 1) with (S (S k)) by lia.
    replace (S k - 1) with k by lia.
    reflexivity.
  - replace (S (S j) + 1) with (S (S (j + 1))) by lia.
    reflexivity.
Qed.

(** The sibling pushed for node [i] of a level combines with that node to
    the parent the builder put at [i / 2] of the next level: the slot to
    the right of a last single node is past the end, the node itself is
    taken, and the builder paired it with itself. *)
Lemma buildNextLevel_parent (l : list string) :
  forall (next : list string) (i : nat) (x : string) (acc : list string),
    buildNextLevel l = Ok next ->
    Forall normalized l ->
    nth_error l i = Some x ->
    exists s p,
      pushSibling l i acc = acc ++ [s] /\
      hashPair x s = Ok p /\
      nth_error next (i / 2) = Some p.
Proof.
  induction l as [| a | a b r IH] using list_pair_ind;
    intros next i x acc Hb Hn Hi; cbn [buildNextLevel] in Hb.
  - destruct i; discriminate.
  - destruct (hashPair a a) as [h |] eqn:E; cbn [bind] in Hb; [| discriminate].
    inversion Hb. subst next.
    destruct i as [| [| i]]; try discriminate.
    inversion Hi. subst x.
    inversion Hn as [| ? ? Ha _]; subst.
    exists a, h. split; [| split; [assumption | reflexivity]].
    unfold pushSibling. simpl. rewrite (normalized_truthy Ha). reflexivity.
  - destruct (hashPair a b) as [h |] eqn:E; cbn [bind] in Hb; [| discriminate].
    destruct (buildNextLevel r) as [t |] eqn:Er; cbn [bind] in Hb; [| discriminate].
    inversion Hb. subst next.
    inversion Hn as [| ? ? Ha Hn']; subst.
    inversion Hn' as [| ? ? Hb' Hr]; subst.
    destruct i as [| [| j]].
    + inversion Hi. subst x.
      exists b, h. split; [| split; [assumption | reflexivity]].
      unfold pushSibling. simpl. rewrite (normalized_truthy Hb'). reflexivity.
    + inversion Hi. subst x.
      exists a, h. split; [| split].
      * unfold pushSibling. simpl. rewrite (normalized_truthy Ha). reflexivity.
      * rewrite hashPair_comm. exact E.
      * reflexivity.
    + rewrite pushSibling_skip2, div2_SS.
      cbn [nth_error] in Hi |- *.
      apply IH; auto.
Qed.

Lemma pushSibling_acc (l : list string) (i : nat) (acc : list string) :
  pushSibling l i acc = acc ++ pushSibling l i [].
Proof.
  unfold pushSibling.
  destruct (match nth_error l (if (i mod 2 =? 1)%nat then i - 1 else i + 1) with
            | Some s => Some s
            | None => nth_error l i
            end) as [s |]; [| rewrite app_nil_r; reflexivity].
  destruct (truthy s); [reflexivity | rewrite app_nil_r; reflexivity].
Qed.

Lemma proofLoop_acc (tree : list (list string)) :
  forall (i : nat) (acc : list string),
    proofLoop tree i acc = acc ++ proofLoop tree i [].
Proof.
  induction tree as [| l [| l' rest] IH]; intros i acc.
  - simpl. rewrite app_nil_r. reflexivity.
  - simpl. rewrite app_nil_r. reflexivity.
  - change (proofLoop (l :: l' :: rest) i acc)
      with (proofLoop (l' :: rest) (i / 2) (pushSibling l i acc)).
    change (proofLoop (l :: l' :: rest) i [])
      with (proofLoop (l' :: rest) (i / 2) (pushSibling l i [])).
    rewrite IH, (IH _ (pushSibling l i [])), pushSibling_acc.
    rewrite app_assoc. reflexivity.
Qed.

Lemma chain_normalized (tree : list (list string)) :
  chain tree ->
  Forall normalized (hd [] tree) ->
  Forall (Forall normalized) tree.
Proof.
  induction 1 as [x | l next rest Hlen Hnext Hc IH]; intros Hl.
  - constructor; [exact Hl | constructor].
  - constructor; [exact Hl |].
    apply IH. simpl.
    eapply Forall_impl; [| apply (buildNextLevel_good _ Hnext)].
    intros y [Hy _]. exact Hy.
Qed.

(** A finished tree ends in a level of one node. *)
Lemma chain_lastLevel (tree : list (list string)) :
  chain tree -> exists root, lastLevel tree = Some [root].
Proof.
  induction 1 as [x | l next rest Hlen Hnext Hc [root IH]].
  - exists x. reflexivity.
  - exists root. unfold lastLevel in *. simpl in *.
    rewrite Nat.sub_0_r in IH. exact IH.
Qed.

(** Folding the generated path from a node of the bottom level climbs
    the tree and ends at the root. *)
Lemma foldPath_proofLoop (tree : list (list string)) :
  chain tree ->
  Forall (Forall normalized) tree ->
  forall (i : nat) (x : string),
    nth_error (hd [] tree) i = Some x ->
    exists root,
      lastLevel tree = Some [root] /\
      foldPath x (proofLoop tree i []) = Ok root.
Proof.
  induction 1 as [r | l next rest Hlen Hnext Hc IH]; intros Hn i x Hi.
  - simpl in Hi. destruct i as [| i]; [| destruct i; discriminate].
    inversion Hi. subst x. exists r. split; reflexivity.
  - inversion Hn as [| ? ? Hl Hn']; subst.
    simpl in Hi.
    destruct (@buildNextLevel_parent l next i x [] Hnext Hl Hi)
      as (s & p & Hpush & Hpair & Hparent).
    destruct (IH Hn' (i / 2) p Hparent) as (root & Hlast & Hfold).
    exists root. split.
    + unfold lastLevel in *. simpl in *.
      rewrite Nat.sub_0_r in Hlast. exact Hlast.
    + change (proofLoop (l :: next :: rest) i [])
        with (proofLoop (next :: rest) (i / 2) (pushSibling l i [])).
      rewrite proofLoop_acc, Hpush. simpl.
      rewrite Hpair. cbn [bind]. exact Hfold.
Qed.

(* ---------------------------------------------------------------------- *)
(** *** [findIndex] *)

Lemma findIndex_some {A : Type} (p : A -> bool) (l : list A) (i : nat) :
  findIndex p l = Some i ->
  exists x, nth_error l i = Some x /\ p x = true.
Proof.
  revert i.
  induction l as [| y r IH]; intros i; simpl; [discriminate |].
  destruct (p y) eqn:E.
  - intros H. inversion H. exists y. split; [reflexivity | exact E].
  - destruct (findIndex p r) as [j |]; [| discriminate].
    intros H. inversion H. simpl. apply IH. reflexivity.
Qed.

Lemma findIndex_exists {A : Type} (p : A -> bool) (l : list A) (x : A) :
  In x l -> p x = true -> exists i, findIndex p l = Some i.
Proof.
  induction l as [| y r IH]; simpl; [tauto |].
  intros [-> | Hin] Hp.
  - rewrite Hp. eexists. reflexivity.
  - destruct (p y); [eexists; reflexivity |].
    destruct (IH Hin Hp) as [i ->]. eexists. reflexivity.
Qed.

Lemma findIndex_none {A : Type} (p : A -> bool) (l : list A) :
  findIndex p l = None -> forall x, In x l -> p x = false.
Proof.
  induction l as [| y r IH]; simpl; [tauto |].
  destruct (p y) eqn:E; [discriminate |].
  destruct (findIndex p r); [discriminate |].
  intros _ x [<- | Hin]; [exact E | apply IH; auto].
Qed.

(* ====================================================================== *)
(** ** Batches *)
(* ====================================================================== *)

(** The leaf level of the batch built from [hashes]. *)
Definition sortedLeaves (hashes : list string) : list string :=
  sort (map normalizeHash hashes).

Lemma sortedLeaves_normalized (hashes : list string) :
  Forall normalized (sortedLeaves hashes).
Proof.
  unfold sortedLeaves.
  eapply Permutation_Forall; [apply sort_perm |].
  apply Forall_forall. intros x Hx.
  apply in_map_iff in Hx. destruct Hx as (h & <- & _).
  apply normalized_normalizeHash.
Qed.

Lemma sortedLeaves_hash (hashes : list string) :
  Forall (fun x => isHashString x = true) hashes ->
  Forall (fun x => isHashString x = true) (sortedLeaves hashes).
Proof.
  intros H. unfold sortedLeaves.
  eapply Permutation_Forall; [apply sort_perm |].
  apply Forall_forall. intros x Hx.
  apply in_map_iff in Hx. destruct Hx as (h & <- & Hin).
  unfold isHashString. rewrite normalizeHash_idem.
  rewrite Forall_forall in H. apply H. exact Hin.
Qed.

Lemma sortedLeaves_nonempty (hashes : list string) :
  hashes <> [] -> sortedLeaves hashes <> [].
Proof.
  intros Hne Hs. apply Hne.
  apply length_zero_iff_nil.
  unfold sortedLeaves in Hs.
  apply (f_equal (@List.length string)) in Hs.
  rewrite sort_length, length_map in Hs. exact Hs.
Qed.

Lemma length_eqb_0 {A : Type} (l : list A) :
  (List.length l =? 0)%nat = false <-> l <> [].
Proof.
  destruct l; simpl; split; congruence.
Qed.

(** What a returned batch is made of. *)
Lemma buildMerkleBatch_inv (env : Env) (hashes : list string)
      (batch : MerkleBatch.t) :
  buildMerkleBatch env hashes = Ok batch ->
  hashes <> [] /\
  exists ls root,
    buildLevels (sortedLeaves hashes) = Ok ls /\
    lastLevel (sortedLeaves hashes :: ls) = Some [root] /\
    batch = {| MerkleBatch.batch_id := generateBatchId env;
               MerkleBatch.root := root;
               MerkleBatch.leaves := sortedLeaves hashes;
               MerkleBatch.tree := sortedLeaves hashes :: ls;
               MerkleBatch.created_at := Z.of_N (now_created env);
               MerkleBatch.leaf_count := List.length hashes |}.
Proof.
  unfold buildMerkleBatch, buildTree. fold (sortedLeaves hashes).
  destruct (List.length hashes =? 0)%nat eqn:E; [discriminate |].
  apply length_eqb_0 in E.
  destruct (buildLevels (sortedLeaves hashes)) as [ls |] eqn:El;
    cbn [bind]; [| discriminate].
  destruct (lastLevel (sortedLeaves hashes :: ls)) as [[| root [| ? ?]] |] eqn:Elast;
    try discriminate.
  destruct (truthy root); [| discriminate].
  intros H. inversion H. subst batch. simpl.
  split; [exact E |]. exists ls, root. repeat split. exact Elast.
Qed.

(** On a non-empty list of hash strings [buildMerkleBatch] returns. *)
Lemma buildMerkleBatch_total (env : Env) (hashes : list string) :
  hashes <> [] ->
  Forall (fun x => isHashString x = true) hashes ->
  exists batch, buildMerkleBatch env hashes = Ok batch.
Proof.
  intros Hne Hh.
  unfold buildMerkleBatch, buildTree. fold (sortedLeaves hashes).
  rewrite (proj2 (length_eqb_0 hashes) Hne).
  destruct (buildLevels_total (sortedLeaves_hash Hh)) as [ls El].
  rewrite El. cbn [bind].
  pose proof (buildLevels_chain (sortedLeaves_nonempty Hne) El) as Hc.
  destruct (chain_lastLevel Hc) as [root Hlast]. rewrite Hlast.
  pose proof (chain_normalized Hc (sortedLeaves_normalized hashes)) as Hn.
  assert (Hroot : normalized root).
  { pose proof Hlast as Hin. unfold lastLevel in Hin. apply nth_error_In in Hin.
    rewrite Forall_forall in Hn. specialize (Hn _ Hin).
    inversion Hn. assumption. }
  rewrite (normalized_truthy Hroot). eexists. reflexivity.
Qed.

Lemma buildMerkleBatch_chain (env : Env) (hashes : list string)
      (batch : MerkleBatch.t) :
  buildMerkleBatch env hashes = Ok batch ->
  chain (MerkleBatch.tree batch) /\
  Forall (Forall normalized) (MerkleBatch.tree batch).
Proof.
  intros H.
  destruct (buildMerkleBatch_inv _ _ H) as (Hne & ls & root & El & _ & ->).
  simpl.
  pose proof (buildLevels_chain (sortedLeaves_nonempty Hne) El) as Hc.
  split; [exact Hc |].
  apply (chain_normalized Hc). apply sortedLeaves_normalized.
Qed.

Lemma lastLevel_in (tree : list (list string)) (l : list string) :
  lastLevel tree = Some l -> In l tree.
Proof. unfold lastLevel. apply nth_error_In. Qed.

(** [findLeafIndex] finds every hash of the input among the leaves, at a
    position that holds its normal form. *)
Lemma findLeafIndex_member (hashes : list string) (h : string) :
  In h hashes ->
  exists i, findLeafIndex (sortedLeaves hashes) h = Some i /\
            nth_error (sortedLeaves hashes) i = Some (normalizeHash h).
Proof.
  intros Hin.
  assert (Hmem : In (normalizeHash h) (sortedLeaves hashes)).
  { unfold sortedLeaves. eapply Permutation_in; [apply sort_perm |].
    apply in_map. exact Hin. }
  unfold findLeafIndex.
  destruct (findIndex_exists
              (fun leaf => String.eqb (toLowerCase leaf)
                                      (toLowerCase (normalizeHash h)))
              _ _ Hmem (String.eqb_refl _)) as [i Hi].
  exists i. split; [exact Hi |].
  destruct (findIndex_some _ _ Hi) as (x & Hx & Hp).
  rewrite Hx. f_equal.
  apply String.eqb_eq in Hp.
  apply normalized_eq_lower; [| apply normalized_normalizeHash | exact Hp].
  pose proof (sortedLeaves_normalized hashes) as Hn.
  rewrite Forall_forall in Hn. apply Hn.
  eapply nth_error_In. exact Hx.
Qed.

(** Proof generation followed by verification succeeds on a batch for
    every leaf that [findLeafIndex] locates. *)
Lemma verifyProof_generateProof (env : Env) (hashes : list string)
      (batch : MerkleBatch.t) (h : string) (i : nat) :
  buildMerkleBatch env hashes = Ok batch ->
  findLeafIndex (MerkleBatch.leaves batch) h = Some i ->
  exists proof,
    generateProof batch h = Some proof /\
    MerkleProof.leaf_index proof = i /\
    MerkleProof.root proof = MerkleBatch.root batch /\
    verifyProof proof = Ok true.
Proof.
  intros Hb Hi.
  destruct (buildMerkleBatch_chain _ _ Hb) as [Hc Hn].
  destruct (buildMerkleBatch_inv _ _ Hb) as (Hne & ls & root & El & Hlast & ->).
  cbn [MerkleBatch.leaves MerkleBatch.tree MerkleBatch.root] in *.
  unfold generateProof. cbn [MerkleBatch.leaves MerkleBatch.tree MerkleBatch.root].
  rewrite Hi.
  eexists. split; [reflexivity |]. split; [reflexivity |]. split; [reflexivity |].
  unfold verifyProof. cbn [MerkleProof.leaf MerkleProof.proof MerkleProof.root].
  (* the located leaf is the normal form of [h] *)
  destruct (findIndex_some _ _ Hi) as (x & Hx & Hp).
  apply String.eqb_eq in Hp.
  assert (Hxn : normalized x).
  { pose proof (sortedLeaves_normalized hashes) as Hl.
    rewrite Forall_forall in Hl. apply Hl. eapply nth_error_In. exact Hx. }
  assert (Hxeq : x = normalizeHash h).
  { apply normalized_eq_lower; [exact Hxn | apply normalized_normalizeHash | exact Hp]. }
  subst x. rewrite normalizeHash_idem.
  destruct (foldPath_proofLoop Hc Hn i Hx)
    as (root' & Hroot & Hfold).
  rewrite Hfold. cbn [bind].
  rewrite Hlast in Hroot. inversion Hroot. subst root'.
  assert (Hrn : normalized root).
  { apply lastLevel_in in Hlast.
    rewrite Forall_forall in Hn. specialize (Hn _ Hlast).
    inversion Hn. assumption. }
  rewrite Hrn, String.eqb_refl. reflexivity.
Qed.

(* ====================================================================== *)
(** ** Concrete data used in the examples below *)
(* ====================================================================== *)

Module Sample.

(** 32-byte hashes made of one repeated digit. *)
Definition hashOf (digit : string) : string :=
  "0x" ++ String.concat "" (repeat digit 64).

Definition h1 : string := hashOf "1".
Definition h3 : string := hashOf "3".
Definition hA : string := hashOf "A".
Definition ha : string := hashOf "a".
Definition hc : string := hashOf "c".

Definition env : Env :=
  {| now_for_id := 1700000000000;
     randomBytes := repeat (Hex.byteOfN 171) 8;
     now_created := 1700000000001 |}.

Definition three : list string := [h3; hA; h1].
Definition four : list string := [h3; hA; h1; hc].

End Sample.

(* ====================================================================== *)
(** ** Properties of the specification *)
(* ====================================================================== *)



(* ---------------------------------------------------------------------- *)
(** *** The root as a function of the leaves *)

(** The root only depends on the sorted normalized leaves: neither the
    clock nor the random bytes nor the order of the input enter it. *)
Lemma computeRoot_sortedLeaves (env env' : Env) (hashes hashes' : list string) :
  sortedLeaves hashes = sortedLeaves hashes' ->
  computeRoot env hashes = computeRoot env' hashes'.
Proof.
  intros Hs.
  assert (Hlen : List.length hashes = List.length hashes').
  { apply (f_equal (@List.length string)) in Hs. unfold sortedLeaves in Hs.
    rewrite !sort_length, !length_map in Hs. exact Hs. }
  unfold computeRoot, buildMerkleBatch, buildTree.
  fold (sortedLeaves hashes). fold (sortedLeaves hashes').
  rewrite <- Hlen, <- Hs.
  destruct (List.length hashes =? 0)%nat; [reflexivity |].
  destruct (buildLevels (sortedLeaves hashes)) as [ls |]; cbn [bind]; [| reflexivity].
  destruct (lastLevel (sortedLeaves hashes :: ls)) as [[| root [| ? ?]] |];
    try reflexivity.
  destruct (truthy root); reflexivity.
Qed.

Lemma sortedLeaves_permutation (hashes hashes' : list string) :
  Permutation (map normalizeHash hashes) (map normalizeHash hashes') ->
  sortedLeaves hashes = sortedLeaves hashes'.
Proof. apply sort_permutation. Qed.

(** Two arrays that agree element by element up to letter case. *)
Definition sameUpToCase (l l' : list string) : Prop :=
  Forall2 (fun a b => toLowerCase a = toLowerCase b) l l'.

Lemma sameUpToCase_normalize (l l' : list string) :
  sameUpToCase l l' -> map normalizeHash l = map normalizeHash l'.
Proof.
  induction 1 as [| a b l l' Hab _ IH]; simpl; [reflexivity |].
  rewrite IH. f_equal.
  rewrite <- (normalizeHash_lower a), <- (normalizeHash_lower b), Hab.
  reflexivity.
Qed.

Lemma computeRoot_total (env : Env) (hashes : list string) :
  hashes <> [] ->
  Forall (fun x => isHashString x = true) hashes ->
  exists root, computeRoot env hashes = Ok root.
Proof.
  intros Hne Hh. unfold computeRoot.
  destruct (buildMerkleBatch_total env Hne Hh) as [batch ->].
  eexists. reflexivity.
Qed.

(** C3.  For every non-empty list of hash strings [computeRoot] returns a
    root, every permutation of the list gives the same root, and so does
    every list that differs from it in the letter case of its elements
    only. *)
Theorem computeRoot_order_and_case (env : Env) (hashes : list string) :
  hashes <> [] ->
  Forall (fun x => isHashString x = true) hashes ->
  exists root,
    computeRoot env hashes = Ok root /\
    (forall P, Permutation hashes P -> computeRoot env P = Ok root) /\
    (forall C, sameUpToCase hashes C -> computeRoot env C = Ok root).
Proof.
  intros Hne Hh.
  destruct (computeRoot_total env Hne Hh) as [root Hroot].
  exists root. split; [exact Hroot |]. split.
  - intros P HP. rewrite <- Hroot.
    apply computeRoot_sortedLeaves, sortedLeaves_permutation.
    apply Permutation_map. symmetry. exact HP.
  - intros C HC. rewrite <- Hroot.
    apply computeRoot_sortedLeaves. unfold sortedLeaves.
    rewrite (sameUpToCase_normalize HC). reflexivity.
Qed.

(** C3 at three leaves: the reversed list and the list in lower case. *)
Lemma computeRoot_order_and_case_witness :
  exists root,
    computeRoot Sample.env Sample.three = Ok root /\
    (forall P, Permutation Sample.three P -> computeRoot Sample.env P = Ok root) /\
    (forall C, sameUpToCase Sample.three C -> computeRoot Sample.env C = Ok root).
Proof.
  apply (@computeRoot_order_and_case Sample.env Sample.three).
  - discriminate.
  - repeat constructor.
Defined.

Example computeRoot_three_reversed :
  computeRoot Sample.env [Sample.h1; Sample.ha; Sample.h3]
  = computeRoot Sample.env Sample.three.
Proof. vm_compute. reflexivity. Qed.

Lemma isHashString_permutation (hashes hashes' : list string) :
  Permutation (map normalizeHash hashes) (map normalizeHash hashes') ->
  Forall (fun x => isHashString x = true) hashes ->
  Forall (fun x => isHashString x = true) hashes'.
Proof.
  intros HP Hh. apply Forall_forall. intros x' Hx'.
  assert (Hin : In (normalizeHash x') (map normalizeHash hashes)).
  { eapply Permutation_in; [symmetry; exact HP |]. apply in_map. exact Hx'. }
  apply in_map_iff in Hin. destruct Hin as (x & Hx & Hxin).
  rewrite Forall_forall in Hh. specialize (Hh _ Hxin).
  unfold isHashString in *. rewrite <- Hx. exact Hh.
Qed.

(** C4, as the code has it.  For every two input lists of hash strings,
    the first not empty, whose normalized hashes are the same up to
    order, each hash as often in one list as in the other,
    [buildMerkleBatch] returns batches with the same root: the root
    depends on the multiset of the normalized leaves, not on the sequence
    the caller supplied. *)
Theorem root_depends_on_leaf_multiset (env env' : Env)
        (hashes hashes' : list string) :
  hashes <> [] ->
  Forall (fun x => isHashString x = true) hashes ->
  Permutation (map normalizeHash hashes) (map normalizeHash hashes') ->
  exists batch batch',
    buildMerkleBatch env hashes = Ok batch /\
    buildMerkleBatch env' hashes' = Ok batch' /\
    MerkleBatch.root batch = MerkleBatch.root batch'.
Proof.
  intros Hne Hh HP.
  assert (Hne' : hashes' <> []).
  { intros ->. apply Permutation_sym, Permutation_nil in HP.
    destruct hashes; [congruence | discriminate]. }
  destruct (buildMerkleBatch_total env Hne Hh) as [batch Hb].
  destruct (buildMerkleBatch_total env' Hne' (@isHashString_permutation _ _ HP Hh))
    as [batch' Hb'].
  exists batch, batch'. split; [exact Hb |]. split; [exact Hb' |].
  pose proof (computeRoot_sortedLeaves env env' _ _ (sortedLeaves_permutation _ _ HP))
    as H.
  unfold computeRoot in H. rewrite Hb, Hb' in H. cbn [bind] in H. congruence.
Qed.

Lemma root_depends_on_leaf_multiset_witness :
  exists batch batch',
    buildMerkleBatch Sample.env [Sample.hA; Sample.h1; Sample.h3] = Ok batch /\
    buildMerkleBatch Sample.env [Sample.h3; Sample.h1; Sample.ha] = Ok batch' /\
    MerkleBatch.root batch = MerkleBatch.root batch'.
Proof.
  apply (@root_depends_on_leaf_multiset Sample.env Sample.env
           [Sample.hA; Sample.h1; Sample.h3] [Sample.h3; Sample.h1; Sample.ha]).
  - discriminate.
  - repeat constructor.
  - exact (Permutation_rev (map normalizeHash [Sample.hA; Sample.h1; Sample.h3])).
Defined.

(** C4 as stated fails: the lists [[h1]] and [[h1; h1]] have the same set
    of normalized hashes and different roots, since no duplicate is
    removed before the tree is built. *)
Lemma root_depends_on_multiplicity :
  (forall x, In x (map normalizeHash [Sample.h1])
             <-> In x (map normalizeHash [Sample.h1; Sample.h1])) /\
  computeRoot Sample.env [Sample.h1] = Ok Sample.h1 /\
  computeRoot Sample.env [Sample.h1; Sample.h1]
  = Ok "0xf7363c7e1636e1798b5b1fa2ad299c05a7bb4bfeba5584fa760b4abb12c65abf" /\
  computeRoot Sample.env [Sample.h1] <> computeRoot Sample.env [Sample.h1; Sample.h1].
Proof.
  split; [| split; [| split]].
  - intros x. simpl. tauto.
  - vm_compute. reflexivity.
  - vm_compute. reflexivity.
  - vm_compute. discriminate.
Qed.

(* ---------------------------------------------------------------------- *)
(** *** The structure of a batch *)

(** Each level has [ceil (n / 2)] nodes, [n] the size of the level below. *)
Definition levelSizesHalve (tree : list (list string)) : Prop :=
  forall i below above,
    nth_error tree i = Some below ->
    nth_error tree (S i) = Some above ->
    List.length above = (List.length below + 1) / 2.

Lemma chain_levelSizesHalve (tree : list (list string)) :
  chain tree -> levelSizesHalve tree.
Proof.
  induction 1 as [x | l next rest Hlen Hnext Hc IH]; intros i below above Hi Hsi.
  - destruct i; discriminate.
  - destruct i as [| j]; simpl in Hi, Hsi.
    + inversion Hi. inversion Hsi. subst.
      apply buildNextLevel_length. exact Hnext.
    + apply (IH j); assumption.
Qed.

(** The levels above a level of one node, and above a longer level. *)
Lemma chain_inv (l : list string) (rest : list (list string)) :
  chain (l :: rest) ->
  (List.length l = 1 /\ rest = []) \/
  (1 < List.length l /\
   exists next rest',
     rest = next :: rest' /\ buildNextLevel l = Ok next /\ chain (next :: rest')).
Proof.
  intros H. inversion H; subst.
  - left. split; reflexivity.
  - right. split; [assumption |]. eauto.
Qed.

(** C8.  On a non-empty list of hash strings [buildMerkleBatch] returns a
    batch with: [tree[0]] the leaves, which are the normalized hashes
    sorted ascending; every level of size [ceil] of half the size of the
    level below; the last level exactly the root.  Four leaves give the
    level sizes 4, 2, 1 and three leaves the sizes 3, 2, 1, the third
    leaf paired with itself. *)
Theorem batch_structure (env : Env) (hashes : list string) :
  hashes <> [] ->
  Forall (fun x => isHashString x = true) hashes ->
  exists batch,
    buildMerkleBatch env hashes = Ok batch /\
    nth_error (MerkleBatch.tree batch) 0 = Some (MerkleBatch.leaves batch) /\
    MerkleBatch.leaves batch = sort (map normalizeHash hashes) /\
    sorted (MerkleBatch.leaves batch) /\
    levelSizesHalve (MerkleBatch.tree batch) /\
    lastLevel (MerkleBatch.tree batch) = Some [MerkleBatch.root batch] /\
    (List.length hashes = 4 ->
     map (@List.length string) (MerkleBatch.tree batch) = [4; 2; 1]) /\
    (List.length hashes = 3 ->
     exists a b c p q,
       MerkleBatch.tree batch = [[a; b; c]; [p; q]; [MerkleBatch.root batch]] /\
       hashPair a b = Ok p /\
       hashPair c c = Ok q /\
       hashPair p q = Ok (MerkleBatch.root batch)).
Proof.
  intros Hne Hh.
  destruct (buildMerkleBatch_total env Hne Hh) as [batch Hb].
  exists batch. split; [exact Hb |].
  destruct (buildMerkleBatch_chain _ _ Hb) as [Hc _].
  destruct (buildMerkleBatch_inv _ _ Hb) as (_ & ls & root & El & Hlast & ->).
  cbn [MerkleBatch.tree MerkleBatch.leaves MerkleBatch.root] in *.
  assert (Hsl : List.length (sortedLeaves hashes) = List.length hashes).
  { unfold sortedLeaves. rewrite sort_length, length_map. reflexivity. }
  split; [reflexivity |]. split; [reflexivity |].
  split; [apply sort_sorted |].
  split; [apply chain_levelSizesHalve; exact Hc |].
  split; [exact Hlast |].
  split.
  - intros H4. rewrite <- Hsl in H4.
    destruct (chain_inv Hc) as [[H1 _] | (_ & l1 & r1 & -> & Hn1 & Hc1)]; [lia |].
    pose proof (buildNextLevel_length _ Hn1) as Hl1. rewrite H4 in Hl1.
    change ((4 + 1) / 2) with 2 in Hl1.
    destruct (chain_inv Hc1) as [[H1 _] | (_ & l2 & r2 & -> & Hn2 & Hc2)]; [lia |].
    pose proof (buildNextLevel_length _ Hn2) as Hl2. rewrite Hl1 in Hl2.
    change ((2 + 1) / 2) with 1 in Hl2.
    destruct (chain_inv Hc2) as [[_ ->] | (H1 & _)]; [| lia].
    simpl. rewrite H4, Hl1, Hl2. reflexivity.
  - intros H3. rewrite <- Hsl in H3.
    destruct (sortedLeaves hashes) as [| a [| b [| c [| ? ?]]]] eqn:Es;
      try discriminate.
    destruct (chain_inv Hc) as [[H1 _] | (_ & l1 & r1 & -> & Hn1 & Hc1)];
      [discriminate |].
    cbn [buildNextLevel] in Hn1.
    destruct (hashPair a b) as [p |] eqn:Ep; cbn [bind] in Hn1; [| discriminate].
    destruct (hashPair c c) as [q |] eqn:Eq; cbn [bind] in Hn1; [| discriminate].
    inversion Hn1. subst l1.
    destruct (chain_inv Hc1) as [[H1 _] | (_ & l2 & r2 & -> & Hn2 & Hc2)];
      [discriminate |].
    cbn [buildNextLevel] in Hn2.
    destruct (hashPair p q) as [r |] eqn:Er; cbn [bind] in Hn2; [| discriminate].
    inversion Hn2. subst l2.
    destruct (chain_inv Hc2) as [[_ ->] | (H1 & _)]; [| simpl in H1; lia].
    unfold lastLevel in Hlast. simpl in Hlast. inversion Hlast. subst r.
    exists a, b, c, p, q. repeat split; assumption.
Qed.

(** C8 at four distinct hashes. *)
Lemma batch_structure_witness :
  exists batch,
    buildMerkleBatch Sample.env Sample.four = Ok batch /\
    nth_error (MerkleBatch.tree batch) 0 = Some (MerkleBatch.leaves batch) /\
    MerkleBatch.leaves batch = sort (map normalizeHash Sample.four) /\
    sorted (MerkleBatch.leaves batch) /\
    levelSizesHalve (MerkleBatch.tree batch) /\
    lastLevel (MerkleBatch.tree batch) = Some [MerkleBatch.root batch] /\
    (List.length Sample.four = 4 ->
     map (@List.length string) (MerkleBatch.tree batch) = [4; 2; 1]) /\
    (List.length Sample.four = 3 ->
     exists a b c p q,
       MerkleBatch.tree batch = [[a; b; c]; [p; q]; [MerkleBatch.root batch]] /\
       hashPair a b = Ok p /\
       hashPair c c = Ok q /\
       hashPair p q = Ok (MerkleBatch.root batch)).
Proof.
  apply (@batch_structure Sample.env Sample.four).
  - discriminate.
  - repeat constructor.
Defined.

(** The tree of three leaves, level by level. *)
Example buildMerkleBatch_three_tree :
  match buildMerkleBatch Sample.env Sample.three with
  | Ok batch => MerkleBatch.tree batch
  | Err _ => []
  end
  = [[Sample.h1; Sample.h3; Sample.ha];
     ["0x31fdeffd72961407e7bbd04322bc3a67ad8adeb826f07a13e86fc791fe86f8a2";
      "0x57dac4ea3b836efe165e0e3069b76bfb21907926c9da47fb246e45095a4747fa"];
     ["0x17d286cb9fa04d129854f2a214ad75130eeff5239bfd5646366bab239f057ae8"]].
Proof. vm_compute. reflexivity. Qed.

(* ====================================================================== *)
(** ** Verification of a proof on its own *)
(* ====================================================================== *)

(** On hash strings the fold of [verifyProof] never throws, and what it
    reaches is a node in normal form. *)
Lemma foldPath_total (path : list string) :
  forall current,
    isHashString current = true ->
    Forall (fun x => isHashString x = true) path ->
    exists r, foldPath current path = Ok r.
Proof.
  induction path as [| s rest IH]; intros current Hc Hp; cbn [foldPath].
  - eexists. reflexivity.
  - inversion Hp as [| ? ? Hs Hrest]; subst.
    destruct (hashPair_total _ _ Hc Hs) as [next Hnext].
    rewrite Hnext. cbn [bind].
    apply IH; [| exact Hrest].
    apply goodNode_isHashString. eapply hashPair_good. exact Hnext.
Qed.

Lemma foldPath_normalized (path : list string) :
  forall current r,
    normalized current -> foldPath current path = Ok r -> normalized r.
Proof.
  induction path as [| s rest IH]; intros current r Hc; cbn [foldPath].
  - intros H. inversion H. subst. exact Hc.
  - destruct (hashPair current s) as [next |] eqn:E; cbn [bind]; [| discriminate].
    apply IH. apply (hashPair_good _ _ E).
Qed.

(** The fold only sees the normal forms of the siblings. *)
Lemma foldPath_normalize_path (path : list string) :
  forall current,
    foldPath current (map normalizeHash path) = foldPath current path.
Proof.
  induction path as [| s rest IH]; intros current; cbn [foldPath map].
  - reflexivity.
  - rewrite hashPair_normalizeHash_r.
    destruct (hashPair current s); cbn [bind]; [apply IH | reflexivity].
Qed.

(** [verifyProof] returns true exactly when the fold from the normalized
    leaf ends in the normal form of the root. *)
Lemma verifyProof_true (p : MerkleProof.t) :
  verifyProof p = Ok true <->
  foldPath (normalizeHash (MerkleProof.leaf p)) (MerkleProof.proof p)
  = Ok (normalizeHash (MerkleProof.root p)).
Proof.
  unfold verifyProof.
  destruct (foldPath (normalizeHash (MerkleProof.leaf p)) (MerkleProof.proof p))
    as [r |] eqn:E; cbn [bind].
  - pose proof (foldPath_normalized _ (normalized_normalizeHash _) E) as Hr.
    rewrite toLowerCase_normalizeHash, (normalized_lower Hr).
    split.
    + intros H. inversion H as [Heq]. apply String.eqb_eq in Heq. congruence.
    + intros H. inversion H. rewrite String.eqb_refl. reflexivity.
  - split; discriminate.
Qed.

(** The verdict only depends on the normal forms of the three fields:
    letter case and the presence of the prefix do not enter it. *)
Lemma verifyProof_normal_forms (p p' : MerkleProof.t) :
  normalizeHash (MerkleProof.leaf p) = normalizeHash (MerkleProof.leaf p') ->
  map normalizeHash (MerkleProof.proof p) = map normalizeHash (MerkleProof.proof p') ->
  normalizeHash (MerkleProof.root p) = normalizeHash (MerkleProof.root p') ->
  verifyProof p = verifyProof p'.
Proof.
  intros Hl Hp Hr. unfold verifyProof.
  rewrite <- (foldPath_normalize_path (MerkleProof.proof p)).
  rewrite <- (foldPath_normalize_path (MerkleProof.proof p')).
  rewrite Hl, Hp, Hr. reflexivity.
Qed.

(** On hash strings [verifyProof] returns a verdict. *)
Lemma verifyProof_total (p : MerkleProof.t) :
  isHashString (MerkleProof.leaf p) = true ->
  Forall (fun x => isHashString x = true) (MerkleProof.proof p) ->
  exists b, verifyProof p = Ok b.
Proof.
  intros Hl Hp. unfold verifyProof.
  destruct (@foldPath_total (MerkleProof.proof p) (normalizeHash (MerkleProof.leaf p)))
    as [r Hr]; [| exact Hp |].
  - unfold isHashString. rewrite normalizeHash_idem. exact Hl.
  - rewrite Hr. cbn [bind]. eexists. reflexivity.
Qed.

(** The proof with another root, leaf, or sibling. *)
Definition withRoot (p : MerkleProof.t) (root' : string) : MerkleProof.t :=
  {| MerkleProof.leaf := MerkleProof.leaf p;
     MerkleProof.proof := MerkleProof.proof p;
     MerkleProof.root := root';
     MerkleProof.leaf_index := MerkleProof.leaf_index p |}.

Definition withLeaf (p : MerkleProof.t) (leaf' : string) : MerkleProof.t :=
  {| MerkleProof.leaf := leaf';
     MerkleProof.proof := MerkleProof.proof p;
     MerkleProof.root := MerkleProof.root p;
     MerkleProof.leaf_index := MerkleProof.leaf_index p |}.

Fixpoint replaceAt (k : nat) (s' : string) (path : list string) : list string :=
  match path, k with
  | [], _ => []
  | _ :: rest, O => s' :: rest
  | s :: rest, S j => s :: replaceAt j s' rest
  end.

Definition withSibling (p : MerkleProof.t) (k : nat) (s' : string)
  : MerkleProof.t :=
  {| MerkleProof.leaf := MerkleProof.leaf p;
     MerkleProof.proof := replaceAt k s' (MerkleProof.proof p);
     MerkleProof.root := MerkleProof.root p;
     MerkleProof.leaf_index := MerkleProof.leaf_index p |}.

(** A tampered root is detected when it is a different hash, not just
    the same one written differently. *)
Lemma verifyProof_tampered_root (p : MerkleProof.t) (root' : string) :
  verifyProof p = Ok true ->
  normalizeHash root' <> normalizeHash (MerkleProof.root p) ->
  verifyProof (withRoot p root') = Ok false.
Proof.
  intros Hv Hne. apply verifyProof_true in Hv.
  unfold verifyProof, withRoot.
  cbn [MerkleProof.leaf MerkleProof.proof MerkleProof.root].
  rewrite Hv. cbn [bind].
  rewrite !toLowerCase_normalizeHash.
  destruct (String.eqb_spec (normalizeHash (MerkleProof.root p)) (normalizeHash root'))
    as [Heq | _]; [congruence | reflexivity].
Qed.

(* ---------------------------------------------------------------------- *)
(** *** The digest has 32 bytes *)

Lemma bytesOfLane_length (n : nat) (z : Z) :
  List.length (Keccak.bytesOfLane n z) = n.
Proof.
  revert z. induction n as [| n IH]; intros z; simpl; [reflexivity |].
  rewrite IH. reflexivity.
Qed.

Lemma xorInto_length (A ls : list Z) :
  List.length (Keccak.xorInto A ls) = List.length A.
Proof.
  revert ls. induction A as [| a A IH]; intros [| l ls]; simpl; try reflexivity.
  rewrite IH. reflexivity.
Qed.

Lemma round_length (A : list Z) (rc : Z) :
  List.length (Keccak.round A rc) = 25.
Proof.
  unfold Keccak.round, Keccak.iota, Keccak.chi.
  destruct (map _ Keccak.coords) as [| a r] eqn:E;
    apply (f_equal (@List.length Z)) in E; rewrite length_map in E.
  - discriminate.
  - cbn [List.length] in *. rewrite <- E. reflexivity.
Qed.

Lemma rounds_length (cs : list Z) :
  forall A, List.length A = 25 ->
            List.length (fold_left Keccak.round cs A) = 25.
Proof.
  induction cs as [| c cs IH]; intros A HA; cbn [fold_left].
  - exact HA.
  - apply IH. apply round_length.
Qed.

Lemma permute_length (A : list Z) :
  List.length A = 25 -> List.length (Keccak.permute A) = 25.
Proof. apply rounds_length. Qed.

Lemma absorb_length (n : nat) :
  forall A bs, List.length A = 25 ->
               List.length (Keccak.absorb n A bs) = 25.
Proof.
  induction n as [| n IH]; intros A bs HA; cbn [Keccak.absorb].
  - exact HA.
  - apply IH. apply permute_length. rewrite xorInto_length. exact HA.
Qed.

Lemma digest_length (data : list Hex.byte) :
  List.length (Keccak.digest data) = 32.
Proof.
  unfold Keccak.digest.
  pose proof (@absorb_length
                (List.length (Keccak.pad data) / Keccak.rateBytes)
                (repeat 0%Z 25) (Keccak.pad data) eq_refl) as H.
  destruct (Keccak.absorb _ _ _) as [| a [| b [| c [| d r]]]]; try discriminate.
  cbn [firstn flat_map].
  rewrite !length_app, !bytesOfLane_length. reflexivity.
Qed.

(* ---------------------------------------------------------------------- *)
(** *** Hex data in normal form is determined by its bytes *)

Unset Implicit Arguments.

Lemma digitValue_spec (c : ascii) (v : N) :
  Hex.digitValue c = Some v -> (v < 16)%N /\ Hex.digit v = lowerChar c.
Proof.
  destruct c as [[] [] [] [] [] [] [] []]; vm_compute; intros H;
    try discriminate; inversion H; subst; split; reflexivity.
Qed.

Lemma byteToN_byteOfN (n : N) : (n < 256)%N -> Hex.byteToN (Hex.byteOfN n) = n.
Proof.
  intros Hn. unfold Hex.byteToN, Hex.byteOfN.
  rewrite (Byte.to_of_N (N_of_ascii (ascii_of_N n))).
  - apply N_ascii_embedding. exact Hn.
  - symmetry. apply byte_of_ascii_via_N.
Qed.

Lemma digits_cons_pair (a b : N) (bs : list Hex.byte) :
  (a < 16)%N -> (b < 16)%N ->
  Hex.digits (Hex.byteOfN (16 * a + b) :: bs)
  = String (Hex.digit a) (String (Hex.digit b) (Hex.digits bs)).
Proof.
  intros Ha Hb. cbn [Hex.digits].
  rewrite byteToN_byteOfN by lia.
  replace ((16 * a + b) / 16)%N with a
    by (apply N.div_unique with (r := b); lia).
  replace ((16 * a + b) mod 16)%N with b
    by (apply N.mod_unique with (q := a); lia).
  reflexivity.
Qed.

Lemma pairs_lower (d : string) :
  forall bs, toLowerCase d = d -> Hex.pairs d = Some bs -> d = Hex.digits bs.
Proof.
  induction d as [d IH] using (well_founded_induction
                                 (Wf_nat.well_founded_ltof _ String.length)).
  intros bs Hl Hp.
  destruct d as [| c [| e r]].
  - inversion Hp. reflexivity.
  - discriminate.
  - cbn [Hex.pairs] in Hp. cbn [toLowerCase] in Hl.
    injection Hl as Hc He Hr.
    destruct (Hex.digitValue c) as [a |] eqn:Ea; [| discriminate].
    destruct (Hex.digitValue e) as [b |] eqn:Eb; [| discriminate].
    destruct (Hex.pairs r) as [rs |] eqn:Er; [| discriminate].
    assert (Hbs : bs = Hex.byteOfN (16 * a + b) :: rs) by congruence.
    subst bs. clear Hp.
    destruct (digitValue_spec _ _ Ea) as [Ha Hda].
    destruct (digitValue_spec _ _ Eb) as [Hb Hdb].
    rewrite (digits_cons_pair a b rs Ha Hb), Hda, Hdb, Hc, He.
    f_equal. f_equal.
    apply IH; [unfold Wf_nat.ltof; simpl; lia | exact Hr | exact Er].
Qed.

(** Hex data in normal form is [hexlify] of its bytes. *)
Lemma getBytes_normalized (x : string) (bs : list Hex.byte) :
  normalized x -> Hex.getBytes x = Some bs -> x = Hex.hexlify bs.
Proof.
  intros Hn Hg.
  destruct (getBytes_inv _ Hg) as (d & -> & Hp).
  apply normalized_lower in Hn. simpl in Hn. injection Hn as Hd.
  unfold Hex.hexlify. simpl. f_equal. f_equal.
  apply pairs_lower; assumption.
Qed.

Lemma hexlify_inj (bs bs' : list Hex.byte) :
  Hex.hexlify bs = Hex.hexlify bs' -> bs = bs'.
Proof.
  intros H. apply (f_equal Hex.getBytes) in H.
  rewrite !getBytes_hexlify in H. congruence.
Qed.

Lemma digits_app (xs ys : list Hex.byte) :
  Hex.digits (xs ++ ys) = (Hex.digits xs ++ Hex.digits ys)%string.
Proof.
  induction xs as [| x xs IH]; [reflexivity |].
  cbn [Hex.digits app String.append]. rewrite IH. reflexivity.
Qed.

(** A 32-byte hash string. *)
Definition isHash32 (h : string) : bool :=
  match Hex.getBytes (normalizeHash h) with
  | Some bs => (List.length bs =? 32)%nat
  | None => false
  end.

Lemma isHash32_bytes (h : string) :
  isHash32 h = true ->
  exists bs, normalizeHash h = Hex.hexlify bs /\ List.length bs = 32.
Proof.
  unfold isHash32.
  destruct (Hex.getBytes (normalizeHash h)) as [bs |] eqn:E; [| discriminate].
  intros H. apply Nat.eqb_eq in H. exists bs. split; [| exact H].
  apply getBytes_normalized; [apply normalized_normalizeHash | exact E].
Qed.

Lemma isHash32_hexlify (bs : list Hex.byte) :
  List.length bs = 32 -> isHash32 (Hex.hexlify bs) = true.
Proof.
  intros H. unfold isHash32.
  rewrite (normalized_hexlify bs), getBytes_hexlify.
  apply Nat.eqb_eq. exact H.
Qed.

Lemma isHash32_isHashString (h : string) :
  isHash32 h = true -> isHashString h = true.
Proof.
  unfold isHash32, isHashString, isHexData.
  destruct (Hex.getBytes (normalizeHash h)); [reflexivity | discriminate].
Qed.

(* ---------------------------------------------------------------------- *)
(** *** What the two folds hash *)

(** The bytes [hashPair] hands to the digest. *)
Definition pairInput (a b : string) : option (list Hex.byte) :=
  let x := normalizeHash a in
  let y := normalizeHash b in
  if leb x y then Hex.getBytes (x ++ slice 2 y)
  else Hex.getBytes (y ++ slice 2 x).

Lemma hashPair_pairInput (a b : string) :
  hashPair a b =
  match pairInput a b with
  | Some bs => Ok (Hex.hexlify (Keccak.digest bs))
  | None => Err "invalid BytesLike value"
  end.
Proof.
  rewrite hashPair_unfold. unfold pairInput, keccak256.
  destruct (leb (normalizeHash a) (normalizeHash b)); reflexivity.
Qed.

Lemma pairInput_comm (a b : string) : pairInput a b = pairInput b a.
Proof.
  unfold pairInput.
  destruct (leb (normalizeHash a) (normalizeHash b)) eqn:E1,
           (leb (normalizeHash b) (normalizeHash a)) eqn:E2; try reflexivity.
  - rewrite (leb_antisym _ _ E1 E2). reflexivity.
  - apply leb_total in E1. congruence.
Qed.

Lemma pairInput_bytes (a b : string) (ba bb : list Hex.byte) :
  normalizeHash a = Hex.hexlify ba ->
  normalizeHash b = Hex.hexlify bb ->
  pairInput a b = Some (if leb (Hex.hexlify ba) (Hex.hexlify bb)
                        then ba ++ bb else bb ++ ba).
Proof.
  intros Ha Hb. unfold pairInput. rewrite Ha, Hb.
  assert (Hcat : forall xs ys,
             Hex.getBytes (Hex.hexlify xs ++ slice 2 (Hex.hexlify ys))
             = Some (xs ++ ys)).
  { intros xs ys. rewrite <- (getBytes_hexlify (xs ++ ys)).
    unfold Hex.hexlify. simpl. rewrite digits_app. reflexivity. }
  destruct (leb (Hex.hexlify ba) (Hex.hexlify bb)); apply Hcat.
Qed.

Lemma app_inj_length {A : Type} (a b c d : list A) :
  List.length a = List.length c -> a ++ b = c ++ d -> a = c /\ b = d.
Proof.
  revert c. induction a as [| x a IH]; intros [| y c] Hlen H;
    try discriminate.
  - split; [reflexivity | exact H].
  - simpl in H. injection H as Hxy H. injection Hlen as Hlen.
    destruct (IH c Hlen H) as [-> ->]. subst y. split; reflexivity.
Qed.

(** With a fixed 32-byte sibling, different 32-byte nodes give different
    inputs: sorting the pair cannot make two different pairs of equal
    length concatenate to the same bytes. *)
Lemma pairInput_inj (a a' s : string) (bs : list Hex.byte) :
  isHash32 a = true -> isHash32 a' = true -> isHash32 s = true ->
  pairInput a s = Some bs -> pairInput a' s = Some bs ->
  normalizeHash a = normalizeHash a'.
Proof.
  intros Ha Ha' Hs.
  destruct (isHash32_bytes _ Ha) as (ba & Ea & La).
  destruct (isHash32_bytes _ Ha') as (ba' & Ea' & La').
  destruct (isHash32_bytes _ Hs) as (bb & Es & Ls).
  rewrite (pairInput_bytes _ _ _ _ Ea Es), (pairInput_bytes _ _ _ _ Ea' Es).
  rewrite Ea, Ea'.
  intros H1 H2. rewrite <- H2 in H1. injection H1 as H.
  f_equal.
  destruct (leb (Hex.hexlify ba) (Hex.hexlify bb)),
           (leb (Hex.hexlify ba') (Hex.hexlify bb)).
  - apply app_inj_length in H; [tauto | lia].
  - apply app_inj_length in H; [| lia]. destruct H as [-> ->]. reflexivity.
  - apply app_inj_length in H; [| lia]. destruct H as [-> ->]. reflexivity.
  - apply app_inj_length in H; [tauto | lia].
Qed.

(** The inputs hashed along the fold of a path. *)
Fixpoint foldInputs (current : string) (path : list string)
  : list (list Hex.byte) :=
  match path with
  | [] => []
  | s :: rest =>
      match pairInput current s with
      | Some bs => bs :: foldInputs (Hex.hexlify (Keccak.digest bs)) rest
      | None => []
      end
  end.

(** Two runs collide when one hashes an input and the other a different
    input to the same Keccak-256 digest. *)
Definition collide (xs ys : list (list Hex.byte)) : Prop :=
  exists b1 b2,
    In b1 xs /\ In b2 ys /\ b1 <> b2 /\ Keccak.digest b1 = Keccak.digest b2.

Lemma collide_tail (x y : list Hex.byte) (xs ys : list (list Hex.byte)) :
  collide xs ys -> collide (x :: xs) (y :: ys).
Proof.
  intros (b1 & b2 & H1 & H2 & Hne & Hd).
  exists b1, b2. simpl. auto.
Qed.

(* ---------------------------------------------------------------------- *)
(** *** Tampering with a leaf or a sibling *)

Lemma hashPair_hash32 (a b p : string) :
  hashPair a b = Ok p -> normalized p /\ isHash32 p = true.
Proof.
  rewrite hashPair_pairInput.
  destruct (pairInput a b) as [bs |]; [| discriminate].
  intros H. inversion H. split.
  - apply normalized_hexlify.
  - apply isHash32_hexlify, digest_length.
Qed.

Lemma pairInput_total (a b : string) :
  isHash32 a = true -> isHash32 b = true -> exists bs, pairInput a b = Some bs.
Proof.
  intros Ha Hb.
  destruct (isHash32_bytes _ Ha) as (ba & Ea & _).
  destruct (isHash32_bytes _ Hb) as (bb & Eb & _).
  rewrite (pairInput_bytes _ _ _ _ Ea Eb). eexists. reflexivity.
Qed.

Definition bytes_eq_dec (x y : list Hex.byte) : {x = y} + {x <> y} :=
  list_eq_dec Byte.byte_eq_dec x y.

(** One step of two folds over the same sibling from different nodes:
    different parents, or a collision at this step. *)
Lemma hashPair_tampered (x x' s : string) :
  isHash32 x = true -> isHash32 x' = true -> isHash32 s = true ->
  normalizeHash x <> normalizeHash x' ->
  exists b b',
    pairInput x s = Some b /\ pairInput x' s = Some b' /\ b <> b' /\
    hashPair x s = Ok (Hex.hexlify (Keccak.digest b)) /\
    hashPair x' s = Ok (Hex.hexlify (Keccak.digest b')).
Proof.
  intros Hx Hx' Hs Hne.
  destruct (pairInput_total _ _ Hx Hs) as [b Hb].
  destruct (pairInput_total _ _ Hx' Hs) as [b' Hb'].
  exists b, b'. rewrite !hashPair_pairInput, Hb, Hb'.
  repeat split.
  intros ->. apply Hne. eapply pairInput_inj; eassumption.
Qed.

(** Two folds over the same path from different 32-byte nodes end in
    different hashes, unless they collide on the way. *)
Lemma foldPath_tampered_start (path : list string) :
  forall x x' r,
    isHash32 x = true -> isHash32 x' = true ->
    Forall (fun s => isHash32 s = true) path ->
    normalizeHash x <> normalizeHash x' ->
    foldPath x path = Ok r ->
    exists r',
      foldPath x' path = Ok r' /\
      (normalizeHash r' <> normalizeHash r \/
       collide (foldInputs x path) (foldInputs x' path)).
Proof.
  induction path as [| s rest IH]; intros x x' r Hx Hx' Hp Hne Hf.
  - cbn [foldPath] in *. inversion Hf. subst r.
    exists x'. split; [reflexivity |]. left. congruence.
  - inversion Hp as [| ? ? Hs Hrest]; subst.
    destruct (hashPair_tampered _ _ _ Hx Hx' Hs Hne)
      as (b & b' & Hb & Hb' & Hbb & Hh & Hh').
    cbn [foldPath foldInputs] in *. rewrite Hb, Hb'.
    rewrite Hh in Hf. rewrite Hh'. cbn [bind] in *.
    destruct (bytes_eq_dec (Keccak.digest b) (Keccak.digest b')) as [Hd | Hd].
    + (* the same digest from different inputs *)
      rewrite <- Hd.
      exists r. split; [exact Hf |]. right.
      exists b, b'. simpl. auto.
    + destruct (IH (Hex.hexlify (Keccak.digest b)) (Hex.hexlify (Keccak.digest b')) r)
        as (r' & Hr' & Hor); try assumption.
      * apply isHash32_hexlify, digest_length.
      * apply isHash32_hexlify, digest_length.
      * rewrite (normalized_hexlify (Keccak.digest b)),
                (normalized_hexlify (Keccak.digest b')).
        intros Heq. apply Hd. apply hexlify_inj. exact Heq.
      * exists r'. split; [exact Hr' |].
        destruct Hor as [Hor | Hor]; [left; exact Hor |].
        right. apply collide_tail. exact Hor.
Qed.

Lemma hashPair_swap_args_normal (x s s' : string) :
  normalizeHash s = normalizeHash s' -> hashPair x s = hashPair x s'.
Proof.
  intros H. rewrite <- (hashPair_normalizeHash_r x s), H.
  apply hashPair_normalizeHash_r.
Qed.

(** Two folds from the same node over paths that differ in one 32-byte
    sibling end in different hashes, unless they collide on the way. *)
Lemma foldPath_tampered_sibling (path : list string) :
  forall k s s' x r,
    isHash32 x = true ->
    Forall (fun s => isHash32 s = true) path ->
    nth_error path k = Some s ->
    isHash32 s' = true ->
    normalizeHash s' <> normalizeHash s ->
    foldPath x path = Ok r ->
    exists r',
      foldPath x (replaceAt k s' path) = Ok r' /\
      (normalizeHash r' <> normalizeHash r \/
       collide (foldInputs x path) (foldInputs x (replaceAt k s' path))).
Proof.
  induction path as [| t rest IH]; intros k s s' x r Hx Hp Hk Hs' Hne Hf.
  - destruct k; discriminate.
  - inversion Hp as [| ? ? Ht Hrest]; subst.
    destruct k as [| j].
    + (* the altered sibling is the first one *)
      cbn [nth_error] in Hk. inversion Hk. subst t.
      cbn [replaceAt].
      destruct (hashPair_tampered s s' x Ht Hs' Hx (not_eq_sym Hne))
        as (b & b' & Hb & Hb' & Hbb & Hh & Hh').
      rewrite pairInput_comm in Hb, Hb'.
      rewrite hashPair_comm in Hh, Hh'.
      cbn [foldPath foldInputs] in *. rewrite Hb, Hb'.
      rewrite Hh in Hf. rewrite Hh'. cbn [bind] in *.
      destruct (bytes_eq_dec (Keccak.digest b) (Keccak.digest b')) as [Hd | Hd].
      * rewrite <- Hd. exists r. split; [exact Hf |]. right.
        exists b, b'. simpl. auto.
      * destruct (foldPath_tampered_start rest
                    (Hex.hexlify (Keccak.digest b))
                    (Hex.hexlify (Keccak.digest b')) r)
          as (r' & Hr' & Hor); try assumption.
        -- apply isHash32_hexlify, digest_length.
        -- apply isHash32_hexlify, digest_length.
        -- rewrite (normalized_hexlify (Keccak.digest b)),
                   (normalized_hexlify (Keccak.digest b')).
           intros Heq. apply Hd. apply hexlify_inj. exact Heq.
        -- exists r'. split; [exact Hr' |].
           destruct Hor as [Hor | Hor]; [left; exact Hor |].
           right. apply collide_tail. exact Hor.
    + (* the first step is common to both folds *)
      cbn [nth_error] in Hk. cbn [replaceAt foldPath foldInputs] in *.
      rewrite hashPair_pairInput in *.
      destruct (pairInput x t) as [b |]; [| discriminate].
      cbn [bind] in *.
      destruct (IH j s s' (Hex.hexlify (Keccak.digest b)) r)
        as (r' & Hr' & Hor); try assumption.
      * apply isHash32_hexlify, digest_length.
      * exists r'. split; [exact Hr' |].
        destruct Hor as [Hor | Hor]; [left; exact Hor |].
        right. apply collide_tail. exact Hor.
Qed.

(* ---------------------------------------------------------------------- *)
(** *** C5: what [verifyProof] detects *)

Lemma isHash32_normalizeHash (h : string) :
  isHash32 (normalizeHash h) = isHash32 h.
Proof. unfold isHash32. rewrite normalizeHash_idem. reflexivity. Qed.

(** The verdict when the fold ends in [r]. *)
Lemma verifyProof_fold (p : MerkleProof.t) (r : string) :
  foldPath (normalizeHash (MerkleProof.leaf p)) (MerkleProof.proof p) = Ok r ->
  verifyProof p = Ok (String.eqb r (normalizeHash (MerkleProof.root p))).
Proof.
  intros Hf. unfold verifyProof. rewrite Hf. cbn [bind].
  pose proof (foldPath_normalized _ (normalized_normalizeHash _) Hf) as Hr.
  rewrite toLowerCase_normalizeHash, (normalized_lower Hr). reflexivity.
Qed.

Lemma verifyProof_other_end (p p' : MerkleProof.t) (r r' : string) :
  MerkleProof.root p' = MerkleProof.root p ->
  verifyProof p = Ok true ->
  foldPath (normalizeHash (MerkleProof.leaf p)) (MerkleProof.proof p) = Ok r ->
  foldPath (normalizeHash (MerkleProof.leaf p')) (MerkleProof.proof p') = Ok r' ->
  normalizeHash r' <> normalizeHash r ->
  verifyProof p' = Ok false.
Proof.
  intros Hroot Hv Hf Hf' Hne.
  apply verifyProof_true in Hv. rewrite Hf in Hv. inversion Hv as [Hr].
  rewrite (verifyProof_fold _ _ Hf'), Hroot, <- Hr.
  pose proof (foldPath_normalized _ (normalized_normalizeHash _) Hf') as Hn'.
  pose proof (foldPath_normalized _ (normalized_normalizeHash _) Hf) as Hn.
  rewrite Hn', Hn in Hne.
  destruct (String.eqb_spec r' r); [congruence | reflexivity].
Qed.

(** C5, as the code has it.  For a proof whose leaf and siblings are hash
    strings [verifyProof] returns a verdict and does not raise.  The
    verdict is taken on the normal forms of the fields, so rewriting a
    field in another letter case or without its prefix does not change
    it.  When the proof verifies: a root with another normal form makes
    the verdict false; and, on 32-byte hashes, another 32-byte leaf or
    another 32-byte sibling at one position makes the verdict false
    unless the original and the altered fold hash two different inputs
    to the same Keccak-256 digest. *)
Theorem verifyProof_tamper_evidence (p : MerkleProof.t) :
  isHashString (MerkleProof.leaf p) = true ->
  Forall (fun s => isHashString s = true) (MerkleProof.proof p) ->
  (exists verdict, verifyProof p = Ok verdict) /\
  (forall p',
      normalizeHash (MerkleProof.leaf p') = normalizeHash (MerkleProof.leaf p) ->
      map normalizeHash (MerkleProof.proof p')
      = map normalizeHash (MerkleProof.proof p) ->
      normalizeHash (MerkleProof.root p') = normalizeHash (MerkleProof.root p) ->
      verifyProof p' = verifyProof p) /\
  (verifyProof p = Ok true ->
   (forall root',
       normalizeHash root' <> normalizeHash (MerkleProof.root p) ->
       verifyProof (withRoot p root') = Ok false) /\
   (isHash32 (MerkleProof.leaf p) = true ->
    Forall (fun s => isHash32 s = true) (MerkleProof.proof p) ->
    (forall leaf',
        isHash32 leaf' = true ->
        normalizeHash leaf' <> normalizeHash (MerkleProof.leaf p) ->
        verifyProof (withLeaf p leaf') = Ok false \/
        collide (foldInputs (normalizeHash (MerkleProof.leaf p)) (MerkleProof.proof p))
                (foldInputs (normalizeHash leaf') (MerkleProof.proof p))) /\
    (forall k s s',
        nth_error (MerkleProof.proof p) k = Some s ->
        isHash32 s' = true ->
        normalizeHash s' <> normalizeHash s ->
        verifyProof (withSibling p k s') = Ok false \/
        collide (foldInputs (normalizeHash (MerkleProof.leaf p)) (MerkleProof.proof p))
                (foldInputs (normalizeHash (MerkleProof.leaf p))
                            (replaceAt k s' (MerkleProof.proof p)))))).
Proof.
  intros Hl Hp.
  split; [apply verifyProof_total; assumption |].
  split; [intros p' H1 H2 H3; apply verifyProof_normal_forms; assumption |].
  intros Hv.
  split; [intros root' Hne; apply verifyProof_tampered_root; assumption |].
  intros Hl32 Hp32.
  assert (Hf : exists r, foldPath (normalizeHash (MerkleProof.leaf p))
                                  (MerkleProof.proof p) = Ok r).
  { apply verifyProof_true in Hv. eexists. exact Hv. }
  destruct Hf as [r Hf].
  split.
  - intros leaf' Hl' Hne.
    destruct (foldPath_tampered_start (MerkleProof.proof p)
                (normalizeHash (MerkleProof.leaf p)) (normalizeHash leaf') r)
      as (r' & Hf' & [Hor | Hor]); try assumption.
    + rewrite isHash32_normalizeHash. exact Hl32.
    + rewrite isHash32_normalizeHash. exact Hl'.
    + rewrite !normalizeHash_idem. congruence.
    + left. apply (verifyProof_other_end p (withLeaf p leaf') r r');
        try assumption. reflexivity.
    + right. exact Hor.
  - intros k s s' Hk Hs' Hne.
    destruct (foldPath_tampered_sibling (MerkleProof.proof p) k s s'
                (normalizeHash (MerkleProof.leaf p)) r)
      as (r' & Hf' & [Hor | Hor]); try assumption.
    + rewrite isHash32_normalizeHash. exact Hl32.
    + left. apply (verifyProof_other_end p (withSibling p k s') r r');
        try assumption. reflexivity.
    + right. exact Hor.
Qed.

(** Two strings of the same length that differ in exactly one code unit. *)
Fixpoint differInOneByte (a b : string) : bool :=
  match a, b with
  | String x a', String y b' =>
      if Ascii.eqb x y then differInOneByte a' b' else String.eqb a' b'
  | _, _ => false
  end.

Module SampleProof.

(** The proof [generateProof] returns for the leaf [hA] of the batch of
    [Sample.three]: the leaf is the last of three, its first sibling is
    the leaf itself. *)
Definition sibling1 : string :=
  "0x31fdeffd72961407e7bbd04322bc3a67ad8adeb826f07a13e86fc791fe86f8a2".

Definition root : string :=
  "0x17d286cb9fa04d129854f2a214ad75130eeff5239bfd5646366bab239f057ae8".

Definition proofA : MerkleProof.t :=
  {| MerkleProof.leaf := Sample.ha;
     MerkleProof.proof := [Sample.ha; sibling1];
     MerkleProof.root := root;
     MerkleProof.leaf_index := 2 |}.

(** The root with one letter in upper case, and the sibling with one
    digit replaced by a letter that is no hex digit. *)
Definition rootUpper : string :=
  "0x17D286cb9fa04d129854f2a214ad75130eeff5239bfd5646366bab239f057ae8".

Definition siblingNoHex : string :=
  "0xg1fdeffd72961407e7bbd04322bc3a67ad8adeb826f07a13e86fc791fe86f8a2".

End SampleProof.

Example proofA_generated :
  match buildMerkleBatch Sample.env Sample.three with
  | Ok batch => generateProof batch Sample.hA
  | Err _ => None
  end = Some SampleProof.proofA.
Proof. vm_compute. reflexivity. Qed.

(** C5 as stated fails twice on a proof that verifies.  One byte of the
    root changed to the same letter in upper case: the verdict stays
    true.  One byte of a sibling changed to a letter that is no hex
    digit: [keccak256] refuses the data and [verifyProof] raises. *)
Lemma verifyProof_single_byte_mutations :
  verifyProof SampleProof.proofA = Ok true /\
  differInOneByte SampleProof.root SampleProof.rootUpper = true /\
  verifyProof (withRoot SampleProof.proofA SampleProof.rootUpper) = Ok true /\
  differInOneByte SampleProof.sibling1 SampleProof.siblingNoHex = true /\
  verifyProof (withSibling SampleProof.proofA 1 SampleProof.siblingNoHex)
  = Err "invalid BytesLike value".
Proof.
  repeat split; vm_compute; reflexivity.
Qed.

(** C5 at the proof above. *)
Lemma verifyProof_tamper_evidence_witness :
  (exists verdict, verifyProof SampleProof.proofA = Ok verdict) /\
  (forall p',
      normalizeHash (MerkleProof.leaf p') = normalizeHash (MerkleProof.leaf SampleProof.proofA) ->
      map normalizeHash (MerkleProof.proof p')
      = map normalizeHash (MerkleProof.proof SampleProof.proofA) ->
      normalizeHash (MerkleProof.root p') = normalizeHash (MerkleProof.root SampleProof.proofA) ->
      verifyProof p' = verifyProof SampleProof.proofA) /\
  (verifyProof SampleProof.proofA = Ok true ->
   (forall root',
       normalizeHash root' <> normalizeHash (MerkleProof.root SampleProof.proofA) ->
       verifyProof (withRoot SampleProof.proofA root') = Ok false) /\
   (isHash32 (MerkleProof.leaf SampleProof.proofA) = true ->
    Forall (fun s => isHash32 s = true) (MerkleProof.proof SampleProof.proofA) ->
    (forall leaf',
        isHash32 leaf' = true ->
        normalizeHash leaf' <> normalizeHash (MerkleProof.leaf SampleProof.proofA) ->
        verifyProof (withLeaf SampleProof.proofA leaf') = Ok false \/
        collide (foldInputs (normalizeHash (MerkleProof.leaf SampleProof.proofA)) (MerkleProof.proof SampleProof.proofA))
                (foldInputs (normalizeHash leaf') (MerkleProof.proof SampleProof.proofA))) /\
    (forall k s s',
        nth_error (MerkleProof.proof SampleProof.proofA) k = Some s ->
        isHash32 s' = true ->
        normalizeHash s' <> normalizeHash s ->
        verifyProof (withSibling SampleProof.proofA k s') = Ok false \/
        collide (foldInputs (normalizeHash (MerkleProof.leaf SampleProof.proofA)) (MerkleProof.proof SampleProof.proofA))
                (foldInputs (normalizeHash (MerkleProof.leaf SampleProof.proofA))
                            (replaceAt k s' (MerkleProof.proof SampleProof.proofA)))))).
Proof.
  apply (verifyProof_tamper_evidence SampleProof.proofA).
  - reflexivity.
  - repeat constructor.
Defined.

(* ====================================================================== *)
(** ** The top-level values of [canonicalize] *)
(* ====================================================================== *)

(** C6, as the code has it.  [canonicalize] raises for [null] and
    [undefined] and for every string, number and boolean; it returns a
    text for every mapping and also for every array at the top level:
    the guard is [typeof obj !== 'object'], which an array passes. *)
Theorem canonicalize_top_level (obj : JsValue) :
  match obj with
  | JUndefined | JNull =>
      canonicalize obj = Err "Cannot canonicalize null or undefined"
  | JBool _ | JNum _ | JStr _ =>
      canonicalize obj = Err "Can only canonicalize objects"
  | JArr _ | JObj _ =>
      canonicalize obj = Ok (serialize (canonicalizeValue obj))
  end.
Proof.
  destruct obj; reflexivity.
Qed.

(** C6 as stated fails: a top-level array is canonicalized, not refused. *)
Lemma canonicalize_accepts_top_level_array :
  canonicalize (JArr [JInt 3; JInt 1; JInt 2]) = Ok "[3,1,2]" /\
  canonicalize (JArr []) = Ok "[]".
Proof. split; vm_compute; reflexivity. Qed.

(* ====================================================================== *)
(** ** The verification pipeline *)
(* ====================================================================== *)

(** The stages at which [verifyInference] gives a negative result. *)
Inductive FailureCause : Type :=
| MissingInput
| HashMismatch
| NotBatched
| ProofGeneration
| ProofInvalid
| NotAnchored
| OnChainMismatch
| ChainUnreachable.

(** The text of the [error] field for a cause; the two on-chain causes
    append a detail. *)
Definition causeMessage (cause : FailureCause) (detail : string) : string :=
  match cause with
  | MissingInput => "Must provide either record or hash"
  | HashMismatch => "Provided hash does not match computed hash from record"
  | NotBatched => "Inference not found in any batch"
  | ProofGeneration => "Failed to generate Merkle proof"
  | ProofInvalid => "Merkle proof verification failed"
  | NotAnchored => "Batch not anchored on-chain"
  | OnChainMismatch => "On-chain verification failed: " ++ detail
  | ChainUnreachable => "On-chain check failed: " ++ detail
  end.


(** C10.  Called with neither a record nor a hash, [verifyInference]
    returns, without raising, the result with [verified] false, an empty
    [inference_hash] and the message that one of the two is required; an
    empty hash string counts as absent. *)
Theorem verifyInference_missing_input (storage : Storage) (ledger : Ledger)
        (options : option VerifyOptions) :
  verifyInference storage ledger (mkInput None None) options
  = Ok (failed "" "Must provide either record or hash") /\
  verifyInference storage ledger (mkInput None (Some "")) options
  = Ok (failed "" "Must provide either record or hash") /\
  VerificationResult.verified (failed "" "Must provide either record or hash")
  = false /\
  VerificationResult.inference_hash (failed "" "Must provide either record or hash")
  = "".
Proof. repeat split. Qed.

(* ---------------------------------------------------------------------- *)
(** *** The lookups *)

Lemma findBatchContainingHash_none (storage : Storage) (h : string) :
  (forall batch leaf,
      In batch (batches storage) -> In leaf (MerkleBatch.leaves batch) ->
      toLowerCase leaf <> toLowerCase h) ->
  findBatchContainingHash storage h = None.
Proof.
  intros H. unfold findBatchContainingHash.
  destruct (find _ (batches storage)) as [batch |] eqn:E; [| reflexivity].
  apply find_some in E. destruct E as [Hin Hex].
  apply existsb_exists in Hex. destruct Hex as (leaf & Hleaf & Heq).
  apply String.eqb_eq in Heq. exfalso. exact (H batch leaf Hin Hleaf Heq).
Qed.

Lemma findBatchContainingHash_some (storage : Storage) (h : string)
      (batch : MerkleBatch.t) :
  findBatchContainingHash storage h = Some batch ->
  In batch (batches storage) /\
  exists leaf, In leaf (MerkleBatch.leaves batch) /\
               toLowerCase leaf = toLowerCase h.
Proof.
  unfold findBatchContainingHash. intros E.
  apply find_some in E. destruct E as [Hin Hex].
  apply existsb_exists in Hex. destruct Hex as (leaf & Hleaf & Heq).
  apply String.eqb_eq in Heq. split; [exact Hin |]. exists leaf. auto.
Qed.



(* ---------------------------------------------------------------------- *)
(** *** C9: negative outcomes and their causes *)

(** Every negative result carries the message of one of the causes. *)
Lemma resolveIdentity_early (input : VerifyInput) (r : VerificationResult.t) :
  resolveIdentity input = Ok (inr r) ->
  exists cause detail,
    VerificationResult.error r = Some (causeMessage cause detail).
Proof.
  unfold resolveIdentity.
  destruct (record input) as [rec |].
  - destruct (hashInference rec) as [h |]; cbn [bind]; [| discriminate].
    destruct (truthyOption (hash input)); [| discriminate].
    destruct (verifyInferenceHash rec _) as [[] |]; cbn [bind negb];
      try discriminate.
    intros H. inversion H. exists HashMismatch, "". reflexivity.
  - destruct (truthyOption (hash input)); [discriminate |].
    intros H. inversion H. exists MissingInput, "". reflexivity.
Qed.

Lemma verifyLocated_negative_cause (storage : Storage) (ledger : Ledger)
      (options : option VerifyOptions) (h : string)
      (r : VerificationResult.t) :
  verifyLocated storage ledger options h = Ok r ->
  VerificationResult.verified r = false ->
  exists cause detail,
    VerificationResult.error r = Some (causeMessage cause detail).
Proof.
  unfold verifyLocated, verifyOnChain, failed.
  intros H Hv.
  repeat match type of H with
         | context [match ?x with _ => _ end] => destruct x eqn:?
         | context [if ?x then _ else _] => destruct x eqn:?
         | context [bind ?x _] => destruct x eqn:?; cbn [bind] in H
         end;
    try discriminate H;
    inversion H; subst r; cbn in Hv |- *; try discriminate Hv;
    first [ exists NotBatched, ""; reflexivity
          | exists ProofGeneration, ""; reflexivity
          | exists ProofInvalid, ""; reflexivity
          | exists NotAnchored, ""; reflexivity
          | eexists OnChainMismatch, _; reflexivity
          | eexists ChainUnreachable, _; reflexivity ].
Qed.

(** Every negative result carries the message of one of the causes. *)
Lemma verifyInference_negative_cause (storage : Storage) (ledger : Ledger)
      (input : VerifyInput) (options : option VerifyOptions)
      (r : VerificationResult.t) :
  verifyInference storage ledger input options = Ok r ->
  VerificationResult.verified r = false ->
  exists cause detail,
    VerificationResult.error r = Some (causeMessage cause detail).
Proof.
  unfold verifyInference.
  destruct (resolveIdentity input) as [[h | early] |] eqn:E; cbn [bind];
    try discriminate.
  - apply verifyLocated_negative_cause.
  - intros H _. inversion H. subst early.
    apply (resolveIdentity_early _ _ E).
Qed.

(** A negative result of a stage after the first: the hash, the root of
    the batch once it is found, the transaction of the anchor once it is
    found, the proof once it is generated, and the message. *)
Definition negative (h : string) (root tx : option string)
           (proof : option MerkleProof.t) (message : string)
  : VerificationResult.t :=
  {| VerificationResult.verified := false;
     VerificationResult.inference_hash := h;
     VerificationResult.merkle_root := root;
     VerificationResult.anchored_at := None;
     VerificationResult.block_number := None;
     VerificationResult.chain_id := None;
     VerificationResult.chain_name := None;
     VerificationResult.tx_hash := tx;
     VerificationResult.proof := proof;
     VerificationResult.error := Some message |}.





Module SampleStore.

(** The batch of [Sample.three]. *)
Definition batch : MerkleBatch.t :=
  {| MerkleBatch.batch_id := "batch_18bcfe56800_abababababababab";
     MerkleBatch.root := SampleProof.root;
     MerkleBatch.leaves := [Sample.h1; Sample.h3; Sample.ha];
     MerkleBatch.tree :=
       [[Sample.h1; Sample.h3; Sample.ha];
        [SampleProof.sibling1;
         "0x57dac4ea3b836efe165e0e3069b76bfb21907926c9da47fb246e45095a4747fa"];
        [SampleProof.root]];
     MerkleBatch.created_at := 1700000000001;
     MerkleBatch.leaf_count := 3 |}.

Definition anchor : AnchorRecord.t :=
  {| AnchorRecord.batch_id := "batch_18bcfe56800_abababababababab";
     AnchorRecord.merkle_root := SampleProof.root;
     AnchorRecord.tx_hash := "0xfeed";
     AnchorRecord.block_number := 42;
     AnchorRecord.chain_id := 84532;
     AnchorRecord.chain_name := "Base Sepolia";
     AnchorRecord.anchored_at := 1700000000999 |}.

(** A store with the batch and no anchor, and one with its anchor. *)
Definition unanchored : Storage := {| batches := [batch]; anchors := [] |}.
Definition anchored : Storage := {| batches := [batch]; anchors := [anchor] |}.

(** A ledger that is never asked. *)
Definition ledger : Ledger := fun _ _ _ => Err "unreachable".

End SampleStore.

Example sample_batch_built :
  buildMerkleBatch Sample.env Sample.three = Ok SampleStore.batch.
Proof. vm_compute. reflexivity. Qed.

(** A store whose batch holds a node that is no hex data, and a record
    without its prompt hash. *)
Module CorruptStore.

Definition batch : MerkleBatch.t :=
  {| MerkleBatch.batch_id := "batch_18bcfe56800_abababababababab";
     MerkleBatch.root := SampleProof.root;
     MerkleBatch.leaves := [Sample.h1; "0xzz"];
     MerkleBatch.tree := [[Sample.h1; "0xzz"]; [SampleProof.root]];
     MerkleBatch.created_at := 1700000000001;
     MerkleBatch.leaf_count := 2 |}.

Definition storage : Storage := {| batches := [batch]; anchors := [] |}.

Definition record : InferenceRecord :=
  [ ("model", JStr "gpt-4"); ("output_hash", JStr "0xdef456") ].

End CorruptStore.



(** The full pipeline on the anchored store: the verdict is positive and
    carries the root, the block and the chain of the anchor. *)
Example verifyInference_anchored :
  verifyInference SampleStore.anchored SampleStore.ledger
                  (mkInput None (Some Sample.hA)) None
  = Ok {| VerificationResult.verified := true;
          VerificationResult.inference_hash := Sample.hA;
          VerificationResult.merkle_root := Some SampleProof.root;
          VerificationResult.anchored_at := Some 1700000000999%Z;
          VerificationResult.block_number := Some 42%Z;
          VerificationResult.chain_id := Some 84532%Z;
          VerificationResult.chain_name := Some "Base Sepolia";
          VerificationResult.tx_hash := Some "0xfeed";
          VerificationResult.proof := Some SampleProof.proofA;
          VerificationResult.error := None |}.
Proof. vm_compute. reflexivity. Qed.

(* ====================================================================== *)
(** ** Objects: property order *)
(* ====================================================================== *)

(** Induction on a value with the hypothesis for every element of an
    array and every property value of an object. *)
Lemma JsValue_ind_nested (P : JsValue -> Prop) :
  P JUndefined ->
  P JNull ->
  (forall b, P (JBool b)) ->
  (forall n, P (JNum n)) ->
  (forall s, P (JStr s)) ->
  (forall items, Forall P items -> P (JArr items)) ->
  (forall props, Forall (fun p => P (snd p)) props -> P (JObj props)) ->
  forall v, P v.
Proof.
  intros Hu Hn Hb Hz Hs Ha Ho.
  fix IH 1.
  intros [| | b | n | s | items | props].
  - exact Hu.
  - exact Hn.
  - apply Hb.
  - apply Hz.
  - apply Hs.
  - apply Ha.
    induction items as [| x r IHr]; constructor; [apply IH | exact IHr].
  - apply Ho.
    induction props as [| [k x] r IHr]; constructor; [apply IH | exact IHr].
Qed.

Lemma hasOwn_In (obj : JsObject) (key : string) :
  hasOwn obj key = true <-> In key (objKeys obj).
Proof.
  unfold hasOwn, objKeys. rewrite existsb_exists, in_map_iff.
  split.
  - intros ([k v] & Hin & Heq). apply String.eqb_eq in Heq.
    exists (k, v). auto.
  - intros ([k v] & Heq & Hin). exists (k, v). split; [exact Hin |].
    apply String.eqb_eq. exact Heq.
Qed.

Lemma hasOwn_false (obj : JsObject) (key : string) :
  hasOwn obj key = false <-> ~ In key (objKeys obj).
Proof.
  rewrite <- hasOwn_In. destruct (hasOwn obj key); split; congruence.
Qed.

Lemma objGet_absent (obj : JsObject) (key : string) :
  ~ In key (objKeys obj) -> objGet obj key = JUndefined.
Proof.
  induction obj as [| [k v] r IH]; simpl; [reflexivity |].
  intros H. destruct (String.eqb_spec k key) as [-> | _]; [tauto |].
  apply IH. tauto.
Qed.

Lemma objGet_In (obj : JsObject) (key : string) (v : JsValue) :
  NoDup (objKeys obj) -> In (key, v) obj -> objGet obj key = v.
Proof.
  induction obj as [| [k w] r IH]; simpl; [tauto |].
  intros Hnd [Heq | Hin].
  - inversion Heq. subst. rewrite String.eqb_refl. reflexivity.
  - inversion Hnd as [| ? ? Hk Hr]; subst.
    destruct (String.eqb_spec k key) as [-> | _].
    + exfalso. apply Hk. apply in_map_iff. exists (key, v). auto.
    + apply IH; assumption.
Qed.

(* ---------------------------------------------------------------------- *)
(** *** [replaceValue], [insertIndexed], [defineOwn] *)

Lemma replaceValue_keys (obj : JsObject) (key : string) (v : JsValue) :
  objKeys (replaceValue obj key v) = objKeys obj.
Proof.
  induction obj as [| [k w] r IH]; simpl; [reflexivity |].
  destruct (String.eqb k key); simpl; [reflexivity | rewrite IH; reflexivity].
Qed.

Lemma replaceValue_get (obj : JsObject) (key key' : string) (v : JsValue) :
  In key (objKeys obj) ->
  objGet (replaceValue obj key v) key'
  = if String.eqb key key' then v else objGet obj key'.
Proof.
  induction obj as [| [k w] r IH]; simpl; [tauto |].
  intros Hin.
  destruct (String.eqb_spec k key) as [-> | Hne]; simpl.
  - destruct (String.eqb key key'); reflexivity.
  - destruct (String.eqb_spec k key') as [-> | Hne'].
    + destruct (String.eqb_spec key key'); [congruence | reflexivity].
    + apply IH. destruct Hin; [congruence | assumption].
Qed.

Lemma insertIndexed_perm (n : N) (key : string) (v : JsValue) (obj : JsObject) :
  Permutation (insertIndexed n key v obj) ((key, v) :: obj).
Proof.
  induction obj as [| [k w] r IH]; simpl; [reflexivity |].
  destruct (arrayIndex k) as [m |]; [| reflexivity].
  destruct (m <? n)%N; [| reflexivity].
  rewrite IH. apply perm_swap.
Qed.

Lemma insertIndexed_get (n : N) (key key' : string) (v : JsValue)
      (obj : JsObject) :
  ~ In key (objKeys obj) ->
  objGet (insertIndexed n key v obj) key'
  = if String.eqb key key' then v else objGet obj key'.
Proof.
  induction obj as [| [k w] r IH]; simpl; intros Hnin.
  - reflexivity.
  - destruct (arrayIndex k) as [m |]; [| reflexivity].
    destruct (m <? n)%N; [| reflexivity].
    simpl in Hnin. simpl. rewrite IH by tauto.
    destruct (String.eqb_spec k key') as [-> | _]; [| reflexivity].
    destruct (String.eqb_spec key key') as [-> | _]; [| reflexivity].
    exfalso. apply Hnin. left. reflexivity.
Qed.

Lemma objGet_app (a b : JsObject) (key : string) :
  objGet (a ++ b) key
  = if hasOwn a key then objGet a key else objGet b key.
Proof.
  induction a as [| [k w] r IH]; simpl; [reflexivity |].
  destruct (String.eqb k key); simpl; [reflexivity | exact IH].
Qed.

(** Reading after [defineOwn]. *)
Lemma defineOwn_get (obj : JsObject) (key key' : string) (v : JsValue) :
  objGet (defineOwn obj key v) key'
  = if String.eqb key key' then v else objGet obj key'.
Proof.
  unfold defineOwn.
  destruct (hasOwn obj key) eqn:E.
  - apply replaceValue_get. apply hasOwn_In. exact E.
  - apply hasOwn_false in E.
    destruct (arrayIndex key) as [n |].
    + apply insertIndexed_get. exact E.
    + rewrite objGet_app. simpl.
      destruct (hasOwn obj key') eqn:E'.
      * destruct (String.eqb_spec key key') as [-> | _]; [| reflexivity].
        apply hasOwn_In in E'. tauto.
      * apply hasOwn_false in E'. rewrite (objGet_absent _ _ E').
        reflexivity.
Qed.

(** The keys after [defineOwn]. *)
Lemma defineOwn_In (obj : JsObject) (key key' : string) (v : JsValue) :
  In key' (objKeys (defineOwn obj key v)) <-> key' = key \/ In key' (objKeys obj).
Proof.
  unfold defineOwn.
  destruct (hasOwn obj key) eqn:E.
  - rewrite replaceValue_keys. apply hasOwn_In in E.
    split; [tauto |]. intros [-> | H]; assumption.
  - destruct (arrayIndex key) as [n |].
    + pose proof (Permutation_map fst (insertIndexed_perm n key v obj)) as HP.
      simpl in HP. unfold objKeys. split; intros H.
      * apply (Permutation_in _ HP) in H. simpl in H.
        destruct H; [left; congruence | right; assumption].
      * apply (Permutation_in _ (Permutation_sym HP)). simpl.
        destruct H; [left; congruence | right; assumption].
    + unfold objKeys. rewrite map_app, in_app_iff. simpl.
      intuition (subst; auto).
Qed.

(* ---------------------------------------------------------------------- *)
(** *** The order of enumeration *)

(** An array index is the key of one string only. *)
Lemma arrayIndex_inj (k k' : string) (n : N) :
  arrayIndex k = Some n -> arrayIndex k' = Some n -> k = k'.
Proof.
  unfold arrayIndex.
  destruct (DecimalString.NilEmpty.uint_of_string k) as [d |] eqn:Ed;
    [| discriminate].
  destruct (DecimalString.NilEmpty.uint_of_string k') as [d' |] eqn:Ed';
    [| discriminate].
  destruct (Decimal.uint_beq (Decimal.unorm d) d) eqn:Eu; [| discriminate].
  destruct (Decimal.uint_beq (Decimal.unorm d') d') eqn:Eu'; [| discriminate].
  apply Decimal.internal_uint_dec_bl in Eu, Eu'.
  destruct (N.of_uint d <=? 4294967294)%N; [| discriminate].
  destruct (N.of_uint d' <=? 4294967294)%N; [| discriminate].
  intros H H'. inversion H. inversion H'. subst n.
  assert (Hd : d = d').
  { rewrite <- Eu, <- Eu'. apply DecimalN.Unsigned.of_inj. congruence. }
  subst d'.
  apply DecimalString.NilEmpty.sus in Ed, Ed'. congruence.
Qed.

(** The order in which the own keys of an object are enumerated: array
    indices ascending, then the other keys; two other keys compare as
    strings (for a canonicalized object, whose other keys were created in
    sorted order). *)
Definition keyLt (a b : string) : bool :=
  match arrayIndex a, arrayIndex b with
  | Some n, Some m => (n <? m)%N
  | Some _, None => true
  | None, Some _ => false
  | None, None => negb (leb b a)
  end.

Definition keysOrdered (ks : list string) : Prop :=
  StronglySorted (fun a b => keyLt a b = true) ks.

Lemma keyLt_asym (a b : string) : keyLt a b = true -> keyLt b a = true -> False.
Proof.
  unfold keyLt.
  destruct (arrayIndex a) as [n |], (arrayIndex b) as [m |]; try discriminate.
  - rewrite !N.ltb_lt. lia.
  - intros H1 H2. apply negb_true_iff in H1, H2.
    apply leb_total in H1. congruence.
Qed.

Lemma keyLt_irrefl (a : string) : keyLt a a = false.
Proof.
  destruct (keyLt a a) eqn:E; [| reflexivity].
  exfalso. exact (keyLt_asym _ _ E E).
Qed.

Lemma keyLt_trans (a b c : string) :
  keyLt a b = true -> keyLt b c = true -> keyLt a c = true.
Proof.
  unfold keyLt.
  destruct (arrayIndex a) as [n |], (arrayIndex b) as [m |],
           (arrayIndex c) as [p |]; try discriminate; try reflexivity.
  - rewrite !N.ltb_lt. lia.
  - intros H1 H2. apply negb_true_iff in H1, H2. apply negb_true_iff.
    destruct (leb c a) eqn:E; [| reflexivity].
    apply leb_total in H1.
    rewrite (leb_trans _ _ _ E H1) in H2. discriminate.
Qed.

Lemma keysOrdered_NoDup (ks : list string) : keysOrdered ks -> NoDup ks.
Proof.
  induction 1 as [| k r Hr IH Hk]; constructor; [| exact IH].
  intros Hin. rewrite Forall_forall in Hk. specialize (Hk _ Hin).
  rewrite keyLt_irrefl in Hk. discriminate.
Qed.

(** Two ordered lists of the same keys are the same list. *)
Lemma keysOrdered_unique (l1 : list string) :
  forall l2,
    keysOrdered l1 -> keysOrdered l2 ->
    (forall k, In k l1 <-> In k l2) ->
    l1 = l2.
Proof.
  induction l1 as [| a r1 IH]; intros [| b r2] H1 H2 Hsame.
  - reflexivity.
  - exfalso. apply (proj2 (Hsame b)). left. reflexivity.
  - exfalso. apply (proj1 (Hsame a)). left. reflexivity.
  - inversion H1 as [| ? ? Hr1 Ha]; subst.
    inversion H2 as [| ? ? Hr2 Hb]; subst.
    rewrite Forall_forall in Ha, Hb.
    assert (Hab : a = b).
    { destruct (proj1 (Hsame a) (or_introl eq_refl)) as [-> | Hin2];
        [reflexivity |].
      destruct (proj2 (Hsame b) (or_introl eq_refl)) as [<- | Hin1];
        [reflexivity |].
      exfalso. exact (keyLt_asym _ _ (Ha _ Hin1) (Hb _ Hin2)). }
    subst b. f_equal.
    apply IH; try assumption.
    intros k. split; intros Hk.
    + destruct (proj1 (Hsame k) (or_intror Hk)) as [<- | H]; [| exact H].
      specialize (Ha _ Hk). rewrite keyLt_irrefl in Ha. discriminate.
    + destruct (proj2 (Hsame k) (or_intror Hk)) as [<- | H]; [| exact H].
      specialize (Hb _ Hk). rewrite keyLt_irrefl in Hb. discriminate.
Qed.

(** Two objects with the same keys in the same order and the same value
    at each key are the same object. *)
Lemma object_ext (o1 : JsObject) :
  forall o2,
    objKeys o1 = objKeys o2 ->
    NoDup (objKeys o1) ->
    (forall k, In k (objKeys o1) -> objGet o1 k = objGet o2 k) ->
    o1 = o2.
Proof.
  induction o1 as [| [k v] r1 IH]; intros [| [k' v'] r2] Hk Hnd Hv;
    try discriminate; [reflexivity |].
  simpl in Hk. injection Hk as <- Hk.
  inversion Hnd as [| ? ? Hnin Hnd']; subst.
  pose proof (Hv k (or_introl eq_refl)) as Hkv.
  simpl in Hkv. rewrite String.eqb_refl in Hkv. subst v'.
  f_equal. apply IH; try assumption.
  intros x Hx. specialize (Hv x (or_intror Hx)). simpl in Hv.
  destruct (String.eqb_spec k x) as [-> | _]; [tauto | exact Hv].
Qed.

Lemma StronglySorted_snoc {A : Type} (R : A -> A -> Prop) (l : list A) (x : A) :
  StronglySorted R l -> Forall (fun a => R a x) l -> StronglySorted R (l ++ [x]).
Proof.
  induction 1 as [| a r Hr IH Ha]; intros Hx; simpl.
  - repeat constructor.
  - inversion Hx; subst. constructor; [apply IH; assumption |].
    apply Forall_app. split; [exact Ha | repeat constructor; assumption].
Qed.

Lemma insertIndexed_ordered (n : N) (key : string) (v : JsValue)
      (obj : JsObject) :
  arrayIndex key = Some n ->
  ~ In key (objKeys obj) ->
  keysOrdered (objKeys obj) ->
  keysOrdered (objKeys (insertIndexed n key v obj)).
Proof.
  intros Hn.
  induction obj as [| [k w] r IH]; intros Hnin Hs; simpl.
  - repeat constructor.
  - simpl in Hnin, Hs. inversion Hs as [| ? ? Hr Hk]; subst.
    assert (Hfirst : forall m, arrayIndex k = Some m -> (m <? n)%N = false ->
                               keyLt key k = true).
    { intros m Hm Hmn. unfold keyLt. rewrite Hn, Hm.
      apply N.ltb_lt. apply N.ltb_ge in Hmn.
      assert (m <> n) by (intros ->; apply Hnin; left;
                          apply (arrayIndex_inj _ _ _ Hm Hn)).
      lia. }
    assert (Hhead : keyLt key k = true ->
                    keysOrdered (key :: k :: objKeys r)).
    { intros Hlt. constructor; [exact Hs |].
      constructor; [exact Hlt |].
      eapply Forall_impl; [| exact Hk].
      intros x Hx. eapply keyLt_trans; eassumption. }
    destruct (arrayIndex k) as [m |] eqn:Em.
    + destruct (m <? n)%N eqn:Emn.
      * simpl. constructor; [apply IH; [tauto | exact Hr] |].
        apply Forall_forall. intros x Hx.
        apply (Permutation_in _ (Permutation_map fst (insertIndexed_perm n key v r)))
          in Hx.
        simpl in Hx. destruct Hx as [<- | Hx].
        -- unfold keyLt. rewrite Em, Hn. exact Emn.
        -- rewrite Forall_forall in Hk. apply Hk. exact Hx.
      * apply Hhead. apply (Hfirst m); auto.
    + apply Hhead. unfold keyLt. rewrite Hn, Em. reflexivity.
Qed.

(** [defineOwn] keeps the keys in the order of enumeration when the new
    key, if it is no array index, is not below an earlier such key. *)
Lemma defineOwn_ordered (obj : JsObject) (key : string) (v : JsValue) :
  keysOrdered (objKeys obj) ->
  (arrayIndex key = None ->
   forall a, In a (objKeys obj) -> arrayIndex a = None -> leb a key = true) ->
  keysOrdered (objKeys (defineOwn obj key v)).
Proof.
  intros Hs Hle. unfold defineOwn.
  destruct (hasOwn obj key) eqn:E.
  - rewrite replaceValue_keys. exact Hs.
  - apply hasOwn_false in E.
    destruct (arrayIndex key) as [n |] eqn:En.
    + apply insertIndexed_ordered; assumption.
    + unfold objKeys. rewrite map_app. simpl.
      apply StronglySorted_snoc; [exact Hs |].
      apply Forall_forall. intros a Ha.
      unfold keyLt. rewrite En.
      destruct (arrayIndex a) eqn:Ea; [reflexivity |].
      apply negb_true_iff.
      destruct (leb key a) eqn:El; [| reflexivity].
      exfalso. apply E.
      rewrite (leb_antisym _ _ El (Hle eq_refl a Ha Ea)). exact Ha.
Qed.

(* ---------------------------------------------------------------------- *)
(** *** Objects built property by property *)

(** The object that results from defining the properties [ps] in turn on
    [acc]: what [JSON.parse] does with the members of an object text, and
    what the loop of [canonicalizeObject] does with the keys it keeps. *)
Definition buildObject (ps : list (string * JsValue)) (acc : JsObject)
  : JsObject :=
  fold_left (fun obj p => defineOwn obj (fst p) (snd p)) ps acc.

(** Among the keys that are no array indices, an earlier one is not above
    a later one. *)
Definition stringKeysAscending (ks : list string) : Prop :=
  StronglySorted
    (fun a b => arrayIndex a = None -> arrayIndex b = None -> leb a b = true)
    ks.

Lemma buildObject_get (ps : list (string * JsValue)) :
  forall acc key,
    objGet (buildObject ps acc) key = objGet (rev ps ++ acc) key.
Proof.
  induction ps as [| [k v] r IH]; intros acc key; [reflexivity |].
  unfold buildObject in *. cbn [fold_left fst snd rev].
  rewrite IH, <- app_assoc. cbn [app].
  rewrite !objGet_app.
  destruct (hasOwn (rev r) key); [reflexivity |].
  cbn [objGet]. apply defineOwn_get.
Qed.

Lemma buildObject_In (ps : list (string * JsValue)) :
  forall acc key,
    In key (objKeys (buildObject ps acc))
    <-> In key (objKeys acc) \/ In key (map fst ps).
Proof.
  induction ps as [| [k v] r IH]; intros acc key; simpl; [tauto |].
  unfold buildObject in *. simpl. rewrite IH, defineOwn_In.
  intuition (subst; auto).
Qed.

Lemma buildObject_ordered (ps : list (string * JsValue)) :
  forall acc,
    stringKeysAscending (map fst ps) ->
    keysOrdered (objKeys acc) ->
    (forall a k, In a (objKeys acc) -> In k (map fst ps) ->
                 arrayIndex a = None -> arrayIndex k = None -> leb a k = true) ->
    keysOrdered (objKeys (buildObject ps acc)).
Proof.
  induction ps as [| [k v] r IH]; intros acc Hasc Hs Hle; simpl; [exact Hs |].
  unfold buildObject in *. simpl in *.
  inversion Hasc as [| ? ? Hr Hk]; subst.
  rewrite Forall_forall in Hk.
  apply IH.
  - exact Hr.
  - apply defineOwn_ordered; [exact Hs |].
    intros Hnone a Ha Hna. apply (Hle a k); auto.
  - intros a x Ha Hx Hna Hnx.
    apply defineOwn_In in Ha. destruct Ha as [-> | Ha].
    + apply Hk; assumption.
    + apply (Hle a x); auto.
Qed.

(** An ordered object is what defining its properties in turn builds. *)
Lemma stringKeysAscending_of_ordered (ks : list string) :
  keysOrdered ks -> stringKeysAscending ks.
Proof.
  induction 1 as [| k r Hr IH Hk]; constructor; [exact IH |].
  eapply Forall_impl; [| exact Hk].
  intros x Hx Hnk Hnx. unfold keyLt in Hx. rewrite Hnk, Hnx in Hx.
  apply negb_true_iff in Hx. apply leb_total. exact Hx.
Qed.

Lemma objGet_rev (obj : JsObject) (key : string) :
  NoDup (objKeys obj) -> objGet (rev obj) key = objGet obj key.
Proof.
  intros Hnd.
  destruct (in_dec string_dec key (objKeys obj)) as [Hin | Hnin].
  - unfold objKeys in Hin. apply in_map_iff in Hin.
    destruct Hin as ([k v] & Hk & Hin). simpl in Hk. subst k.
    rewrite (objGet_In obj key v Hnd Hin).
    apply objGet_In.
    + unfold objKeys. rewrite map_rev. apply NoDup_rev. exact Hnd.
    + apply in_rev in Hin. exact Hin.
  - rewrite (objGet_absent obj key Hnin).
    apply objGet_absent. unfold objKeys. rewrite map_rev.
    intros H. apply in_rev in H. exact (Hnin H).
Qed.

Lemma buildObject_ordered_id (obj : JsObject) :
  keysOrdered (objKeys obj) -> buildObject obj [] = obj.
Proof.
  intros Hs.
  assert (Hb : keysOrdered (objKeys (buildObject obj []))).
  { apply buildObject_ordered.
    - apply stringKeysAscending_of_ordered. exact Hs.
    - constructor.
    - intros a k []. }
  apply object_ext.
  - apply keysOrdered_unique; try assumption.
    intros k. rewrite buildObject_In. simpl. tauto.
  - apply keysOrdered_NoDup. exact Hb.
  - intros k _. rewrite buildObject_get, app_nil_r.
    apply objGet_rev. apply keysOrdered_NoDup. exact Hs.
Qed.

(* ---------------------------------------------------------------------- *)
(** *** What [canonicalizeObject] builds *)

Lemma isUndefined_canonicalizeValue (v : JsValue) :
  isUndefined (canonicalizeValue v) = isUndefined v.
Proof. destruct v; reflexivity. Qed.

(** The inlined object case of [canonicalizeValue] is the function of the
    source. *)
Lemma canonicalizeValue_object (obj : JsObject) :
  canonicalizeValue (JObj obj) = JObj (canonicalizeObject obj).
Proof.
  cbn [canonicalizeValue]. unfold canonicalizeObject. f_equal.
  set (lookup := fix lookup (props : JsObject) (key : string) : JsValue :=
         match props with
         | [] => JUndefined
         | (k, v) :: rest =>
             if String.eqb k key then canonicalizeValue v else lookup rest key
         end).
  assert (Hlookup : forall props key,
             lookup props key = canonicalizeValue (objGet props key)).
  { induction props as [| [k v] r IH]; intros key; simpl; [reflexivity |].
    destruct (String.eqb k key); [reflexivity | apply IH]. }
  generalize (@nil (string * JsValue)).
  induction (sort (objKeys obj)) as [| k ks IH]; intros acc; simpl;
    [reflexivity |].
  rewrite Hlookup, IH, isUndefined_canonicalizeValue.
  destruct (isUndefined (objGet obj k)); reflexivity.
Qed.

(** The keys [canonicalizeObject] keeps, and the value it stores at a
    key. *)
Definition keptKey (obj : JsObject) (key : string) : bool :=
  negb (isUndefined (objGet obj key)) && negb (String.eqb key "__proto__").

Definition keptProperties (obj : JsObject) : list (string * JsValue) :=
  map (fun key => (key, canonicalizeValue (objGet obj key)))
      (filter (keptKey obj) (sort (objKeys obj))).

Lemma canonicalizeObject_build (obj : JsObject) :
  canonicalizeObject obj = buildObject (keptProperties obj) [].
Proof.
  unfold canonicalizeObject, keptProperties, buildObject.
  generalize (@nil (string * JsValue)).
  induction (sort (objKeys obj)) as [| k ks IH]; intros acc; simpl;
    [reflexivity |].
  unfold keptKey at 1. rewrite isUndefined_canonicalizeValue.
  destruct (isUndefined (objGet obj k)); simpl; [apply IH |].
  unfold objSet.
  destruct (String.eqb k "__proto__"); simpl; apply IH.
Qed.

Lemma StronglySorted_filter {A : Type} (R : A -> A -> Prop) (p : A -> bool)
      (l : list A) :
  StronglySorted R l -> StronglySorted R (filter p l).
Proof.
  induction 1 as [| a r Hr IH Ha]; simpl; [constructor |].
  destruct (p a); [| exact IH].
  constructor; [exact IH |].
  apply Forall_forall. intros x Hx. apply filter_In in Hx.
  rewrite Forall_forall in Ha. apply Ha. tauto.
Qed.

Lemma keptProperties_keys (obj : JsObject) :
  map fst (keptProperties obj) = filter (keptKey obj) (sort (objKeys obj)).
Proof.
  unfold keptProperties. rewrite map_map. simpl. apply map_id.
Qed.

Lemma keptProperties_ascending (obj : JsObject) :
  stringKeysAscending (map fst (keptProperties obj)).
Proof.
  rewrite keptProperties_keys. apply StronglySorted_filter.
  pose proof (sort_sorted (objKeys obj)) as Hs. unfold sorted in Hs.
  induction Hs as [| a r Hr IH Ha]; constructor; [exact IH |].
  eapply Forall_impl; [| exact Ha]. intros x Hx _ _. exact Hx.
Qed.

Lemma keptKey_In (obj : JsObject) (key : string) :
  keptKey obj key = true -> In key (objKeys obj).
Proof.
  unfold keptKey. intros H. apply andb_true_iff in H. destruct H as [H _].
  destruct (in_dec string_dec key (objKeys obj)) as [Hin | Hnin];
    [exact Hin |].
  rewrite (objGet_absent obj key Hnin) in H. discriminate.
Qed.

(** The keys of a canonicalized object are in the order of enumeration;
    they are the own keys with a defined value, the prototype key apart;
    and each holds the canonicalized value. *)
Lemma canonicalizeObject_ordered (obj : JsObject) :
  keysOrdered (objKeys (canonicalizeObject obj)).
Proof.
  rewrite canonicalizeObject_build.
  apply buildObject_ordered.
  - apply keptProperties_ascending.
  - constructor.
  - intros a k [].
Qed.

Lemma canonicalizeObject_In (obj : JsObject) (key : string) :
  In key (objKeys (canonicalizeObject obj)) <-> keptKey obj key = true.
Proof.
  rewrite canonicalizeObject_build, buildObject_In, keptProperties_keys.
  rewrite filter_In. simpl. split.
  - intros [[] | [_ H]]. exact H.
  - intros H. right. split; [| exact H].
    apply (Permutation_in _ (sort_perm (objKeys obj))).
    apply keptKey_In. exact H.
Qed.

Lemma objGet_keptProperties (obj : JsObject) (ks : list string) (key : string) :
  objGet (rev (map (fun k => (k, canonicalizeValue (objGet obj k))) ks)) key
  = if in_dec string_dec key ks
    then canonicalizeValue (objGet obj key) else JUndefined.
Proof.
  rewrite <- map_rev.
  destruct (in_dec string_dec key ks) as [Hin | Hnin].
  - apply in_rev in Hin. induction (rev ks) as [| k r IH]; [destruct Hin |].
    simpl. destruct (String.eqb_spec k key) as [-> | Hne]; [reflexivity |].
    apply IH. destruct Hin; [congruence | assumption].
  - apply objGet_absent. unfold objKeys. rewrite map_map. simpl.
    rewrite map_id. intros H. apply in_rev in H. exact (Hnin H).
Qed.

Lemma canonicalizeObject_get (obj : JsObject) (key : string) :
  objGet (canonicalizeObject obj) key
  = if keptKey obj key then canonicalizeValue (objGet obj key) else JUndefined.
Proof.
  rewrite canonicalizeObject_build, buildObject_get, app_nil_r.
  unfold keptProperties. rewrite objGet_keptProperties.
  destruct (in_dec string_dec key (filter (keptKey obj) (sort (objKeys obj))))
    as [Hin | Hnin].
  - apply filter_In in Hin. destruct Hin as [_ ->]. reflexivity.
  - destruct (keptKey obj key) eqn:E; [| reflexivity].
    exfalso. apply Hnin. apply filter_In. split; [| exact E].
    apply (Permutation_in _ (sort_perm (objKeys obj))).
    apply keptKey_In. exact E.
Qed.

(* ---------------------------------------------------------------------- *)
(** *** Canonical values *)

Lemma objGet_Forall (P : JsValue -> Prop) (props : JsObject) (key : string) :
  P JUndefined -> Forall (fun p => P (snd p)) props -> P (objGet props key).
Proof.
  intros Hu. induction 1 as [| [k v] r Hv _ IH]; simpl; [exact Hu |].
  destruct (String.eqb k key); [exact Hv | exact IH].
Qed.

Lemma keptKey_canonicalizeObject (obj : JsObject) (key : string) :
  keptKey (canonicalizeObject obj) key = keptKey obj key.
Proof.
  unfold keptKey at 1. rewrite canonicalizeObject_get.
  destruct (keptKey obj key) eqn:E; [| reflexivity].
  rewrite isUndefined_canonicalizeValue.
  unfold keptKey in E. apply andb_true_iff in E. destruct E as [E1 E2].
  apply negb_true_iff in E1. rewrite E1, E2. reflexivity.
Qed.

(** [canonicalizeValue] is idempotent. *)
Lemma canonicalizeValue_idempotent (v : JsValue) :
  canonicalizeValue (canonicalizeValue v) = canonicalizeValue v.
Proof.
  induction v as [| | b | n | s | items IH | props IH]
    using JsValue_ind_nested; try reflexivity.
  - cbn [canonicalizeValue]. f_equal.
    induction IH as [| x r Hx _ IHr]; [reflexivity |].
    cbn [map filter].
    destruct (isUndefined (canonicalizeValue x)) eqn:E; cbn [negb];
      [exact IHr |].
    cbn [map filter]. rewrite Hx, E. cbn [negb]. f_equal. exact IHr.
  - rewrite !canonicalizeValue_object. f_equal.
    set (R := canonicalizeObject props).
    assert (Hkeys : objKeys (canonicalizeObject R) = objKeys R).
    { apply keysOrdered_unique; try apply canonicalizeObject_ordered.
      intros k. unfold R. rewrite !canonicalizeObject_In.
      rewrite keptKey_canonicalizeObject. tauto. }
    apply object_ext.
    + exact Hkeys.
    + apply keysOrdered_NoDup, canonicalizeObject_ordered.
    + intros k Hk. apply canonicalizeObject_In in Hk.
      rewrite canonicalizeObject_get, Hk.
      unfold R in *. rewrite keptKey_canonicalizeObject in Hk.
      rewrite canonicalizeObject_get, Hk.
      apply (objGet_Forall
               (fun x => canonicalizeValue (canonicalizeValue x)
                         = canonicalizeValue x)); [reflexivity | exact IH].
Qed.

(** A value as [JSON.parse] returns it for a canonical text: nothing
    undefined inside, and the keys of every object in the order of
    enumeration. *)
Fixpoint canonicalJson (v : JsValue) : Prop :=
  match v with
  | JUndefined => False
  | JArr items =>
      (fix all (l : list JsValue) : Prop :=
         match l with
         | [] => True
         | x :: r => canonicalJson x /\ all r
         end) items
  | JObj props =>
      keysOrdered (objKeys props) /\
      (fix all (l : JsObject) : Prop :=
         match l with
         | [] => True
         | (_, x) :: r => canonicalJson x /\ all r
         end) props
  | _ => True
  end.

Lemma canonicalJson_array (items : list JsValue) :
  canonicalJson (JArr items) <-> Forall canonicalJson items.
Proof.
  cbn [canonicalJson].
  induction items as [| x r IH]; split; intros H.
  - constructor.
  - exact I.
  - destruct H as [Hx Hr]. constructor; [exact Hx | apply IH; exact Hr].
  - inversion H; subst. split; [assumption | apply IH; assumption].
Qed.

Lemma canonicalJson_object (props : JsObject) :
  canonicalJson (JObj props) <->
  keysOrdered (objKeys props) /\ Forall (fun p => canonicalJson (snd p)) props.
Proof.
  cbn [canonicalJson].
  apply and_iff_compat_l.
  induction props as [| [k x] r IH]; split; intros H.
  - constructor.
  - exact I.
  - destruct H as [Hx Hr]. constructor; [exact Hx | apply IH; exact Hr].
  - inversion H; subst. split; [assumption | apply IH; assumption].
Qed.

(** What [canonicalizeValue] returns for a defined value is canonical. *)
Lemma canonicalizeValue_canonicalJson (v : JsValue) :
  isUndefined v = false -> canonicalJson (canonicalizeValue v).
Proof.
  induction v as [| | b | n | s | items IH | props IH]
    using JsValue_ind_nested; intros Hd; try exact I; try discriminate.
  - cbn [canonicalizeValue]. apply canonicalJson_array. clear Hd.
    induction IH as [| x r Hx _ IHr]; [constructor |].
    cbn [map filter].
    destruct (isUndefined (canonicalizeValue x)) eqn:E; cbn [negb];
      [exact IHr |].
    constructor; [| exact IHr].
    apply Hx. rewrite <- isUndefined_canonicalizeValue. exact E.
  - rewrite canonicalizeValue_object. apply canonicalJson_object.
    split; [apply canonicalizeObject_ordered |].
    apply Forall_forall. intros [k x] Hin. cbn [snd].
    pose proof (keysOrdered_NoDup _ (canonicalizeObject_ordered props)) as Hnd.
    pose proof (objGet_In _ _ _ Hnd Hin) as Hget.
    assert (Hk : keptKey props k = true).
    { apply canonicalizeObject_In. unfold objKeys. apply in_map_iff.
      exists (k, x). auto. }
    rewrite canonicalizeObject_get, Hk in Hget. subst x.
    unfold keptKey in Hk. apply andb_true_iff in Hk. destruct Hk as [Hk _].
    apply negb_true_iff in Hk. revert Hk.
    apply (objGet_Forall
             (fun x => isUndefined x = false
                       -> canonicalJson (canonicalizeValue x)));
      [discriminate | exact IH].
Qed.

(* ====================================================================== *)
(** ** Numbers: rounding, writing and reading *)
(* ====================================================================== *)

Module DoubleFacts.

Import Double.
Local Open Scope Z_scope.

Lemma bounded_irrelevant (m : positive) (e : Z) (H H' : bounded m e = true) :
  H = H'.
Proof. apply UIP_dec, bool_dec. Qed.

Lemma Finite_ext (s : bool) (m m' : positive) (e e' : Z)
      (H : bounded m e = true) (H' : bounded m' e' = true) :
  m = m' -> e = e' -> Finite s m e H = Finite s m' e' H'.
Proof.
  intros <- <-. f_equal. apply bounded_irrelevant.
Qed.

Lemma finite_Finite (s : bool) (m : positive) (e : Z) (H : bounded m e = true) :
  finite s m e = Finite s m e H.
Proof.
  unfold finite. destruct (bool_dec (bounded m e) true) as [H' | N].
  - apply Finite_ext; reflexivity.
  - contradiction.
Qed.

Lemma eqb_eq (x y : t) : eqb x y = true -> x = y.
Proof.
  destruct x as [| s | s | s m e H], y as [| s' | s' | s' m' e' H'];
    cbn [eqb]; intros E; try discriminate E; try reflexivity.
  - apply Bool.eqb_prop in E. congruence.
  - apply Bool.eqb_prop in E. congruence.
  - apply andb_true_iff in E. destruct E as [E E3].
    apply andb_true_iff in E. destruct E as [E1 E2].
    apply Bool.eqb_prop in E1. apply Pos.eqb_eq in E2. apply Z.eqb_eq in E3.
    subst. apply Finite_ext; reflexivity.
Qed.

Lemma bounded_spec (m : positive) (e : Z) :
  bounded m e = true ->
  Z.pos m < 2 ^ 53 /\ -1074 <= e <= 971 /\ (2 ^ 52 <= Z.pos m \/ e = -1074).
Proof.
  unfold bounded. intros H.
  apply andb_true_iff in H. destruct H as [H H4].
  apply andb_true_iff in H. destruct H as [H H3].
  apply andb_true_iff in H. destruct H as [H1 H2].
  apply Z.ltb_lt in H1. apply Z.leb_le in H2. apply Z.leb_le in H3.
  apply orb_true_iff in H4.
  split; [exact H1 |]. split; [lia |].
  destruct H4 as [H4 | H4]; [left; apply Z.leb_le; exact H4
                            | right; apply Z.eqb_eq; exact H4].
Qed.

(* ---------------------------------------------------------------------- *)
(** *** The exponent of the rounding *)

(** The ratio [a / b] is at least [2^(52+k)]. *)
Definition atLeast (a b k : Z) : Prop :=
  2 ^ 52 * snd (scale a b k) <= fst (scale a b k).

Lemma scale_le (a b k K C : Z) :
  0 <= K -> 0 <= K + k ->
  C * snd (scale a b k) <= fst (scale a b k)
  <-> C * b * 2 ^ (K + k) <= a * 2 ^ K.
Proof.
  intros HK HKk. unfold scale.
  destruct (Z.leb_spec 0 k) as [Hk | Hk]; cbn [fst snd].
  - rewrite Z.pow_add_r by lia.
    assert (0 < 2 ^ K) by (apply Z.pow_pos_nonneg; lia).
    nia.
  - replace K with ((K + k) + (- k)) at 2 by lia.
    rewrite (Z.pow_add_r 2 (K + k) (- k)) by lia.
    assert (0 < 2 ^ (K + k)) by (apply Z.pow_pos_nonneg; lia).
    nia.
Qed.

Lemma atLeast_shift (a b k K : Z) :
  0 <= K -> 0 <= K + k ->
  atLeast a b k <-> 2 ^ 52 * b * 2 ^ (K + k) <= a * 2 ^ K.
Proof. apply scale_le. Qed.

Lemma atLeast_mono (a b k k' : Z) :
  0 < b -> k' <= k -> atLeast a b k -> atLeast a b k'.
Proof.
  intros Hb Hle H.
  set (K := Z.abs k + Z.abs k').
  apply (atLeast_shift a b k K) in H; [| lia | lia].
  apply (atLeast_shift a b k' K); [lia | lia |].
  replace (K + k) with ((K + k') + (k - k')) in H by lia.
  rewrite Z.pow_add_r in H by lia.
  assert (0 < 2 ^ (K + k')) by (apply Z.pow_pos_nonneg; lia).
  assert (0 < 2 ^ (k - k')) by (apply Z.pow_pos_nonneg; lia).
  nia.
Qed.

Lemma atLeast_succ (a b e : Z) :
  atLeast a b (e + 1)
  <-> 2 ^ 53 * snd (scale a b e) <= fst (scale a b e).
Proof.
  set (K := Z.abs e + 2).
  rewrite (atLeast_shift a b (e + 1) K) by lia.
  rewrite (scale_le a b e K (2 ^ 53)) by lia.
  replace (K + (e + 1)) with ((K + e) + 1) by lia.
  rewrite Z.pow_add_r by lia.
  change (2 ^ 53) with (2 ^ 52 * 2 ^ 1).
  replace (2 ^ 52 * b * (2 ^ (K + e) * 2 ^ 1))
    with (2 ^ 52 * 2 ^ 1 * b * 2 ^ (K + e)) by ring.
  reflexivity.
Qed.

Lemma scale_pos (a b e : Z) :
  0 < a -> 0 < b -> 0 < fst (scale a b e) /\ 0 < snd (scale a b e).
Proof.
  intros Ha Hb. unfold scale.
  destruct (Z.leb_spec 0 e); cbn [fst snd].
  - assert (0 < 2 ^ e) by (apply Z.pow_pos_nonneg; lia). nia.
  - assert (0 < 2 ^ (- e)) by (apply Z.pow_pos_nonneg; lia). nia.
Qed.

(** Before the least exponent is put in, the exponent is the one at
    which the ratio has 53 bits before the point. *)
Lemma exponent_spec (a b : Z) :
  0 < a -> 0 < b ->
  exists e',
    exponent a b = Z.max e' (-1074) /\
    atLeast a b e' /\ ~ atLeast a b (e' + 1).
Proof.
  intros Ha Hb. unfold exponent.
  set (l := Z.log2 a - Z.log2 b - 52).
  destruct (Z.log2_spec a Ha) as [Ha1 Ha2].
  destruct (Z.log2_spec b Hb) as [Hb1 Hb2].
  pose proof (Z.log2_nonneg a) as Hla. pose proof (Z.log2_nonneg b) as Hlb.
  set (K := Z.abs l + Z.log2 b + 60).
  assert (HK : 0 < 2 ^ K) by (apply Z.pow_pos_nonneg; lia).
  assert (Hlow : atLeast a b (l - 1)).
  { apply (atLeast_shift a b (l - 1) K); [lia | lia |].
    replace (K + (l - 1)) with ((K - Z.log2 b - 53) + Z.log2 a) by lia.
    rewrite Z.pow_add_r by lia.
    replace K with ((K - Z.log2 b - 53) + 52 + Z.succ (Z.log2 b)) at 2 by lia.
    rewrite !Z.pow_add_r by lia.
    assert (HX : 0 < 2 ^ (K - Z.log2 b - 53)) by (apply Z.pow_pos_nonneg; lia).
    assert (HC : 0 < 2 ^ 52) by reflexivity.
    assert (HA : 0 < 2 ^ Z.log2 a) by (apply Z.pow_pos_nonneg; lia).
    revert HX HC HA Ha1 Hb2.
    generalize (2 ^ (K - Z.log2 b - 53)) (2 ^ 52) (2 ^ Z.log2 a)
               (2 ^ Z.succ (Z.log2 b)).
    intros X C A B HX HC HA Ha1 Hb2.
    assert (b * A <= a * B) by nia.
    assert (0 < X * C) by nia.
    replace (C * b * (X * A)) with ((X * C) * (b * A)) by ring.
    replace (a * (X * C * B)) with ((X * C) * (a * B)) by ring.
    apply Z.mul_le_mono_nonneg_l; lia. }
  assert (Hhigh : ~ atLeast a b (l + 1)).
  { intros H. apply (atLeast_shift a b (l + 1) K) in H; [| lia | lia].
    replace (K + (l + 1)) with ((K - Z.log2 b - 52) + Z.succ (Z.log2 a)) in H
      by lia.
    rewrite Z.pow_add_r in H by lia.
    replace K with ((K - Z.log2 b - 52) + 52 + Z.log2 b) in H at 2 by lia.
    rewrite !Z.pow_add_r in H by lia.
    assert (HX : 0 < 2 ^ (K - Z.log2 b - 52)) by (apply Z.pow_pos_nonneg; lia).
    assert (HC : 0 < 2 ^ 52) by reflexivity.
    assert (HB : 0 < 2 ^ Z.log2 b) by (apply Z.pow_pos_nonneg; lia).
    revert H HX HC HB Ha2 Hb1.
    generalize (2 ^ (K - Z.log2 b - 52)) (2 ^ 52) (2 ^ Z.log2 b)
               (2 ^ Z.succ (Z.log2 a)).
    intros X C B A H HX HC HB Ha2 Hb1.
    assert (a * B < b * A) by nia.
    assert (0 < X * C) by nia.
    replace (C * b * (X * A)) with ((X * C) * (b * A)) in H by ring.
    replace (a * (X * C * B)) with ((X * C) * (a * B)) in H by ring.
    apply Z.mul_le_mono_pos_l in H; lia. }
  destruct (scale a b l) as [n d] eqn:E.
  destruct (Z.leb_spec (2 ^ 52 * d) n) as [Hge | Hlt].
  - exists l. split; [reflexivity |]. split; [| exact Hhigh].
    unfold atLeast. rewrite E. exact Hge.
  - exists (l - 1). split; [reflexivity |]. split; [exact Hlow |].
    replace (l - 1 + 1) with l by lia.
    unfold atLeast. rewrite E. cbn [fst snd]. lia.
Qed.

(** The quotient at the exponent of the rounding has at most 53 bits, and
    exactly 53 above the least exponent. *)
Lemma exponent_quotient (a b : Z) :
  0 < a -> 0 < b ->
  let e := exponent a b in
  let n := fst (scale a b e) in
  let d := snd (scale a b e) in
  -1074 <= e /\ 0 < d /\ 0 <= n / d < 2 ^ 53 /\
  (2 ^ 52 <= n / d \/ e = -1074).
Proof.
  intros Ha Hb e n d.
  destruct (scale_pos a b e Ha Hb) as [Hn Hd]. fold n in Hn. fold d in Hd.
  destruct (exponent_spec a b Ha Hb) as (e' & He & Hge & Hlt).
  fold e in He.
  split; [lia |]. split; [exact Hd |].
  assert (Hq : 0 <= n / d) by (apply Z.div_pos; lia).
  assert (Hnot : ~ atLeast a b (e + 1)).
  { intros H. apply Hlt.
    apply (atLeast_mono a b (e + 1)); [exact Hb | lia | exact H]. }
  rewrite atLeast_succ in Hnot. fold n in Hnot. fold d in Hnot.
  assert (Hlt53 : n / d < 2 ^ 53).
  { apply Z.div_lt_upper_bound; lia. }
  split; [lia |].
  destruct (Z.eq_dec e (-1074)) as [E | E]; [right; exact E | left].
  assert (e = e') by lia. subst e'.
  unfold atLeast in Hge. fold n in Hge. fold d in Hge.
  apply Z.div_le_lower_bound; lia.
Qed.

(** Rounding a positive ratio gives a number: zero, a finite number or an
    infinity. *)
Lemma roundRatio_defined (s : bool) (a b : Z) :
  0 < a -> 0 < b -> roundRatio s a b <> NaN.
Proof.
  intros Ha Hb.
  destruct (exponent_quotient a b Ha Hb) as (He & Hd & Hq & Hnormal).
  unfold roundRatio.
  destruct (Z.eqb_spec a 0) as [-> | _]; [lia |].
  destruct (scale a b (exponent a b)) as [n d]. cbn [fst snd] in *.
  set (q := if _ : bool then n / d + 1 else n / d).
  assert (Hm : n / d <= q <= n / d + 1).
  { unfold q. destruct (_ || _); lia. }
  destruct (Z.eqb_spec q 0) as [_ | H0]; [discriminate |].
  assert (Hmake : forall m e,
             0 < m < 2 ^ 53 -> -1074 <= e ->
             2 ^ 52 <= m \/ e = -1074 ->
             make s m e <> NaN).
  { intros m e Hm1 He1 Hn1. unfold make.
    destruct (Z.ltb_spec 971 e) as [_ | He2]; [discriminate |].
    unfold finite.
    destruct (bool_dec (bounded (Z.to_pos m) e) true) as [Hb' | Hb'];
      [discriminate |].
    exfalso. apply Hb'. unfold bounded.
    rewrite Z2Pos.id by lia.
    apply andb_true_iff. split; [apply andb_true_iff; split;
                                 [apply andb_true_iff; split |] |].
    - apply Z.ltb_lt. lia.
    - apply Z.leb_le. lia.
    - apply Z.leb_le. lia.
    - apply orb_true_iff. destruct Hn1 as [Hn1 | Hn1];
        [left; apply Z.leb_le; exact Hn1 | right; apply Z.eqb_eq; exact Hn1]. }
  destruct (Z.eqb_spec q (2 ^ 53)) as [_ | H53].
  - apply Hmake; [split; reflexivity | lia | left; reflexivity].
  - apply Hmake; [lia | lia |].
    destruct Hnormal as [Hn | Hn]; [left; lia | right; exact Hn].
Qed.

Lemma exponent_exact (a b : Z) (m : positive) (e : Z) :
  0 < a -> 0 < b -> bounded m e = true ->
  fst (scale a b e) = Z.pos m * snd (scale a b e) ->
  exponent a b = e.
Proof.
  intros Ha Hb Hm Hx.
  destruct (bounded_spec m e Hm) as (Hm53 & He & Hnormal).
  destruct (scale_pos a b e Ha Hb) as [Hn Hd].
  destruct (exponent_spec a b Ha Hb) as (e' & -> & Hge & Hlt).
  assert (Hnot : ~ atLeast a b (e + 1)).
  { rewrite atLeast_succ, Hx. nia. }
  assert (Hup : e' <= e).
  { destruct (Z.le_gt_cases e' e) as [H | H]; [exact H |].
    exfalso. apply Hnot.
    apply (atLeast_mono a b e'); [exact Hb | lia | exact Hge]. }
  destruct Hnormal as [Hnorm | ->]; [| lia].
  assert (Hat : atLeast a b e).
  { unfold atLeast. rewrite Hx. nia. }
  assert (e <= e'); [| lia].
  destruct (Z.le_gt_cases e e') as [H | H]; [exact H |].
  exfalso. apply Hlt. apply (atLeast_mono a b e); [exact Hb | lia | exact Hat].
Qed.

(** A ratio that is a number of the format is rounded to that number. *)
Lemma roundRatio_exact (s : bool) (a b : Z) (m : positive) (e : Z)
      (H : bounded m e = true) :
  0 < a -> 0 < b ->
  fst (scale a b e) = Z.pos m * snd (scale a b e) ->
  roundRatio s a b = Finite s m e H.
Proof.
  intros Ha Hb Hx.
  destruct (bounded_spec m e H) as (Hm53 & He & _).
  destruct (scale_pos a b e Ha Hb) as [Hn Hd].
  unfold roundRatio.
  destruct (Z.eqb_spec a 0) as [-> | _]; [lia |].
  rewrite (exponent_exact a b m e Ha Hb H Hx).
  destruct (scale a b e) as [n d]. cbn [fst snd] in *. subst n.
  rewrite Z.div_mul by lia. rewrite Z.mod_mul by lia.
  destruct (Z.ltb_spec d (2 * 0)) as [Hlt | _]; [lia |].
  destruct (Z.eqb_spec d (2 * 0)) as [Heq | _]; [lia |].
  cbn [orb andb].
  destruct (Z.eqb_spec (Z.pos m) 0) as [H0 | _]; [lia |].
  destruct (Z.eqb_spec (Z.pos m) (2 ^ 53)) as [H53 | _]; [lia |].
  unfold make. destruct (Z.ltb_spec 971 e) as [Hbig | _]; [lia |].
  cbn [Z.to_pos]. apply finite_Finite.
Qed.

(** The sign is carried through the rounding. *)
Lemma roundRatio_sign (s : bool) (a b : Z) (m : positive) (e : Z)
      (H : bounded m e = true) :
  roundRatio false a b = Finite false m e H ->
  roundRatio s a b = Finite s m e H.
Proof.
  unfold roundRatio.
  destruct (a =? 0); [discriminate |].
  destruct (scale a b (exponent a b)) as [n d].
  set (q := if _ : bool then n / d + 1 else n / d).
  destruct (q =? 0); [discriminate |].
  assert (Hmake : forall x y, make false x y = Finite false m e H ->
                              make s x y = Finite s m e H).
  { intros x y. unfold make. destruct (971 <? y); [discriminate |].
    unfold finite.
    destruct (bool_dec (bounded (Z.to_pos x) y) true) as [Hb | Hb];
      [| discriminate].
    intros E. injection E as E1 E2. subst. apply Finite_ext; reflexivity. }
  destruct (q =? 2 ^ 53); apply Hmake.
Qed.

Lemma roundDecimal_sign (s : bool) (c p : Z) (m : positive) (e : Z)
      (H : bounded m e = true) :
  roundDecimal false c p = Finite false m e H ->
  roundDecimal s c p = Finite s m e H.
Proof.
  unfold roundDecimal. destruct (0 <=? p); apply roundRatio_sign.
Qed.

Lemma roundDecimal_zero (s : bool) (p : Z) : roundDecimal s 0 p = Zero s.
Proof.
  unfold roundDecimal. destruct (0 <=? p); reflexivity.
Qed.

(* ---------------------------------------------------------------------- *)
(** *** The digits of a number read back as the number *)

Lemma exact_spec (s : bool) (m : positive) (e : Z) (H : bounded m e = true) :
  0 < fst (exact m e) /\
  roundDecimal s (fst (exact m e)) (snd (exact m e)) = Finite s m e H.
Proof.
  unfold exact, roundDecimal.
  destruct (Z.leb_spec 0 e) as [He | He]; cbn [fst snd].
  - assert (0 < 2 ^ e) by (apply Z.pow_pos_nonneg; lia).
    assert (0 < Z.pos m * 2 ^ e) by (apply Z.mul_pos_pos; lia).
    split; [assumption |]. cbn [Z.leb Z.compare]. change (10 ^ 0) with 1.
    apply roundRatio_exact; [lia | lia |].
    unfold scale. destruct (Z.leb_spec 0 e); [| lia]. cbn [fst snd]. ring.
  - assert (0 < 5 ^ (- e)) by (apply Z.pow_pos_nonneg; lia).
    assert (0 < 10 ^ (- e)) by (apply Z.pow_pos_nonneg; lia).
    assert (0 < Z.pos m * 5 ^ (- e)) by (apply Z.mul_pos_pos; lia).
    split; [assumption |].
    destruct (Z.leb_spec 0 e); [lia |].
    apply roundRatio_exact; [lia | lia |].
    unfold scale. destruct (Z.leb_spec 0 e); [lia |]. cbn [fst snd].
    change 10 with (5 * 2). rewrite Z.pow_mul_l. ring.
Qed.

Lemma shortest_spec (fuel : nat) (x : t) (a b n : Z) :
  0 < a -> 0 < b ->
  forall k s p,
    shortest fuel x a b n k = Some (s, p) ->
    0 <= s /\ roundDecimal false s p = x.
Proof.
  intros Ha Hb. induction fuel as [| f IH]; intros k s p; [discriminate |].
  cbn [shortest].
  set (q := n - k).
  destruct (if 0 <=? q then (a, b * 10 ^ q) else (a * 10 ^ (- q), b))
    as [a' b'] eqn:Eab.
  assert (Hab : 0 <= a' /\ 0 < b').
  { destruct (Z.leb_spec 0 q); injection Eab as E1 E2; subst a' b'.
    - assert (0 < 10 ^ q) by (apply Z.pow_pos_nonneg; lia). nia.
    - assert (0 < 10 ^ (- q)) by (apply Z.pow_pos_nonneg; lia). nia. }
  assert (Hlo : 0 <= a' / b') by (apply Z.div_pos; lia).
  set (hi := if a' / b' + 1 =? 10 ^ k then (1, n) else (a' / b' + 1, q)).
  assert (Hhi : 0 <= fst hi).
  { unfold hi. destruct (a' / b' + 1 =? 10 ^ k); cbn [fst]; lia. }
  destruct (eqb (roundDecimal false (a' / b') q) x) eqn:E1;
    destruct (eqb (roundDecimal false (fst hi) (snd hi)) x) eqn:E2;
    cbn [andb].
  - destruct (_ || _); intros E.
    + injection E as <- <-. split; [exact Hlo | apply eqb_eq; exact E1].
    + assert (E' : hi = (s, p)) by congruence.
      rewrite E' in *. cbn [fst snd] in *.
      split; [exact Hhi | apply eqb_eq; exact E2].
  - intros E; injection E as <- <-.
    split; [exact Hlo | apply eqb_eq; exact E1].
  - intros E. assert (E' : hi = (s, p)) by congruence.
    rewrite E' in *. cbn [fst snd] in *.
    split; [exact Hhi | apply eqb_eq; exact E2].
  - apply IH.
Qed.

(** The decimal of the text stands for a number that rounds to the number
    written. *)
Lemma decimal_spec (s : bool) (m : positive) (e : Z) (H : bounded m e = true) :
  0 < fst (decimal m e H) /\
  roundDecimal s (fst (decimal m e H)) (snd (decimal m e H)) = Finite s m e H.
Proof.
  unfold decimal.
  destruct (ratio m e) as [a b] eqn:Er.
  assert (Hab : 0 < a /\ 0 < b).
  { unfold ratio in Er. destruct (Z.leb_spec 0 e); injection Er as E1 E2;
      subst a b.
    - assert (0 < 2 ^ e) by (apply Z.pow_pos_nonneg; lia).
      split; [apply (Z.mul_pos_pos (Z.pos m) (2 ^ e)); lia | lia].
    - assert (0 < 2 ^ (- e)) by (apply Z.pow_pos_nonneg; lia). split; lia. }
  destruct (shortest 17 (Finite false m e H) a b (decimalPoint a b) 1)
    as [[c p] |] eqn:E.
  - destruct (shortest_spec _ _ _ _ _ (proj1 Hab) (proj2 Hab) _ _ _ E)
      as [Hc Hr].
    cbn [fst snd]. split.
    + destruct (Z.eq_dec c 0) as [-> | Hne]; [| lia].
      rewrite roundDecimal_zero in Hr. discriminate Hr.
    + apply roundDecimal_sign. exact Hr.
  - apply exact_spec.
Qed.

End DoubleFacts.

(* ====================================================================== *)
(** ** Reading back what [JSON.stringify] wrote *)
(* ====================================================================== *)

(** *** Strings *)

Lemma append_assoc (a b c : string) :
  ((a ++ b) ++ c = a ++ (b ++ c))%string.
Proof.
  induction a as [| x a IH]; [reflexivity |].
  cbn [String.append]. rewrite IH. reflexivity.
Qed.

Lemma length_append (a b : string) :
  String.length (a ++ b) = String.length a + String.length b.
Proof.
  induction a as [| c a IH]; [reflexivity |].
  cbn [String.append String.length]. rewrite IH. reflexivity.
Qed.

Lemma append_nil_r (s : string) : (s ++ "")%string = s.
Proof.
  induction s as [| c s IH]; [reflexivity |].
  cbn [String.append]. rewrite IH. reflexivity.
Qed.

Lemma readChars_quoteChar (c : ascii) (t : string) :
  readChars (quoteChar c ++ t)
  = match readChars t with
    | Read (u, rest) => Read (String c u, rest)
    | Malformed => Malformed
    | Unmodelled => Unmodelled
    end.
Proof.
  destruct c as [[] [] [] [] [] [] [] []]; reflexivity.
Qed.

Lemma readChars_quoteChars (s rest : string) :
  readChars (quoteChars s ++ String dquote rest) = Read (s, rest).
Proof.
  induction s as [| c s IH]; [reflexivity |].
  cbn [quoteChars]. rewrite append_assoc.
  rewrite readChars_quoteChar, IH. reflexivity.
Qed.

Lemma quote_append (s rest : string) :
  (quote s ++ rest)%string
  = String dquote (quoteChars s ++ String dquote rest).
Proof.
  unfold quote. cbn [String.append]. rewrite append_assoc.
  reflexivity.
Qed.

(** *** Numbers *)

(** The text after a value: the end, a comma, or a closing bracket or
    brace. *)
Definition endsValue (rest : string) : bool :=
  match rest with
  | EmptyString => true
  | String c _ =>
      let n := N_of_ascii c in ((n =? 44) || (n =? 93) || (n =? 125))%N
  end.

Module NumberText.

Local Open Scope string_scope.

Fixpoint allDigits (s : string) : bool :=
  match s with
  | EmptyString => true
  | String c r => isDigit c && allDigits r
  end.

(** A text that does not go on with a digit. *)
Definition stops (t : string) : bool :=
  match t with
  | EmptyString => true
  | String c _ => negb (isDigit c)
  end.

Lemma readDigits_stops (t : string) :
  stops t = true -> readDigits t = (EmptyString, t).
Proof.
  destruct t as [| c r]; [reflexivity |].
  cbn [stops readDigits]. intros H. apply negb_true_iff in H.
  rewrite H. reflexivity.
Qed.

Lemma readDigits_digits (ds t : string) :
  allDigits ds = true -> stops t = true ->
  readDigits (ds ++ t) = (ds, t).
Proof.
  intros Hds Ht. induction ds as [| c r IH].
  - apply readDigits_stops. exact Ht.
  - cbn [allDigits] in Hds. apply andb_true_iff in Hds.
    destruct Hds as [Hc Hr].
    cbn [String.append readDigits]. rewrite Hc, (IH Hr). reflexivity.
Qed.

Lemma allDigits_append (a b : string) :
  allDigits (a ++ b) = allDigits a && allDigits b.
Proof.
  induction a as [| c a IH]; [reflexivity |].
  cbn [String.append allDigits]. rewrite IH, andb_assoc. reflexivity.
Qed.

Lemma allDigits_zeros (n : nat) : allDigits (Double.zeros n) = true.
Proof. induction n as [| n IH]; [reflexivity | exact IH]. Qed.

Lemma length_zeros (n : nat) : String.length (Double.zeros n) = n.
Proof.
  induction n as [| n IH]; [reflexivity |].
  cbn [Double.zeros String.length]. rewrite IH. reflexivity.
Qed.

Lemma take_drop (n : nat) (s : string) :
  (Double.take n s ++ Double.drop n s)%string = s.
Proof.
  revert s. induction n as [| n IH]; intros [| c r]; try reflexivity.
  cbn [Double.take Double.drop String.append]. rewrite IH. reflexivity.
Qed.

Lemma length_drop (n : nat) (s : string) :
  String.length (Double.drop n s) = String.length s - n.
Proof.
  revert s. induction n as [| n IH]; intros [| c r]; try reflexivity.
  cbn [Double.drop String.length]. apply IH.
Qed.

Lemma allDigits_take (n : nat) (s : string) :
  allDigits s = true -> allDigits (Double.take n s) = true.
Proof.
  revert s. induction n as [| n IH]; intros [| c r] H; try reflexivity.
  cbn [allDigits] in H. apply andb_true_iff in H. destruct H as [Hc Hr].
  cbn [Double.take allDigits]. rewrite Hc, (IH r Hr). reflexivity.
Qed.

Lemma allDigits_drop (n : nat) (s : string) :
  allDigits s = true -> allDigits (Double.drop n s) = true.
Proof.
  revert s. induction n as [| n IH]; intros [| c r] H; try exact H.
  cbn [allDigits] in H. apply andb_true_iff in H. destruct H as [Hc Hr].
  cbn [Double.drop]. apply IH. exact Hr.
Qed.

(** The value of digits. *)


Local Open Scope Z_scope.

Lemma digitsValue_append (acc : Z) (a b : string) :
  digitsValue acc (a ++ b) = digitsValue (digitsValue acc a) b.
Proof.
  revert acc. induction a as [| c a IH]; intros acc; [reflexivity |].
  cbn [String.append digitsValue]. apply IH.
Qed.

Lemma digitsValue_zeros (acc : Z) (n : nat) :
  digitsValue acc (Double.zeros n) = acc * 10 ^ Z.of_nat n.
Proof.
  revert acc. induction n as [| n IH]; intros acc.
  - cbn [Double.zeros digitsValue]. change (10 ^ Z.of_nat 0) with 1. ring.
  - cbn [Double.zeros digitsValue]. rewrite IH.
    rewrite Nat2Z.inj_succ, Z.pow_succ_r by lia.
    change (Z.of_N (N_of_ascii "0" - 48)) with 0. ring.
Qed.

Lemma digitsValue_uint_acc (d : Decimal.uint) (acc : positive) :
  digitsValue (Z.pos acc) (DecimalString.NilEmpty.string_of_uint d)
  = Z.pos (Pos.of_uint_acc d acc).
Proof.
  revert acc.
  induction d as [| d IH | d IH | d IH | d IH | d IH | d IH | d IH | d IH
                  | d IH | d IH]; intros acc;
    cbn [DecimalString.NilEmpty.string_of_uint digitsValue Pos.of_uint_acc];
    [reflexivity | ..];
    rewrite <- IH; f_equal;
    match goal with
    | |- context [Z.of_N ?n] =>
        let v := eval vm_compute in (Z.of_N n) in
        change (Z.of_N n) with v
    end; lia.
Qed.

Lemma digitsValue_uint (d : Decimal.uint) :
  digitsValue 0 (DecimalString.NilEmpty.string_of_uint d)
  = Z.of_N (Pos.of_uint d).
Proof.
  induction d as [| d IH | d IH | d IH | d IH | d IH | d IH | d IH | d IH
                  | d IH | d IH];
    cbn [DecimalString.NilEmpty.string_of_uint digitsValue Pos.of_uint];
    [reflexivity | exact IH | ..];
    cbn [Z.of_N]; rewrite <- digitsValue_uint_acc; reflexivity.
Qed.

Lemma allDigits_uint (d : Decimal.uint) :
  allDigits (DecimalString.NilEmpty.string_of_uint d) = true.
Proof.
  induction d; cbn [DecimalString.NilEmpty.string_of_uint allDigits];
    [reflexivity | ..]; exact IHd.
Qed.

Lemma to_uint_head (p : positive) :
  exists c r,
    DecimalString.NilEmpty.string_of_uint (Pos.to_uint p) = String c r /\
    isDigit c = true /\ Ascii.eqb c "0" = false.
Proof.
  pose proof (DecimalPos.Unsigned.to_uint_nonnil p) as Hnil.
  pose proof (DecimalPos.Unsigned.to_uint_nonzero p) as Hzero.
  assert (Hnorm : Decimal.unorm (Pos.to_uint p) = Pos.to_uint p).
  { pose proof (DecimalN.Unsigned.to_of (Pos.to_uint p)) as H.
    unfold N.of_uint in H. rewrite DecimalPos.Unsigned.of_to in H.
    symmetry. exact H. }
  destruct (Pos.to_uint p) as [| d | d | d | d | d | d | d | d | d | d] eqn:E;
    [congruence | | ..];
    try (cbn [DecimalString.NilEmpty.string_of_uint];
         eexists _, _; split; [reflexivity | split; reflexivity]).
  exfalso. rewrite DecimalFacts.unorm_D0 in Hnorm.
  unfold Decimal.unorm in Hnorm.
  destruct (Decimal.nzhead d) eqn:En;
    apply (DecimalFacts.nzhead_nonzero d d); congruence.
Qed.

Lemma digits_positive (n : Z) :
  0 < n ->
  allDigits (Double.digits n) = true /\
  digitsValue 0 (Double.digits n) = n /\
  exists c r,
    Double.digits n = String c r /\ isDigit c = true /\
    Ascii.eqb c "0" = false.
Proof.
  intros Hn. destruct n as [| p | p]; try lia.
  unfold Double.digits. cbn [Z.to_N N.to_uint].
  assert (E : DecimalString.NilZero.string_of_uint (Pos.to_uint p)
              = DecimalString.NilEmpty.string_of_uint (Pos.to_uint p)).
  { unfold DecimalString.NilZero.string_of_uint.
    pose proof (DecimalPos.Unsigned.to_uint_nonnil p) as Hnil.
    destruct (Pos.to_uint p); [congruence | ..]; reflexivity. }
  rewrite E. split; [apply allDigits_uint |]. split.
  - rewrite digitsValue_uint, DecimalPos.Unsigned.of_to. reflexivity.
  - apply to_uint_head.
Qed.

Lemma digits_nonneg (n : Z) :
  0 <= n ->
  allDigits (Double.digits n) = true /\
  digitsValue 0 (Double.digits n) = n /\
  Double.digits n <> EmptyString.
Proof.
  intros Hn. destruct (Z.eq_dec n 0) as [-> | Hne].
  - split; [reflexivity |]. split; [reflexivity | discriminate].
  - destruct (digits_positive n ltac:(lia)) as (H1 & H2 & c & r & H3 & _).
    split; [exact H1 |]. split; [exact H2 |]. rewrite H3. discriminate.
Qed.

(** The parts of a number. *)


Lemma endsValue_stops (rest : string) :
  endsValue rest = true ->
  stops rest = true /\
  readFraction rest = Some (EmptyString, rest) /\
  readExponent rest = Some (0%Z, rest).
Proof.
  destruct rest as [| c r]; [repeat split |].
  cbn [endsValue]. intros H.
  destruct (N.eqb_spec (N_of_ascii c) 44) as [E | _];
    [apply (f_equal ascii_of_N) in E; rewrite ascii_N_embedding in E; subst c;
     repeat split |].
  destruct (N.eqb_spec (N_of_ascii c) 93) as [E | _];
    [apply (f_equal ascii_of_N) in E; rewrite ascii_N_embedding in E; subst c;
     repeat split |].
  destruct (N.eqb_spec (N_of_ascii c) 125) as [E | _];
    [apply (f_equal ascii_of_N) in E; rewrite ascii_N_embedding in E; subst c;
     repeat split | discriminate H].
Qed.

Lemma eqb_empty (s : string) : s <> "" -> String.eqb s "" = false.
Proof. destruct s; [congruence | reflexivity]. Qed.

Lemma readFraction_digits (frac t : string) :
  allDigits frac = true -> frac <> "" -> stops t = true ->
  readFraction ("." ++ frac ++ t) = Some (frac, t).
Proof.
  intros Hd Hne Ht. cbn [String.append readFraction Ascii.eqb Bool.eqb].
  rewrite (readDigits_digits frac t Hd Ht), (eqb_empty frac Hne).
  reflexivity.
Qed.

Lemma readExponent_digits (e : Z) (rest : string) :
  stops rest = true ->
  readExponent ("e" ++ (if (e <? 0)%Z then "-" else "+")
                    ++ Double.digits (Z.abs e) ++ rest)
  = Some (e, rest).
Proof.
  intros Hrest.
  destruct (digits_nonneg (Z.abs e) (Z.abs_nonneg e)) as (Hd & Hv & Hne).
  destruct (Z.ltb_spec e 0) as [He | He];
    cbn [String.append readExponent Ascii.eqb Bool.eqb orb];
    rewrite (readDigits_digits _ rest Hd Hrest), (eqb_empty _ Hne), Hv;
    f_equal; f_equal; lia.
Qed.

Lemma wellFormedInteger_head (c : ascii) (r : string) :
  Ascii.eqb c "0" = false -> wellFormedInteger (String c r) = true.
Proof. intros H. cbn [wellFormedInteger]. rewrite H. reflexivity. Qed.

Lemma take_head (n : nat) (c : ascii) (r : string) :
  n <> O -> exists r', Double.take n (String c r) = String c r'.
Proof.
  destruct n as [| n]; [congruence |]. intros _.
  cbn [Double.take]. eexists. reflexivity.
Qed.


Lemma readUnsigned_parts (negative : bool) (text int s2 frac s3 rest : string)
      (x : Z) :
  readDigits text = (int, s2) ->
  wellFormedInteger int = true ->
  readFraction s2 = Some (frac, s3) ->
  readExponent s3 = Some (x, rest) ->
  readUnsigned negative text
  = Some (Double.roundDecimal negative (digitsValue 0 (int ++ frac))
            (x - Z.of_nat (String.length frac)), rest).
Proof.
  intros H1 H2 H3 H4. unfold readUnsigned. rewrite H1, H2, H3, H4.
  reflexivity.
Qed.

Lemma wellFormedInteger_append (ds x : string) (c : ascii) (r : string) :
  ds = String c r -> Ascii.eqb c "0" = false ->
  wellFormedInteger (ds ++ x) = true.
Proof.
  intros -> H. cbn [String.append]. apply wellFormedInteger_head. exact H.
Qed.

(** Reading what [format] wrote: the number the digits and the place of
    the point stand for. *)
Lemma readUnsigned_format (negative : bool) (s p : Z) (rest : string) :
  0 < s -> endsValue rest = true ->
  readUnsigned negative (Double.format s p ++ rest)
  = Some (Double.roundDecimal negative s p, rest).
Proof.
  intros Hs Hrest.
  destruct (endsValue_stops rest Hrest) as (Hstop & Hfrac & Hexp).
  destruct (digits_positive s Hs) as (Hd & Hv & c & r & Hds & Hc & Hc0).
  unfold Double.format.
  set (ds := Double.digits s) in *.
  set (k := Z.of_nat (String.length ds)).
  set (n := p + k).
  assert (Hk : 1 <= k).
  { unfold k. rewrite Hds. cbn [String.length]. lia. }
  destruct ((k <=? n) && (n <=? 21)) eqn:C1.
  { (* digits and zeros *)
    apply andb_true_iff in C1. destruct C1 as [C1 _]. apply Z.leb_le in C1.
    set (int := (ds ++ Double.zeros (Z.to_nat (n - k)))%string).
    assert (Hall : allDigits int = true).
    { unfold int. rewrite allDigits_append, Hd, allDigits_zeros. reflexivity. }
    rewrite (readUnsigned_parts negative _ int rest "" rest rest 0
               (readDigits_digits int rest Hall Hstop)
               (wellFormedInteger_append ds _ c r Hds Hc0) Hfrac Hexp).
    rewrite append_nil_r. unfold int.
    rewrite digitsValue_append, Hv, digitsValue_zeros.
    cbn [String.length Z.of_nat Z.sub Z.opp Z.add].
    rewrite Z2Nat.id by lia. replace (n - k) with p by lia.
    unfold Double.roundDecimal.
    destruct (Z.leb_spec 0 p) as [_ | Hp]; [| lia].
    cbn [Z.leb Z.compare]. change (10 ^ 0) with 1. rewrite Z.mul_1_r.
    reflexivity. }
  destruct ((0 <? n) && (n <=? 21)) eqn:C2.
  { (* the point inside the digits *)
    apply andb_true_iff in C2. destruct C2 as [C2 C2']. apply Z.ltb_lt in C2.
    apply Z.leb_le in C2'.
    assert (Hnk : n < k).
    { apply andb_false_iff in C1. destruct C1 as [C1 | C1].
      - apply Z.leb_gt in C1. exact C1.
      - apply Z.leb_gt in C1. lia. }
    set (int := Double.take (Z.to_nat n) ds).
    set (frac := Double.drop (Z.to_nat n) ds).
    assert (Hint : allDigits int = true) by (apply allDigits_take; exact Hd).
    assert (Hfr : allDigits frac = true) by (apply allDigits_drop; exact Hd).
    assert (Hlen : Z.of_nat (String.length frac) = k - n).
    { unfold frac. rewrite length_drop. unfold k. lia. }
    assert (Hne : frac <> "").
    { intros E. rewrite E in Hlen. cbn [String.length] in Hlen. lia. }
    destruct (take_head (Z.to_nat n) c r ltac:(lia)) as (r' & Hhead).
    assert (Hwf : wellFormedInteger int = true).
    { unfold int. rewrite Hds, Hhead. apply wellFormedInteger_head, Hc0. }
    rewrite !append_assoc.
    rewrite (readUnsigned_parts negative _ int ("." ++ frac ++ rest)
               frac rest rest 0
               (readDigits_digits int ("." ++ frac ++ rest) Hint eq_refl) Hwf
               (readFraction_digits frac rest Hfr Hne Hstop) Hexp).
    unfold int, frac. rewrite take_drop, Hv.
    fold frac. rewrite Hlen.
    replace (0 - (k - n)) with p by lia. reflexivity. }
  destruct ((-6 <? n) && (n <=? 0)) eqn:C3.
  { (* zeros after the point *)
    apply andb_true_iff in C3. destruct C3 as [_ C3]. apply Z.leb_le in C3.
    set (frac := (Double.zeros (Z.to_nat (- n)) ++ ds)%string).
    assert (Htext : (("0." ++ frac) ++ rest
                     = "0" ++ "." ++ frac ++ rest)%string).
    { cbn [String.append]. reflexivity. }
    rewrite Htext.
    assert (Hfr : allDigits frac = true).
    { unfold frac. rewrite allDigits_append, allDigits_zeros, Hd. reflexivity. }
    assert (Hne : frac <> "").
    { unfold frac. rewrite Hds. destruct (Double.zeros _); discriminate. }
    rewrite (readUnsigned_parts negative _ "0" ("." ++ frac ++ rest)
               frac rest rest 0
               (readDigits_digits "0" ("." ++ frac ++ rest) eq_refl eq_refl) eq_refl
               (readFraction_digits frac rest Hfr Hne Hstop) Hexp).
    cbn [String.append digitsValue].
    change (10 * 0 + Z.of_N (N_of_ascii "0" - 48)) with 0.
    unfold frac at 1.
    rewrite digitsValue_append, digitsValue_zeros, Z.mul_0_l, Hv.
    unfold frac. rewrite length_append, length_zeros, Nat2Z.inj_add.
    rewrite Z2Nat.id by lia. fold k.
    replace (0 - (- n + k)) with p by lia. reflexivity. }
  (* the exponent *)
  set (exponent := ("e" ++ (if (n - 1 <? 0)%Z then "-" else "+")
                        ++ Double.digits (Z.abs (n - 1)) ++ rest)%string).
  destruct (Z.eqb_spec k 1) as [K1 | K1].
  - assert (Htext : ((ds ++ "e" ++ (if (n - 1 <? 0)%Z then "-" else "+")
                         ++ Double.digits (Z.abs (n - 1))) ++ rest
                     = ds ++ exponent)%string).
    { unfold exponent. rewrite ?append_assoc. cbn [String.append].
      rewrite ?append_assoc. reflexivity. }
    rewrite Htext.
    rewrite (readUnsigned_parts negative _ ds exponent "" exponent rest (n - 1)
               (readDigits_digits ds exponent Hd eq_refl)
               (eq_trans (f_equal wellFormedInteger Hds)
                         (wellFormedInteger_head c r Hc0))
               eq_refl (readExponent_digits (n - 1) rest Hstop)).
    rewrite append_nil_r, Hv. cbn [String.length Z.of_nat].
    replace (n - 1 - 0) with p by lia. reflexivity.
  - set (int := Double.take 1 ds).
    set (frac := Double.drop 1 ds).
    assert (Htext : ((int ++ "." ++ frac ++ "e"
                          ++ (if (n - 1 <? 0)%Z then "-" else "+")
                          ++ Double.digits (Z.abs (n - 1))) ++ rest
                     = int ++ "." ++ frac ++ exponent)%string).
    { unfold exponent. rewrite ?append_assoc. cbn [String.append].
      rewrite ?append_assoc. cbn [String.append].
      rewrite ?append_assoc. reflexivity. }
    rewrite Htext.
    assert (Hint : allDigits int = true) by (apply allDigits_take; exact Hd).
    assert (Hfr : allDigits frac = true) by (apply allDigits_drop; exact Hd).
    assert (Hlen : Z.of_nat (String.length frac) = k - 1).
    { unfold frac. rewrite length_drop. unfold k. lia. }
    assert (Hne : frac <> "").
    { intros E. rewrite E in Hlen. cbn [String.length] in Hlen. lia. }
    assert (Hwf : wellFormedInteger int = true).
    { unfold int. rewrite Hds. apply wellFormedInteger_head, Hc0. }
    rewrite (readUnsigned_parts negative _ int ("." ++ frac ++ exponent)
               frac exponent rest (n - 1)
               (readDigits_digits int ("." ++ frac ++ exponent) Hint eq_refl)
               Hwf
               (readFraction_digits frac exponent Hfr Hne eq_refl)
               (readExponent_digits (n - 1) rest Hstop)).
    unfold int, frac. rewrite take_drop, Hv.
    fold frac. rewrite Hlen.
    replace (n - 1 - (k - 1)) with p by lia. reflexivity.
Qed.

(** The text of a number starts with a digit. *)
Lemma format_head (s p : Z) :
  0 < s ->
  exists c r, Double.format s p = String c r /\ isDigit c = true.
Proof.
  intros Hs.
  destruct (digits_positive s Hs) as (Hd & Hv & c & r & Hds & Hc & Hc0).
  unfold Double.format. rewrite Hds.
  set (k := Z.of_nat (String.length (String c r))).
  set (n := p + k).
  destruct ((k <=? n) && (n <=? 21)).
  { cbn [String.append]. eexists _, _. split; [reflexivity | exact Hc]. }
  destruct ((0 <? n) && (n <=? 21)) eqn:C2.
  { apply andb_true_iff in C2. destruct C2 as [C2 _]. apply Z.ltb_lt in C2.
    destruct (take_head (Z.to_nat n) c r ltac:(lia)) as (r' & ->).
    cbn [String.append]. eexists _, _. split; [reflexivity | exact Hc]. }
  destruct ((-6 <? n) && (n <=? 0)).
  { cbn [String.append]. eexists _, _. split; reflexivity. }
  destruct (k =? 1); cbn [Double.take String.append];
    eexists _, _; (split; [reflexivity | exact Hc]).
Qed.

End NumberText.

(* ---------------------------------------------------------------------- *)
(** *** What a text stands for *)

(** The value that is read from the text of a value: a number that is
    not finite was written as null, and a negative zero as 0. *)
Fixpoint jsonNormal (v : JsValue) : JsValue :=
  match v with
  | JNum n =>
      match n with
      | Double.NaN | Double.Infinity _ => JNull
      | Double.Zero _ => JNum (Double.Zero false)
      | Double.Finite _ _ _ _ => v
      end
  | JArr items => JArr (map jsonNormal items)
  | JObj props => JObj (map (fun p => (fst p, jsonNormal (snd p))) props)
  | _ => v
  end.

Lemma isUndefined_jsonNormal (v : JsValue) :
  isUndefined (jsonNormal v) = isUndefined v.
Proof.
  destruct v as [| | b | [| s | s | s m e H] | s | items | props];
    reflexivity.
Qed.

Lemma objKeys_jsonNormal (props : JsObject) :
  objKeys (map (fun p => (fst p, jsonNormal (snd p))) props) = objKeys props.
Proof.
  unfold objKeys. rewrite map_map. reflexivity.
Qed.

Lemma objGet_jsonNormal (props : JsObject) (key : string) :
  objGet (map (fun p => (fst p, jsonNormal (snd p))) props) key
  = jsonNormal (objGet props key).
Proof.
  induction props as [| [k v] r IH]; [reflexivity |].
  cbn [map objGet fst snd]. destruct (String.eqb k key); [reflexivity | exact IH].
Qed.

(* ---------------------------------------------------------------------- *)
(** *** Values, elements and members *)

(** The number of nested calls the reader makes on the text of a value. *)
Fixpoint size (v : JsValue) : nat :=
  match v with
  | JArr items => S (list_sum (map (fun x => S (size x)) items))
  | JObj props =>
      S (list_sum (map (fun p => match p with (_, w) => S (size w) end) props))
  | _ => 1
  end.

Lemma size_jsonNormal (v : JsValue) : size (jsonNormal v) = size v.
Proof.
  induction v as [| | b | n | s | items IH | props IH]
    using JsValue_ind_nested; try reflexivity.
  - destruct n; reflexivity.
  - cbn [jsonNormal size]. f_equal. f_equal.
    induction IH as [| x r Hx _ IHr]; [reflexivity |].
    cbn [map]. rewrite Hx, IHr. reflexivity.
  - cbn [jsonNormal size]. f_equal. f_equal.
    induction IH as [| [k x] r Hx _ IHr]; [reflexivity |].
    cbn [map fst snd] in *. rewrite Hx, IHr. reflexivity.
Qed.

(** The reader gives back what the written value stands for, whatever
    follows it. *)
Definition readsBack (v : JsValue) : Prop :=
  forall fuel rest,
    size v <= fuel -> endsValue rest = true ->
    readValue fuel (serialize v ++ rest) = Read (jsonNormal v, rest).

(** The text of the members of an object without undefined values. *)
Definition memberText (p : string * JsValue) : string :=
  quote (fst p) ++ ":" ++ serialize (snd p).

Lemma readValue_number (fuel : nat) (c : ascii) (r : string) :
  Ascii.eqb c "-" || isDigit c = true ->
  readValue (S fuel) (String c r)
  = match readNumber (String c r) with
    | Some (x, rest) => Read (JNum x, rest)
    | None => Malformed
    end.
Proof.
  destruct c as [[] [] [] [] [] [] [] []]; intros H;
    try discriminate H; reflexivity.
Qed.

Lemma isDigit_not_minus (c : ascii) :
  isDigit c = true -> Ascii.eqb c "-" = false.
Proof.
  destruct c as [[] [] [] [] [] [] [] []]; intros H;
    try discriminate H; reflexivity.
Qed.

(** The text of a finite number other than zero, and what it reads as. *)
Lemma readNumber_toString (negative : bool) (m : positive) (e : Z)
      (H : Double.bounded m e = true) (rest : string) :
  endsValue rest = true ->
  exists c s,
    (Double.toString (Double.Finite negative m e H) ++ rest)%string
    = String c s /\
    Ascii.eqb c "-" || isDigit c = true /\
    readNumber (String c s) = Some (Double.Finite negative m e H, rest).
Proof.
  intros Hrest. cbn [Double.toString].
  pose proof (DoubleFacts.decimal_spec negative m e H) as [Hs Hr].
  destruct (Double.decimal m e H) as [s p]. cbn [fst snd] in Hs, Hr.
  pose proof (NumberText.readUnsigned_format negative s p rest Hs Hrest)
    as Hread.
  rewrite Hr in Hread.
  destruct negative.
  - eexists _, _. split; [reflexivity |]. split; [reflexivity |].
    cbn [readNumber Ascii.eqb Bool.eqb]. exact Hread.
  - destruct (NumberText.format_head s p Hs) as (c & r & Hf & Hc).
    cbn [String.append]. rewrite Hf in *. cbn [String.append] in *.
    exists c, (r ++ rest)%string. split; [reflexivity |].
    split; [rewrite Hc; apply orb_true_r |].
    cbn [readNumber]. rewrite (isDigit_not_minus c Hc). exact Hread.
Qed.

Lemma readsBack_number (n : Double.t) : readsBack (JNum n).
Proof.
  intros fuel rest Hfuel Hrest.
  destruct fuel as [| f]; [cbn [size] in Hfuel; lia |].
  destruct n as [| s | s | s m e H]; cbn [serialize Double.isFinite jsonNormal].
  - reflexivity.
  - reflexivity.
  - cbn [Double.toString String.append].
    rewrite (readValue_number f "0" rest eq_refl).
    destruct (NumberText.endsValue_stops rest Hrest) as (Hstop & Hfrac & Hexp).
    cbn [readNumber Ascii.eqb Bool.eqb].
    rewrite (NumberText.readUnsigned_parts false (String "0" rest) "0" rest
               "" rest rest 0
               (NumberText.readDigits_digits "0" rest eq_refl Hstop)
               eq_refl Hfrac Hexp).
    reflexivity.
  - destruct (readNumber_toString s m e H rest Hrest) as (c & t & -> & Hc & Hn).
    rewrite (readValue_number f c t Hc), Hn. reflexivity.
Qed.

Lemma readValue_string (fuel : nat) (s : string) :
  readValue (S fuel) (String dquote s)
  = match readChars s with
    | Read (t, rest) => Read (JStr t, rest)
    | Malformed => Malformed
    | Unmodelled => Unmodelled
    end.
Proof. reflexivity. Qed.

Lemma readsBack_string (s : string) : readsBack (JStr s).
Proof.
  intros fuel rest Hfuel _.
  destruct fuel as [| f]; [cbn [size] in Hfuel; lia |].
  cbn [serialize]. rewrite quote_append, readValue_string.
  rewrite readChars_quoteChars. reflexivity.
Qed.

Lemma readValue_array (fuel : nat) (c : ascii) (s : string) :
  isWhitespace c = false -> (N_of_ascii c =? 93)%N = false ->
  readValue (S fuel) (String "[" (String c s))
  = match readElements fuel (String c s) with
    | Read (items, rest) => Read (JArr items, rest)
    | Malformed => Malformed
    | Unmodelled => Unmodelled
    end.
Proof.
  intros Hw Hc.
  change (readValue (S fuel) (String "[" (String c s)))
    with (match skipWhitespace (String c s) with
          | String c1 r1 =>
              if (N_of_ascii c1 =? 93)%N then Read (JArr [], r1)
              else
                match readElements fuel (String c1 r1) with
                | Read (items, rest) => Read (JArr items, rest)
                | Malformed => Malformed
                | Unmodelled => Unmodelled
                end
          | EmptyString => Malformed
          end).
  cbn [skipWhitespace]. rewrite Hw, Hc. reflexivity.
Qed.

Lemma readValue_object (fuel : nat) (s : string) :
  readValue (S fuel) (String "{" (String dquote s))
  = match readMembers fuel (String dquote s) with
    | Read (members, rest) => Read (JObj (buildObject members []), rest)
    | Malformed => Malformed
    | Unmodelled => Unmodelled
    end.
Proof. reflexivity. Qed.

Lemma readElements_step (fuel : nat) (s : string) :
  readElements (S fuel) s
  = match readValue fuel s with
    | Read (v, r) =>
        match skipWhitespace r with
        | String c r1 =>
            if (N_of_ascii c =? 44)%N then
              match readElements fuel r1 with
              | Read (vs, rest) => Read (v :: vs, rest)
              | Malformed => Malformed
              | Unmodelled => Unmodelled
              end
            else if (N_of_ascii c =? 93)%N then Read ([v], r1)
            else Malformed
        | EmptyString => Malformed
        end
    | Malformed => Malformed
    | Unmodelled => Unmodelled
    end.
Proof. reflexivity. Qed.

Lemma readMembers_step (fuel : nat) (s : string) :
  readMembers (S fuel) (String dquote s)
  = match readChars s with
    | Read (key, r1) =>
        match skipWhitespace r1 with
        | String colon r2 =>
            if (N_of_ascii colon =? 58)%N then
              match readValue fuel r2 with
              | Read (v, r3) =>
                  match skipWhitespace r3 with
                  | String c r4 =>
                      if (N_of_ascii c =? 44)%N then
                        match readMembers fuel r4 with
                        | Read (ms, rest) => Read ((key, v) :: ms, rest)
                        | Malformed => Malformed
                        | Unmodelled => Unmodelled
                        end
                      else if (N_of_ascii c =? 125)%N then Read ([(key, v)], r4)
                      else Malformed
                  | EmptyString => Malformed
                  end
              | Malformed => Malformed
              | Unmodelled => Unmodelled
              end
            else Malformed
        | EmptyString => Malformed
        end
    | Malformed => Malformed
    | Unmodelled => Unmodelled
    end.
Proof. reflexivity. Qed.

(* ---------------------------------------------------------------------- *)
(** *** The round trip through the text *)

Lemma skipWhitespace_head (c : ascii) (s : string) :
  isWhitespace c = false -> skipWhitespace (String c s) = String c s.
Proof. intros H. cbn [skipWhitespace]. rewrite H. reflexivity. Qed.

(** A written value starts with a character that is neither white space
    nor a closing bracket. *)
Definition startsValue (c : ascii) : bool :=
  negb (isWhitespace c) && negb (N_of_ascii c =? 93)%N.

Lemma serialize_head (v : JsValue) :
  exists c s, serialize v = String c s /\ startsValue c = true.
Proof.
  destruct v as [| | [] | [| n | n | n m e H] | s | items | props];
    try (eexists _, _; split; reflexivity).
  destruct (readNumber_toString n m e H "" eq_refl) as (c & s & Hs & Hc & _).
  rewrite append_nil_r in Hs.
  exists c, s. split; [exact Hs |].
  clear Hs. destruct c as [[] [] [] [] [] [] [] []];
    try discriminate Hc; reflexivity.
Qed.

Lemma joinWith_head (c : ascii) (s : string) (parts : list string) :
  exists s', joinWith "," (String c s :: parts) = String c s'.
Proof.
  destruct parts as [| p r]; cbn [joinWith String.append]; eexists; reflexivity.
Qed.

Lemma readElements_serialize (items : list JsValue) :
  items <> [] ->
  Forall readsBack items ->
  forall fuel rest,
    list_sum (map (fun x => S (size x)) items) <= fuel ->
    readElements fuel (joinWith "," (map serialize items) ++ String "]" rest)
    = Read (map jsonNormal items, rest).
Proof.
  induction items as [| x r IH]; [congruence |].
  intros _ HF fuel rest Hfuel. inversion HF as [| ? ? Hx Hr]; subst.
  cbn [map list_sum fold_right] in Hfuel.
  destruct fuel as [| f]; [lia |].
  rewrite readElements_step.
  destruct r as [| y r'].
  - cbn [map joinWith]. cbn [map list_sum fold_right] in Hfuel.
    rewrite (Hx f (String "]" rest)); [reflexivity | lia | reflexivity].
  - change (joinWith "," (map serialize (x :: y :: r')))
      with (serialize x ++ "," ++ joinWith "," (map serialize (y :: r')))%string.
    rewrite !append_assoc.
    change ("," ++ ?t)%string with (String "," t).
    cbn [String.append].
    rewrite (Hx f (String "," _)); [| lia | reflexivity].
    cbn [skipWhitespace]. change (isWhitespace ",") with false. cbv iota.
    change (N_of_ascii "," =? 44)%N with true. cbv iota.
    rewrite IH; [reflexivity | discriminate | exact Hr |].
    cbn [map list_sum fold_right] in Hfuel |- *. lia.
Qed.

Lemma readMembers_serialize (props : JsObject) :
  props <> [] ->
  Forall (fun p => readsBack (snd p)) props ->
  forall fuel rest,
    list_sum (map (fun p => match p with (_, w) => S (size w) end) props)
    <= fuel ->
    readMembers fuel (joinWith "," (map memberText props) ++ String "}" rest)
    = Read (map (fun p => (fst p, jsonNormal (snd p))) props, rest).
Proof.
  induction props as [| [k x] r IH]; [congruence |].
  intros _ HF fuel rest Hfuel. inversion HF as [| ? ? Hx Hr]; subst.
  cbn [snd] in Hx. cbn [map list_sum fold_right] in Hfuel.
  destruct fuel as [| f]; [lia |].
  destruct r as [| [k' y] r'].
  - cbn [map joinWith]. cbn [map list_sum fold_right] in Hfuel.
    unfold memberText. cbn [fst snd].
    rewrite !append_assoc, quote_append, readMembers_step.
    rewrite readChars_quoteChars. cbn [String.append].
    cbn [skipWhitespace]. change (isWhitespace ":") with false. cbv iota.
    change (N_of_ascii ":" =? 58)%N with true. cbv iota.
    rewrite (Hx f (String "}" rest)); [reflexivity | lia | reflexivity].
  - change (joinWith "," (map memberText ((k, x) :: (k', y) :: r')))
      with (memberText (k, x) ++ ","
            ++ joinWith "," (map memberText ((k', y) :: r')))%string.
    unfold memberText at 1. cbn [fst snd].
    rewrite !append_assoc, quote_append, readMembers_step.
    rewrite readChars_quoteChars. cbn [String.append].
    cbn [skipWhitespace]. change (isWhitespace ":") with false. cbv iota.
    change (N_of_ascii ":" =? 58)%N with true. cbv iota.
    rewrite (Hx f (String "," _)); [| lia | reflexivity].
    cbn [skipWhitespace]. change (isWhitespace ",") with false. cbv iota.
    change (N_of_ascii "," =? 44)%N with true. cbv iota.
    rewrite IH; [reflexivity | discriminate | exact Hr |].
    cbn [map list_sum fold_right] in Hfuel |- *. lia.
Qed.

(** Without undefined values every property of an object is written. *)
Lemma serialize_object (props : JsObject) :
  Forall (fun p => canonicalJson (snd p)) props ->
  serialize (JObj props)
  = ("{" ++ joinWith "," (map memberText props) ++ "}")%string.
Proof.
  intros HF. cbn [serialize]. do 3 f_equal.
  induction HF as [| [k x] r Hx _ IH]; [reflexivity |].
  cbn [flat_map map]. rewrite IH.
  destruct x; cbn [snd canonicalJson] in Hx; try contradiction; reflexivity.
Qed.

Lemma readsBack_canonical (v : JsValue) : canonicalJson v -> readsBack v.
Proof.
  induction v as [| | b | n | s | items IH | props IH]
    using JsValue_ind_nested; intros Hc.
  - contradiction.
  - intros [| f] rest Hfuel _; [cbn [size] in Hfuel; lia | reflexivity].
  - intros [| f] rest Hfuel _; [cbn [size] in Hfuel; lia |].
    destruct b; reflexivity.
  - apply readsBack_number.
  - apply readsBack_string.
  - apply canonicalJson_array in Hc.
    assert (HF : Forall readsBack items).
    { clear - IH Hc. induction IH as [| x r Hx _ IHr]; [constructor |].
      inversion Hc; subst. constructor; auto. }
    intros [| f] rest Hfuel _; [cbn [size] in Hfuel; lia |].
    cbn [size] in Hfuel.
    destruct items as [| x r]; [reflexivity |].
    cbn [serialize jsonNormal]. rewrite !append_assoc. cbn [String.append].
    pose proof (readElements_serialize (x :: r)) as HE.
    destruct (serialize_head x) as (c & s & Hs & Hstart).
    destruct (joinWith_head c s (map serialize r)) as (s' & Hj).
    cbn [map] in *. rewrite Hs in *. rewrite Hj in *.
    cbn [String.append] in *.
    unfold startsValue in Hstart. apply andb_true_iff in Hstart.
    destruct Hstart as [Hw H93]. apply negb_true_iff in Hw, H93.
    rewrite (readValue_array f c _ Hw H93).
    rewrite HE; [reflexivity | discriminate | exact HF | lia].
  - apply canonicalJson_object in Hc. destruct Hc as [Hord Hvals].
    assert (HF : Forall (fun p => readsBack (snd p)) props).
    { clear - IH Hvals. induction IH as [| x r Hx _ IHr]; [constructor |].
      inversion Hvals; subst. constructor; auto. }
    intros [| f] rest Hfuel _; [cbn [size] in Hfuel; lia |].
    cbn [size] in Hfuel.
    rewrite (serialize_object props Hvals).
    assert (Hbuild : buildObject
                       (map (fun p => (fst p, jsonNormal (snd p))) props) []
                     = map (fun p => (fst p, jsonNormal (snd p))) props).
    { apply buildObject_ordered_id. rewrite objKeys_jsonNormal. exact Hord. }
    cbn [jsonNormal].
    destruct props as [| [k x] r]; [reflexivity |].
    rewrite !append_assoc. cbn [String.append].
    pose proof (readMembers_serialize ((k, x) :: r)) as HM.
    destruct (joinWith_head dquote (quoteChars k ++ String dquote
                                      (":" ++ serialize x))
                (map memberText r)) as (s' & Hj).
    assert (Hm : memberText (k, x)
                 = String dquote (quoteChars k ++ String dquote
                                    (":" ++ serialize x))).
    { unfold memberText. cbn [fst snd]. apply quote_append. }
    cbn [map] in HM, Hfuel |- *. rewrite Hm in HM |- *.
    rewrite Hj in HM |- *.
    cbn [String.append] in HM |- *.
    rewrite readValue_object.
    rewrite HM; [| discriminate | exact HF | lia].
    cbn [map] in Hbuild. rewrite Hbuild. reflexivity.
Qed.

(* ---------------------------------------------------------------------- *)
(** *** Enough fuel for every written text *)

Lemma length_serialize (v : JsValue) : 1 <= String.length (serialize v).
Proof.
  destruct (serialize_head v) as (c & s & Hs & _).
  rewrite Hs. cbn [String.length]. lia.
Qed.

Lemma length_joinWith (sep : string) (parts : list string) :
  list_sum (map String.length parts) <= String.length (joinWith sep parts).
Proof.
  induction parts as [| p r IH]; [reflexivity |].
  cbn [map list_sum fold_right]. fold (list_sum (map String.length r)).
  destruct r as [| q r'].
  - cbn [joinWith map list_sum fold_right]. lia.
  - change (joinWith sep (p :: q :: r'))
      with (p ++ sep ++ joinWith sep (q :: r'))%string.
    rewrite !length_append. lia.
Qed.

Lemma size_le_length (v : JsValue) :
  canonicalJson v -> size v <= String.length (serialize v).
Proof.
  induction v as [| | b | n | s | items IH | props IH]
    using JsValue_ind_nested; intros Hc.
  - contradiction.
  - cbn. lia.
  - destruct b; cbn; lia.
  - cbn [size]. apply length_serialize.
  - cbn [size serialize]. unfold quote. cbn [String.length]. lia.
  - apply canonicalJson_array in Hc.
    cbn [size serialize]. rewrite !length_append.
    pose proof (length_joinWith "," (map serialize items)) as Hj.
    assert (Hsum : list_sum (map (fun x => S (size x)) items)
                   <= List.length items
                      + list_sum (map String.length (map serialize items))).
    { clear Hj. induction IH as [| x r Hx _ IHr]; [reflexivity |].
      inversion Hc; subst.
      cbn [map list_sum fold_right List.length].
      fold (list_sum (map (fun x => S (size x)) r)).
      fold (list_sum (map String.length (map serialize r))).
      specialize (Hx ltac:(assumption)). specialize (IHr ltac:(assumption)).
      lia. }
    assert (Hlen : List.length items
                   + list_sum (map String.length (map serialize items))
                   <= S (String.length (joinWith "," (map serialize items)))).
    { clear. induction items as [| x [| y r] IHr].
      - cbn. lia.
      - cbn [map joinWith list_sum fold_right List.length]. lia.
      - change (joinWith "," (map serialize (x :: y :: r)))
          with (serialize x ++ "," ++ joinWith "," (map serialize (y :: r)))%string.
        rewrite !length_append.
        change (map serialize (x :: y :: r))
          with (serialize x :: map serialize (y :: r)).
        cbn [map list_sum fold_right List.length String.length] in IHr |- *.
        lia. }
    cbn [String.length]. lia.
  - apply canonicalJson_object in Hc. destruct Hc as [_ Hvals].
    rewrite (serialize_object props Hvals).
    cbn [size]. rewrite !length_append.
    assert (Hsum : list_sum (map (fun p => match p with
                                          | (_, w) => S (size w)
                                          end) props)
                   <= list_sum (map String.length (map memberText props))).
    { induction IH as [| [k x] r Hx _ IHr]; [reflexivity |].
      inversion Hvals; subst.
      cbn [map list_sum fold_right snd] in *.
      fold (list_sum (map (fun p : string * JsValue =>
                             match p with (_, w) => S (size w) end) r)).
      fold (list_sum (map String.length (map memberText r))).
      specialize (Hx ltac:(assumption)). specialize (IHr ltac:(assumption)).
      change (memberText (k, x)) with (quote k ++ ":" ++ serialize x)%string.
      rewrite !length_append. unfold quote. cbn [String.length]. lia. }
    pose proof (length_joinWith "," (map memberText props)) as Hj.
    cbn [String.length]. lia.
Qed.

(** [JSON.parse] reads from the text of a canonical value what the
    value stands for. *)
Lemma JSON_parse_serialize (v : JsValue) :
  canonicalJson v -> JSON_parse (serialize v) = Read (jsonNormal v).
Proof.
  intros Hc. unfold JSON_parse.
  pose proof (readsBack_canonical v Hc (S (String.length (serialize v))) "")
    as Hr.
  rewrite append_nil_r in Hr. rewrite Hr; [reflexivity | | reflexivity].
  pose proof (size_le_length v Hc). lia.
Qed.

(* ---------------------------------------------------------------------- *)
(** *** The canonical form is a fixed point *)

Lemma serialize_jsonNormal (v : JsValue) :
  serialize (jsonNormal v) = serialize v.
Proof.
  induction v as [| | b | n | s | items IH | props IH]
    using JsValue_ind_nested; try reflexivity.
  - destruct n; reflexivity.
  - cbn [jsonNormal serialize]. do 3 f_equal.
    induction IH as [| x r Hx _ IHr]; [reflexivity |].
    cbn [map]. rewrite Hx, IHr. reflexivity.
  - cbn [jsonNormal serialize]. do 3 f_equal.
    induction IH as [| [k x] r Hx _ IHr]; [reflexivity |].
    cbn [map flat_map fst snd] in *.
    rewrite isUndefined_jsonNormal, Hx, IHr. reflexivity.
Qed.

Lemma keptKey_jsonNormal (props : JsObject) (key : string) :
  keptKey (map (fun p => (fst p, jsonNormal (snd p))) props) key
  = keptKey props key.
Proof.
  unfold keptKey. rewrite objGet_jsonNormal, isUndefined_jsonNormal.
  reflexivity.
Qed.

(** Canonicalizing what a value stands for gives what the canonical value
    stands for. *)
Lemma canonicalizeValue_jsonNormal (v : JsValue) :
  canonicalizeValue (jsonNormal v) = jsonNormal (canonicalizeValue v).
Proof.
  induction v as [| | b | n | s | items IH | props IH]
    using JsValue_ind_nested; try reflexivity.
  - destruct n; reflexivity.
  - cbn [jsonNormal canonicalizeValue]. f_equal.
    induction IH as [| x r Hx _ IHr]; [reflexivity |].
    cbn [map filter].
    rewrite Hx, isUndefined_jsonNormal.
    destruct (isUndefined (canonicalizeValue x)); cbn [negb map];
      [exact IHr | f_equal; exact IHr].
  - cbn [jsonNormal]. rewrite !canonicalizeValue_object. cbn [jsonNormal].
    f_equal.
    set (N := map (fun p => (fst p, jsonNormal (snd p)))).
    assert (Hkeys : objKeys (canonicalizeObject (N props))
                    = objKeys (N (canonicalizeObject props))).
    { unfold N at 2. rewrite objKeys_jsonNormal.
      apply keysOrdered_unique; try apply canonicalizeObject_ordered.
      intros k. rewrite !canonicalizeObject_In.
      unfold N. rewrite keptKey_jsonNormal. tauto. }
    apply object_ext.
    + exact Hkeys.
    + apply keysOrdered_NoDup, canonicalizeObject_ordered.
    + intros k Hk. apply canonicalizeObject_In in Hk.
      rewrite canonicalizeObject_get, Hk.
      unfold N in *. rewrite keptKey_jsonNormal in Hk.
      rewrite !objGet_jsonNormal, canonicalizeObject_get, Hk.
      apply (objGet_Forall
               (fun x => canonicalizeValue (jsonNormal x)
                         = jsonNormal (canonicalizeValue x)));
        [reflexivity | exact IH].
Qed.

Lemma canonicalize_object (props : JsObject) :
  canonicalize (JObj props) = Ok (serialize (canonicalizeValue (JObj props))).
Proof.
  unfold canonicalize. rewrite canonicalizeValue_object. reflexivity.
Qed.

(** What [canonicalize] returns: the text of the canonical value of an
    array or an object. *)
Lemma canonicalize_ok (v : JsValue) (text : string) :
  canonicalize v = Ok text ->
  typeofObject v = true /\ v <> JNull /\
  text = serialize (canonicalizeValue v) /\
  canonicalJson (canonicalizeValue v).
Proof.
  destruct v as [| | b | n | s | items | props]; cbn [canonicalize];
    try discriminate.
  - intros H. injection H as <-.
    split; [reflexivity |]. split; [discriminate |]. split; [reflexivity |].
    apply canonicalizeValue_canonicalJson. reflexivity.
  - rewrite canonicalizeValue_object. cbn [JSON_stringify].
    intros H. injection H as <-.
    split; [reflexivity |]. split; [discriminate |]. split; [reflexivity |].
    rewrite <- canonicalizeValue_object.
    apply canonicalizeValue_canonicalJson. reflexivity.
Qed.

Lemma canonicalize_defined (v : JsValue) :
  typeofObject v = true -> v <> JNull ->
  canonicalize v = Ok (serialize (canonicalizeValue v)).
Proof.
  destruct v as [| | b | n | s | items | props]; intros Ho Hn;
    try discriminate Ho; try congruence.
  - reflexivity.
  - apply canonicalize_object.
Qed.

(** The value read from a canonical text has the same canonical text. *)
Lemma canonicalize_read_back (v : JsValue) (text : string) :
  canonicalize v = Ok text ->
  JSON_parse text = Read (jsonNormal (canonicalizeValue v)) /\
  canonicalize (jsonNormal (canonicalizeValue v)) = Ok text.
Proof.
  intros H.
  destruct (canonicalize_ok v text H) as (Hobj & Hnull & Htext & Hcanon).
  split; [rewrite Htext; apply JSON_parse_serialize; exact Hcanon |].
  assert (Hshape : typeofObject (jsonNormal (canonicalizeValue v)) = true
                   /\ jsonNormal (canonicalizeValue v) <> JNull).
  { destruct v as [| | b | n | s | items | props]; try discriminate Hobj;
      try congruence.
    - split; [reflexivity | discriminate].
    - rewrite canonicalizeValue_object. split; [reflexivity | discriminate]. }
  rewrite (canonicalize_defined _ (proj1 Hshape) (proj2 Hshape)).
  rewrite canonicalizeValue_jsonNormal, canonicalizeValue_idempotent.
  rewrite serialize_jsonNormal, Htext. reflexivity.
Qed.

(** [parseAndCanonicalize] returns a text exactly when [JSON.parse] reads
    a value and [canonicalize] returns that text for it. *)
Lemma parseAndCanonicalize_ok (t text : string) :
  parseAndCanonicalize t = Some (Ok text) <->
  exists parsed, JSON_parse t = Read parsed /\ canonicalize parsed = Ok text.
Proof.
  unfold parseAndCanonicalize. split.
  - destruct (JSON_parse t) as [parsed | |]; try discriminate.
    intros H. exists parsed. split; [reflexivity |].
    destruct parsed; cbn [typeofObject negb] in H; try discriminate H;
      exact (f_equal (fun o => match o with
                               | Some r => r
                               | None => Err ""
                               end) H).
  - intros (parsed & -> & H).
    destruct (canonicalize_ok parsed text H) as (Hobj & Hnull & _).
    destruct parsed; try discriminate Hobj; try congruence;
      cbn [typeofObject negb]; rewrite H; reflexivity.
Qed.

Lemma parseAndCanonicalize_read (t : string) (parsed : JsValue) :
  JSON_parse t = Read parsed ->
  exists r,
    parseAndCanonicalize t = Some r /\
    (forall text, r = Ok text <-> canonicalize parsed = Ok text).
Proof.
  intros E. unfold parseAndCanonicalize. rewrite E.
  destruct parsed as [| | b | n | s | items | props];
    cbn [typeofObject negb];
    eexists; (split; [reflexivity |]);
    intros text; split; intros H; try discriminate H; exact H.
Qed.

Lemma parseAndCanonicalize_canonical (v : JsValue) (text : string) :
  canonicalize v = Ok text -> parseAndCanonicalize text = Some (Ok text).
Proof.
  intros H. apply parseAndCanonicalize_ok.
  exists (jsonNormal (canonicalizeValue v)).
  apply canonicalize_read_back. exact H.
Qed.

Lemma isCanonical_true (t : string) :
  isCanonical t = Some true <-> parseAndCanonicalize t = Some (Ok t).
Proof.
  unfold isCanonical.
  destruct (parseAndCanonicalize t) as [[text | msg] |].
  - split; intros H.
    + injection H as H. apply String.eqb_eq in H. congruence.
    + injection H as <-. rewrite String.eqb_refl. reflexivity.
  - split; intros H; discriminate H.
  - split; intros H; discriminate H.
Qed.

(** C7.  For every mapping [x] (a JavaScript object, whatever the order and
    the values of its properties) [canonicalize x] returns a text for which
    [isCanonical] answers true; [JSON.parse] of that text reads a value,
    and canonicalizing that value gives the same result as
    [canonicalize x], so [parseAndCanonicalize] reproduces the text.  For
    every text [t], [isCanonical t] is true exactly when [JSON.parse]
    reads a value from [t] and [canonicalize] returns [t], byte for byte,
    for that value; and exactly when [t] is a text that [canonicalize]
    returns for some value, which is what being in canonical form means.
    It is false exactly when [t] is no JSON text or the value read has
    another result under [canonicalize]; and it has no answer here
    exactly when the text is outside the strings of the model. *)
Theorem canonical_form_round_trip :
  (forall props : JsObject,
     exists text parsed,
       canonicalize (JObj props) = Ok text /\
       isCanonical text = Some true /\
       JSON_parse text = Read parsed /\
       canonicalize parsed = canonicalize (JObj props) /\
       parseAndCanonicalize text = Some (Ok text)) /\
  (forall t : string,
     isCanonical t = Some true <->
     exists parsed,
       JSON_parse t = Read parsed /\ canonicalize parsed = Ok t) /\
  (forall t : string,
     isCanonical t = Some true <-> exists x, canonicalize x = Ok t) /\
  (forall t : string,
     isCanonical t = Some false <->
     JSON_parse t = Malformed \/
     exists parsed,
       JSON_parse t = Read parsed /\ canonicalize parsed <> Ok t) /\
  (forall t : string,
     isCanonical t = None <-> JSON_parse t = Unmodelled).
Proof.
  split; [| split; [| split; [| split]]].
  - intros props.
    pose proof (canonicalize_object props) as Hc.
    destruct (canonicalize_read_back _ _ Hc) as [Hparse Hback].
    exists (serialize (canonicalizeValue (JObj props))),
           (jsonNormal (canonicalizeValue (JObj props))).
    pose proof (parseAndCanonicalize_canonical _ _ Hc) as Hround.
    split; [exact Hc |].
    split; [apply isCanonical_true; exact Hround |].
    split; [exact Hparse |].
    split; [| exact Hround].
    rewrite Hback, Hc. reflexivity.
  - intros t. rewrite isCanonical_true. apply parseAndCanonicalize_ok.
  - intros t. rewrite isCanonical_true. split.
    + intros H. apply parseAndCanonicalize_ok in H.
      destruct H as (parsed & _ & H). exists parsed. exact H.
    + intros [x Hx]. apply (parseAndCanonicalize_canonical x). exact Hx.
  - intros t. unfold isCanonical.
    destruct (JSON_parse t) as [parsed | |] eqn:E.
    + destruct (parseAndCanonicalize_read t parsed E) as (r & -> & Hr).
      split.
      * intros H. right. exists parsed. split; [reflexivity |].
        intros Hc. apply Hr in Hc. subst r.
        rewrite String.eqb_refl in H. discriminate H.
      * intros [H | (parsed0 & E0 & Hne)]; [discriminate H |].
        injection E0 as <-.
        destruct r as [text | msg]; [| reflexivity].
        f_equal. apply String.eqb_neq. intros ->.
        apply Hne. apply Hr. reflexivity.
    + unfold parseAndCanonicalize. rewrite E.
      split; [intros _; left; reflexivity | reflexivity].
    + unfold parseAndCanonicalize. rewrite E.
      split; [discriminate |].
      intros [H | (parsed & H & _)]; discriminate H.
  - intros t. unfold isCanonical.
    destruct (JSON_parse t) as [parsed | |] eqn:E.
    + destruct (parseAndCanonicalize_read t parsed E) as (r & -> & _).
      split; [destruct r; discriminate | discriminate].
    + unfold parseAndCanonicalize. rewrite E. split; discriminate.
    + unfold parseAndCanonicalize. rewrite E. split; reflexivity.
Qed.

(** The text of the unit test, from an object given in another order. *)
Example canonical_form_round_trip_sample :
  canonicalize (JObj [("b", JInt 2); ("a", JInt 1)])
  = Ok (jsonText "{'a':1,'b':2}")
  /\ isCanonical (jsonText "{'a':1,'b':2}") = Some true.
Proof. vm_compute. split; reflexivity. Qed.

(** Numbers that JSON does not write: the canonical text has null for a
    number that is not finite and 0 for the negative zero, so the value
    read back is not the canonical value itself but what it stands
    for. *)
Example canonical_form_not_a_number :
  canonicalize (JObj [("a", JNum Double.NaN);
                      ("b", JNum (Double.Zero true));
                      ("c", JNum (Double.Infinity false))])
  = Ok (jsonText "{'a':null,'b':0,'c':null}")
  /\ JSON_parse (jsonText "{'a':null,'b':0,'c':null}")
     = Read (JObj [("a", JNull); ("b", JInt 0); ("c", JNull)])
  /\ isCanonical (jsonText "{'a':null,'b':0,'c':null}") = Some true.
Proof. vm_compute. repeat split; reflexivity. Qed.

(* ====================================================================== *)
(** ** Records that are logically equal *)
(* ====================================================================== *)

(** Two values that differ only in the order in which the properties of
    their objects were created: the same scalars, arrays with the same
    elements in the same order, objects with the same keys and, under
    every key, values that are the same in this sense. *)
Inductive sameValue : JsValue -> JsValue -> Prop :=
| same_undefined : sameValue JUndefined JUndefined
| same_null : sameValue JNull JNull
| same_bool (b : bool) : sameValue (JBool b) (JBool b)
| same_num (n : Double.t) : sameValue (JNum n) (JNum n)
| same_str (s : string) : sameValue (JStr s) (JStr s)
| same_arr_nil : sameValue (JArr []) (JArr [])
| same_arr_cons (x y : JsValue) (xs ys : list JsValue) :
    sameValue x y ->
    sameValue (JArr xs) (JArr ys) ->
    sameValue (JArr (x :: xs)) (JArr (y :: ys))
| same_obj (ps qs : JsObject) :
    (forall k, In k (objKeys ps) <-> In k (objKeys qs)) ->
    (forall k, sameValue (objGet ps k) (objGet qs k)) ->
    sameValue (JObj ps) (JObj qs).

(** A hash field up to the letter case of its text. *)
Definition sameHashField (v w : JsValue) : Prop :=
  match v, w with
  | JStr a, JStr b => toLowerCase a = toLowerCase b
  | _, _ => v = w
  end.

(** An optional mapping that is left out or present without properties. *)
Definition emptyMapping (v : JsValue) : Prop :=
  v = JUndefined \/ v = JObj [].

Definition sameOptionalMapping (v w : JsValue) : Prop :=
  sameValue v w \/ (emptyMapping v /\ emptyMapping w).

(** Records are compared field by field, so the order of their fields
    plays no part. *)
Definition logicallyEqual (r r' : InferenceRecord) : Prop :=
  sameValue (objGet r "model") (objGet r' "model") /\
  sameHashField (objGet r "prompt_hash") (objGet r' "prompt_hash") /\
  sameHashField (objGet r "output_hash") (objGet r' "output_hash") /\
  sameOptionalMapping (objGet r "parameters") (objGet r' "parameters") /\
  sameOptionalMapping (objGet r "context") (objGet r' "context") /\
  sameValue (objGet r "timestamp") (objGet r' "timestamp") /\
  sameValue (objGet r "nonce") (objGet r' "nonce").

(** The canonical object depends on what is read under each key only. *)
Lemma canonicalizeObject_ext (o1 o2 : JsObject) :
  (forall k, canonicalizeValue (objGet o1 k) = canonicalizeValue (objGet o2 k)) ->
  canonicalizeObject o1 = canonicalizeObject o2.
Proof.
  intros H.
  assert (Hkept : forall k, keptKey o1 k = keptKey o2 k).
  { intros k. unfold keptKey.
    rewrite <- (isUndefined_canonicalizeValue (objGet o1 k)), H.
    rewrite isUndefined_canonicalizeValue. reflexivity. }
  apply object_ext.
  - apply keysOrdered_unique; try apply canonicalizeObject_ordered.
    intros k. rewrite !canonicalizeObject_In, Hkept. tauto.
  - apply keysOrdered_NoDup, canonicalizeObject_ordered.
  - intros k _. rewrite !canonicalizeObject_get, Hkept, H. reflexivity.
Qed.

Lemma sameValue_canonicalizeValue (v w : JsValue) :
  sameValue v w -> canonicalizeValue v = canonicalizeValue w.
Proof.
  induction 1 as [| | b | n | s | | x y xs ys _ IHx _ IHr | ps qs _ _ IH];
    try reflexivity.
  - cbn [canonicalizeValue map filter] in *. rewrite IHx.
    injection IHr as IHr. rewrite IHr. reflexivity.
  - rewrite !canonicalizeValue_object. f_equal.
    apply canonicalizeObject_ext. exact IH.
Qed.

Lemma objGet_cases (obj : JsObject) (key : string) :
  objGet obj key = JUndefined \/ In (key, objGet obj key) obj.
Proof.
  induction obj as [| [k v] r IH]; [left; reflexivity |].
  cbn [objGet]. destruct (String.eqb_spec k key) as [-> | Hne].
  - right. left. reflexivity.
  - destruct IH as [IH | IH]; [left; exact IH | right; right; exact IH].
Qed.

Lemma sameValue_refl (v : JsValue) : sameValue v v.
Proof.
  induction v as [| | b | n | s | items IH | props IH]
    using JsValue_ind_nested; try constructor.
  - induction IH as [| x r Hx _ IHr]; constructor; assumption.
  - tauto.
  - intros k. destruct (objGet_cases props k) as [-> | Hin];
      [constructor |].
    rewrite Forall_forall in IH. exact (IH _ Hin).
Qed.

(** Objects with the same properties in another order are the same. *)
Lemma sameValue_permutation (ps qs : JsObject) :
  NoDup (objKeys ps) -> Permutation ps qs -> sameValue (JObj ps) (JObj qs).
Proof.
  intros Hnd Hperm.
  assert (Hkeys : Permutation (objKeys ps) (objKeys qs))
    by (apply Permutation_map; exact Hperm).
  assert (Hnd' : NoDup (objKeys qs))
    by (eapply Permutation_NoDup; eassumption).
  constructor.
  - intros k. split; apply Permutation_in;
      [exact Hkeys | symmetry; exact Hkeys].
  - intros k. destruct (objGet_cases ps k) as [Hu | Hin].
    + rewrite Hu.
      destruct (objGet_cases qs k) as [-> | Hin']; [constructor |].
      apply (Permutation_in _ (Permutation_sym Hperm)) in Hin'.
      rewrite (objGet_In _ _ _ Hnd Hin') in Hu.
      rewrite Hu. constructor.
    + rewrite (objGet_In _ _ _ Hnd' (Permutation_in _ Hperm Hin)).
      apply sameValue_refl.
Qed.

(* ---------------------------------------------------------------------- *)
(** *** What the hasher reads from a record *)

Lemma objSet_get (obj : JsObject) (key key' : string) (v : JsValue) :
  String.eqb key "__proto__" = false ->
  objGet (objSet obj key v) key'
  = if String.eqb key key' then v else objGet obj key'.
Proof.
  intros H. unfold objSet. rewrite H. apply defineOwn_get.
Qed.

Lemma objSet_if_get (c : bool) (obj : JsObject) (key key' : string) (v : JsValue) :
  String.eqb key "__proto__" = false ->
  objGet (if c then objSet obj key v else obj) key'
  = if c && String.eqb key key' then v else objGet obj key'.
Proof.
  intros H. destruct c; [apply objSet_get; exact H | reflexivity].
Qed.

(** An optional mapping is kept when it is truthy and has a key. *)
Definition keptMapping (v : JsValue) : bool :=
  truthyValue v && (0 <? objectKeysLength v)%nat.

Lemma sameHashField_normalize (v w : JsValue) :
  sameHashField v w -> normalizeHashField v = normalizeHashField w.
Proof.
  unfold sameHashField.
  destruct v, w; intros H; try discriminate H; try reflexivity;
    try (injection H as ->; reflexivity).
  cbn [normalizeHashField]. unfold normalizeHash. rewrite H. reflexivity.
Qed.

Lemma sameValue_isUndefined (v w : JsValue) :
  sameValue v w -> isUndefined v = isUndefined w.
Proof. destruct 1; reflexivity. Qed.

Lemma sameValue_keptMapping (v w : JsValue) :
  sameValue v w -> keptMapping v = keptMapping w.
Proof.
  unfold keptMapping.
  destruct 1 as [| | b | n | s | | x y xs ys _ _ | ps qs Hkeys _];
    try reflexivity.
  cbn [truthyValue objectKeysLength andb].
  destruct ps as [| [k x] r], qs as [| [k' y] r']; try reflexivity.
  - destruct (proj2 (Hkeys k') (or_introl eq_refl)).
  - destruct (proj1 (Hkeys k) (or_introl eq_refl)).
Qed.

Lemma emptyMapping_dropped (v : JsValue) :
  emptyMapping v -> keptMapping v = false.
Proof. intros [-> | ->]; reflexivity. Qed.

Lemma sameOptionalMapping_kept (v w : JsValue) :
  sameOptionalMapping v w ->
  keptMapping v = keptMapping w /\
  (keptMapping v = true -> canonicalizeValue v = canonicalizeValue w).
Proof.
  intros [Hs | [Hv Hw]].
  - split; [apply sameValue_keptMapping; exact Hs |].
    intros _. apply sameValue_canonicalizeValue. exact Hs.
  - rewrite (emptyMapping_dropped v Hv), (emptyMapping_dropped w Hw).
    split; [reflexivity | discriminate].
Qed.

(* ---------------------------------------------------------------------- *)
(** *** The hash of logically equal records *)

(** C2.  Two records that are logically equal have the same result under
    [hashInference]: records whose fields, read by name, agree, where the
    two hash fields may differ in letter case, the values may differ in
    the creation order of the properties of their objects, and an empty
    [parameters] or [context] mapping counts as a missing one.  As
    [hashInference] is a function, repeated calls agree as well. *)
Theorem hashInference_logically_equal (r r' : InferenceRecord) :
  logicallyEqual r r' -> hashInference r = hashInference r'.
Proof.
  intros (Hm & Hp & Ho & Hpar & Hctx & Ht & Hn).
  apply sameOptionalMapping_kept in Hpar, Hctx.
  destruct Hpar as [Hpar1 Hpar2], Hctx as [Hctx1 Hctx2].
  pose proof (sameValue_isUndefined _ _ Ht) as Ht1.
  pose proof (sameValue_isUndefined _ _ Hn) as Hn1.
  apply sameValue_canonicalizeValue in Hm, Ht, Hn.
  unfold hashInference, prepareForHashing.
  rewrite (sameHashField_normalize _ _ Hp), (sameHashField_normalize _ _ Ho).
  destruct (normalizeHashField (objGet r' "prompt_hash")) as [ph | e];
    [| reflexivity].
  destruct (normalizeHashField (objGet r' "output_hash")) as [oh | e];
    [| reflexivity].
  cbn [bind]. cbv zeta.
  fold (keptMapping (objGet r "parameters")) (keptMapping (objGet r "context"))
       (keptMapping (objGet r' "parameters")) (keptMapping (objGet r' "context")).
  rewrite !canonicalize_object, !canonicalizeValue_object.
  match goal with
  | |- bind (Ok (serialize (JObj (canonicalizeObject ?P)))) _
       = bind (Ok (serialize (JObj (canonicalizeObject ?Q)))) _ =>
      rewrite (canonicalizeObject_ext P Q); [reflexivity |]
  end.
  intros k.
  rewrite !objSet_if_get by reflexivity. rewrite !defineOwn_get.
  cbn [objGet].
  rewrite <- Hpar1, <- Hctx1, <- Ht1, <- Hn1.
  destruct (isUndefined (objGet r "nonce")), (String.eqb "nonce" k);
    cbn [negb andb]; try exact Hn;
  destruct (isUndefined (objGet r "timestamp")), (String.eqb "timestamp" k);
    cbn [negb andb]; try exact Ht;
  destruct (keptMapping (objGet r "context")), (String.eqb "context" k);
    cbn [negb andb]; try (apply Hctx2; reflexivity);
  destruct (keptMapping (objGet r "parameters")), (String.eqb "parameters" k);
    cbn [negb andb]; try (apply Hpar2; reflexivity);
  destruct (String.eqb "output_hash" k), (String.eqb "prompt_hash" k),
           (String.eqb "model" k); try reflexivity; try exact Hm.
Qed.

(** With two strings as hash fields a record has a hash. *)
Lemma hashInference_returns (r : InferenceRecord) (a b : string) :
  objGet r "prompt_hash" = JStr a ->
  objGet r "output_hash" = JStr b ->
  exists hash, hashInference r = Ok hash.
Proof.
  intros Ha Hb. unfold hashInference, prepareForHashing.
  rewrite Ha, Hb. cbn [normalizeHashField bind]. cbv zeta.
  rewrite canonicalize_object. cbn [bind keccak256].
  eexists. reflexivity.
Qed.

Module SampleRecord.

(** A record, and the same record with its fields in another order, its
    hashes in capitals, the properties of [parameters] exchanged and the
    empty [context] left out. *)
Definition first : InferenceRecord :=
  [ ("model", JStr "gpt-4");
    ("prompt_hash", JStr "0xabc123");
    ("output_hash", JStr "0xdef456");
    ("parameters", JObj [("seed", JInt 7); ("max_tokens", JInt 512)]);
    ("context", JObj []) ].

Definition second : InferenceRecord :=
  [ ("parameters", JObj [("max_tokens", JInt 512); ("seed", JInt 7)]);
    ("output_hash", JStr "0XDEF456");
    ("prompt_hash", JStr "0xABC123");
    ("model", JStr "gpt-4") ].

End SampleRecord.

Example sample_records_equal :
  logicallyEqual SampleRecord.first SampleRecord.second.
Proof.
  unfold logicallyEqual, SampleRecord.first, SampleRecord.second.
  cbn [objGet String.eqb Ascii.eqb Bool.eqb].
  split; [constructor |].
  split; [reflexivity |].
  split; [reflexivity |].
  split.
  { left. apply sameValue_permutation.
    - repeat constructor; simpl; intuition discriminate.
    - apply perm_swap. }
  split.
  { right. split; [right | left]; reflexivity. }
  split; constructor.
Qed.

Lemma hashInference_logically_equal_witness :
  logicallyEqual SampleRecord.first SampleRecord.second /\
  hashInference SampleRecord.first = hashInference SampleRecord.second.
Proof.
  split; [exact sample_records_equal |].
  apply (hashInference_logically_equal SampleRecord.first SampleRecord.second).
  exact sample_records_equal.
Defined.

Example hashInference_sample :
  prepareForHashing SampleRecord.second
  = Ok [ ("model", JStr "gpt-4");
         ("prompt_hash", JStr "0xabc123");
         ("output_hash", JStr "0xdef456");
         ("parameters", JObj [("max_tokens", JInt 512); ("seed", JInt 7)]) ]
  /\ (prepared <- prepareForHashing SampleRecord.first ;;
      canonicalize (JObj prepared))
     = Ok (jsonText
             "{'model':'gpt-4','output_hash':'0xdef456','parameters':{'max_tokens':512,'seed':7},'prompt_hash':'0xabc123'}")
  /\ isOk (hashInference SampleRecord.first) = true.
Proof. vm_compute. repeat split. Qed.

(** The record of the unit tests of the hasher, with its temperature 0.2:
    the text that is hashed, and the hash. *)
Example hashInference_unit_test_record :
  let record : InferenceRecord :=
    [ ("model", JStr "gpt-4.1");
      ("prompt_hash", JStr "0xabc123");
      ("output_hash", JStr "0xdef456");
      ("parameters", JObj [("temperature", JDec 2 (-1));
                           ("max_tokens", JInt 512)]);
      ("context", JObj [("feature", JStr "test")]) ] in
  (prepared <- prepareForHashing record ;; canonicalize (JObj prepared))
  = Ok (jsonText
          "{'context':{'feature':'test'},'model':'gpt-4.1','output_hash':'0xdef456','parameters':{'max_tokens':512,'temperature':0.2},'prompt_hash':'0xabc123'}")
  /\ hashInference record
     = Ok "0x145160ba95a2c9e90e82fb8127c78f1c111fd1e0cf9c1bc4d79ee5b88b1efbcb".
Proof. vm_compute. split; reflexivity. Qed.

(* ====================================================================== *)
(** * Part III: the rest of the program *)
(* ====================================================================== *)

(* ====================================================================== *)
(** ** hashing/hasher.ts: [combineHashes] *)
(* ====================================================================== *)

(** [s.replace(pattern, '')] with a string as pattern: the first
    occurrence of the pattern is taken out. *)
Fixpoint removeFirst (pattern s : string) : string :=
  match expect pattern s with
  | Some rest => rest
  | None =>
      match s with
      | EmptyString => EmptyString
      | String c r => String c (removeFirst pattern r)
      end
  end.

(** Combine two hashes using keccak256.  Unlike [hashPair] the two
    strings are lower-cased only, and the prefix is taken out of the
    second one wherever it first occurs. *)
Definition combineHashes (left_ right_ : string) : result string :=
  let sortedPair := sort [toLowerCase left_; toLowerCase right_] in
  let first := match nth_error sortedPair 0 with
               | Some x => x
               | None => ""
               end in
  let second := match nth_error sortedPair 1 with
                | Some x => x
                | None => ""
                end in
  let combined := (first ++ removeFirst "0x" second)%string in
  keccak256 (HexData combined).

(* ====================================================================== *)
(** ** verifier/verifier.ts: the report and the explanation *)
(* ====================================================================== *)

(** Text of a number, or of [undefined], concatenated to a string. *)
Definition numberOrUndefined (o : option Z) : string :=
  match o with
  | Some n => numberToString n
  | None => "undefined"
  end.

Definition newline : string := String (ascii_of_N 10) "".

Module ExplainResponse.
Record details : Type := mkDetails {
  inference_hash : string;
  merkle_root    : option string;
  block_number   : option Z;
  chain_name     : option string
}.
Record t : Type := mk {
  what_is_proven       : list string;
  what_is_not_proven   : list string;
  trust_assumptions    : list string;
  verification_details : option details
}.
End ExplainResponse.

(** Generate explanation of what verification proves. *)
Definition explainVerification (result : VerificationResult.t)
  : ExplainResponse.t :=
  let whatIsProven :=
    if VerificationResult.verified result then
      [ "The inference metadata existed at the time of anchoring";
        "The inference has not been modified since it was batched";
        ("The batch was anchored before block "
           ++ numberOrUndefined (VerificationResult.block_number result))%string;
        "The Merkle proof is mathematically valid" ]
      ++ (if truthyOption (VerificationResult.chain_name result)
          then [ ("The root is stored on "
                    ++ textOrUndefined (VerificationResult.chain_name result))
                   %string ]
          else [])
    else [ "Unable to verify inference" ] in
  let whatIsNotProven :=
    [ "The correctness or accuracy of the AI output";
      "The truthfulness of any claims in the output";
      "That the AI model actually produced this output";
      "That the prompt was not manipulated before hashing";
      "The identity of the party who recorded the inference";
      "That all inferences were recorded (completeness)";
      "That the model parameters were actually used" ] in
  let trustAssumptions :=
    [ "The recording party hashed the data correctly";
      "The local storage has not been tampered with";
      "The blockchain has not experienced a reorg past the anchor block";
      "The smart contract code is correct and uncompromised";
      "The RPC endpoint returns accurate blockchain state" ] in
  {| ExplainResponse.what_is_proven := whatIsProven;
     ExplainResponse.what_is_not_proven := whatIsNotProven;
     ExplainResponse.trust_assumptions := trustAssumptions;
     ExplainResponse.verification_details :=
       if VerificationResult.verified result then
         Some {| ExplainResponse.inference_hash :=
                   VerificationResult.inference_hash result;
                 ExplainResponse.merkle_root :=
                   VerificationResult.merkle_root result;
                 ExplainResponse.block_number :=
                   VerificationResult.block_number result;
                 ExplainResponse.chain_name :=
                   VerificationResult.chain_name result |}
       else None |}.

(** The lines of the report, before they are joined. *)
Definition reportLines (result : VerificationResult.t) : list string :=
  (if VerificationResult.verified result then
     [ "[VERIFIED] Inference verified successfully";
       "";
       ("[VERIFIED] Existed before block "
          ++ numberOrUndefined (VerificationResult.block_number result))%string;
       "[VERIFIED] Not modified since anchoring";
       "[VERIFIED] Merkle proof valid" ]
     ++ (if truthyOption (VerificationResult.chain_name result)
         then [ ("[VERIFIED] Anchored on "
                   ++ textOrUndefined (VerificationResult.chain_name result))
                  %string ]
         else [])
   else
     [ "[FAILED] Verification failed";
       "";
       ("Reason: "
          ++ match VerificationResult.error result with
             | Some message => message
             | None => "Unknown error"
             end)%string ])
  ++ [ "";
       "[NOT PROVEN] Does NOT prove correctness or truthfulness";
       "[NOT PROVEN] Does NOT prove the AI actually produced this";
       "[NOT PROVEN] Does NOT prove completeness of records" ].

(** Format verification result as human-readable report. *)
Definition formatVerificationReport (result : VerificationResult.t) : string :=
  joinWith newline (reportLines result).

(* ====================================================================== *)
(** ** storage/storage.ts: the in-memory state and its methods *)
(* ====================================================================== *)

(** A JavaScript [Map] with string keys: its entries in insertion order.
    [set] on a key that is present replaces the value in place, on a new
    key it appends the entry. *)
Definition JsMap (V : Type) : Type := list (string * V).

Definition mapGet {V : Type} (m : JsMap V) (key : string) : option V :=
  match find (fun entry => String.eqb (fst entry) key) m with
  | Some entry => Some (snd entry)
  | None => None
  end.

Definition mapHas {V : Type} (m : JsMap V) (key : string) : bool :=
  existsb (fun entry => String.eqb (fst entry) key) m.

Fixpoint mapReplace {V : Type} (m : JsMap V) (key : string) (value : V)
  : JsMap V :=
  match m with
  | [] => []
  | (k, v) :: rest =>
      if String.eqb k key then (k, value) :: rest
      else (k, v) :: mapReplace rest key value
  end.

Definition mapSet {V : Type} (m : JsMap V) (key : string) (value : V)
  : JsMap V :=
  if mapHas m key then mapReplace m key value else m ++ [(key, value)].

Definition mapValues {V : Type} (m : JsMap V) : list V := map snd m.

Definition mapSize {V : Type} (m : JsMap V) : nat := List.length m.

(** A JavaScript [Set] of strings: its elements in insertion order. *)
Definition JsSet : Type := list string.

Definition setHas (s : JsSet) (x : string) : bool :=
  existsb (fun y => String.eqb y x) s.

Definition setAdd (s : JsSet) (x : string) : JsSet :=
  if setHas s x then s else s ++ [x].

Module StoredInference.
Record t : Type := mk {
  record         : InferenceRecord;
  inference_hash : string;
  stored_at      : Z
}.
End StoredInference.

Module StorageState.
Record t : Type := mk {
  inferences : JsMap StoredInference.t;
  batches    : JsMap MerkleBatch.t;
  anchors    : JsMap AnchorRecord.t
}.
End StorageState.

(** The state the constructor makes. *)
Definition emptyState : StorageState.t :=
  {| StorageState.inferences := [];
     StorageState.batches := [];
     StorageState.anchors := [] |}.

(** The value a store method writes to disk, and where: the directory
    under the data directory, the name of the file, and the value whose
    JSON text is the content.  The queries below read the in-memory
    state only. *)
Inductive Written : Type :=
| WrittenInference (inference : StoredInference.t)
| WrittenBatch (batch : MerkleBatch.t)
| WrittenAnchor (anchor : AnchorRecord.t).

Record FileWrite : Type := mkFileWrite {
  directory : string;
  fileName  : string;
  content   : Written
}.

(** [s.slice(start, stop)] for [0 <= start <= stop]. *)
Fixpoint takeChars (n : nat) (s : string) : string :=
  match n, s with
  | O, _ => EmptyString
  | S _, EmptyString => EmptyString
  | S m, String c r => String c (takeChars m r)
  end.

Definition sliceRange (start stop : nat) (s : string) : string :=
  takeChars (stop - start) (slice start s).

(** *** Inference operations *)

Definition storeInference (st : StorageState.t) (inference : StoredInference.t)
  : StorageState.t * FileWrite :=
  ({| StorageState.inferences :=
        mapSet (StorageState.inferences st)
               (StoredInference.inference_hash inference) inference;
      StorageState.batches := StorageState.batches st;
      StorageState.anchors := StorageState.anchors st |},
   {| directory := "inferences";
      fileName := sliceRange 2 18 (StoredInference.inference_hash inference)
                  ++ ".json";
      content := WrittenInference inference |}).

Definition getInference (st : StorageState.t) (hash : string)
  : option StoredInference.t :=
  mapGet (StorageState.inferences st) (toLowerCase hash).

Definition getAllInferences (st : StorageState.t) : list StoredInference.t :=
  mapValues (StorageState.inferences st).

(** The set of the lower-cased leaves of all batches. *)
Definition batchedHashes (st : StorageState.t) : JsSet :=
  fold_left
    (fun acc batch =>
       fold_left (fun acc' leaf => setAdd acc' (toLowerCase leaf))
                 (MerkleBatch.leaves batch) acc)
    (mapValues (StorageState.batches st)) [].

Definition getUnbatchedInferences (st : StorageState.t)
  : list StoredInference.t :=
  let batched := batchedHashes st in
  filter (fun inf =>
            negb (setHas batched
                    (toLowerCase (StoredInference.inference_hash inf))))
         (getAllInferences st).

(** *** Batch operations *)

Definition storeBatch (st : StorageState.t) (batch : MerkleBatch.t)
  : StorageState.t * FileWrite :=
  ({| StorageState.inferences := StorageState.inferences st;
      StorageState.batches :=
        mapSet (StorageState.batches st) (MerkleBatch.batch_id batch) batch;
      StorageState.anchors := StorageState.anchors st |},
   {| directory := "batches";
      fileName := MerkleBatch.batch_id batch ++ ".json";
      content := WrittenBatch batch |}).

Definition getBatch (st : StorageState.t) (batchId : string)
  : option MerkleBatch.t :=
  mapGet (StorageState.batches st) batchId.

Definition getBatchByRoot (st : StorageState.t) (root : string)
  : option MerkleBatch.t :=
  let normalizedRoot := toLowerCase root in
  find (fun batch =>
          String.eqb (toLowerCase (MerkleBatch.root batch)) normalizedRoot)
       (mapValues (StorageState.batches st)).

Definition getAllBatches (st : StorageState.t) : list MerkleBatch.t :=
  mapValues (StorageState.batches st).

(** The set of the lower-cased roots of all anchors. *)
Definition anchoredRoots (st : StorageState.t) : JsSet :=
  fold_left
    (fun acc anchor => setAdd acc (toLowerCase (AnchorRecord.merkle_root anchor)))
    (mapValues (StorageState.anchors st)) [].

Definition getUnanchoredBatches (st : StorageState.t) : list MerkleBatch.t :=
  let anchored := anchoredRoots st in
  filter (fun batch =>
            negb (setHas anchored (toLowerCase (MerkleBatch.root batch))))
         (getAllBatches st).

(** *** Anchor operations *)

Definition storeAnchor (st : StorageState.t) (anchor : AnchorRecord.t)
  : StorageState.t * FileWrite :=
  ({| StorageState.inferences := StorageState.inferences st;
      StorageState.batches := StorageState.batches st;
      StorageState.anchors :=
        mapSet (StorageState.anchors st) (AnchorRecord.tx_hash anchor) anchor |},
   {| directory := "anchors";
      fileName := sliceRange 2 18 (AnchorRecord.tx_hash anchor) ++ ".json";
      content := WrittenAnchor anchor |}).

Definition getAnchor (st : StorageState.t) (txHash : string)
  : option AnchorRecord.t :=
  mapGet (StorageState.anchors st) (toLowerCase txHash).

Definition getAnchorByBatchId (st : StorageState.t) (batchId : string)
  : option AnchorRecord.t :=
  find (fun anchor => String.eqb (AnchorRecord.batch_id anchor) batchId)
       (mapValues (StorageState.anchors st)).

Definition getAllAnchors (st : StorageState.t) : list AnchorRecord.t :=
  mapValues (StorageState.anchors st).

(** The values the two lookups of the verifier iterate over. *)
Definition storedValues (st : StorageState.t) : Storage :=
  {| batches := mapValues (StorageState.batches st);
     anchors := mapValues (StorageState.anchors st) |}.

(** *** Utility *)

Module Stats.
Record t : Type := mk {
  inferences          : nat;
  batches             : nat;
  anchors             : nat;
  unbatchedInferences : nat;
  unanchoredBatches   : nat
}.
End Stats.

Definition getStats (st : StorageState.t) : Stats.t :=
  {| Stats.inferences := mapSize (StorageState.inferences st);
     Stats.batches := mapSize (StorageState.batches st);
     Stats.anchors := mapSize (StorageState.anchors st);
     Stats.unbatchedInferences := List.length (getUnbatchedInferences st);
     Stats.unanchoredBatches := List.length (getUnanchoredBatches st) |}.

(* ====================================================================== *)
(** ** The Solidity contract [ProofTraceRegistry] *)
(* ====================================================================== *)

Module ProofTraceRegistry.

(** [bytes32] and [uint256] values as numbers below 2^256; the contract
    does no arithmetic on them. *)
Definition bytes32 : Type := N.
Definition uint256 : Type := N.

(** The storage of the contract: the mapping from a root to the block
    timestamp when it was anchored; a key never written reads zero. *)
Definition Mapping : Type := bytes32 -> uint256.

Definition deployed : Mapping := fun _ => 0%N.

Inductive Error : Type :=
| InvalidRoot
| RootAlreadyAnchored (root : bytes32) (anchoredTimestamp : uint256).

Inductive Event : Type :=
| RootAnchored (root : bytes32) (timestamp : uint256).

(** The outcome of a call: a revert, which leaves the storage as it was,
    or the new storage with the events emitted. *)
Inductive Outcome : Type :=
| Reverted (error : Error)
| Succeeded (storage : Mapping) (events : list Event).

(** Anchor a Merkle root on-chain, in a block with the given timestamp. *)
Definition anchorRoot (blockTimestamp : uint256) (anchoredAt : Mapping)
           (root : bytes32) : Outcome :=
  if (root =? 0)%N then Reverted InvalidRoot
  else
    let existingTimestamp := anchoredAt root in
    if negb (existingTimestamp =? 0)%N then
      Reverted (RootAlreadyAnchored root existingTimestamp)
    else
      Succeeded (fun key => if (key =? root)%N then blockTimestamp
                            else anchoredAt key)
                [RootAnchored root blockTimestamp].

(** Check if a root has been anchored. *)
Definition isAnchored (anchoredAt : Mapping) (root : bytes32) : bool :=
  negb (anchoredAt root =? 0)%N.

(** Get the anchor timestamp for a root. *)
Definition getAnchorTimestamp (anchoredAt : Mapping) (root : bytes32)
  : uint256 :=
  anchoredAt root.

End ProofTraceRegistry.

(* ====================================================================== *)
(** * Part IV: properties of the rest of the program *)
(* ====================================================================== *)

(* ====================================================================== *)
(** ** The hasher *)
(* ====================================================================== *)

(** *** The shape of a digest *)

Lemma length_digits (bs : list Hex.byte) :
  String.length (Hex.digits bs) = 2 * List.length bs.
Proof.
  induction bs as [| b r IH]; [reflexivity |].
  cbn [Hex.digits String.length List.length]. rewrite IH. lia.
Qed.

Lemma length_hexlify (bs : list Hex.byte) :
  String.length (Hex.hexlify bs) = 2 + 2 * List.length bs.
Proof.
  unfold Hex.hexlify. cbn [String.length]. rewrite length_digits. lia.
Qed.

(** A hash as the digest function writes it: the prefix and 64 lower-case
    hex digits. *)
Definition isDigestText (h : string) : Prop :=
  exists bs : list Hex.byte,
    h = Hex.hexlify bs /\ List.length bs = 32.

Lemma isDigestText_shape (h : string) :
  isDigestText h ->
  String.length h = 66 /\ normalized h /\ toLowerCase h = h /\
  isHash32 h = true.
Proof.
  intros (bs & -> & Hlen).
  pose proof (normalized_hexlify bs) as Hn.
  split; [rewrite length_hexlify, Hlen; reflexivity |].
  split; [exact Hn |].
  split; [apply normalized_lower; exact Hn |].
  apply isHash32_hexlify. exact Hlen.
Qed.

Lemma keccak256_bytes (bs : list Hex.byte) :
  keccak256 (Bytes bs) = Ok (Hex.hexlify (Keccak.digest bs)).
Proof. reflexivity. Qed.

Lemma hashInference_digest (r : InferenceRecord) (h : string) :
  hashInference r = Ok h -> isDigestText h.
Proof.
  unfold hashInference. intros H.
  destruct (prepareForHashing r) as [prepared | e]; [| discriminate H].
  cbn [bind] in H.
  destruct (canonicalize (JObj prepared)) as [text | e]; [| discriminate H].
  cbn [bind] in H. rewrite keccak256_bytes in H. injection H as <-.
  eexists. split; [reflexivity | apply digest_length].
Qed.

(** X1.  The hash of a record, when [hashInference] returns, is the prefix 0x
    followed by 64 lower-case hex digits: 66 characters, 32 bytes, already
    in the normal form of [normalizeHash]. *)
Theorem hashInference_shape (r : InferenceRecord) (h : string) :
  hashInference r = Ok h ->
  String.length h = 66 /\ normalizeHash h = h /\ toLowerCase h = h /\
  isHash32 h = true.
Proof.
  intros H. apply isDigestText_shape. exact (hashInference_digest r h H).
Qed.

Lemma hashInference_shape_witness :
  exists h,
    hashInference SampleRecord.first = Ok h /\
    String.length h = 66 /\ normalizeHash h = h /\ toLowerCase h = h /\
    isHash32 h = true.
Proof.
  exists "0x36d7eecbff68c4982415e62fa72bad40175ee594026e0b46c55c149c8c32f5f7".
  assert (H : hashInference SampleRecord.first
              = Ok "0x36d7eecbff68c4982415e62fa72bad40175ee594026e0b46c55c149c8c32f5f7")
    by (vm_compute; reflexivity).
  split; [exact H |].
  exact (hashInference_shape SampleRecord.first _ H).
Defined.

(* ---------------------------------------------------------------------- *)
(** *** Checking a record against a hash *)

Lemma digit_not_x (b : Hex.byte) :
  Ascii.eqb (Hex.digit (Hex.byteToN b mod 16)) "x" = false.
Proof. destruct b; reflexivity. Qed.

Lemma strip0x_digits (bs : list Hex.byte) :
  strip0x (Hex.digits bs) = Hex.digits bs.
Proof.
  destruct bs as [| b r]; [reflexivity |].
  cbn [Hex.digits strip0x]. rewrite digit_not_x, andb_false_r. reflexivity.
Qed.

Lemma normalizeHash_unprefixed (bs : list Hex.byte) :
  normalizeHash (slice 2 (Hex.hexlify bs)) = Hex.hexlify bs.
Proof.
  unfold Hex.hexlify. cbn [slice]. unfold normalizeHash.
  rewrite toLowerCase_digits, strip0x_digits. reflexivity.
Qed.

(** X3.  When [hashInference] returns the hash [h] of a record,
    [verifyInferenceHash] returns for every expected hash, and answers
    true exactly when the normal form of the expected hash is [h]: it
    accepts [h] itself, [h] without its prefix and [h] in any letter
    case. *)
Theorem verifyInferenceHash_own_hash (r : InferenceRecord) (h : string) :
  hashInference r = Ok h ->
  (forall expected,
      verifyInferenceHash r expected
      = Ok (String.eqb h (normalizeHash expected))) /\
  verifyInferenceHash r h = Ok true /\
  verifyInferenceHash r (slice 2 h) = Ok true /\
  (forall expected,
      toLowerCase expected = h -> verifyInferenceHash r expected = Ok true).
Proof.
  intros H.
  destruct (hashInference_digest r h H) as (bs & Hbs & Hlen).
  pose proof (normalized_hexlify bs) as Hn. rewrite <- Hbs in Hn.
  assert (Hall : forall expected,
             verifyInferenceHash r expected
             = Ok (String.eqb h (normalizeHash expected))).
  { intros expected. unfold verifyInferenceHash. rewrite H. cbn [bind].
    rewrite toLowerCase_normalizeHash, (normalized_lower Hn). reflexivity. }
  split; [exact Hall |].
  split; [rewrite Hall, Hn; rewrite String.eqb_refl; reflexivity |].
  split.
  - rewrite Hall, Hbs, normalizeHash_unprefixed, String.eqb_refl. reflexivity.
  - intros expected He.
    rewrite Hall, <- normalizeHash_lower, He, Hn, String.eqb_refl.
    reflexivity.
Qed.

Lemma verifyInferenceHash_own_hash_witness :
  verifyInferenceHash SampleRecord.first
    "0x36d7eecbff68c4982415e62fa72bad40175ee594026e0b46c55c149c8c32f5f7"
  = Ok true /\
  verifyInferenceHash SampleRecord.first
    "36d7eecbff68c4982415e62fa72bad40175ee594026e0b46c55c149c8c32f5f7"
  = Ok true.
Proof.
  assert (H : hashInference SampleRecord.first
              = Ok "0x36d7eecbff68c4982415e62fa72bad40175ee594026e0b46c55c149c8c32f5f7")
    by (vm_compute; reflexivity).
  destruct (verifyInferenceHash_own_hash SampleRecord.first _ H)
    as (_ & Hown & Hbare & _).
  split; [exact Hown | exact Hbare].
Defined.

(* ---------------------------------------------------------------------- *)
(** *** [combineHashes] *)

Definition startsWith0x (s : string) : bool :=
  match s with
  | String a (String b _) => Ascii.eqb a "0" && Ascii.eqb b "x"
  | _ => false
  end.

Lemma sort_pair (x y : string) :
  sort [x; y] = if leb x y then [x; y] else [y; x].
Proof. reflexivity. Qed.

Lemma combineHashes_unfold (a b : string) :
  combineHashes a b =
  if leb (toLowerCase a) (toLowerCase b)
  then keccak256 (HexData (toLowerCase a ++ removeFirst "0x" (toLowerCase b)))
  else keccak256 (HexData (toLowerCase b ++ removeFirst "0x" (toLowerCase a))).
Proof.
  unfold combineHashes. rewrite sort_pair.
  destruct (leb (toLowerCase a) (toLowerCase b)); reflexivity.
Qed.

(** X4.  The two arguments of [combineHashes] may be exchanged. *)
Theorem combineHashes_comm (a b : string) :
  combineHashes a b = combineHashes b a.
Proof.
  rewrite !combineHashes_unfold.
  destruct (leb (toLowerCase a) (toLowerCase b)) eqn:Eab,
           (leb (toLowerCase b) (toLowerCase a)) eqn:Eba; try reflexivity.
  - rewrite (leb_antisym _ _ Eab Eba). reflexivity.
  - apply leb_total in Eab. congruence.
Qed.

Lemma startsWith0x_inv (s : string) :
  startsWith0x s = true -> exists t, s = ("0x" ++ t)%string.
Proof.
  destruct s as [| a [| b t]]; try discriminate. cbn [startsWith0x].
  intros H. apply andb_true_iff in H. destruct H as [Ha Hb].
  apply Ascii.eqb_eq in Ha, Hb. subst. exists t. reflexivity.
Qed.

Lemma normalizeHash_startsWith0x (s : string) :
  startsWith0x (toLowerCase s) = true ->
  normalizeHash s = toLowerCase s /\
  removeFirst "0x" (toLowerCase s) = slice 2 (toLowerCase s).
Proof.
  intros H. destruct (startsWith0x_inv _ H) as [t Ht].
  unfold normalizeHash. rewrite Ht. split; reflexivity.
Qed.

(** X5.  On two hashes that carry the prefix (in either case) [combineHashes]
    and the [hashPair] of the Merkle tree give the same result. *)
Theorem combineHashes_hashPair (a b : string) :
  startsWith0x (toLowerCase a) = true ->
  startsWith0x (toLowerCase b) = true ->
  combineHashes a b = hashPair a b.
Proof.
  intros Ha Hb.
  destruct (normalizeHash_startsWith0x a Ha) as [Na Ra].
  destruct (normalizeHash_startsWith0x b Hb) as [Nb Rb].
  rewrite combineHashes_unfold, hashPair_unfold, Na, Nb, Ra, Rb.
  reflexivity.
Qed.

Lemma combineHashes_hashPair_witness :
  combineHashes "0xAA" "0xbb" = hashPair "0xAA" "0xbb".
Proof.
  apply (combineHashes_hashPair "0xAA" "0xbb"); reflexivity.
Defined.

Lemma getBytes_unprefixed (first rest : string) :
  2 <= String.length first ->
  startsWith0x first = false ->
  Hex.getBytes (first ++ rest) = None.
Proof.
  destruct first as [| a [| b t]]; cbn [String.length]; try lia.
  intros _ H. cbn [startsWith0x] in H. cbn [String.append Hex.getBytes].
  rewrite H. reflexivity.
Qed.

Lemma length_toLowerCase (s : string) :
  String.length (toLowerCase s) = String.length s.
Proof.
  induction s as [| c s IH]; [reflexivity |].
  cbn [toLowerCase String.length]. rewrite IH. reflexivity.
Qed.

(** X6.  Without the prefix [combineHashes] raises: on two strings of at least
    two characters neither of which starts with 0x (in either case) the
    digest function refuses the concatenation.  [hashPair] adds the prefix
    and accepts such hashes. *)
Theorem combineHashes_unprefixed (a b : string) :
  2 <= String.length a -> 2 <= String.length b ->
  startsWith0x (toLowerCase a) = false ->
  startsWith0x (toLowerCase b) = false ->
  combineHashes a b = Err "invalid BytesLike value".
Proof.
  intros La Lb Ha Hb. rewrite combineHashes_unfold.
  rewrite <- length_toLowerCase in La, Lb.
  destruct (leb (toLowerCase a) (toLowerCase b)); cbn [keccak256];
    rewrite getBytes_unprefixed by assumption; reflexivity.
Qed.

Lemma combineHashes_unprefixed_witness :
  combineHashes "aa" "bb" = Err "invalid BytesLike value" /\
  isOk (hashPair "aa" "bb") = true.
Proof.
  split.
  - apply (combineHashes_unprefixed "aa" "bb");
      [cbn; lia | cbn; lia | reflexivity | reflexivity].
  - vm_compute. reflexivity.
Defined.

(** A string shorter than two characters can complete the prefix of the
    other one. *)
Example combineHashes_short_first :
  isOk (combineHashes "0" "x00") = true.
Proof. vm_compute. reflexivity. Qed.

(* ====================================================================== *)
(** ** Merkle batches and proofs *)
(* ====================================================================== *)

(** *** Looking a leaf up *)

Lemma findIndex_first {A : Type} (p : A -> bool) (l : list A) :
  forall i, findIndex p l = Some i ->
  forall j x, j < i -> nth_error l j = Some x -> p x = false.
Proof.
  induction l as [| y r IH]; intros i H j x Hj Hx; [discriminate H |].
  cbn [findIndex] in H. destruct (p y) eqn:Ey.
  - injection H as <-. lia.
  - destruct (findIndex p r) as [k |] eqn:Ek; [| discriminate H].
    injection H as <-. destruct j as [| j'].
    + cbn in Hx. injection Hx as <-. exact Ey.
    + cbn in Hx. apply (IH k eq_refl j' x); [lia | exact Hx].
Qed.

Lemma findIndex_none_iff {A : Type} (p : A -> bool) (l : list A) :
  findIndex p l = None <-> (forall x, In x l -> p x = false).
Proof.
  split; [apply findIndex_none |].
  induction l as [| y r IH]; intros H; [reflexivity |].
  cbn [findIndex]. rewrite (H y (or_introl eq_refl)).
  rewrite IH; [reflexivity |]. intros x Hx. apply H. right. exact Hx.
Qed.

(** X7.  [generateProof] returns null exactly when no leaf of the batch is the
    normal form of the hash up to letter case.  Otherwise the proof
    carries the normal form of the hash as its leaf, the root of the
    batch, and as index the first position at which such a leaf stands. *)
Theorem generateProof_lookup (batch : MerkleBatch.t) (h : string) :
  (generateProof batch h = None <->
   forall leaf, In leaf (MerkleBatch.leaves batch) ->
                toLowerCase leaf <> normalizeHash h) /\
  (forall p,
      generateProof batch h = Some p ->
      MerkleProof.leaf p = normalizeHash h /\
      MerkleProof.root p = MerkleBatch.root batch /\
      (exists leaf,
          nth_error (MerkleBatch.leaves batch) (MerkleProof.leaf_index p)
          = Some leaf /\
          toLowerCase leaf = normalizeHash h) /\
      (forall j leaf,
          j < MerkleProof.leaf_index p ->
          nth_error (MerkleBatch.leaves batch) j = Some leaf ->
          toLowerCase leaf <> normalizeHash h)).
Proof.
  unfold generateProof, findLeafIndex.
  rewrite toLowerCase_normalizeHash.
  set (test := fun leaf => String.eqb (toLowerCase leaf) (normalizeHash h)).
  split.
  - destruct (findIndex test (MerkleBatch.leaves batch)) as [i |] eqn:E.
    + split; [discriminate |]. intros Hall.
      destruct (findIndex_some _ _ E) as (x & Hx & Hp).
      apply nth_error_In in Hx. apply String.eqb_eq in Hp.
      destruct (Hall x Hx Hp).
    + split; [| reflexivity]. intros _ leaf Hin Heq.
      pose proof (findIndex_none _ _ E leaf Hin) as Hp.
      unfold test in Hp. rewrite Heq, String.eqb_refl in Hp. discriminate Hp.
  - intros p Hp.
    destruct (findIndex test (MerkleBatch.leaves batch)) as [i |] eqn:E;
      [| discriminate Hp].
    injection Hp as <-. cbn.
    split; [reflexivity |]. split; [reflexivity |]. split.
    + destruct (findIndex_some _ _ E) as (x & Hx & Hpx).
      exists x. split; [exact Hx | apply String.eqb_eq; exact Hpx].
    + intros j leaf Hj Hleaf Heq.
      pose proof (findIndex_first _ _ i E j leaf Hj Hleaf) as Hf.
      unfold test in Hf. rewrite Heq, String.eqb_refl in Hf. discriminate Hf.
Qed.

(* ---------------------------------------------------------------------- *)
(** *** The length of a proof *)

Lemma proofLoop_length (tree : list (list string)) :
  chain tree ->
  Forall (Forall normalized) tree ->
  forall (i : nat) (x : string),
    nth_error (hd [] tree) i = Some x ->
    List.length (proofLoop tree i []) = List.length tree - 1.
Proof.
  induction 1 as [y | l next rest Hlen Hnext Hchain IH];
    intros Hnorm i x Hx; [reflexivity |].
  inversion Hnorm as [| ? ? Hl Hrest]; subst.
  cbn [hd] in Hx.
  destruct (@buildNextLevel_parent l next i x [] Hnext Hl Hx)
    as (s & p & Hpush & _ & Hp).
  destruct next as [| n0 nrest]; [destruct (i / 2); discriminate Hp |].
  change (proofLoop (l :: (n0 :: nrest) :: rest) i [])
    with (proofLoop ((n0 :: nrest) :: rest) (i / 2) (pushSibling l i [])).
  rewrite Hpush, proofLoop_acc.
  rewrite length_app, (IH Hrest (i / 2) p Hp). cbn [List.length app]. lia.
Qed.

Lemma chain_size (tree : list (list string)) :
  chain tree ->
  List.length (hd [] tree) <= 2 ^ (List.length tree - 1) /\
  (1 < List.length (hd [] tree) ->
   2 ^ (List.length tree - 2) < List.length (hd [] tree)).
Proof.
  induction 1 as [y | l next rest Hlen Hnext Hchain [IHle IHlt]].
  - cbn. split; lia.
  - pose proof (@buildNextLevel_length l next Hnext) as Hhalf.
    cbn [hd List.length] in *.
    replace (S (S (List.length rest)) - 1) with (S (List.length rest)) by lia.
    replace (S (S (List.length rest)) - 2) with (List.length rest) by lia.
    replace (S (List.length rest) - 1) with (List.length rest) in IHle by lia.
    assert (Hdiv : List.length l + 1
                   = 2 * List.length next + (List.length l + 1) mod 2).
    { rewrite Hhalf. apply Nat.div_mod_eq. }
    pose proof (Nat.mod_upper_bound (List.length l + 1) 2 ltac:(lia)) as Hmod.
    split.
    + rewrite Nat.pow_succ_r'. lia.
    + intros _. destruct rest as [| l2 rest'].
      * cbn. lia.
      * assert (Hn : 1 < List.length next).
        { inversion Hchain; subst. assumption. }
        specialize (IHlt Hn). cbn [List.length] in IHlt |- *.
        replace (S (S (List.length rest')) - 2) with (List.length rest')
          in IHlt by lia.
        rewrite Nat.pow_succ_r'. lia.
Qed.

(** X8.  A proof from a batch that [buildMerkleBatch] made has one sibling for
    every level below the root, and that number is the base-two logarithm
    of the number of leaves, rounded up: [n <= 2^k], and [2^(k-1) < n]
    when there is more than one leaf. *)
Theorem generateProof_length (env : Env) (hashes : list string)
        (batch : MerkleBatch.t) (h : string) (p : MerkleProof.t) :
  buildMerkleBatch env hashes = Ok batch ->
  generateProof batch h = Some p ->
  List.length (MerkleProof.proof p) = List.length (MerkleBatch.tree batch) - 1 /\
  MerkleBatch.leaf_count batch <= 2 ^ List.length (MerkleProof.proof p) /\
  (1 < MerkleBatch.leaf_count batch ->
   2 ^ (List.length (MerkleProof.proof p) - 1) < MerkleBatch.leaf_count batch).
Proof.
  intros Hb Hp.
  destruct (@buildMerkleBatch_chain env hashes batch Hb) as [Hchain Hnorm].
  destruct (@buildMerkleBatch_inv env hashes batch Hb)
    as (_ & ls & root & _ & _ & Hrec).
  unfold generateProof in Hp.
  destruct (findLeafIndex (MerkleBatch.leaves batch) h) as [i |] eqn:Ei;
    [| discriminate Hp].
  injection Hp as <-. cbn [MerkleProof.proof].
  unfold findLeafIndex in Ei.
  destruct (@findIndex_some _ _ _ _ Ei) as (x & Hx & _).
  assert (Hhd : hd [] (MerkleBatch.tree batch) = MerkleBatch.leaves batch).
  { rewrite Hrec. reflexivity. }
  rewrite <- Hhd in Hx.
  rewrite (proofLoop_length _ Hchain Hnorm i x Hx).
  destruct (chain_size _ Hchain) as [Hle Hlt].
  assert (Hcount : MerkleBatch.leaf_count batch
                   = List.length (hd [] (MerkleBatch.tree batch))).
  { rewrite Hrec. cbn. unfold sortedLeaves.
    rewrite sort_length, length_map. reflexivity. }
  rewrite Hcount. split; [reflexivity |]. split; [exact Hle |].
  intros H1. replace (List.length (MerkleBatch.tree batch) - 1 - 1)
    with (List.length (MerkleBatch.tree batch) - 2) by lia.
  apply Hlt. exact H1.
Qed.

Lemma generateProof_length_witness :
  exists batch p,
    buildMerkleBatch Sample.env Sample.three = Ok batch /\
    generateProof batch Sample.h1 = Some p /\
    List.length (MerkleProof.proof p) = 2 /\
    MerkleBatch.leaf_count batch = 3.
Proof.
  destruct (buildMerkleBatch Sample.env Sample.three) as [batch | e] eqn:Hb;
    [| vm_compute in Hb; discriminate Hb].
  destruct (generateProof batch Sample.h1) as [p |] eqn:Hp;
    [| vm_compute in Hb; injection Hb as <-; vm_compute in Hp; discriminate Hp].
  destruct (generateProof_length Sample.env Sample.three batch Sample.h1 p Hb Hp)
    as (Hlen & Hle & Hlt).
  exists batch, p. split; [reflexivity |]. split; [exact Hp |].
  vm_compute in Hb. injection Hb as <-. vm_compute in Hp. injection Hp as <-.
  split; reflexivity.
Defined.

(* ---------------------------------------------------------------------- *)
(** *** The errors of [buildMerkleBatch] *)

Lemma keccak256_error (d : BytesLike) (e : string) :
  keccak256 d = Err e -> e = "invalid BytesLike value".
Proof.
  destruct d as [s | bs]; cbn [keccak256]; [| discriminate].
  destruct (Hex.getBytes s); [discriminate |]. congruence.
Qed.

Lemma hashPair_error (a b e : string) :
  hashPair a b = Err e -> e = "invalid BytesLike value".
Proof.
  rewrite hashPair_unfold.
  destruct (leb (normalizeHash a) (normalizeHash b)); apply keccak256_error.
Qed.

Lemma buildNextLevel_error (l : list string) (e : string) :
  buildNextLevel l = Err e -> e = "invalid BytesLike value".
Proof.
  induction l as [| a | a b r IH] using list_pair_ind; cbn [buildNextLevel].
  - discriminate.
  - destruct (hashPair a a) as [h | e0] eqn:E; cbn [bind]; [discriminate |].
    intros H. injection H as <-. exact (hashPair_error _ _ _ E).
  - destruct (hashPair a b) as [h | e0] eqn:E; cbn [bind].
    + destruct (buildNextLevel r) as [t | e1]; cbn [bind]; [discriminate |].
      intros H. injection H as <-. apply IH. reflexivity.
    + intros H. injection H as <-. exact (hashPair_error _ _ _ E).
Qed.

Lemma buildLevels_error (l : list string) (e : string) :
  buildLevels l = Err e ->
  1 < List.length l /\ e = "invalid BytesLike value".
Proof.
  induction l as [l IH] using (well_founded_induction
                                 (Wf_nat.well_founded_ltof _ (@List.length string))).
  rewrite buildLevels_step.
  destruct (1 <? List.length l)%nat eqn:E; [| discriminate].
  apply Nat.ltb_lt in E.
  destruct (buildNextLevel l) as [next | e0] eqn:En; cbn [bind].
  - destruct (buildLevels next) as [rest | e1] eqn:Er; cbn [bind];
      [discriminate |].
    intros H. injection H as <-. split; [exact E |].
    apply (IH next); [| exact Er].
    unfold Wf_nat.ltof. rewrite (@buildNextLevel_length l next En).
    apply half_lt. exact E.
  - intros H. injection H as <-. split; [exact E |].
    exact (buildNextLevel_error _ _ En).
Qed.

Lemma sortedLeaves_length (hashes : list string) :
  List.length (sortedLeaves hashes) = List.length hashes.
Proof. unfold sortedLeaves. rewrite sort_length, length_map. reflexivity. Qed.

Lemma buildMerkleBatch_unfold (env : Env) (hashes : list string) :
  hashes <> [] ->
  buildMerkleBatch env hashes =
  match buildLevels (sortedLeaves hashes) with
  | Ok ls =>
      Ok {| MerkleBatch.batch_id := generateBatchId env;
            MerkleBatch.root :=
              match lastLevel (sortedLeaves hashes :: ls) with
              | Some [root] => root
              | _ => ""
              end;
            MerkleBatch.leaves := sortedLeaves hashes;
            MerkleBatch.tree := sortedLeaves hashes :: ls;
            MerkleBatch.created_at := Z.of_N (now_created env);
            MerkleBatch.leaf_count := List.length hashes |}
  | Err e => Err e
  end.
Proof.
  intros Hne. unfold buildMerkleBatch, buildTree.
  destruct hashes as [| h0 r]; [congruence |].
  cbn [List.length Nat.eqb]. cbv zeta. fold (sortedLeaves (h0 :: r)).
  destruct (buildLevels (sortedLeaves (h0 :: r))) as [ls | e] eqn:E;
    cbn [bind]; [| reflexivity].
  assert (Hs : sortedLeaves (h0 :: r) <> []).
  { apply sortedLeaves_nonempty. discriminate. }
  pose proof (@buildLevels_chain _ _ Hs E) as Hchain.
  destruct (@chain_lastLevel _ Hchain) as [root Hroot].
  rewrite Hroot.
  assert (Hn : normalized root).
  { pose proof (@chain_normalized _ Hchain) as Hall.
    cbn [hd] in Hall. specialize (Hall (sortedLeaves_normalized (h0 :: r))).
    rewrite Forall_forall in Hall.
    specialize (Hall [root] (@lastLevel_in _ _ Hroot)).
    inversion Hall; assumption. }
  rewrite (normalized_truthy Hn). reflexivity.
Qed.

(** X9.  [buildMerkleBatch] raises in two cases only: on an empty list, with
    its own message, and on a list of two or more hashes when the digest
    function refuses a pair that is no hex data.  The other errors in
    its code and in [buildTree] (an empty tree, an invalid tree
    structure, a missing root) are never raised, and a list of one hash
    never fails. *)
Theorem buildMerkleBatch_errors (env : Env) (hashes : list string) :
  (hashes = [] ->
   buildMerkleBatch env hashes = Err "Cannot create batch with no hashes") /\
  (forall e,
      buildMerkleBatch env hashes = Err e ->
      (hashes = [] /\ e = "Cannot create batch with no hashes") \/
      (1 < List.length hashes /\ e = "invalid BytesLike value")).
Proof.
  split; [intros ->; reflexivity |].
  intros e H. destruct hashes as [| h0 r].
  - left. cbn in H. injection H as <-. split; reflexivity.
  - right. rewrite buildMerkleBatch_unfold in H by discriminate.
    destruct (buildLevels (sortedLeaves (h0 :: r))) as [ls | e0] eqn:E;
      [discriminate H |].
    injection H as <-.
    destruct (buildLevels_error _ _ E) as [Hlen He].
    rewrite sortedLeaves_length in Hlen. split; assumption.
Qed.

(** An invalid hash among two makes the digest function refuse. *)
Example buildMerkleBatch_not_hex :
  buildMerkleBatch Sample.env ["0xzz"; Sample.h1]
  = Err "invalid BytesLike value".
Proof. vm_compute. reflexivity. Qed.

(* ---------------------------------------------------------------------- *)
(** *** A batch of one leaf *)

(** X10.  A batch of one hash has the normal form of the hash as its only leaf
    and as its root; nothing is hashed, so any string is accepted.  The
    proof for the hash is empty and verifies. *)
Theorem buildMerkleBatch_single (env : Env) (h : string) :
  exists batch proof,
    buildMerkleBatch env [h] = Ok batch /\
    MerkleBatch.root batch = normalizeHash h /\
    MerkleBatch.leaves batch = [normalizeHash h] /\
    MerkleBatch.tree batch = [[normalizeHash h]] /\
    generateProof batch h = Some proof /\
    MerkleProof.proof proof = [] /\
    MerkleProof.leaf_index proof = 0 /\
    verifyProof proof = Ok true.
Proof.
  eexists. eexists.
  split.
  { rewrite buildMerkleBatch_unfold by discriminate.
    change (sortedLeaves [h]) with [normalizeHash h].
    rewrite buildLevels_step. cbn [List.length Nat.ltb Nat.leb].
    reflexivity. }
  cbn [MerkleBatch.root MerkleBatch.leaves MerkleBatch.tree lastLevel
       List.length Nat.sub nth_error].
  split; [reflexivity |]. split; [reflexivity |]. split; [reflexivity |].
  unfold generateProof, findLeafIndex.
  cbn [MerkleBatch.leaves MerkleBatch.tree MerkleBatch.root findIndex].
  rewrite String.eqb_refl.
  split; [reflexivity |].
  cbn [MerkleProof.proof MerkleProof.leaf_index proofLoop].
  split; [reflexivity |]. split; [reflexivity |].
  unfold verifyProof.
  cbn [MerkleProof.leaf MerkleProof.proof MerkleProof.root foldPath bind].
  rewrite normalizeHash_idem, String.eqb_refl. reflexivity.
Qed.

(* ---------------------------------------------------------------------- *)
(** *** The root from the stored leaves *)

Lemma map_normalizeHash_id (l : list string) :
  Forall normalized l -> map normalizeHash l = l.
Proof.
  induction 1 as [| x r Hx _ IH]; [reflexivity |].
  cbn [map]. rewrite Hx, IH. reflexivity.
Qed.

Lemma sortedLeaves_idem (hashes : list string) :
  sortedLeaves (sortedLeaves hashes) = sortedLeaves hashes.
Proof.
  unfold sortedLeaves at 1.
  rewrite (map_normalizeHash_id _ (sortedLeaves_normalized hashes)).
  unfold sortedLeaves. apply sort_idempotent.
Qed.

(** X11.  The leaves a batch stores give its root back: [computeRoot] on the
    leaves of a batch that [buildMerkleBatch] made returns the root of
    the batch, at any time and with any random bytes. *)
Theorem computeRoot_of_leaves (env env' : Env) (hashes : list string)
        (batch : MerkleBatch.t) :
  buildMerkleBatch env hashes = Ok batch ->
  computeRoot env' (MerkleBatch.leaves batch) = Ok (MerkleBatch.root batch).
Proof.
  intros Hb.
  destruct (@buildMerkleBatch_inv env hashes batch Hb)
    as (_ & ls & root & _ & _ & Hrec).
  assert (Hleaves : MerkleBatch.leaves batch = sortedLeaves hashes)
    by (rewrite Hrec; reflexivity).
  rewrite Hleaves.
  rewrite (@computeRoot_sortedLeaves env' env (sortedLeaves hashes) hashes
             (sortedLeaves_idem hashes)).
  unfold computeRoot. rewrite Hb. reflexivity.
Qed.

Lemma computeRoot_of_leaves_witness :
  exists batch,
    buildMerkleBatch Sample.env Sample.three = Ok batch /\
    computeRoot Sample.env (MerkleBatch.leaves batch)
    = Ok (MerkleBatch.root batch).
Proof.
  destruct (buildMerkleBatch Sample.env Sample.three) as [batch | e] eqn:Hb;
    [| vm_compute in Hb; discriminate Hb].
  exists batch. split; [reflexivity |].
  exact (computeRoot_of_leaves Sample.env Sample.env Sample.three batch Hb).
Defined.

(* ====================================================================== *)
(** ** The canonicalizer *)
(* ====================================================================== *)

(** *** The text of a value and the order of its properties *)

(** X12.  Two values that differ only in the order in which the properties of
    their objects were created have the same result under
    [canonicalize], at every depth and inside arrays. *)
Theorem canonicalize_order_insensitive (x y : JsValue) :
  sameValue x y -> canonicalize x = canonicalize y.
Proof.
  intros H. pose proof (sameValue_canonicalizeValue x y H) as Hc.
  destruct H; try reflexivity.
  - cbn [canonicalize] in *. rewrite Hc. reflexivity.
  - cbn [canonicalize]. rewrite Hc. reflexivity.
Qed.

Lemma canonicalize_order_insensitive_witness :
  canonicalize (JObj [("b", JObj [("y", JInt 1); ("x", JNull)]); ("a", JInt 3)])
  = canonicalize (JObj [("a", JInt 3); ("b", JObj [("x", JNull); ("y", JInt 1)])]).
Proof.
  apply canonicalize_order_insensitive.
  constructor.
  - intros k. simpl. tauto.
  - intros k. cbn [objGet].
    destruct (String.eqb "b" k) eqn:Eb, (String.eqb "a" k) eqn:Ea;
      try (apply String.eqb_eq in Eb; apply String.eqb_eq in Ea; congruence).
    + apply sameValue_permutation; [| apply perm_swap].
      repeat constructor; simpl; intuition discriminate.
    + constructor.
    + constructor.
Defined.

(* ---------------------------------------------------------------------- *)
(** *** The text determines the canonical value *)

(** X13.  [JSON.parse] reads from the text that [canonicalize] returns what
    the canonical value stands for: the canonical value with null for
    every number that is not finite and 0 for the negative zero, which
    is all the text keeps of them.  Two values have the same canonical
    text exactly when their canonical values stand for the same: up to
    these numbers the text, and with it the hash, binds the content. *)
Theorem canonicalize_injective (x y : JsValue) (text : string) :
  canonicalize x = Ok text ->
  JSON_parse text = Read (jsonNormal (canonicalizeValue x)) /\
  (canonicalize y = Ok text <->
   jsonNormal (canonicalizeValue x) = jsonNormal (canonicalizeValue y)).
Proof.
  intros Hx.
  destruct (canonicalize_read_back x text Hx) as [Hparse _].
  split; [exact Hparse |].
  split.
  - intros Hy.
    destruct (canonicalize_read_back y text Hy) as [Hparse' _].
    congruence.
  - intros E.
    destruct (canonicalize_ok x text Hx) as (Hobj & Hnull & Htext & _).
    assert (Hy : typeofObject y = true /\ y <> JNull).
    { destruct x as [| | b | n | s | items | props]; try discriminate Hobj;
        try congruence;
        rewrite ?canonicalizeValue_object in E;
        destruct y as [| | b' | [| s' | s' | s' m e H] | s' | items' | props'];
        rewrite ?canonicalizeValue_object in E;
        try discriminate E; split; try reflexivity; discriminate. }
    rewrite (canonicalize_defined y (proj1 Hy) (proj2 Hy)).
    rewrite <- (serialize_jsonNormal (canonicalizeValue y)), <- E.
    rewrite serialize_jsonNormal, Htext. reflexivity.
Qed.

Lemma canonicalize_injective_witness :
  JSON_parse (jsonText "{'a':[1,2.5],'b':null}")
  = Read (jsonNormal
            (canonicalizeValue
               (JObj [("b", JNum Double.NaN);
                      ("a", JArr [JInt 1; JUndefined;
                                  JDec 25 (-1)])])))
  /\ (canonicalize (JObj [("a", JArr [JInt 1; JDec 250 (-2)]);
                         ("b", JNull)])
      = Ok (jsonText "{'a':[1,2.5],'b':null}") <->
      jsonNormal
        (canonicalizeValue
           (JObj [("b", JNum Double.NaN);
                  ("a", JArr [JInt 1; JUndefined;
                              JDec 25 (-1)])]))
      = jsonNormal
          (canonicalizeValue
             (JObj [("a", JArr [JInt 1; JDec 250 (-2)]);
                    ("b", JNull)]))).
Proof.
  apply (canonicalize_injective
           (JObj [("b", JNum Double.NaN);
                  ("a", JArr [JInt 1; JUndefined;
                              JDec 25 (-1)])])).
  vm_compute. reflexivity.
Defined.

(** A number that is not finite and null are written alike, so the text
    does not tell them apart. *)
Example canonicalize_not_a_number :
  canonicalize (JObj [("a", JNum Double.NaN)])
  = canonicalize (JObj [("a", JNull)])
  /\ canonicalizeValue (JObj [("a", JNum Double.NaN)])
     <> canonicalizeValue (JObj [("a", JNull)]).
Proof. split; [vm_compute; reflexivity | vm_compute; discriminate]. Qed.

(* ---------------------------------------------------------------------- *)
(** *** The keys of a canonical object *)

(** X14.  The object that [canonicalizeObject] builds has exactly the keys
    under which the given object reads a value other than [undefined],
    apart from [__proto__], each once and with the canonical form of that
    value.  They stand in the order of enumeration: array indices first,
    by number, then the other keys by code units. *)
Theorem canonicalizeObject_keys (obj : JsObject) :
  NoDup (objKeys (canonicalizeObject obj)) /\
  keysOrdered (objKeys (canonicalizeObject obj)) /\
  (forall key,
      In key (objKeys (canonicalizeObject obj)) <->
      objGet obj key <> JUndefined /\ key <> "__proto__") /\
  (forall key,
      In key (objKeys (canonicalizeObject obj)) ->
      objGet (canonicalizeObject obj) key = canonicalizeValue (objGet obj key)).
Proof.
  pose proof (canonicalizeObject_ordered obj) as Hord.
  split; [apply keysOrdered_NoDup; exact Hord |].
  split; [exact Hord |].
  split.
  - intros key. rewrite canonicalizeObject_In. unfold keptKey.
    rewrite andb_true_iff, !negb_true_iff.
    split.
    + intros [Hu Hp]. split.
      * intros E. rewrite E in Hu. discriminate Hu.
      * intros E. subst key. discriminate Hp.
    + intros [Hu Hp]. split.
      * destruct (objGet obj key); try reflexivity. congruence.
      * destruct (String.eqb_spec key "__proto__"); [contradiction | reflexivity].
  - intros key Hin. rewrite canonicalizeObject_get.
    apply canonicalizeObject_In in Hin. rewrite Hin. reflexivity.
Qed.

(* ---------------------------------------------------------------------- *)
(** *** Every returned text is canonical *)

(** X15.  Every text that [canonicalize] returns, for an object or an array, and
    every text that [parseAndCanonicalize] returns is in canonical form:
    [isCanonical] answers true for it and [parseAndCanonicalize] returns
    it unchanged. *)
Theorem returned_text_canonical (text : string) :
  (exists v, canonicalize v = Ok text) \/
  (exists t, parseAndCanonicalize t = Some (Ok text)) ->
  isCanonical text = Some true /\ parseAndCanonicalize text = Some (Ok text).
Proof.
  intros H.
  assert (Hv : exists v, canonicalize v = Ok text).
  { destruct H as [Hv | [t Ht]]; [exact Hv |].
    apply parseAndCanonicalize_ok in Ht.
    destruct Ht as (parsed & _ & Hc). exists parsed. exact Hc. }
  destruct Hv as [v Hv].
  pose proof (parseAndCanonicalize_canonical v text Hv) as Hfix.
  split; [| exact Hfix].
  apply isCanonical_true. exact Hfix.
Qed.

Lemma returned_text_canonical_witness :
  isCanonical (jsonText "[{'a':1,'b':0.25}]") = Some true /\
  parseAndCanonicalize (jsonText "[{'a':1,'b':0.25}]")
  = Some (Ok (jsonText "[{'a':1,'b':0.25}]")).
Proof.
  apply returned_text_canonical.
  right. exists (jsonText "[ {'b': 2.5e-1, 'a': 1.0} ]").
  vm_compute. reflexivity.
Defined.

(* ====================================================================== *)
(** ** The verifier *)
(* ====================================================================== *)

(** *** What a positive verdict rests on *)

Lemma verifyOnChain_true (ledger : Ledger) (root url address : string)
      (reason : option string) :
  verifyOnChain ledger root url address = Ok (true, reason) ->
  exists n, ledger url address root = Ok n /\ n <> 0%Z.
Proof.
  unfold verifyOnChain.
  destruct (ledger url address root) as [n | e]; cbn [bind]; [| discriminate].
  destruct (Z.eqb_spec n 0); [discriminate |].
  intros _. exists n. split; [reflexivity | assumption].
Qed.

Lemma verifyLocated_verified (storage : Storage) (ledger : Ledger)
      (options : option VerifyOptions) (h : string)
      (r : VerificationResult.t) :
  verifyLocated storage ledger options h = Ok r ->
  VerificationResult.verified r = true ->
  exists batch proof anchor,
    findBatchContainingHash storage h = Some batch /\
    generateProof batch h = Some proof /\
    verifyProof proof = Ok true /\
    getAnchorByRoot storage (MerkleBatch.root batch) = Some anchor /\
    r = {| VerificationResult.verified := true;
           VerificationResult.inference_hash := h;
           VerificationResult.merkle_root := Some (MerkleBatch.root batch);
           VerificationResult.anchored_at :=
             Some (AnchorRecord.anchored_at anchor);
           VerificationResult.block_number :=
             Some (AnchorRecord.block_number anchor);
           VerificationResult.chain_id := Some (AnchorRecord.chain_id anchor);
           VerificationResult.chain_name :=
             Some (AnchorRecord.chain_name anchor);
           VerificationResult.tx_hash := Some (AnchorRecord.tx_hash anchor);
           VerificationResult.proof := Some proof;
           VerificationResult.error := None |} /\
    (forall opts,
        options = Some opts ->
        truthyOption (rpcUrl opts) && truthyOption (contractAddress opts)
        = true ->
        exists n,
          ledger (textOrUndefined (rpcUrl opts))
                 (textOrUndefined (contractAddress opts))
                 (MerkleBatch.root batch) = Ok n /\
          n <> 0%Z).
Proof.
  unfold verifyLocated, failed. intros H Hv.
  destruct (findBatchContainingHash storage h) as [batch |] eqn:Eb;
    [| inversion H; subst r; discriminate Hv].
  destruct (generateProof batch h) as [proof |] eqn:Ep;
    [| inversion H; subst r; discriminate Hv].
  destruct (verifyProof proof) as [[|] | e] eqn:Ev; cbn [bind negb] in H;
    [| inversion H; subst r; discriminate Hv | discriminate H].
  destruct (getAnchorByRoot storage (MerkleBatch.root batch)) as [anchor |]
    eqn:Ea; [| inversion H; subst r; discriminate Hv].
  exists batch, proof, anchor.
  split; [reflexivity |]. split; [exact Ep |]. split; [exact Ev |].
  split; [exact Ea |].
  destruct options as [opts |].
  - destruct (truthyOption (rpcUrl opts) && truthyOption (contractAddress opts))
      eqn:Eo.
    + destruct (verifyOnChain ledger (MerkleBatch.root batch)
                  (textOrUndefined (rpcUrl opts))
                  (textOrUndefined (contractAddress opts)))
        as [[[|] reason] | e] eqn:Ec;
        try (inversion H; subst r; discriminate Hv).
      inversion H. split; [reflexivity |].
      intros opts' Hopts _. injection Hopts as <-.
      exact (verifyOnChain_true _ _ _ _ _ Ec).
    + inversion H. split; [reflexivity |].
      intros opts' Hopts Ht. injection Hopts as <-. congruence.
  - inversion H. split; [reflexivity |]. intros opts' Hopts. discriminate Hopts.
Qed.

Lemma getAnchorByRoot_some (storage : Storage) (root : string)
      (anchor : AnchorRecord.t) :
  getAnchorByRoot storage root = Some anchor ->
  In anchor (anchors storage) /\
  toLowerCase (AnchorRecord.merkle_root anchor) = toLowerCase root.
Proof.
  unfold getAnchorByRoot. intros H. apply find_some in H.
  destruct H as [Hin Heq]. apply String.eqb_eq in Heq. split; assumption.
Qed.

(** X16.  A positive verdict of [verifyInference] is never given without its
    grounds: a stored batch has the hash among its leaves, the proof
    generated from that batch verifies, the store holds an anchor record
    for the root of the batch, whose block, chain and transaction the
    result carries, and, when an endpoint and a contract address were
    given, the registry answered with a timestamp other than zero.  With
    a record as input the hash of the result is the hash of the
    record. *)
Theorem verifyInference_verified (storage : Storage) (ledger : Ledger)
        (input : VerifyInput) (options : option VerifyOptions)
        (r : VerificationResult.t) :
  verifyInference storage ledger input options = Ok r ->
  VerificationResult.verified r = true ->
  exists batch proof anchor,
    In batch (batches storage) /\
    (exists leaf,
        In leaf (MerkleBatch.leaves batch) /\
        toLowerCase leaf = toLowerCase (VerificationResult.inference_hash r)) /\
    generateProof batch (VerificationResult.inference_hash r) = Some proof /\
    verifyProof proof = Ok true /\
    In anchor (anchors storage) /\
    toLowerCase (AnchorRecord.merkle_root anchor)
    = toLowerCase (MerkleBatch.root batch) /\
    r = {| VerificationResult.verified := true;
           VerificationResult.inference_hash :=
             VerificationResult.inference_hash r;
           VerificationResult.merkle_root := Some (MerkleBatch.root batch);
           VerificationResult.anchored_at :=
             Some (AnchorRecord.anchored_at anchor);
           VerificationResult.block_number :=
             Some (AnchorRecord.block_number anchor);
           VerificationResult.chain_id := Some (AnchorRecord.chain_id anchor);
           VerificationResult.chain_name :=
             Some (AnchorRecord.chain_name anchor);
           VerificationResult.tx_hash := Some (AnchorRecord.tx_hash anchor);
           VerificationResult.proof := Some proof;
           VerificationResult.error := None |} /\
    (forall rec,
        record input = Some rec ->
        hashInference rec = Ok (VerificationResult.inference_hash r)) /\
    (forall opts,
        options = Some opts ->
        truthyOption (rpcUrl opts) && truthyOption (contractAddress opts)
        = true ->
        exists n,
          ledger (textOrUndefined (rpcUrl opts))
                 (textOrUndefined (contractAddress opts))
                 (MerkleBatch.root batch) = Ok n /\
          n <> 0%Z).
Proof.
  unfold verifyInference. intros H Hv.
  destruct (resolveIdentity input) as [[h | early] |] eqn:E; cbn [bind] in H;
    [| | discriminate H].
  - destruct (verifyLocated_verified storage ledger options h r H Hv)
      as (batch & proof & anchor & Hb & Hp & Hvp & Ha & Hr & Hchain).
    destruct (findBatchContainingHash_some storage h batch Hb) as [Hin Hleaf].
    destruct (getAnchorByRoot_some storage _ anchor Ha) as [Hain Hroot].
    assert (Hh : VerificationResult.inference_hash r = h)
      by (rewrite Hr; reflexivity).
    exists batch, proof, anchor. rewrite Hh.
    split; [exact Hin |]. split; [exact Hleaf |].
    split; [exact Hp |]. split; [exact Hvp |].
    split; [exact Hain |]. split; [exact Hroot |].
    split; [exact Hr |]. split; [| exact Hchain].
    intros rec Hrec. unfold resolveIdentity in E. rewrite Hrec in E.
    destruct (hashInference rec) as [h' |]; cbn [bind] in E; [| discriminate E].
    destruct (truthyOption (hash input)).
    + destruct (verifyInferenceHash rec _) as [[|] |]; cbn [bind negb] in E;
        try discriminate E.
      injection E as <-. reflexivity.
    + injection E as <-. reflexivity.
  - injection H as <-.
    destruct (resolveIdentity_early input early E) as (cause & detail & He).
    unfold resolveIdentity in E.
    destruct (record input) as [rec |].
    + destruct (hashInference rec) as [h' |]; cbn [bind] in E;
        [| discriminate E].
      destruct (truthyOption (hash input)); [| discriminate E].
      destruct (verifyInferenceHash rec _) as [[|] |]; cbn [bind negb] in E;
        try discriminate E.
      injection E as <-. discriminate Hv.
    + destruct (truthyOption (hash input)); [discriminate E |].
      injection E as <-. discriminate Hv.
Qed.

Lemma verifyInference_verified_witness :
  exists batch proof anchor,
    In batch (batches SampleStore.anchored) /\
    generateProof batch Sample.hA = Some proof /\
    verifyProof proof = Ok true /\
    In anchor (anchors SampleStore.anchored) /\
    AnchorRecord.block_number anchor = 42%Z.
Proof.
  assert (H : verifyInference SampleStore.anchored SampleStore.ledger
                (mkInput None (Some Sample.hA)) None
              = Ok {| VerificationResult.verified := true;
                      VerificationResult.inference_hash := Sample.hA;
                      VerificationResult.merkle_root := Some SampleProof.root;
                      VerificationResult.anchored_at := Some 1700000000999%Z;
                      VerificationResult.block_number := Some 42%Z;
                      VerificationResult.chain_id := Some 84532%Z;
                      VerificationResult.chain_name := Some "Base Sepolia";
                      VerificationResult.tx_hash := Some "0xfeed";
                      VerificationResult.proof := Some SampleProof.proofA;
                      VerificationResult.error := None |})
    by (vm_compute; reflexivity).
  destruct (verifyInference_verified _ _ _ _ _ H eq_refl)
    as (batch & proof & anchor & Hb & _ & Hp & Hv & Ha & _ & Hr & _).
  exists batch, proof, anchor.
  split; [exact Hb |]. split; [exact Hp |]. split; [exact Hv |].
  split; [exact Ha |].
  cbn [VerificationResult.inference_hash] in Hr.
  injection Hr as _ _ Hblock _ _ _ _. symmetry. exact Hblock.
Defined.

(* ---------------------------------------------------------------------- *)
(** *** The letter case and the prefix of a hash given as input *)

(** A result with another hash as its [inference_hash]. *)
Definition withInferenceHash (h : string) (r : VerificationResult.t)
  : VerificationResult.t :=
  {| VerificationResult.verified := VerificationResult.verified r;
     VerificationResult.inference_hash := h;
     VerificationResult.merkle_root := VerificationResult.merkle_root r;
     VerificationResult.anchored_at := VerificationResult.anchored_at r;
     VerificationResult.block_number := VerificationResult.block_number r;
     VerificationResult.chain_id := VerificationResult.chain_id r;
     VerificationResult.chain_name := VerificationResult.chain_name r;
     VerificationResult.tx_hash := VerificationResult.tx_hash r;
     VerificationResult.proof := VerificationResult.proof r;
     VerificationResult.error := VerificationResult.error r |}.

Lemma generateProof_case (batch : MerkleBatch.t) (h h' : string) :
  toLowerCase h = toLowerCase h' ->
  generateProof batch h' = generateProof batch h.
Proof.
  intros H. unfold generateProof, findLeafIndex.
  rewrite <- (normalizeHash_lower h'), <- H, normalizeHash_lower.
  reflexivity.
Qed.

Lemma findBatchContainingHash_case (storage : Storage) (h h' : string) :
  toLowerCase h = toLowerCase h' ->
  findBatchContainingHash storage h' = findBatchContainingHash storage h.
Proof.
  intros H. unfold findBatchContainingHash. rewrite H. reflexivity.
Qed.

Lemma verifyLocated_case (storage : Storage) (ledger : Ledger)
      (options : option VerifyOptions) (h h' : string) :
  toLowerCase h = toLowerCase h' ->
  verifyLocated storage ledger options h'
  = match verifyLocated storage ledger options h with
    | Ok r => Ok (withInferenceHash h' r)
    | Err e => Err e
    end.
Proof.
  intros H. unfold verifyLocated.
  rewrite (findBatchContainingHash_case storage h h' H).
  destruct (findBatchContainingHash storage h) as [batch |]; [| reflexivity].
  rewrite (generateProof_case batch h h' H).
  destruct (generateProof batch h) as [proof |]; [| reflexivity].
  destruct (verifyProof proof) as [[|] | e]; cbn [bind negb];
    [| reflexivity | reflexivity].
  destruct (getAnchorByRoot storage (MerkleBatch.root batch)) as [anchor |];
    [| reflexivity].
  destruct options as [opts |]; [| reflexivity].
  destruct (truthyOption (rpcUrl opts) && truthyOption (contractAddress opts));
    [| reflexivity].
  destruct (verifyOnChain ledger (MerkleBatch.root batch)
              (textOrUndefined (rpcUrl opts))
              (textOrUndefined (contractAddress opts)))
    as [[[|] reason] | e]; reflexivity.
Qed.

Lemma truthy_toLowerCase (s : string) :
  truthy (toLowerCase s) = truthy s.
Proof. destruct s; reflexivity. Qed.

(** X17.  The verdict on a hash does not depend on its letter case: for two
    hashes that are equal up to case [verifyInference] gives the same
    result, with the same proof, but for the [inference_hash] field, which
    repeats the input. *)
Theorem verifyInference_hash_case (storage : Storage) (ledger : Ledger)
        (options : option VerifyOptions) (h h' : string) :
  toLowerCase h = toLowerCase h' ->
  verifyInference storage ledger (mkInput None (Some h')) options
  = match verifyInference storage ledger (mkInput None (Some h)) options with
    | Ok r => Ok (withInferenceHash h' r)
    | Err e => Err e
    end.
Proof.
  intros H. unfold verifyInference, resolveIdentity.
  cbn [record hash truthyOption textOrUndefined].
  assert (Ht : truthy h' = truthy h).
  { rewrite <- (truthy_toLowerCase h'), <- H. apply truthy_toLowerCase. }
  rewrite Ht. destruct (truthy h) eqn:E; cbn [bind].
  - apply verifyLocated_case. exact H.
  - destruct h'; [reflexivity | discriminate Ht].
Qed.

Lemma verifyInference_hash_case_witness :
  verifyInference SampleStore.anchored SampleStore.ledger
                  (mkInput None (Some Sample.ha)) None
  = match verifyInference SampleStore.anchored SampleStore.ledger
                          (mkInput None (Some Sample.hA)) None with
    | Ok r => Ok (withInferenceHash Sample.ha r)
    | Err e => Err e
    end.
Proof.
  apply (verifyInference_hash_case SampleStore.anchored SampleStore.ledger
           None Sample.hA Sample.ha).
  vm_compute. reflexivity.
Defined.

Lemma normalized_startsWith0x (s : string) :
  normalized s -> startsWith0x (toLowerCase s) = true.
Proof.
  intros H. rewrite (normalized_lower H). rewrite <- H. reflexivity.
Qed.

(** X18.  The prefix is another matter.  In a store whose batches hold
    normalized leaves, as [buildMerkleBatch] makes them, a hash given
    without the prefix 0x is reported as not batched, although
    [generateProof] and [verifyInferenceHash] would take it with or
    without the prefix: the search for the batch compares lower-cased
    strings only. *)
Theorem verifyInference_unprefixed_hash (storage : Storage) (ledger : Ledger)
        (options : option VerifyOptions) (h : string) :
  (forall batch, In batch (batches storage) ->
                 Forall normalized (MerkleBatch.leaves batch)) ->
  h <> "" ->
  startsWith0x (toLowerCase h) = false ->
  verifyInference storage ledger (mkInput None (Some h)) options
  = Ok (failed h "Inference not found in any batch").
Proof.
  intros Hleaves Hne Hprefix. unfold verifyInference, resolveIdentity.
  cbn [record hash truthyOption textOrUndefined].
  destruct h as [| c h0]; [congruence |]. cbn [truthy bind].
  unfold verifyLocated.
  rewrite findBatchContainingHash_none; [reflexivity |].
  intros batch leaf Hb Hl Heq.
  specialize (Hleaves batch Hb). rewrite Forall_forall in Hleaves.
  pose proof (normalized_startsWith0x leaf (Hleaves leaf Hl)) as Hs.
  rewrite Heq in Hs. congruence.
Qed.

Lemma verifyInference_unprefixed_hash_witness :
  verifyInference SampleStore.anchored SampleStore.ledger
                  (mkInput None (Some (slice 2 Sample.h1))) None
  = Ok (failed (slice 2 Sample.h1) "Inference not found in any batch") /\
  exists proof,
    generateProof SampleStore.batch (slice 2 Sample.h1) = Some proof.
Proof.
  split.
  - apply (verifyInference_unprefixed_hash SampleStore.anchored
             SampleStore.ledger None (slice 2 Sample.h1)).
    + intros batch [<- | []]. repeat constructor.
    + discriminate.
    + reflexivity.
  - eexists. vm_compute. reflexivity.
Defined.

(* ---------------------------------------------------------------------- *)
(** *** The report on an outcome of the verifier *)

Lemma verifyInference_located (storage : Storage) (ledger : Ledger)
      (input : VerifyInput) (options : option VerifyOptions)
      (r : VerificationResult.t) :
  verifyInference storage ledger input options = Ok r ->
  VerificationResult.verified r = true ->
  exists h, verifyLocated storage ledger options h = Ok r.
Proof.
  unfold verifyInference. intros H Hv.
  destruct (resolveIdentity input) as [[h | early] |] eqn:E; cbn [bind] in H;
    [exists h; exact H | | discriminate H].
  injection H as <-. unfold resolveIdentity in E.
  destruct (record input) as [rec |].
  - destruct (hashInference rec) as [h' |]; cbn [bind] in E; [| discriminate E].
    destruct (truthyOption (hash input)); [| discriminate E].
    destruct (verifyInferenceHash rec _) as [[|] |]; cbn [bind negb] in E;
      try discriminate E.
    injection E as <-. discriminate Hv.
  - destruct (truthyOption (hash input)); [discriminate E |].
    injection E as <-. discriminate Hv.
Qed.

(** The lines every report ends with. *)
Definition disclaimer : list string :=
  [ "";
    "[NOT PROVEN] Does NOT prove correctness or truthfulness";
    "[NOT PROVEN] Does NOT prove the AI actually produced this";
    "[NOT PROVEN] Does NOT prove completeness of records" ].

(** X19.  The report and the explanation on an outcome of [verifyInference].
    For a negative outcome the report is the failure header, the reason
    with the message of the verifier's cause (never the fallback for a
    missing message) and the disclaimer, and the explanation lists
    nothing as proven and gives no details.  For a positive outcome the
    report names the block of an anchor record of the store (never an
    undefined block) and, when that record has a chain name, the chain,
    and ends with the same disclaimer. *)
Theorem formatVerificationReport_outcome (storage : Storage) (ledger : Ledger)
        (input : VerifyInput) (options : option VerifyOptions)
        (r : VerificationResult.t) :
  verifyInference storage ledger input options = Ok r ->
  (VerificationResult.verified r = false ->
   exists cause detail,
     formatVerificationReport r
     = joinWith newline
         ([ "[FAILED] Verification failed";
            "";
            ("Reason: " ++ causeMessage cause detail)%string ]
          ++ disclaimer) /\
     ExplainResponse.what_is_proven (explainVerification r)
     = [ "Unable to verify inference" ] /\
     ExplainResponse.verification_details (explainVerification r) = None) /\
  (VerificationResult.verified r = true ->
   exists anchor,
     In anchor (anchors storage) /\
     formatVerificationReport r
     = joinWith newline
         ([ "[VERIFIED] Inference verified successfully";
            "";
            ("[VERIFIED] Existed before block "
             ++ numberToString (AnchorRecord.block_number anchor))%string;
            "[VERIFIED] Not modified since anchoring";
            "[VERIFIED] Merkle proof valid" ]
          ++ (if truthy (AnchorRecord.chain_name anchor)
              then [ ("[VERIFIED] Anchored on "
                      ++ AnchorRecord.chain_name anchor)%string ]
              else [])
          ++ disclaimer) /\
     ExplainResponse.verification_details (explainVerification r)
     = Some {| ExplainResponse.inference_hash :=
                 VerificationResult.inference_hash r;
               ExplainResponse.merkle_root :=
                 VerificationResult.merkle_root r;
               ExplainResponse.block_number :=
                 Some (AnchorRecord.block_number anchor);
               ExplainResponse.chain_name :=
                 Some (AnchorRecord.chain_name anchor) |}).
Proof.
  intros H. split; intros Hv.
  - destruct (verifyInference_negative_cause storage ledger input options r
                H Hv) as (cause & detail & He).
    exists cause, detail.
    unfold formatVerificationReport, reportLines, explainVerification.
    rewrite Hv, He. cbn [ExplainResponse.what_is_proven
                          ExplainResponse.verification_details].
    split; [reflexivity |]. split; reflexivity.
  - destruct (verifyInference_located storage ledger input options r H Hv)
      as [h Hh].
    destruct (verifyLocated_verified storage ledger options h r Hh Hv)
      as (batch & proof & anchor & _ & _ & _ & Ha & Hr & _).
    destruct (getAnchorByRoot_some storage _ anchor Ha) as [Hin _].
    exists anchor. split; [exact Hin |].
    unfold formatVerificationReport, reportLines, explainVerification.
    rewrite Hr.
    cbn [VerificationResult.verified VerificationResult.block_number
         VerificationResult.chain_name VerificationResult.inference_hash
         VerificationResult.merkle_root numberOrUndefined truthyOption
         textOrUndefined ExplainResponse.verification_details].
    split; [| reflexivity].
    rewrite <- app_assoc. reflexivity.
Qed.

Lemma formatVerificationReport_outcome_witness :
  exists cause detail,
    formatVerificationReport (failed Sample.hc "Inference not found in any batch")
    = joinWith newline
        ([ "[FAILED] Verification failed";
           "";
           ("Reason: " ++ causeMessage cause detail)%string ]
         ++ disclaimer).
Proof.
  assert (H : verifyInference SampleStore.unanchored SampleStore.ledger
                (mkInput None (Some Sample.hc)) None
              = Ok (failed Sample.hc "Inference not found in any batch"))
    by (vm_compute; reflexivity).
  destruct (formatVerificationReport_outcome _ _ _ _ _ H) as [Hneg _].
  destruct (Hneg eq_refl) as (cause & detail & Hreport & _).
  exists cause, detail. exact Hreport.
Defined.

(* ====================================================================== *)
(** ** The store *)
(* ====================================================================== *)

(** *** Maps and sets *)

Lemma mapGet_mapReplace {V : Type} (m : JsMap V) (key key' : string) (v : V) :
  mapHas m key = true ->
  mapGet (mapReplace m key v) key'
  = if String.eqb key key' then Some v else mapGet m key'.
Proof.
  unfold mapGet, mapHas.
  induction m as [| [k w] r IH]; [discriminate |].
  cbn [existsb mapReplace fst]. intros H.
  destruct (String.eqb_spec k key) as [-> | Hne].
  - cbn [find fst snd]. destruct (String.eqb key key'); reflexivity.
  - cbn [orb] in H. cbn [find fst snd].
    destruct (String.eqb_spec k key') as [-> | Hne'].
    + destruct (String.eqb_spec key key'); [congruence | reflexivity].
    + apply IH. exact H.
Qed.

Lemma mapGet_app {V : Type} (m : JsMap V) (key key' : string) (v : V) :
  mapHas m key = false ->
  mapGet (m ++ [(key, v)]) key'
  = if String.eqb key key' then Some v else mapGet m key'.
Proof.
  unfold mapGet, mapHas.
  induction m as [| [k w] r IH]; cbn [existsb app find fst snd].
  - intros _. destruct (String.eqb key key'); reflexivity.
  - intros H. apply orb_false_iff in H. destruct H as [Hk Hr].
    destruct (String.eqb_spec k key') as [-> | Hne].
    + rewrite String.eqb_sym, Hk. reflexivity.
    + apply IH. exact Hr.
Qed.

Lemma mapGet_mapSet {V : Type} (m : JsMap V) (key key' : string) (v : V) :
  mapGet (mapSet m key v) key'
  = if String.eqb key key' then Some v else mapGet m key'.
Proof.
  unfold mapSet. destruct (mapHas m key) eqn:E.
  - apply mapGet_mapReplace. exact E.
  - apply mapGet_app. exact E.
Qed.

Lemma mapHas_mapGet {V : Type} (m : JsMap V) (key : string) :
  mapHas m key = false <-> mapGet m key = None.
Proof.
  unfold mapHas, mapGet.
  induction m as [| [k w] r IH]; cbn [existsb find fst]; [tauto |].
  destruct (String.eqb k key); cbn [orb]; [| exact IH].
  split; discriminate.
Qed.

Lemma mapValues_mapSet_new {V : Type} (m : JsMap V) (key : string) (v : V) :
  mapGet m key = None ->
  mapValues (mapSet m key v) = mapValues m ++ [v].
Proof.
  intros H. apply mapHas_mapGet in H. unfold mapSet, mapValues.
  rewrite H, map_app. reflexivity.
Qed.

Lemma mapReplace_length {V : Type} (m : JsMap V) (key : string) (v : V) :
  List.length (mapReplace m key v) = List.length m.
Proof.
  induction m as [| [k w] r IH]; [reflexivity |].
  cbn [mapReplace]. destruct (String.eqb k key); cbn [List.length];
    [reflexivity | rewrite IH; reflexivity].
Qed.

Lemma In_mapValues_mapSet {V : Type} (m : JsMap V) (key : string) (v : V) :
  In v (mapValues (mapSet m key v)).
Proof.
  unfold mapSet, mapValues. destruct (mapHas m key) eqn:E.
  - unfold mapHas in E. induction m as [| [k w] r IH]; [discriminate E |].
    cbn [existsb fst] in E. cbn [mapReplace].
    destruct (String.eqb k key); cbn [map snd In]; [left; reflexivity |].
    right. apply IH. exact E.
  - rewrite map_app. apply in_or_app. right. left. reflexivity.
Qed.

Lemma setHas_setAdd (s : JsSet) (x y : string) :
  setHas (setAdd s x) y = setHas s y || String.eqb x y.
Proof.
  unfold setAdd. destruct (setHas s x) eqn:E.
  - destruct (String.eqb_spec x y) as [<- | _];
      [rewrite E; reflexivity | rewrite orb_false_r; reflexivity].
  - unfold setHas. rewrite existsb_app. cbn [existsb].
    rewrite orb_false_r. reflexivity.
Qed.

Lemma setHas_fold {A : Type} (f : A -> string) (l : list A) :
  forall (s : JsSet) (y : string),
    setHas (fold_left (fun acc x => setAdd acc (f x)) l s) y
    = setHas s y || existsb (fun x => String.eqb (f x) y) l.
Proof.
  induction l as [| x r IH]; intros s y; cbn [fold_left existsb].
  - rewrite orb_false_r. reflexivity.
  - rewrite IH, setHas_setAdd, orb_assoc. reflexivity.
Qed.

Lemma setHas_batches (bs : list MerkleBatch.t) :
  forall (s : JsSet) (y : string),
    setHas (fold_left
              (fun acc batch =>
                 fold_left (fun acc' leaf => setAdd acc' (toLowerCase leaf))
                           (MerkleBatch.leaves batch) acc)
              bs s) y
    = setHas s y
      || existsb (fun batch =>
                    existsb (fun leaf => String.eqb (toLowerCase leaf) y)
                            (MerkleBatch.leaves batch))
                 bs.
Proof.
  induction bs as [| b r IH]; intros s y; cbn [fold_left existsb].
  - rewrite orb_false_r. reflexivity.
  - rewrite IH, (setHas_fold toLowerCase), orb_assoc. reflexivity.
Qed.

Lemma setHas_batchedHashes (st : StorageState.t) (y : string) :
  setHas (batchedHashes st) y
  = existsb (fun batch =>
               existsb (fun leaf => String.eqb (toLowerCase leaf) y)
                       (MerkleBatch.leaves batch))
            (mapValues (StorageState.batches st)).
Proof. unfold batchedHashes. rewrite setHas_batches. reflexivity. Qed.

Lemma setHas_anchoredRoots (st : StorageState.t) (y : string) :
  setHas (anchoredRoots st) y
  = existsb (fun anchor =>
               String.eqb (toLowerCase (AnchorRecord.merkle_root anchor)) y)
            (mapValues (StorageState.anchors st)).
Proof.
  unfold anchoredRoots.
  rewrite (setHas_fold
             (fun anchor => toLowerCase (AnchorRecord.merkle_root anchor))).
  reflexivity.
Qed.

(* ---------------------------------------------------------------------- *)
(** *** Storing and reading back *)

Lemma toLowerCase_fixed (h key : string) :
  toLowerCase h = key -> toLowerCase key = key.
Proof. intros <-. apply toLowerCase_idem. Qed.

(** X20.  [storeInference] files the inference under its hash as it is, and
    [getInference] looks under the lower-cased hash.  So an inference
    whose hash is in lower case is read back under that hash in any
    letter case, while one whose hash holds a capital letter cannot be
    read back at all: every lookup answers as before.  The batches and
    anchors stay as they were, and the file written is named after the
    characters 2 to 17 of the hash. *)
Theorem getInference_storeInference (st : StorageState.t)
        (inference : StoredInference.t) :
  (forall h,
      getInference (fst (storeInference st inference)) h
      = if String.eqb (StoredInference.inference_hash inference)
                      (toLowerCase h)
        then Some inference
        else getInference st h) /\
  (toLowerCase (StoredInference.inference_hash inference)
   = StoredInference.inference_hash inference ->
   forall h,
     toLowerCase h = StoredInference.inference_hash inference ->
     getInference (fst (storeInference st inference)) h = Some inference) /\
  (toLowerCase (StoredInference.inference_hash inference)
   <> StoredInference.inference_hash inference ->
   forall h,
     getInference (fst (storeInference st inference)) h = getInference st h) /\
  StorageState.batches (fst (storeInference st inference))
  = StorageState.batches st /\
  StorageState.anchors (fst (storeInference st inference))
  = StorageState.anchors st /\
  fileName (snd (storeInference st inference))
  = (sliceRange 2 18 (StoredInference.inference_hash inference)
     ++ ".json")%string.
Proof.
  set (key := StoredInference.inference_hash inference).
  set (st' := fst (storeInference st inference)).
  assert (Hget : forall h,
             getInference st' h
             = if String.eqb key (toLowerCase h) then Some inference
               else getInference st h).
  { intros h. unfold getInference, st', storeInference.
    cbn [fst StorageState.inferences]. apply mapGet_mapSet. }
  split; [exact Hget |].
  split.
  { intros _ h Hh. rewrite Hget, Hh, String.eqb_refl. reflexivity. }
  split.
  { intros Hne h. rewrite Hget.
    destruct (String.eqb_spec key (toLowerCase h)) as [E | _]; [| reflexivity].
    destruct Hne. apply (toLowerCase_fixed h). symmetry. exact E. }
  split; [reflexivity |]. split; reflexivity.
Qed.

(** A hash in capitals is stored and never found again. *)
Example getInference_capital_hash :
  getInference
    (fst (storeInference emptyState
            {| StoredInference.record := SampleRecord.first;
               StoredInference.inference_hash := "0xAB";
               StoredInference.stored_at := 1 |}))
    "0xAB" = None.
Proof. reflexivity. Qed.

(** X21.  [storeBatch] files the batch under its identifier: [getBatch] finds
    it there and answers as before for every other identifier.  A batch
    with a new identifier comes last among the batches; one with a known
    identifier takes the place of the batch that had it. *)
Theorem getBatch_storeBatch (st : StorageState.t) (batch : MerkleBatch.t) :
  getBatch (fst (storeBatch st batch)) (MerkleBatch.batch_id batch)
  = Some batch /\
  (forall batchId,
      batchId <> MerkleBatch.batch_id batch ->
      getBatch (fst (storeBatch st batch)) batchId = getBatch st batchId) /\
  In batch (getAllBatches (fst (storeBatch st batch))) /\
  (getBatch st (MerkleBatch.batch_id batch) = None ->
   getAllBatches (fst (storeBatch st batch)) = getAllBatches st ++ [batch]) /\
  (getBatch st (MerkleBatch.batch_id batch) <> None ->
   List.length (getAllBatches (fst (storeBatch st batch)))
   = List.length (getAllBatches st)) /\
  StorageState.inferences (fst (storeBatch st batch))
  = StorageState.inferences st /\
  StorageState.anchors (fst (storeBatch st batch)) = StorageState.anchors st.
Proof.
  unfold storeBatch, getBatch, getAllBatches.
  cbn [fst StorageState.batches StorageState.inferences StorageState.anchors].
  split; [rewrite mapGet_mapSet, String.eqb_refl; reflexivity |].
  split.
  { intros batchId Hne. rewrite mapGet_mapSet.
    destruct (String.eqb_spec (MerkleBatch.batch_id batch) batchId);
      [congruence | reflexivity]. }
  split; [apply In_mapValues_mapSet |].
  split; [apply mapValues_mapSet_new |].
  split; [| split; reflexivity].
  intros Hsome. unfold mapValues, mapSet.
  destruct (mapHas (StorageState.batches st) (MerkleBatch.batch_id batch))
    eqn:E.
  - rewrite !length_map. apply mapReplace_length.
  - apply mapHas_mapGet in E. contradiction.
Qed.

(* ---------------------------------------------------------------------- *)
(** *** What is left to batch and to anchor *)

Lemma find_none_existsb {A : Type} (p : A -> bool) (l : list A) :
  find p l = None <-> existsb p l = false.
Proof.
  induction l as [| x r IH]; cbn [find existsb]; [tauto |].
  destruct (p x); cbn [orb]; [split; discriminate | exact IH].
Qed.

(** X22.  The two listings agree with the lookups of the verifier.  An
    inference is listed as unbatched exactly when it is stored and
    [findBatchContainingHash] finds no batch for its hash; a batch is
    listed as unanchored exactly when it is stored and [getAnchorByRoot]
    finds no anchor for its root. *)
Theorem unbatched_unanchored_lookup (st : StorageState.t) :
  (forall inference,
      In inference (getUnbatchedInferences st) <->
      In inference (getAllInferences st) /\
      findBatchContainingHash (storedValues st)
        (StoredInference.inference_hash inference) = None) /\
  (forall batch,
      In batch (getUnanchoredBatches st) <->
      In batch (getAllBatches st) /\
      getAnchorByRoot (storedValues st) (MerkleBatch.root batch) = None).
Proof.
  split.
  - intros inference. unfold getUnbatchedInferences.
    rewrite filter_In, setHas_batchedHashes, negb_true_iff.
    unfold findBatchContainingHash, storedValues. cbn [batches].
    rewrite find_none_existsb. reflexivity.
  - intros batch. unfold getUnanchoredBatches.
    rewrite filter_In, setHas_anchoredRoots, negb_true_iff.
    unfold getAnchorByRoot, storedValues. cbn [anchors].
    rewrite find_none_existsb. reflexivity.
Qed.

(* ---------------------------------------------------------------------- *)
(** *** Batching what is unbatched *)

Lemma filter_nil {A : Type} (p : A -> bool) (l : list A) :
  (forall x, In x l -> p x = false) -> filter p l = [].
Proof.
  induction l as [| x r IH]; intros H; [reflexivity |].
  cbn [filter]. rewrite (H x (or_introl eq_refl)).
  apply IH. intros y Hy. apply H. right. exact Hy.
Qed.

Lemma In_sortedLeaves (hashes : list string) (h : string) :
  In h hashes -> In (normalizeHash h) (sortedLeaves hashes).
Proof.
  intros H. unfold sortedLeaves.
  apply (Permutation_in _ (sort_perm (map normalizeHash hashes))).
  apply in_map. exact H.
Qed.

Lemma toLowerCase_prefixed (h : string) :
  startsWith0x (toLowerCase h) = true ->
  toLowerCase (normalizeHash h) = toLowerCase h.
Proof.
  intros H. rewrite toLowerCase_normalizeHash.
  apply (normalizeHash_startsWith0x h H).
Qed.

Lemma existsb_leaf (batch : MerkleBatch.t) (env : Env) (hashes : list string)
      (h : string) :
  buildMerkleBatch env hashes = Ok batch ->
  In h hashes ->
  startsWith0x (toLowerCase h) = true ->
  existsb (fun leaf => String.eqb (toLowerCase leaf) (toLowerCase h))
          (MerkleBatch.leaves batch) = true.
Proof.
  intros Hb Hin Hp.
  destruct (@buildMerkleBatch_inv env hashes batch Hb)
    as (_ & ls & root & _ & _ & Hrec).
  apply existsb_exists. exists (normalizeHash h). split.
  - rewrite Hrec. cbn [MerkleBatch.leaves]. apply In_sortedLeaves. exact Hin.
  - rewrite (toLowerCase_prefixed h Hp). apply String.eqb_refl.
Qed.

(** X23.  After a batch built from the hashes of all unbatched inferences is
    stored under a new identifier, no inference is left unbatched,
    provided the hashes of those inferences carry the prefix 0x, as the
    hashes from [hashInference] do.  (A hash stored without the prefix
    never counts as batched: its leaf has the prefix.) *)
Theorem storeBatch_batches_all (env : Env) (st : StorageState.t)
        (batch : MerkleBatch.t) :
  buildMerkleBatch env
    (map StoredInference.inference_hash (getUnbatchedInferences st))
  = Ok batch ->
  getBatch st (MerkleBatch.batch_id batch) = None ->
  (forall inference,
      In inference (getUnbatchedInferences st) ->
      startsWith0x (toLowerCase (StoredInference.inference_hash inference))
      = true) ->
  getUnbatchedInferences (fst (storeBatch st batch)) = [].
Proof.
  intros Hb Hnew Hprefix.
  unfold getUnbatchedInferences at 1. apply filter_nil.
  intros inference Hin. rewrite negb_false_iff, setHas_batchedHashes.
  unfold storeBatch. cbn [fst StorageState.batches].
  unfold getBatch in Hnew. rewrite (mapValues_mapSet_new _ _ _ Hnew).
  rewrite existsb_app. cbn [existsb]. rewrite orb_false_r.
  destruct (existsb
              (fun b =>
                 existsb (fun leaf =>
                            String.eqb (toLowerCase leaf)
                              (toLowerCase
                                 (StoredInference.inference_hash inference)))
                         (MerkleBatch.leaves b))
              (mapValues (StorageState.batches st))) eqn:E; [reflexivity |].
  cbn [orb].
  assert (Hun : In inference (getUnbatchedInferences st)).
  { unfold getUnbatchedInferences. apply filter_In. split; [exact Hin |].
    rewrite setHas_batchedHashes, E. reflexivity. }
  apply (existsb_leaf batch env _ _ Hb).
  - apply in_map. exact Hun.
  - apply Hprefix. exact Hun.
Qed.

Module SampleState.

Definition inference (h : string) : StoredInference.t :=
  {| StoredInference.record := SampleRecord.first;
     StoredInference.inference_hash := h;
     StoredInference.stored_at := 1700000000000 |}.

(** Three inferences stored, none batched. *)
Definition recorded : StorageState.t :=
  fst (storeInference
         (fst (storeInference
                 (fst (storeInference emptyState (inference Sample.h3)))
                 (inference Sample.ha)))
         (inference Sample.h1)).

(** The batch of the three hashes stored, then its anchor. *)
Definition batched : StorageState.t := fst (storeBatch recorded SampleStore.batch).

Definition anchored : StorageState.t := fst (storeAnchor batched SampleStore.anchor).

End SampleState.

Lemma storeBatch_batches_all_witness :
  List.length (getUnbatchedInferences SampleState.recorded) = 3 /\
  getUnbatchedInferences SampleState.batched = [].
Proof.
  split; [reflexivity |].
  apply (storeBatch_batches_all Sample.env SampleState.recorded
           SampleStore.batch).
  - vm_compute. reflexivity.
  - reflexivity.
  - intros inference Hin. vm_compute in Hin.
    destruct Hin as [<- | [<- | [<- | []]]]; reflexivity.
Defined.

(* ---------------------------------------------------------------------- *)
(** *** Anchoring a batch *)

Lemma find_exists {A : Type} (p : A -> bool) (l : list A) (x : A) :
  In x l -> p x = true -> exists y, find p l = Some y /\ p y = true.
Proof.
  intros Hin Hp. destruct (find p l) as [y |] eqn:E.
  - exists y. split; [reflexivity |]. apply (find_some _ _ E).
  - pose proof (find_none _ _ E x Hin) as Hf. congruence.
Qed.

Lemma storeAnchor_found (st : StorageState.t) (anchor : AnchorRecord.t)
      (root : string) :
  toLowerCase root = toLowerCase (AnchorRecord.merkle_root anchor) ->
  exists found,
    getAnchorByRoot (storedValues (fst (storeAnchor st anchor))) root
    = Some found /\
    toLowerCase (AnchorRecord.merkle_root found) = toLowerCase root.
Proof.
  intros Hroot. unfold getAnchorByRoot, storedValues, storeAnchor.
  cbn [fst anchors StorageState.anchors].
  destruct (find_exists
              (fun a => String.eqb (toLowerCase (AnchorRecord.merkle_root a))
                                   (toLowerCase root))
              _ anchor
              (In_mapValues_mapSet (StorageState.anchors st)
                 (AnchorRecord.tx_hash anchor) anchor))
    as (found & Hf & Hp).
  - rewrite Hroot. apply String.eqb_refl.
  - exists found. split; [exact Hf |]. apply String.eqb_eq. exact Hp.
Qed.

(** X24.  After [storeAnchor] files an anchor record, [getAnchorByRoot] finds an
    anchor for every root equal to its root up to letter case, and no
    batch with such a root is listed as unanchored.  The record itself is
    read back by [getAnchor] under its lower-cased transaction hash. *)
Theorem storeAnchor_anchors (st : StorageState.t) (anchor : AnchorRecord.t) :
  (forall root,
      toLowerCase root = toLowerCase (AnchorRecord.merkle_root anchor) ->
      exists found,
        getAnchorByRoot (storedValues (fst (storeAnchor st anchor))) root
        = Some found /\
        toLowerCase (AnchorRecord.merkle_root found) = toLowerCase root) /\
  (forall batch,
      toLowerCase (MerkleBatch.root batch)
      = toLowerCase (AnchorRecord.merkle_root anchor) ->
      ~ In batch (getUnanchoredBatches (fst (storeAnchor st anchor)))) /\
  (forall txHash,
      getAnchor (fst (storeAnchor st anchor)) txHash
      = if String.eqb (AnchorRecord.tx_hash anchor) (toLowerCase txHash)
        then Some anchor
        else getAnchor st txHash).
Proof.
  pose proof (storeAnchor_found st anchor) as Hfound.
  split; [exact Hfound |].
  split.
  - intros batch Hroot Hin.
    destruct (Hfound (MerkleBatch.root batch) Hroot) as (found & Hf & _).
    unfold getUnanchoredBatches in Hin. apply filter_In in Hin.
    destruct Hin as [_ Hno].
    rewrite negb_true_iff, setHas_anchoredRoots in Hno.
    unfold getAnchorByRoot, storedValues in Hf. cbn [anchors] in Hf.
    apply find_none_existsb in Hno. congruence.
  - intros txHash. unfold getAnchor, storeAnchor.
    cbn [fst StorageState.anchors]. apply mapGet_mapSet.
Qed.

(* ---------------------------------------------------------------------- *)
(** *** From the store to the verdict *)

Lemma find_app_none {A : Type} (p : A -> bool) (l : list A) (x : A) :
  find p l = None -> p x = true -> find p (l ++ [x]) = Some x.
Proof.
  induction l as [| y r IH]; cbn [find app]; intros Hn Hp.
  - rewrite Hp. reflexivity.
  - destruct (p y); [discriminate Hn |]. apply IH; assumption.
Qed.

(** X25.  The whole path.  Take a batch that [buildMerkleBatch] made, store it
    under a new identifier and store an anchor record for its root.  For
    every hash of the batch that carries the prefix 0x and was in no
    batch before, [verifyInference] on the store gives a positive
    verdict with the root of the batch and a proof that verifies. *)
Theorem stored_batch_verifies (env : Env) (hashes : list string)
        (st : StorageState.t) (batch : MerkleBatch.t)
        (anchor : AnchorRecord.t) (ledger : Ledger) (h : string) :
  buildMerkleBatch env hashes = Ok batch ->
  In h hashes ->
  startsWith0x (toLowerCase h) = true ->
  getBatch st (MerkleBatch.batch_id batch) = None ->
  findBatchContainingHash (storedValues st) h = None ->
  toLowerCase (AnchorRecord.merkle_root anchor)
  = toLowerCase (MerkleBatch.root batch) ->
  exists r proof,
    verifyInference
      (storedValues (fst (storeAnchor (fst (storeBatch st batch)) anchor)))
      ledger (mkInput None (Some h)) None
    = Ok r /\
    VerificationResult.verified r = true /\
    VerificationResult.inference_hash r = h /\
    VerificationResult.merkle_root r = Some (MerkleBatch.root batch) /\
    VerificationResult.proof r = Some proof /\
    verifyProof proof = Ok true.
Proof.
  intros Hb Hin Hprefix Hnew Hnone Hroot.
  set (st2 := fst (storeAnchor (fst (storeBatch st batch)) anchor)).
  assert (Hfind : findBatchContainingHash (storedValues st2) h = Some batch).
  { unfold findBatchContainingHash, storedValues, st2, storeAnchor, storeBatch.
    cbn [fst batches StorageState.batches].
    unfold getBatch in Hnew. rewrite (mapValues_mapSet_new _ _ _ Hnew).
    apply find_app_none; [exact Hnone |].
    apply (existsb_leaf batch env hashes h Hb Hin Hprefix). }
  destruct (@buildMerkleBatch_inv env hashes batch Hb)
    as (_ & ls & root & _ & _ & Hrec).
  destruct (@findLeafIndex_member hashes h Hin) as (i & Hi & _).
  assert (Hi' : findLeafIndex (MerkleBatch.leaves batch) h = Some i)
    by (rewrite Hrec; exact Hi).
  destruct (@verifyProof_generateProof env hashes batch h i Hb Hi')
    as (proof & Hp & _ & _ & Hv).
  destruct (storeAnchor_found (fst (storeBatch st batch)) anchor
              (MerkleBatch.root batch) (eq_sym Hroot)) as (found & Hf & _).
  fold st2 in Hf.
  assert (Hne : truthy h = true).
  { destruct h as [| c h0]; [discriminate Hprefix | reflexivity]. }
  eexists. exists proof.
  unfold verifyInference, resolveIdentity.
  cbn [record hash truthyOption textOrUndefined]. rewrite Hne. cbn [bind].
  unfold verifyLocated. rewrite Hfind, Hp, Hv. cbn [bind negb]. rewrite Hf.
  split; [reflexivity |].
  cbn [VerificationResult.verified VerificationResult.inference_hash
       VerificationResult.merkle_root VerificationResult.proof].
  repeat split; reflexivity.
Qed.

Lemma stored_batch_verifies_witness :
  exists r,
    verifyInference (storedValues SampleState.anchored) SampleStore.ledger
                    (mkInput None (Some Sample.ha)) None
    = Ok r /\
    VerificationResult.verified r = true /\
    VerificationResult.merkle_root r = Some SampleProof.root.
Proof.
  destruct (stored_batch_verifies Sample.env [Sample.h3; Sample.ha; Sample.h1]
              SampleState.recorded SampleStore.batch SampleStore.anchor
              SampleStore.ledger Sample.ha)
    as (r & proof & Hr & Hv & _ & Hroot & _).
  - vm_compute. reflexivity.
  - right. left. reflexivity.
  - reflexivity.
  - reflexivity.
  - reflexivity.
  - reflexivity.
  - exists r. split; [exact Hr |]. split; [exact Hv | exact Hroot].
Defined.

(* ====================================================================== *)
(** ** The registry contract *)
(* ====================================================================== *)

(** A sequence of calls of [anchorRoot], each in a block with its
    timestamp; a call that reverts leaves the storage as it was. *)
Fixpoint anchorAll (calls : list (ProofTraceRegistry.uint256
                                  * ProofTraceRegistry.bytes32))
         (anchoredAt : ProofTraceRegistry.Mapping)
  : ProofTraceRegistry.Mapping :=
  match calls with
  | [] => anchoredAt
  | (blockTimestamp, root) :: rest =>
      match ProofTraceRegistry.anchorRoot blockTimestamp anchoredAt root with
      | ProofTraceRegistry.Reverted _ => anchorAll rest anchoredAt
      | ProofTraceRegistry.Succeeded anchoredAt' _ => anchorAll rest anchoredAt'
      end
  end.

(** *** One call *)

(** [anchorRoot] succeeds exactly on a root other than zero that has no
    timestamp yet.  It then emits one event, gives the root the
    timestamp of the block and leaves every other root as it was; the
    root counts as anchored afterwards when the timestamp of the block is
    not zero. *)
Theorem anchorRoot_succeeds (blockTimestamp : ProofTraceRegistry.uint256)
        (anchoredAt : ProofTraceRegistry.Mapping)
        (root : ProofTraceRegistry.bytes32) :
  (root <> 0%N -> anchoredAt root = 0%N ->
   exists anchoredAt',
     ProofTraceRegistry.anchorRoot blockTimestamp anchoredAt root
     = ProofTraceRegistry.Succeeded anchoredAt'
         [ProofTraceRegistry.RootAnchored root blockTimestamp] /\
     ProofTraceRegistry.getAnchorTimestamp anchoredAt' root = blockTimestamp /\
     (forall other, other <> root -> anchoredAt' other = anchoredAt other) /\
     ProofTraceRegistry.isAnchored anchoredAt' root
     = negb (blockTimestamp =? 0)%N) /\
  (forall anchoredAt' events,
      ProofTraceRegistry.anchorRoot blockTimestamp anchoredAt root
      = ProofTraceRegistry.Succeeded anchoredAt' events ->
      root <> 0%N /\ anchoredAt root = 0%N) /\
  (root = 0%N ->
   ProofTraceRegistry.anchorRoot blockTimestamp anchoredAt root
   = ProofTraceRegistry.Reverted ProofTraceRegistry.InvalidRoot) /\
  (root <> 0%N -> anchoredAt root <> 0%N ->
   ProofTraceRegistry.anchorRoot blockTimestamp anchoredAt root
   = ProofTraceRegistry.Reverted
       (ProofTraceRegistry.RootAlreadyAnchored root (anchoredAt root))).
Proof.
  unfold ProofTraceRegistry.anchorRoot, ProofTraceRegistry.getAnchorTimestamp,
    ProofTraceRegistry.isAnchored.
  split; [| split; [| split]].
  - intros Hroot Hfree.
    apply N.eqb_neq in Hroot. rewrite Hroot, Hfree. cbn [N.eqb negb].
    eexists. split; [reflexivity |]. cbv beta.
    rewrite N.eqb_refl. split; [reflexivity |]. split; [| reflexivity].
    intros other Hne. apply N.eqb_neq in Hne. rewrite Hne. reflexivity.
  - intros anchoredAt' events.
    destruct (N.eqb_spec root 0); [discriminate |].
    destruct (N.eqb_spec (anchoredAt root) 0); cbn [negb]; [| discriminate].
    intros _. split; assumption.
  - intros ->. reflexivity.
  - intros Hroot Hset.
    apply N.eqb_neq in Hroot, Hset. rewrite Hroot, Hset. reflexivity.
Qed.

(* ---------------------------------------------------------------------- *)
(** *** Any number of calls *)

Lemma anchorRoot_keeps (blockTimestamp : ProofTraceRegistry.uint256)
      (anchoredAt anchoredAt' : ProofTraceRegistry.Mapping)
      (root key : ProofTraceRegistry.bytes32)
      (events : list ProofTraceRegistry.Event) :
  ProofTraceRegistry.anchorRoot blockTimestamp anchoredAt root
  = ProofTraceRegistry.Succeeded anchoredAt' events ->
  anchoredAt key <> 0%N ->
  anchoredAt' key = anchoredAt key.
Proof.
  unfold ProofTraceRegistry.anchorRoot.
  destruct (N.eqb_spec root 0); [discriminate |].
  destruct (N.eqb_spec (anchoredAt root) 0) as [Hfree | _]; cbn [negb];
    [| discriminate].
  intros H Hkey. injection H as <- _.
  destruct (N.eqb_spec key root) as [-> | _]; [congruence | reflexivity].
Qed.

Lemma anchorAll_keeps
      (calls : list (ProofTraceRegistry.uint256 * ProofTraceRegistry.bytes32)) :
  forall (anchoredAt : ProofTraceRegistry.Mapping)
         (key : ProofTraceRegistry.bytes32),
    anchoredAt key <> 0%N ->
    anchorAll calls anchoredAt key = anchoredAt key.
Proof.
  induction calls as [| [ts root] rest IH]; intros anchoredAt key Hkey;
    [reflexivity |].
  cbn [anchorAll].
  destruct (ProofTraceRegistry.anchorRoot ts anchoredAt root)
    as [e | anchoredAt' events] eqn:E.
  - apply IH. exact Hkey.
  - pose proof (anchorRoot_keeps ts anchoredAt anchoredAt' root key events
                  E Hkey) as Hsame.
    rewrite IH by congruence. exact Hsame.
Qed.

(** X26.  The registry is write-once.  A root that has a timestamp keeps it
    through any sequence of later calls, whoever makes them and whether
    they succeed or revert, and every later call of [anchorRoot] on that
    root reverts and reports that timestamp. *)
Theorem registry_write_once
        (calls : list (ProofTraceRegistry.uint256 * ProofTraceRegistry.bytes32))
        (anchoredAt : ProofTraceRegistry.Mapping)
        (root : ProofTraceRegistry.bytes32) :
  anchoredAt root <> 0%N ->
  ProofTraceRegistry.getAnchorTimestamp (anchorAll calls anchoredAt) root
  = anchoredAt root /\
  ProofTraceRegistry.isAnchored (anchorAll calls anchoredAt) root = true /\
  (forall blockTimestamp,
      exists error,
        ProofTraceRegistry.anchorRoot blockTimestamp
          (anchorAll calls anchoredAt) root
        = ProofTraceRegistry.Reverted error /\
        (root <> 0%N ->
         error = ProofTraceRegistry.RootAlreadyAnchored root (anchoredAt root))).
Proof.
  intros Hset.
  pose proof (anchorAll_keeps calls anchoredAt root Hset) as Hkeep.
  unfold ProofTraceRegistry.getAnchorTimestamp, ProofTraceRegistry.isAnchored,
    ProofTraceRegistry.anchorRoot.
  rewrite Hkeep.
  split; [reflexivity |].
  apply N.eqb_neq in Hset. rewrite Hset. cbn [negb].
  split; [reflexivity |].
  intros blockTimestamp.
  destruct (N.eqb_spec root 0) as [E | E].
  - eexists. split; [reflexivity |]. intros Hne. contradiction.
  - eexists. split; [reflexivity |]. intros _. reflexivity.
Qed.

Lemma registry_write_once_witness :
  ProofTraceRegistry.getAnchorTimestamp
    (anchorAll [(200%N, 7%N); (300%N, 8%N); (400%N, 7%N)]
       (anchorAll [(100%N, 7%N)] ProofTraceRegistry.deployed)) 7%N
  = 100%N.
Proof.
  apply (registry_write_once [(200%N, 7%N); (300%N, 8%N); (400%N, 7%N)]
           (anchorAll [(100%N, 7%N)] ProofTraceRegistry.deployed) 7%N).
  vm_compute. discriminate.
Defined.

(** X27.  Nothing is anchored without a call.  From the deployed contract a
    root has a timestamp after a sequence of calls only if it is not the
    zero root and one of the calls anchored that very root in a block
    with that timestamp. *)
Theorem registry_anchored_by_call
        (calls : list (ProofTraceRegistry.uint256 * ProofTraceRegistry.bytes32))
        (root : ProofTraceRegistry.bytes32) :
  ProofTraceRegistry.isAnchored
    (anchorAll calls ProofTraceRegistry.deployed) root = true ->
  root <> 0%N /\
  In (anchorAll calls ProofTraceRegistry.deployed root, root) calls.
Proof.
  unfold ProofTraceRegistry.isAnchored. rewrite negb_true_iff, N.eqb_neq.
  assert (Hgen : forall anchoredAt,
             anchoredAt root = 0%N ->
             anchorAll calls anchoredAt root <> 0%N ->
             root <> 0%N /\ In (anchorAll calls anchoredAt root, root) calls).
  { induction calls as [| [ts r] rest IH]; intros anchoredAt Hfree Hset.
    - cbn [anchorAll] in Hset. contradiction.
    - cbn [anchorAll] in *.
      destruct (ProofTraceRegistry.anchorRoot ts anchoredAt r)
        as [e | anchoredAt' events] eqn:E.
      + destruct (IH anchoredAt Hfree Hset) as [Hr Hin].
        split; [exact Hr | right; exact Hin].
      + unfold ProofTraceRegistry.anchorRoot in E.
        destruct (N.eqb_spec r 0) as [| Hr0]; [discriminate E |].
        destruct (N.eqb_spec (anchoredAt r) 0); cbn [negb] in E;
          [| discriminate E].
        injection E as <- _.
        destruct (N.eq_dec root r) as [-> | Hne].
        * split; [exact Hr0 |].
          destruct (N.eq_dec ts 0) as [-> | Hts].
          -- destruct (IH (fun key => if (key =? r)%N then 0%N
                                      else anchoredAt key)) as [_ Hin].
             ++ rewrite N.eqb_refl. reflexivity.
             ++ exact Hset.
             ++ right. exact Hin.
          -- left. rewrite anchorAll_keeps.
             ++ rewrite N.eqb_refl. reflexivity.
             ++ rewrite N.eqb_refl. exact Hts.
        * destruct (IH (fun key => if (key =? r)%N then ts
                                   else anchoredAt key)) as [Hr Hin].
          -- apply N.eqb_neq in Hne. rewrite Hne. exact Hfree.
          -- exact Hset.
          -- split; [exact Hr | right; exact Hin]. }
  apply Hgen. reflexivity.
Qed.

Lemma registry_anchored_by_call_witness :
  In (100%N, 7%N) [(100%N, 7%N); (200%N, 7%N)].
Proof.
  apply (registry_anchored_by_call [(100%N, 7%N); (200%N, 7%N)] 7%N).
  vm_compute. reflexivity.
Defined.

(* ====================================================================== *)
(** ** What a hash stands for *)
(* ====================================================================== *)

(** *** When [hashInference] raises *)

(** X28.  [hashInference] returns a hash exactly when the record has strings
    as [prompt_hash] and [output_hash]; with either one missing or of
    another type it raises the [TypeError] of the call of [toLowerCase].
    A missing [model] does not make it fail. *)
Theorem hashInference_errors (r : InferenceRecord) :
  ((exists a b, objGet r "prompt_hash" = JStr a /\
                objGet r "output_hash" = JStr b) ->
   exists h, hashInference r = Ok h) /\
  ((forall a, objGet r "prompt_hash" <> JStr a) \/
   (forall b, objGet r "output_hash" <> JStr b) ->
   hashInference r = Err "TypeError").
Proof.
  split.
  - intros (a & b & Ha & Hb). exact (hashInference_returns r a b Ha Hb).
  - unfold hashInference, prepareForHashing.
    intros [H | H].
    + destruct (objGet r "prompt_hash") as [| | ? | ? | a | ? | ?];
        try reflexivity.
      destruct (H a eq_refl).
    + destruct (objGet r "prompt_hash") as [| | ? | ? | a | ? | ?];
        try reflexivity.
      destruct (objGet r "output_hash") as [| | ? | ? | b | ? | ?];
        try reflexivity.
      destruct (H b eq_refl).
Qed.

(* ---------------------------------------------------------------------- *)
(** *** The hash binds the canonical record *)

(** The first character of a UTF-8 text of code units below 256. *)
Definition decodeFirst (bs : list Hex.byte) : option (ascii * list Hex.byte) :=
  match bs with
  | [] => None
  | b :: rest =>
      let n := Hex.byteToN b in
      if (n <? 128)%N then Some (ascii_of_N n, rest)
      else
        match rest with
        | b2 :: rest' =>
            Some (ascii_of_N (64 * (n - 192) + (Hex.byteToN b2 - 128)), rest')
        | [] => None
        end
  end.

Lemma decodeFirst_toUtf8Bytes (c : ascii) (s : string) :
  decodeFirst (Hex.toUtf8Bytes (String c s)) = Some (c, Hex.toUtf8Bytes s).
Proof.
  destruct c as [[] [] [] [] [] [] [] []]; reflexivity.
Qed.

Lemma toUtf8Bytes_inj (s : string) :
  forall t, Hex.toUtf8Bytes s = Hex.toUtf8Bytes t -> s = t.
Proof.
  induction s as [| c s IH]; intros [| d t] H.
  - reflexivity.
  - apply (f_equal decodeFirst) in H.
    rewrite decodeFirst_toUtf8Bytes in H. discriminate H.
  - apply (f_equal decodeFirst) in H.
    rewrite decodeFirst_toUtf8Bytes in H. discriminate H.
  - apply (f_equal decodeFirst) in H.
    rewrite !decodeFirst_toUtf8Bytes in H. injection H as -> H.
    f_equal. apply IH. exact H.
Qed.

Lemma hashInference_text (r : InferenceRecord) (h : string) :
  hashInference r = Ok h ->
  exists prepared,
    prepareForHashing r = Ok prepared /\
    h = Hex.hexlify
          (Keccak.digest
             (Hex.toUtf8Bytes (serialize (canonicalizeValue (JObj prepared))))).
Proof.
  unfold hashInference. intros H.
  destruct (prepareForHashing r) as [prepared | e]; [| discriminate H].
  cbn [bind] in H. rewrite canonicalize_object in H. cbn [bind] in H.
  rewrite keccak256_bytes in H. injection H as <-.
  exists prepared. split; reflexivity.
Qed.

(** X29.  Two records with the same hash have, after
    [prepareForHashing], the same canonical text, and then canonical
    values that stand for the same, unless these two canonical texts
    themselves are different, with different bytes, and Keccak-256
    gives the same digest for both: short of a collision between the
    texts of the two records the hash determines the model, the two normalized hashes and
    every kept parameter, context entry, timestamp and nonce. *)
Theorem hashInference_binding (r r' : InferenceRecord) (h : string) :
  hashInference r = Ok h ->
  hashInference r' = Ok h ->
  exists prepared prepared' text text',
    prepareForHashing r = Ok prepared /\
    prepareForHashing r' = Ok prepared' /\
    canonicalize (JObj prepared) = Ok text /\
    canonicalize (JObj prepared') = Ok text' /\
    ((text = text' /\
      jsonNormal (canonicalizeValue (JObj prepared))
      = jsonNormal (canonicalizeValue (JObj prepared'))) \/
     (text <> text' /\
      Hex.toUtf8Bytes text <> Hex.toUtf8Bytes text' /\
      Keccak.digest (Hex.toUtf8Bytes text)
      = Keccak.digest (Hex.toUtf8Bytes text'))).
Proof.
  intros H H'.
  destruct (hashInference_text r h H) as (p & Hp & Hh).
  destruct (hashInference_text r' h H') as (p' & Hp' & Hh').
  exists p, p', (serialize (canonicalizeValue (JObj p))),
         (serialize (canonicalizeValue (JObj p'))).
  split; [exact Hp |]. split; [exact Hp' |].
  split; [apply canonicalize_object |].
  split; [apply canonicalize_object |].
  rewrite Hh in Hh'. apply hexlify_inj in Hh'.
  destruct (string_dec (serialize (canonicalizeValue (JObj p)))
                       (serialize (canonicalizeValue (JObj p'))))
    as [E | N].
  - left. split; [exact E |].
    pose proof (canonicalize_object p) as Hc.
    pose proof (canonicalize_object p') as Hc'.
    rewrite <- E in Hc'.
    destruct (canonicalize_read_back _ _ Hc) as [P _].
    destruct (canonicalize_read_back _ _ Hc') as [P' _].
    congruence.
  - right. split; [exact N |]. split; [| exact Hh'].
    intros E. apply N. apply toUtf8Bytes_inj. exact E.
Qed.

Lemma hashInference_binding_witness :
  exists prepared prepared' text text',
    prepareForHashing SampleRecord.first = Ok prepared /\
    prepareForHashing SampleRecord.second = Ok prepared' /\
    canonicalize (JObj prepared) = Ok text /\
    canonicalize (JObj prepared') = Ok text' /\
    ((text = text' /\
      jsonNormal (canonicalizeValue (JObj prepared))
      = jsonNormal (canonicalizeValue (JObj prepared'))) \/
     (text <> text' /\
      Hex.toUtf8Bytes text <> Hex.toUtf8Bytes text' /\
      Keccak.digest (Hex.toUtf8Bytes text)
      = Keccak.digest (Hex.toUtf8Bytes text'))).
Proof.
  apply (hashInference_binding SampleRecord.first SampleRecord.second
           "0x36d7eecbff68c4982415e62fa72bad40175ee594026e0b46c55c149c8c32f5f7");
    vm_compute; reflexivity.
Defined.
